(** * michi-c: board routines, pattern dictionary probe, move selection and
      coordinate I/O, embedded from michi.h, michi.c and patterns.c.

    Conventions of the embedding.
    - C arrays are lists read with [rd] and written with [wr] at a [Z] index.
      An access outside the array is undefined behaviour in C; the theorems
      about the board carry the range facts that keep every access inside.
      (Past the end a read gives the default element and a write does
      nothing.)
    - [int] and [Point] values are unbounded [Z] (no count of this program
      comes near 2^31); [Byte] values are [Z] with the byte operations of the
      source written with [Z.lxor], [Z.land] and [Z.lor]; a stored [char]
      counter is an 8-bit signed value, see [to_char].
    - Globals of michi.c that the board routines touch ([mark1],
      [pos_capture]) are threaded explicitly, see [Globals].
    - [assert]s are compiled out (the Makefile builds with -DNDEBUG). *)

From Stdlib Require Import ZArith List Ascii String Bool Lia Floats Uint63 DecimalString.
From stdpp Require Import base tactics option list gmap.
Import ListNotations.

#[local] Open Scope Z_scope.

(** ** Arrays *)

Definition rd {A} `{Inhabited A} (a : list A) (i : Z) : A := a !!! Z.to_nat i.
Definition wr {A} (a : list A) (i : Z) (v : A) : list A := <[Z.to_nat i := v]> a.

#[global] Instance ascii_inhabited : Inhabited ascii := populate Ascii.zero.

(** ** michi.h: Slist, a list of small integers with its size in [l[0]] *)

Module Slist.

(** [typedef Info* Slist]. *)
Abbreviation Slist := (list Z) (only parsing).

Definition slist_size (l : Slist) : Z := rd l 0.
Definition slist_clear (l : Slist) : Slist := wr l 0 0.
Definition slist_push (l : Slist) (item : Z) : Slist :=
  let l1 := wr l (rd l 0 + 1) item in wr l1 0 (rd l1 0 + 1).

(** [for (k=1 ; k<=n ; k++) if (l[k] == item) break;] run for at most [fuel]
    rounds from [k]; the result is the value of [k] after the loop. *)
Fixpoint scan (l : Slist) (item k : Z) (fuel : nat) : Z :=
  match fuel with
  | O => k
  | S fuel' => if rd l k =? item then k else scan l item (k + 1) fuel'
  end.

(** [slist_insert] returns the array after the call and the C return value. *)
Definition slist_insert (l : Slist) (item : Z) : Slist * Z :=
  let n := rd l 0 + 1 in
  let l1 := wr l n item in
  let k := scan l1 item 1 (Z.to_nat n) in
  if k =? n then (wr l1 0 n, 1) else (l1, 0).

(** The elements of an Slist: [l[1]], ..., [l[l[0]]]. *)
Definition elems (l : Slist) : list Z := take (Z.to_nat (rd l 0)) (drop 1 l).

End Slist.

(** ** michi.h / michi.c: the board *)

Module Board.

(** Board constants (michi.h). *)
Definition N : Z := 13.
Definition W : Z := N + 2.
Definition BOARDSIZE : Z := (N + 1) * W + 1.
Definition BOARD_IMIN : Z := N + 1.
Definition BOARD_IMAX : Z := BOARDSIZE - N - 1.

(** [typedef enum {PASS_MOVE, RESIGN_MOVE, ...} Code]. *)
Definition PASS_MOVE : Z := 0.
Definition RESIGN_MOVE : Z := 1.

(**                               North East South West   NE  SE  SW   NW *)
Definition delta : list Z := [- N - 1; 1; N + 1; -1; - N; W; N; - W].

(** A [char] counter as gcc stores it on the x86 target of the Makefile:
    8 bits, signed, conversion from [int] by wrap-around. *)
Definition to_char (z : Z) : Z := (z + 128) mod 256 - 128.

Record Position := mkPosition {
  color : list ascii;   (* char color[BOARDSIZE] *)
  env4 : list Z;        (* Byte env4[BOARDSIZE]  *)
  env4d : list Z;       (* Byte env4d[BOARDSIZE] *)
  n : Z;                (* move number *)
  ko : Z;
  ko_old : Z;
  last : Z;
  last2 : Z;
  last3 : Z;
  komi : float;
  cap : Z;              (* char: stones captured by the 'x' player *)
  capX : Z              (* char: stones captured by the 'X' player *)
}.

Definition set_color (p : Position) (v : list ascii) : Position :=
  mkPosition v (env4 p) (env4d p) (n p) (ko p) (ko_old p) (last p) (last2 p)
             (last3 p) (komi p) (cap p) (capX p).
Definition set_env4 (p : Position) (v : list Z) : Position :=
  mkPosition (color p) v (env4d p) (n p) (ko p) (ko_old p) (last p) (last2 p)
             (last3 p) (komi p) (cap p) (capX p).
Definition set_env4d (p : Position) (v : list Z) : Position :=
  mkPosition (color p) (env4 p) v (n p) (ko p) (ko_old p) (last p) (last2 p)
             (last3 p) (komi p) (cap p) (capX p).
Definition set_n (p : Position) (v : Z) : Position :=
  mkPosition (color p) (env4 p) (env4d p) v (ko p) (ko_old p) (last p) (last2 p)
             (last3 p) (komi p) (cap p) (capX p).
Definition set_ko (p : Position) (v : Z) : Position :=
  mkPosition (color p) (env4 p) (env4d p) (n p) v (ko_old p) (last p) (last2 p)
             (last3 p) (komi p) (cap p) (capX p).
Definition set_ko_old (p : Position) (v : Z) : Position :=
  mkPosition (color p) (env4 p) (env4d p) (n p) (ko p) v (last p) (last2 p)
             (last3 p) (komi p) (cap p) (capX p).
Definition set_last (p : Position) (v : Z) : Position :=
  mkPosition (color p) (env4 p) (env4d p) (n p) (ko p) (ko_old p) v (last2 p)
             (last3 p) (komi p) (cap p) (capX p).
Definition set_last2 (p : Position) (v : Z) : Position :=
  mkPosition (color p) (env4 p) (env4d p) (n p) (ko p) (ko_old p) (last p) v
             (last3 p) (komi p) (cap p) (capX p).
Definition set_last3 (p : Position) (v : Z) : Position :=
  mkPosition (color p) (env4 p) (env4d p) (n p) (ko p) (ko_old p) (last p)
             (last2 p) v (komi p) (cap p) (capX p).
Definition set_komi (p : Position) (v : float) : Position :=
  mkPosition (color p) (env4 p) (env4d p) (n p) (ko p) (ko_old p) (last p)
             (last2 p) (last3 p) v (cap p) (capX p).
Definition set_cap (p : Position) (v : Z) : Position :=
  mkPosition (color p) (env4 p) (env4d p) (n p) (ko p) (ko_old p) (last p)
             (last2 p) (last3 p) (komi p) v (capX p).
Definition set_capX (p : Position) (v : Z) : Position :=
  mkPosition (color p) (env4 p) (env4d p) (n p) (ko p) (ko_old p) (last p)
             (last2 p) (last3 p) (komi p) (cap p) v.

(** [typedef struct { int value; int in_use; int mark[BOARDSIZE]; } Mark].
    The array field is called [marks] here, [mark] being the function. *)
Record Mark := mkMark { value : Z; in_use : Z; marks : list Z }.

Definition mark_init (m : Mark) : Mark := mkMark (value m + 1) 1 (marks m).
Definition mark_release (m : Mark) : Mark := mkMark (value m) 0 (marks m).
Definition mark (m : Mark) (i : Z) : Mark :=
  mkMark (value m) (in_use m) (wr (marks m) i (value m)).
Definition is_marked (m : Mark) (i : Z) : bool := rd (marks m) i =? value m.

(** The globals of michi.c written by the board routines. *)
Record Globals := mkGlobals { mark1 : Mark; pos_capture : Z }.

(** [#define SWAP_CASE(c)] *)
Definition SWAP_CASE (c : ascii) : ascii :=
  if (c =? "X")%char then "x"%char else if (c =? "x")%char then "X"%char else c.

(** The points visited by FORALL_NEIGHBORS and FORALL_DIAGONAL_NEIGHBORS. *)
Definition neighbors (pt : Z) : list Z := map (fun d => pt + d) (take 4 delta).
Definition diagonal_neighbors (pt : Z) : list Z :=
  map (fun d => pt + d) (drop 4 delta).

(** The loop of [is_eyeish]; [othercolor] is only read once [eyecolor] is set. *)
Fixpoint is_eyeish_loop (pos : Position) (ns : list Z)
    (eyecolor othercolor : ascii) : ascii :=
  match ns with
  | [] => eyecolor
  | q :: ns' =>
      let c := rd (color pos) q in
      if (c =? " ")%char then is_eyeish_loop pos ns' eyecolor othercolor
      else if (c =? ".")%char then Ascii.zero
      else if (eyecolor =? Ascii.zero)%char then is_eyeish_loop pos ns' c (SWAP_CASE c)
      else if (c =? othercolor)%char then Ascii.zero
      else is_eyeish_loop pos ns' eyecolor othercolor
  end.

Definition is_eyeish (pos : Position) (pt : Z) : ascii :=
  is_eyeish_loop pos (neighbors pt) Ascii.zero Ascii.zero.

(** The colour code [c] that [compute_env4] gives the point [q]:
    0 WHITE, 1 BLACK, 2 EMPTY, 3 OUT. *)
Definition env_code (pos : Position) (q : Z) : Z :=
  let c := rd (color pos) q in
  if (c =? ".")%char then 2
  else if (c =? " ")%char then 3
  else if Z.rem (n pos) 2 =? 0
       then (if (c =? "X")%char then 1 else 0)
       else (if (c =? "X")%char then 0 else 1).

Definition compute_env4 (pos : Position) (pt offset : Z) : Z :=
  fold_left
    (fun env4 k =>
       let c := env_code pos (pt + rd delta k) in
       let hi := Z.shiftr c 1 in
       let lo := Z.land c 1 in
       Z.lor env4 (Z.shiftl (Z.shiftl hi 4 + lo) (k - offset)))
    [offset; offset + 1; offset + 2; offset + 3] 0.

(** [a[i] op= ...] on a byte array. The three operators used below map bytes
    to bytes, so no truncation is written. *)
Definition upd (a : list Z) (i : Z) (f : Z -> Z) : list Z := wr a i (f (rd a i)).

Definition xor_with (m b : Z) : Z := Z.lxor b m.
Definition and_with (m b : Z) : Z := Z.land b m.
Definition or_with (m b : Z) : Z := Z.lor b m.

(** The eight updates shared by [put_stone] and [remove_stone]: the four
    masks are applied to the orthogonal and to the diagonal cache. *)
Definition env_update (pos : Position) (pt : Z) (op : Z -> Z -> Z)
    (m0 m1 m2 m3 : Z) : Position :=
  let e4 := upd (env4 pos) (pt + N + 1) (op m0) in
  let e4 := upd e4 (pt - 1) (op m1) in
  let e4 := upd e4 (pt - N - 1) (op m2) in
  let e4 := upd e4 (pt + 1) (op m3) in
  let e4d := upd (env4d pos) (pt + N) (op m0) in
  let e4d := upd e4d (pt - W) (op m1) in
  let e4d := upd e4d (pt - N) (op m2) in
  let e4d := upd e4d (pt + W) (op m3) in
  set_env4d (set_env4 pos e4) e4d.

Definition put_stone (pos : Position) (pt : Z) : Position :=
  let pos :=
    if Z.rem (n pos) 2 =? 0
    then env_update pos pt xor_with 0x11 0x22 0x44 0x88
    else env_update pos pt and_with 0xEE 0xDD 0xBB 0x77 in
  set_color pos (wr (color pos) pt "X"%char).

Definition remove_stone (pos : Position) (pt : Z) : Position :=
  let pos :=
    if Z.rem (n pos) 2 =? 0
    then env_update pos pt or_with 0x10 0x20 0x40 0x80
    else env_update pos pt xor_with 0x11 0x22 0x44 0x88 in
  set_color pos (wr (color pos) pt "."%char).

(** FORALL_POINTS: [for (Point i = BOARD_IMIN; i < BOARD_IMAX; i++)]. *)
Definition all_points : list Z :=
  map (fun k => BOARD_IMIN + Z.of_nat k) (seq 0 (Z.to_nat (BOARD_IMAX - BOARD_IMIN))).

Definition env4_OK (pos : Position) : Z :=
  if forallb
       (fun pt =>
          if (rd (color pos) pt =? " ")%char then true
          else (rd (env4 pos) pt =? compute_env4 pos pt 0)
               && (rd (env4d pos) pt =? compute_env4 pos pt 4))
       all_points
  then 1 else 0.

(** The three filling loops of [empty_position] write every cell of [color]. *)
Definition empty_color : list ascii :=
  (repeat " " (Z.to_nat (N + 1))
   ++ concat (repeat (" " :: repeat "." (Z.to_nat N)) (Z.to_nat N))
   ++ repeat " " (Z.to_nat W))%char.

Definition empty_position (pos : Position) : Position * string :=
  let pos := set_color pos empty_color in
  let pos :=
    fold_left
      (fun pos pt =>
         if (rd (color pos) pt =? " ")%char then pos
         else
           let pos := set_env4 pos (wr (env4 pos) pt (compute_env4 pos pt 0)) in
           set_env4d pos (wr (env4d pos) pt (compute_env4 pos pt 4)))
      all_points pos in
  let pos := set_last2 pos 0 in
  let pos := set_last pos (last2 pos) in
  let pos := set_ko pos (last pos) in
  let pos := set_cap pos 0 in
  let pos := set_capX pos (cap pos) in
  let pos := set_n pos 0 in
  let pos := set_komi pos 7.5%float in
  (pos, ""%string).

(** *** Blocks

    In [compute_block] the Slist [stones] doubles as the BFS queue. It is
    represented by the list of its live cells [stones[1..head-1]]; the index
    [tail] of the source is one more than the index used here. [libs] is
    the list [libs[1..libs[0]]]. *)

(** One pass of FORALL_NEIGHBORS inside the [while] loop. The flag is [true]
    when [goto finished] was taken. *)
Fixpoint block_neighbors (pos : Position) (col : ascii) (nlibs : Z)
    (ns : list Z) (m : Mark) (stones libs : list Z)
    : Mark * list Z * list Z * bool :=
  match ns with
  | [] => (m, stones, libs, false)
  | q :: ns' =>
      if is_marked m q then block_neighbors pos col nlibs ns' m stones libs
      else
        let m := mark m q in
        if (rd (color pos) q =? col)%char
        then block_neighbors pos col nlibs ns' m (stones ++ [q]) libs
        else if (rd (color pos) q =? ".")%char
        then
          let libs := libs ++ [q] in
          if Z.of_nat (length libs) >=? nlibs then (m, stones, libs, true)
          else block_neighbors pos col nlibs ns' m stones libs
        else block_neighbors pos col nlibs ns' m stones libs
  end.

(** [while (head > tail)]: [None] when the fuel runs out before the loop ends. *)
Fixpoint block_loop (fuel : nat) (pos : Position) (col : ascii) (nlibs : Z)
    (m : Mark) (stones libs : list Z) (tail : nat)
    : option (Mark * list Z * list Z) :=
  match fuel with
  | O => None
  | S fuel' =>
      match stones !! tail with
      | None => Some (m, stones, libs)
      | Some pt =>
          let '(m', stones', libs', finished) :=
            block_neighbors pos col nlibs (neighbors pt) m stones libs in
          if finished then Some (m', stones', libs')
          else block_loop fuel' pos col nlibs m' stones' libs' (S tail)
      end
  end.

(** [compute_block] uses the global [mark1]; it returns the mark, the stones
    of the block and the liberties found. *)
Definition compute_block (m : Mark) (pos : Position) (pt : Z) (nlibs : Z)
    : option (Mark * list Z * list Z) :=
  let col := rd (color pos) pt in
  let m := mark (mark_init m) pt in
  match block_loop (S (Z.to_nat BOARDSIZE)) pos col nlibs m [pt] [] 0 with
  | Some (m, stones, libs) => Some (mark_release m, stones, libs)
  | None => None
  end.

Definition capture_block (pos : Position) (stones : list Z) : Position * Z :=
  (fold_left remove_stone stones pos, Z.of_nat (length stones)).

(** The loop of [swap_color] on the array [color]. *)
Definition swap_colors (c : list ascii) : list ascii :=
  fold_left (fun c pt => wr c pt (SWAP_CASE (rd c pt))) all_points c.

Definition swap_color (pos : Position) : Position :=
  set_color pos (swap_colors (color pos)).

Definition remove_X_stone (pos : Position) (pt : Z) : Position :=
  let pos := set_n pos (n pos + 1) in
  let pos := remove_stone pos pt in
  set_n pos (n pos - 1).

Definition undo_move (g : Globals) (pos : Position) : Position :=
  let pos := remove_stone pos (last pos) in
  let pos := set_last pos (last2 pos) in
  let pos := set_last2 pos (last3 pos) in
  let pos := set_ko pos (ko_old pos) in
  let pos :=
    if pos_capture g =? 0 then pos
    else
      let pos := put_stone pos (pos_capture g) in
      set_cap pos (to_char (cap pos - 1)) in
  let pos := set_n pos (n pos - 1) in
  let pos := set_capX (set_cap pos (capX pos)) (cap pos) in
  swap_color pos.

(** The body of the FORALL_NEIGHBORS loop of [play_move], on the state
    (globals, position, [captured]). *)
Definition capture_neighbor (st : Globals * Position * Z) (q : Z)
    : option (Globals * Position * Z) :=
  let '(g, pos, captured) := st in
  if negb (rd (color pos) q =? "x")%char then Some st
  else
    match compute_block (mark1 g) pos q 1 with
    | None => None
    | Some (m, stones, libs) =>
        if Z.of_nat (length libs) =? 0
        then
          let '(pos, k) := capture_block pos stones in
          Some (mkGlobals m q, pos, captured + k)
        else Some (mkGlobals m (pos_capture g), pos, captured)
    end.

Fixpoint capture_neighbors (st : Globals * Position * Z) (ns : list Z)
    : option (Globals * Position * Z) :=
  match ns with
  | [] => Some st
  | q :: ns' =>
      match capture_neighbor st q with
      | None => None
      | Some st' => capture_neighbors st' ns'
      end
  end.

(** "Finish update of the position" in [play_move]. *)
Definition finish_move (pos : Position) (pt captured : Z) : Position :=
  let captured := captured + capX pos in
  let pos := set_capX pos (cap pos) in
  let pos := set_cap pos (to_char captured) in
  let pos := swap_color pos in
  let pos := set_n pos (n pos + 1) in
  let pos := set_last3 pos (last2 pos) in
  let pos := set_last2 pos (last pos) in
  set_last pos pt.

(** [play_move] gives the globals and the position after the call and the
    returned message; [None] only if a block search ran out of fuel. *)
Definition play_move (g : Globals) (pos : Position) (pt : Z)
    : option (Globals * Position * string) :=
  let pos := set_ko_old pos (ko pos) in
  if pt =? ko pos then Some (g, pos, "Error Illegal move: retakes ko"%string)
  else
    let in_enemy_eye := is_eyeish pos pt in
    let pos := put_stone pos pt in
    let g := mkGlobals (mark1 g) 0 in
    match capture_neighbors (g, pos, 0) (neighbors pt) with
    | None => None
    | Some (g, pos, captured) =>
        if negb (captured =? 0)
        then
          let pos :=
            if (captured =? 1) && negb (in_enemy_eye =? Ascii.zero)%char
            then set_ko pos (pos_capture g)
            else set_ko pos 0 in
          Some (g, finish_move pos pt captured, ""%string)
        else
          let pos := set_ko pos 0 in
          match compute_block (mark1 g) pos pt 1 with
          | None => None
          | Some (m, stones, libs) =>
              let g := mkGlobals m (pos_capture g) in
              if Z.of_nat (length libs) =? 0
              then
                let pos := set_ko pos (ko_old pos) in
                Some (g, remove_X_stone pos pt,
                      "Error Illegal move: suicide"%string)
              else Some (g, finish_move pos pt captured, ""%string)
          end
    end.

Definition pass_move (pos : Position) : Position * string :=
  let pos := swap_color pos in
  let pos := set_n pos (n pos + 1) in
  let pos := set_last2 pos (last pos) in
  let pos := set_ko pos 0 in
  let pos := set_last pos (ko pos) in
  let pos := set_capX (set_cap pos (capX pos)) (cap pos) in
  (pos, ""%string).

(** *** Games: sequences of moves as the GTP [play] command makes them

    [gtp_play] is the dispatch of the [play] command in [gtp_io]:
    [play_move] is called on empty points only, PASS gives [pass_move], and
    any other point is answered with an error without touching the board. *)
Abbreviation State := (Globals * Position)%type (only parsing).

Definition gtp_play (s : State) (pt : Z) : option (State * string) :=
  let '(g, pos) := s in
  if (rd (color pos) pt =? ".")%char
  then
    match play_move g pos pt with
    | Some (g', pos', ret) => Some ((g', pos'), ret)
    | None => None
    end
  else if pt =? PASS_MOVE then Some ((g, fst (pass_move pos)), snd (pass_move pos))
  else Some (s, ("Error Illegal move: point not EMPTY" ++ String "010"%char "")%string).

(** A legal move is a [play] that is answered with the empty string. *)
Definition legal_move (s : State) (pt : Z) : option State :=
  if (0 <=? pt) && (pt <? BOARDSIZE)
  then
    match gtp_play s pt with
    | Some (s', ret) => if (ret =? "")%string then Some s' else None
    | None => None
    end
  else None.

Fixpoint play_game (s : State) (moves : list Z) : option State :=
  match moves with
  | [] => Some s
  | pt :: moves' =>
      match legal_move s pt with
      | Some s' => play_game s' moves'
      | None => None
      end
  end.

(** The marks as [calloc] leaves them and [pos_capture] as the loader does. *)
Definition initial_globals : Globals :=
  mkGlobals (mkMark 0 0 (repeat 0 (Z.to_nat BOARDSIZE))) 0.

End Board.

(** ** patterns.c: the dictionary of large patterns *)

Module Patterns.

Record LargePat := mkLargePat {
  key : Z;       (* unsigned long: 64-bit Zobrist hash *)
  id : Z;
  prob : float
}.

Definition KSIZE : Z := 25.
Definition LENGTH : Z := Z.shiftl 1 KSIZE.
Definition KMASK : Z := LENGTH - 1.
Definition FOUND : Z := -1.

Definition primes : list Z :=
  [5; 11; 37; 103; 293; 991; 2903; 9931;
   7; 19; 73; 10009; 11149; 12553; 6229; 10181;
   1013; 1583; 2503; 3491; 4637; 5501; 6571; 7459;
   8513; 9433; 10433; 11447; 11887; 12409; 2221; 4073].

(** [patterns = calloc(LENGTH, sizeof(LargePat))]: the table is kept as the
    finite map of the slots written so far, every other slot being zero. The
    array has the cells [0 .. LENGTH-1]; [slot] does not check the index, the
    probe below records every index it reads instead. *)
Abbreviation Table := (gmap Z LargePat) (only parsing).

Definition slot (t : Table) (h : Z) : LargePat :=
  default (mkLargePat 0 0 0%float) (t !! h).

(** The [while] loop of [find_pat] from the index [h]. The result is the
    value returned, if the loop ends within the fuel, and the indices at
    which [patterns] was read, in order. The search statistics
    ([nsearchs], [sum_len_failure], ...) are left out. *)
Fixpoint find_pat_loop (fuel : nat) (t : Table) (k h h2 : Z) (reads : list Z)
    : option Z * list Z :=
  match fuel with
  | O => (None, reads)
  | S fuel' =>
      let reads := reads ++ [h] in
      if key (slot t h) =? k then (Some h, reads)
      else if key (slot t h) =? 0 then (Some h, reads)
      else
        let h := h + h2 in
        let h := if h >? LENGTH then h - LENGTH else h in
        find_pat_loop fuel' t k h h2 reads
  end.

Definition find_pat (fuel : nat) (t : Table) (k : Z) : option Z * list Z :=
  let h := Z.land (Z.shiftr k 20) KMASK in
  let h2 := rd primes (Z.land (Z.shiftr k (20 + KSIZE)) 15) in
  find_pat_loop fuel t k h h2 [].

Definition insert_pat (fuel : nat) (t : Table) (p : LargePat) : option (Table * Z) :=
  match fst (find_pat fuel t (key p)) with
  | None => None
  | Some i =>
      if key (slot t i) =? 0 then Some (<[i := p]> t, i) else Some (t, FOUND)
  end.

End Patterns.

(** ** michi.c: the search tree and the choice of the move *)

Module Tree.

Import Board.

(** [children] is [None] for the NULL pointer and otherwise the array up to
    its terminating NULL. *)
#[warnings="-register-all"]
Inductive TreeNode := mkTreeNode {
  v : Z; w : Z; pv : Z; pw : Z; av : Z; aw : Z;
  nchildren : Z;
  pos : Position;
  children : option (list TreeNode)
}.

(** [#define RESIGN_THRES 0.2]: the double nearest to 0.2. *)
Definition RESIGN_THRES : float := 0x1.999999999999ap-3%float.

(** [(double) i] for an [int]. *)
Definition double_of_int (i : Z) : float :=
  if i <? 0 then PrimFloat.opp (PrimFloat.of_uint63 (Uint63.of_Z (- i)))
  else PrimFloat.of_uint63 (Uint63.of_Z i).

(** The loop of [best_move]. A node of the [except] list is given by its
    index among the children, which is what the pointer comparison
    [*child == *n] decides. *)
Fixpoint best_move_loop (cs : list TreeNode) (i : nat) (except : list nat)
    (vmax : Z) (best : option TreeNode) : option TreeNode :=
  match cs with
  | [] => best
  | child :: cs' =>
      if v child >? vmax
      then
        let update := negb (existsb (Nat.eqb i) except) in
        if update then best_move_loop cs' (S i) except (v child) (Some child)
        else best_move_loop cs' (S i) except vmax best
      else best_move_loop cs' (S i) except vmax best
  end.

Definition best_move (tree : TreeNode) (except : list nat) : option TreeNode :=
  match children tree with
  | None => None
  | Some cs => best_move_loop cs 0 except (-1) None
  end.

(** The statements of [tree_search] that follow the simulation loop, on the
    tree that the loop leaves: [best = best_move(tree, NULL)] and the
    three-way return. [None] stands for the dereference of a NULL [best]. *)
Definition tree_search_select (tree : TreeNode) : option Z :=
  match best_move tree [] with
  | None => None
  | Some best =>
      if (last (pos best) =? PASS_MOVE) && (last2 (pos best) =? PASS_MOVE)
      then Some PASS_MOVE
      else if PrimFloat.ltb
                (PrimFloat.div (double_of_int (w best)) (double_of_int (v best)))
                RESIGN_THRES
      then Some RESIGN_MOVE
      else Some (last (pos best))
  end.

End Tree.

(** ** michi.c: coordinates *)

Module Coord.

Import Board.

Definition colstr : string := "@ABCDEFGHJKLMNOPQRST"%string.

Definition code (c : ascii) : Z := Z.of_N (N_of_ascii c).
Definition chr (z : Z) : ascii := ascii_of_N (Z.to_N (z mod 256)).

Definition toupper (c : ascii) : ascii :=
  if (code "a"%char <=? code c) && (code c <=? code "z"%char) then chr (code c - 32) else c.
Definition tolower (c : ascii) : ascii :=
  if (code "A"%char <=? code c) && (code c <=? code "Z"%char) then chr (code c + 32) else c.

Fixpoint map_string (f : ascii -> ascii) (s : string) : string :=
  match s with
  | EmptyString => EmptyString
  | String c s' => String (f c) (map_string f s')
  end.

(** [strcasecmp(a, b) == 0] *)
Definition strcasecmp_eq (a b : string) : bool :=
  (map_string tolower a =? map_string tolower b)%string.

Definition is_space (c : ascii) : bool :=
  (code c =? 32) || ((9 <=? code c) && (code c <=? 13)).
Definition is_digit (c : ascii) : bool :=
  (code "0"%char <=? code c) && (code c <=? code "9"%char).

Fixpoint skip_spaces (s : string) : string :=
  match s with
  | String c s' => if is_space c then skip_spaces s' else s
  | EmptyString => s
  end.

Fixpoint read_digits (s : string) (acc : option Z) : option Z :=
  match s with
  | String c s' =>
      if is_digit c
      then read_digits s' (Some (10 * default 0 acc + (code c - code "0"%char)))
      else acc
  | EmptyString => acc
  end.

(** The conversion [%d] of [sscanf]: [None] when no integer is read. *)
Definition scan_int (s : string) : option Z :=
  match skip_spaces s with
  | String "-"%char s' => option_map Z.opp (read_digits s' None)
  | String "+"%char s' => read_digits s' None
  | s' => read_digits s' None
  end.

(** The value of a [char], which is signed on the x86 target of the
    Makefile. *)
Definition char_value (c : ascii) : Z :=
  if code c <? 128 then code c else code c - 256.

(** [parse_coord]. When [sscanf] does not assign both [c] and [y] the source
    computes with an uninitialised variable, and a number that does not fit
    the [int] [y] is undefined behaviour of [sscanf]; both are [None]. The
    letter is compared and subtracted as a [char], and the result is
    converted to the unsigned [Point]. *)
Definition parse_coord (s : string) : option Z :=
  if strcasecmp_eq s "pass"%string then Some PASS_MOVE
  else
    match s with
    | EmptyString => None
    | String c rest =>
        match scan_int rest with
        | None => None
        | Some y =>
            if (y <? - 2 ^ 31) || (2 ^ 31 <=? y) then None
            else
              let c := char_value (toupper c) in
              let x := if c <? code "J"%char then c - code "@"%char
                       else c - code "@"%char - 1 in
              Some (((N - y + 1) * (N + 1) + x) mod 2 ^ 32)
        end
    end.

(** [%d] of [sprintf]. *)
Definition print_int (z : Z) : string :=
  DecimalString.NilZero.string_of_int (Z.to_int z).

Definition str_coord (pt : Z) : string :=
  if pt =? PASS_MOVE then "pass"%string
  else if pt =? RESIGN_MOVE then "resign"%string
  else
    let row := pt / (N + 1) in
    let col := pt mod (N + 1) in
    let c := chr (code "@"%char + col) in
    let c := if code c >? code "H"%char then chr (code c + 1) else c in
    String c (print_int (N + 1 - row)).

(** The coordinates of the points of the board: the letter of column
    [x] in [colstr] followed by the row [y] in decimal, [1 <= x, y <= N]. *)
Definition column_letter (x : Z) : ascii :=
  default Ascii.zero (String.get (Z.to_nat x) colstr).

Definition coord_string (x y : Z) : string :=
  String (column_letter x) (print_int y).

Definition board_coords : list string :=
  flat_map (fun x => map (fun y => coord_string (Z.of_nat x) (Z.of_nat y))
                         (seq 1 (Z.to_nat N)))
           (seq 1 (Z.to_nat N)).

End Coord.

(** ** michi.h: the random generator and the shuffle of an Slist *)

Module Rand.

Import Slist.

(** [idum=(1664525*idum)+1013904223] on the [unsigned int] seed; the new
    seed is also the value returned. *)
Definition qdrandom (idum : Z) : Z := (1664525 * idum + 1013904223) mod 2 ^ 32.

(** [random_int(n)]: the new seed and the value [(r*n)>>32], computed in
    [unsigned long long] and returned as [unsigned int]. *)
Definition random_int (idum : Z) (n : Z) : Z * Z :=
  let r := qdrandom idum in
  (r, Z.shiftr ((r * (n mod 2 ^ 64)) mod 2 ^ 64) 32 mod 2 ^ 32).

(** [SWAP(T, a[i], a[j])] *)
Definition swap (l : list Z) (i j : Z) : list Z :=
  let t := rd l i in
  let l := wr l i (rd l j) in
  wr l j t.

(** [SHUFFLE(Info, t, n)] with [t = l+1]: the rounds [_k = k, k-1, ..., 1]. *)
Fixpoint shuffle_loop (k : nat) (idum : Z) (l : Slist) : Z * Slist :=
  match k with
  | O => (idum, l)
  | S k' =>
      let '(idum, tmp) := random_int idum (Z.of_nat k) in
      shuffle_loop k' idum (swap l (1 + Z.of_nat k) (1 + tmp))
  end.

Definition slist_shuffle (idum : Z) (l : Slist) : Z * Slist :=
  shuffle_loop (Z.to_nat (rd l 0 - 1)) idum l.

End Rand.

(** ** michi.c: eyes, lists of candidate points and the shape of the board *)

Module Playout.

Import Slist Board Rand.

(** The loop of [is_eye] over the diagonal neighbours, on the pair
    ([at_edge], [false_count]). *)
Definition eye_diagonals (pos : Position) (pt : Z) (falsecolor : ascii) : Z * Z :=
  fold_left
    (fun '(at_edge, false_count) d =>
       if (rd (color pos) d =? " ")%char then (1, false_count)
       else if (rd (color pos) d =? falsecolor)%char then (at_edge, false_count + 1)
       else (at_edge, false_count))
    (diagonal_neighbors pt) (0, 0).

Definition is_eye (pos : Position) (pt : Z) : ascii :=
  let eyecolor := is_eyeish pos pt in
  if (eyecolor =? Ascii.zero)%char then Ascii.zero
  else
    let falsecolor := SWAP_CASE eyecolor in
    let '(at_edge, false_count) := eye_diagonals pos pt falsecolor in
    let false_count := if negb (at_edge =? 0) then false_count + 1 else false_count in
    if false_count >=? 2 then Ascii.zero else eyecolor.

(** [make_list_neighbors]: the seed and the array [points] after the call. *)
Definition make_list_neighbors (idum : Z) (pos : Position) (pt : Z) (points : Slist)
    : Z * Slist :=
  let points := slist_clear points in
  if pt =? PASS_MOVE then (idum, points)
  else
    let points := slist_push points pt in
    let points :=
      fold_left
        (fun points d =>
           if negb (rd (color pos) (pt + d) =? " ")%char
           then slist_push points (pt + d) else points)
        delta points in
    slist_shuffle idum points.

(** [make_list_last_moves_neighbors]; [last2_neighbors] is the local array
    of 12 cells, not initialised. *)
Definition make_list_last_moves_neighbors (idum : Z) (pos : Position)
    (points last2_neighbors : Slist) : Z * Slist :=
  let '(idum, points) := make_list_neighbors idum pos (last pos) points in
  let '(idum, last2_neighbors) :=
    make_list_neighbors idum pos (last2 pos) last2_neighbors in
  (idum,
   fold_left (fun points k => fst (slist_insert points (rd last2_neighbors k)))
             (seqZ 1 (rd last2_neighbors 0)) points).

(** The body of the two loops of [gen_playout_moves_random]. *)
Definition random_candidate (pos : Position) (moves : Slist) (i : Z) : Slist :=
  if negb (rd (color pos) i =? ".")%char then moves
  else if (is_eye pos i =? "X")%char then moves
  else slist_push moves i.

(** [gen_playout_moves_random] gives the array [moves] after the call; the
    value returned is its size. *)
Definition gen_playout_moves_random (pos : Position) (moves : Slist) (i0 : Z) : Slist :=
  let moves := slist_clear moves in
  let moves := fold_left (random_candidate pos) (seqZ i0 (BOARD_IMAX - i0)) moves in
  fold_left (random_candidate pos) (seqZ (BOARD_IMIN - 1) (i0 - (BOARD_IMIN - 1))) moves.

(** [line_height]: [div] on the [int] value of the point. *)
Definition line_height (pt : Z) : Z :=
  let row := Z.quot pt (N + 1) in
  let col := Z.rem pt (N + 1) in
  let row := if row >? N / 2 then N + 1 - row else row in
  let col := if col >? N / 2 then N + 1 - col else col in
  if row <? col then row - 1 else col - 1.

(** The loop of [empty_area] over the neighbours [ns]: [deeper] is the
    test [dist > 1] and [rec q] the recursive call
    [empty_area(pos, q, dist - 1)]. *)
Fixpoint empty_area_loop (rec : Z -> Z) (pos : Position) (deeper : bool)
    (ns : list Z) : Z :=
  match ns with
  | [] => 1
  | q :: ns' =>
      if (rd (color pos) q =? "x")%char || (rd (color pos) q =? "X")%char then 0
      else if (rd (color pos) q =? ".")%char && deeper && (rec q =? 0) then 0
      else empty_area_loop rec pos deeper ns'
  end.

(** [empty_area] with [depth] further levels of recursion: the call
    [empty_area(pos, pt, dist)] recurses while [dist > 1]. *)
Fixpoint empty_area_depth (depth : nat) (pos : Position) (pt : Z) : Z :=
  match depth with
  | O => empty_area_loop (fun _ => 1) pos false (neighbors pt)
  | S depth' =>
      empty_area_loop (empty_area_depth depth' pos) pos true (neighbors pt)
  end.

Definition empty_area (pos : Position) (pt dist : Z) : Z :=
  empty_area_depth (Z.to_nat (dist - 1)) pos pt.

End Playout.

(** ** patterns.c and debug.c: the 3x3 patterns *)

Module Pat3.

Import Board.

(** [Byte bit[8]] *)
Definition bit : list Z := [1; 2; 4; 8; 16; 32; 64; 128].

(** [char pat3src[][10]]: each entry is a string of nine characters. *)
Definition pat3src : list (list ascii) :=
  map list_ascii_of_string
    ["XOX...???"; "XO....?.?"; "XO?X..x.?"; ".O.X....."; "XO?O.o?o?";
     "XO?O.X???"; "?X?O.Oooo"; "OX?o.O???"; "X.?O.?##?"; "OX?X.O###";
     "?X?x.O###"; "?XOx.x###"; "?OXX.O###"; "#########"]%string.

(** [code(color, p)] *)
Definition code (color : ascii) (p : Z) : Z :=
  let code_W := [0; 0; 0; 0] in
  let code_B := [0x01; 0x02; 0x04; 0x08] in
  let code_E := [0x10; 0x20; 0x40; 0x80] in
  let code_O := [0x11; 0x22; 0x44; 0x88] in
  if (color =? "O")%char then rd code_W p
  else if (color =? "X")%char then rd code_B p
  else if (color =? ".")%char then rd code_E p
  else if (color =? "#")%char then rd code_O p
  else 0.

Definition compute_code (src : list ascii) : Z :=
  let env8 := 0 in
  let env8 := Z.lor env8 (code (rd src 1) 0) in
  let env8 := Z.lor env8 (code (rd src 5) 1) in
  let env8 := Z.lor env8 (code (rd src 7) 2) in
  let env8 := Z.lor env8 (code (rd src 3) 3) in
  let env8 := Z.lor env8 (Z.shiftl (code (rd src 2) 0) 8) in
  let env8 := Z.lor env8 (Z.shiftl (code (rd src 8) 1) 8) in
  let env8 := Z.lor env8 (Z.shiftl (code (rd src 6) 2) 8) in
  let env8 := Z.lor env8 (Z.shiftl (code (rd src 0) 3) 8) in
  env8.

(** [pat3set[q] |= bit[r]] for [q = env8 >> 3] and [r = env8 & 7]. *)
Definition set_bit (set : list Z) (env8 : Z) : list Z :=
  let q := Z.shiftr env8 3 in
  let r := Z.land env8 7 in
  wr set q (Z.lor (rd set q) (rd bit r)).

(** [pat_wildexp(src, i)] with [9 - i] positions left to process; the
    counter [nb] is left out. *)
Fixpoint pat_wildexp_from (left : nat) (src : list ascii) (i : Z) (set : list Z)
    : list Z :=
  match left with
  | O => set_bit set (compute_code src)
  | S left' =>
      if (rd src i =? "?")%char then
        let set := pat_wildexp_from left' (wr src i "X"%char) (i + 1) set in
        let set := pat_wildexp_from left' (wr src i "O"%char) (i + 1) set in
        let set := pat_wildexp_from left' (wr src i "."%char) (i + 1) set in
        pat_wildexp_from left' (wr src i "#"%char) (i + 1) set
      else if (rd src i =? "x")%char then
        let set := pat_wildexp_from left' (wr src i "O"%char) (i + 1) set in
        let set := pat_wildexp_from left' (wr src i "."%char) (i + 1) set in
        pat_wildexp_from left' (wr src i "#"%char) (i + 1) set
      else if (rd src i =? "o")%char then
        let set := pat_wildexp_from left' (wr src i "X"%char) (i + 1) set in
        let set := pat_wildexp_from left' (wr src i "."%char) (i + 1) set in
        pat_wildexp_from left' (wr src i "#"%char) (i + 1) set
      else pat_wildexp_from left' src (i + 1) set
  end.

Definition pat_wildexp (src : list ascii) (i : Z) (set : list Z) : list Z :=
  pat_wildexp_from (Z.to_nat (9 - i)) src i set.

(** The body of the loop of [swapcolor]. *)
Definition swapcolor_char (c : ascii) : ascii :=
  if (c =? "X")%char then "O"%char
  else if (c =? "O")%char then "X"%char
  else if (c =? "x")%char then "o"%char
  else if (c =? "o")%char then "x"%char
  else c.

Definition swapcolor (src : list ascii) : list ascii :=
  fold_left (fun src i => wr src i (swapcolor_char (rd src i))) (seqZ 0 9) src.

(** [SWAP(char, src[i], src[j])] *)
Definition swap_chars (src : list ascii) (i j : Z) : list ascii :=
  let t := rd src i in
  let src := wr src i (rd src j) in
  wr src j t.

Definition horizflip (src : list ascii) : list ascii :=
  swap_chars (swap_chars (swap_chars src 0 6) 1 7) 2 8.

Definition vertflip (src : list ascii) : list ascii :=
  swap_chars (swap_chars (swap_chars src 0 2) 3 5) 6 8.

Definition rot90 (src : list ascii) : list ascii :=
  let t := rd src 0 in
  let src := wr src 0 (rd src 2) in
  let src := wr src 2 (rd src 8) in
  let src := wr src 8 (rd src 6) in
  let src := wr src 6 t in
  let t := rd src 1 in
  let src := wr src 1 (rd src 5) in
  let src := wr src 5 (rd src 7) in
  let src := wr src 7 (rd src 3) in
  wr src 3 t.

(** The four levels of [pat_enumerate]; each works on a copy of [src]. *)
Definition pat_enumerate3 (src : list ascii) (set : list Z) : list Z :=
  let set := pat_wildexp src 0 set in
  pat_wildexp (swapcolor src) 0 set.

Definition pat_enumerate2 (src : list ascii) (set : list Z) : list Z :=
  let set := pat_enumerate3 src set in
  pat_enumerate3 (horizflip src) set.

Definition pat_enumerate1 (src : list ascii) (set : list Z) : list Z :=
  let set := pat_enumerate2 src set in
  pat_enumerate2 (vertflip src) set.

Definition pat_enumerate (src : list ascii) (set : list Z) : list Z :=
  let set := pat_enumerate1 src set in
  pat_enumerate1 (rot90 src) set.

(** The loop of [make_pat3set]: it stops at the entry "#########". *)
Fixpoint make_pat3set_loop (srcs : list (list ascii)) (set : list Z) : list Z :=
  match srcs with
  | [] => set
  | src :: srcs' =>
      if bool_decide (src = list_ascii_of_string "#########") then set
      else make_pat3set_loop srcs' (pat_enumerate src set)
  end.

(** [make_pat3set] gives the array [pat3set]. [npat3] is 13 for the table
    above, so the exit on too many patterns is not taken. *)
Definition make_pat3set : list Z :=
  make_pat3set_loop pat3src (repeat 0 (Z.to_nat 8192)).

(** [pat3_match] (michi.h) against an array [pat3set]. *)
Definition pat3_match (pat3set : list Z) (pos : Position) (pt : Z) : Z :=
  let env8 := Z.shiftl (rd (env4d pos) pt) 8 + rd (env4 pos) pt in
  let q := Z.shiftr env8 3 in
  let r := Z.land env8 7 in
  if negb (Z.land (rd pat3set q) (rd bit r) =? 0) then 1 else 0.

(** debug.c: [decode_env4] and [decode_env8]. *)
Definition decode_env4 (env4 pt : Z) : Z :=
  let env4 := Z.shiftr env4 pt in
  let hi := Z.land (Z.shiftr env4 4) 1 in
  let lo := Z.land env4 1 in
  Z.shiftl hi 1 + lo.

Definition decode_env8 (env8 pt : Z) : ascii :=
  let c :=
    if pt >=? 4 then decode_env4 (Z.shiftr env8 8) (pt - 4)
    else decode_env4 (Z.land env8 255) pt in
  if c =? 0 then "O"%char
  else if c =? 1 then "X"%char
  else if c =? 2 then "."%char
  else if c =? 3 then "#"%char
  else Ascii.zero.

(** The array [src] that [print_env8] fills and prints. *)
Definition print_env8_src (env8 : Z) : list ascii :=
  [decode_env8 env8 7; decode_env8 env8 0; decode_env8 env8 4;
   decode_env8 env8 3; "."%char;           decode_env8 env8 1;
   decode_env8 env8 6; decode_env8 env8 2; decode_env8 env8 5].

End Pat3.

(** ** patterns.c: the large board and the signature of a neighbourhood *)

Module LargeBoard.

Import Board.

Definition LARGE_BOARDSIZE : Z := (N + 14) * (N + 7).

(** [Shift pat_gridcular_seq[]]: the displacements [{x, y}]. *)
Definition pat_gridcular_seq : list (Z * Z) :=
  [
    (0, 0); (0, 1); (0, -1); (1, 0); (-1, 0); (1, 1); (-1, 1); (1, -1);
    (-1, -1); (0, 2); (0, -2); (2, 0); (-2, 0); (1, 2); (-1, 2); (1, -2);
    (-1, -2); (2, 1); (-2, 1); (2, -1); (-2, -1); (0, 3); (0, -3); (2, 2);
    (-2, 2); (2, -2); (-2, -2); (3, 0); (-3, 0); (1, 3); (-1, 3); (1, -3);
    (-1, -3); (3, 1); (-3, 1); (3, -1); (-3, -1); (0, 4); (0, -4); (2, 3);
    (-2, 3); (2, -3); (-2, -3); (3, 2); (-3, 2); (3, -2); (-3, -2); (4, 0);
    (-4, 0); (1, 4); (-1, 4); (1, -4); (-1, -4); (3, 3); (-3, 3); (3, -3);
    (-3, -3); (4, 1); (-4, 1); (4, -1); (-4, -1); (0, 5); (0, -5); (2, 4);
    (-2, 4); (2, -4); (-2, -4); (4, 2); (-4, 2); (4, -2); (-4, -2); (5, 0);
    (-5, 0); (1, 5); (-1, 5); (1, -5); (-1, -5); (3, 4); (-3, 4); (3, -4);
    (-3, -4); (4, 3); (-4, 3); (4, -3); (-4, -3); (5, 1); (-5, 1); (5, -1);
    (-5, -1); (0, 6); (0, -6); (2, 5); (-2, 5); (2, -5); (-2, -5); (4, 4);
    (-4, 4); (4, -4); (-4, -4); (5, 2); (-5, 2); (5, -2); (-5, -2); (6, 0);
    (-6, 0); (1, 6); (-1, 6); (1, -6); (-1, -6); (3, 5); (-3, 5); (3, -5);
    (-3, -5); (5, 3); (-5, 3); (5, -3); (-5, -3); (6, 1); (-6, 1); (6, -1);
    (-6, -1); (0, 7); (0, -7); (2, 6); (-2, 6); (2, -6); (-2, -6); (4, 5);
    (-4, 5); (4, -5); (-4, -5); (5, 4); (-5, 4); (5, -4); (-5, -4); (6, 2);
    (-6, 2); (6, -2); (-6, -2); (7, 0); (-7, 0)
  ].

Definition pat_gridcular_size : list Z :=
  [0; 9; 13; 21; 29; 37; 49; 61; 73; 89; 105; 121; 141].

(** The globals of the large board: [large_board], [large_coord] and
    [pat_gridcular_seq1d]. *)
Record Large := mkLarge {
  large_board : list ascii;        (* char large_board[LARGE_BOARDSIZE] *)
  large_coord : list Z;            (* int large_coord[BOARDSIZE] *)
  pat_gridcular_seq1d : list Z     (* int pat_gridcular_seq1d[141] *)
}.

(** [init_gridcular(seq, seq1d)] writes the 141 cells of [seq1d]. *)
Definition init_gridcular (seq : list (Z * Z)) (seq1d : list Z) : list Z :=
  fold_left
    (fun seq1d i =>
       let '(x, y) := rd seq i in
       wr seq1d i (x - y * (N + 7)))
    (seqZ 0 141) seq1d.

Definition compute_large_coord (large_coord : list Z) : list Z :=
  fold_left
    (fun lc y =>
       fold_left
         (fun lc x =>
            let pt := (y + 1) * (N + 1) + x + 1 in
            let lpt := (y + 7) * (N + 7) + x + 7 in
            wr lc pt lpt)
         (seqZ 0 N) lc)
    (seqZ 0 N) large_coord.

(** [init_large_board]: [memset] writes '#' in every cell. *)
Definition init_large_board (g : Large) : Large :=
  mkLarge (repeat "#"%char (Z.to_nat LARGE_BOARDSIZE))
          (compute_large_coord (large_coord g))
          (pat_gridcular_seq1d g).

Definition large_board_OK (g : Large) (pos : Position) : Z :=
  if forallb
       (fun pt =>
          if (rd (color pos) pt =? " ")%char then true
          else (rd (color pos) pt =? rd (large_board g) (rd (large_coord g) pt))%char)
       all_points
  then 1 else 0.

(** One row of [copy_to_large_board], on the triple of [large_board], [lpt]
    and [pt]. *)
Definition copy_row (pos : Position) (st : list ascii * Z * Z) : list ascii * Z * Z :=
  fold_left
    (fun '(lb, lpt, pt) (_ : Z) => (wr lb lpt (rd (color pos) pt), lpt + 1, pt + 1))
    (seqZ 0 N) st.

(** [copy_to_large_board] up to its closing [assert]. *)
Definition copy_to_large_board (g : Large) (pos : Position) : Large :=
  let '(lb, _, _) :=
    fold_left
      (fun st (_ : Z) => let '(lb, lpt, pt) := copy_row pos st in (lb, lpt + 7, pt + 1))
      (seqZ 0 N) (large_board g, (N + 7) * 7 + 7, (N + 1) + 1) in
  mkLarge lb (large_coord g) (pat_gridcular_seq1d g).

(** The table [color] after [init_stone_color]. *)
Definition stone_color (c : ascii) : Z :=
  if (c =? "X")%char then 3
  else if (c =? "O")%char || (c =? "x")%char then 2
  else if (c =? "#")%char || (c =? " ")%char then 1
  else 0.

(** [zobrist_hash(pat)] for the string [pat], with the table
    [zobrist_hashdata] given as a function of its two indices. *)
Definition zobrist_hash (hashdata : Z -> Z -> Z) (pat : list ascii) : Z :=
  fold_left
    (fun k i => Z.lxor k (hashdata i (stone_color (rd pat i))))
    (seqZ 0 (Z.of_nat (length pat))) 0.

Definition update_zobrist_hash_at_point (hashdata : Z -> Z -> Z) (g : Large)
    (pt size k : Z) : Z :=
  let imin := rd pat_gridcular_size (size - 1) in
  let imax := rd pat_gridcular_size size in
  fold_left
    (fun k i =>
       let c := stone_color (rd (large_board g) (pt + rd (pat_gridcular_seq1d g) i)) in
       Z.lxor k (hashdata i c))
    (seqZ imin (imax - imin)) k.

End LargeBoard.

(** * Vocabulary of the properties and example inputs *)

Section PatternVocabulary.
Import Patterns.

(** Two keys with the same first probe [LENGTH - 5] and the same step 5. *)
Definition key_a : Z := (LENGTH - 5) * 2 ^ 20 + 1.

(** The key that is looked up. *)
Definition key_b : Z := (LENGTH - 5) * 2 ^ 20 + 2.

(** The table after [insert_pat] of a pattern with key [key_a] into the
    empty table. *)
Definition table_a : Table := <[LENGTH - 5 := mkLargePat key_a 1 0%float]> ∅.

End PatternVocabulary.

Section TreeVocabulary.
Import Board Tree.

(** A position of which only [last] and [last2] matter. *)
Definition some_position (l l2 : Z) : Position :=
  mkPosition [] [] [] 4 0 0 l l2 0 7.5%float 0 0.

(** A root whose most visited child has 0 wins out of 10 visits and was
    reached by a pass after a pass. *)
Definition lost_after_passes : TreeNode :=
  mkTreeNode 12 6 0 0 0 0 2 (some_position 0 40)
    (Some [mkTreeNode 2 1 0 0 0 0 0 (some_position 50 0) None;
           mkTreeNode 10 0 0 0 0 0 0 (some_position PASS_MOVE PASS_MOVE) None]).

(** [best_move] without exceptions returns the first child whose visit
    count is the largest, when that count is not negative. *)
Definition most_visited (cs : list TreeNode) (best : TreeNode) : Prop :=
  exists i, cs !! i = Some best
    /\ (forall c, c ∈ cs -> v c <= v best)
    /\ (forall j c, (j < i)%nat -> cs !! j = Some c -> v c < v best).

End TreeVocabulary.

Section CoordVocabulary.
Import Board Coord.

(** [str_coord (parse_coord s)] gives [s] back. *)
Definition roundtrip (s : string) : bool :=
  match parse_coord s with
  | Some pt => (str_coord pt =? s)%string
  | None => false
  end.

End CoordVocabulary.

Section BoardVocabulary.
Import Board.

(** The points of the board proper: rows and columns 1 to [N] of the
    flattened array, whose rows are [N + 1] cells wide. *)
Definition on_board (pt : Z) : bool :=
  (1 <=? pt / (N + 1)) && (pt / (N + 1) <=? N)
  && (1 <=? pt mod (N + 1)) && (pt mod (N + 1) <=? N).

(** A cell of the border holds ' ' and a point of the board one of
    '.', 'X' and 'x'. *)
Definition valid_color (pt : Z) (c : ascii) : bool :=
  if on_board pt then (c =? ".")%char || (c =? "X")%char || (c =? "x")%char
  else (c =? " ")%char.

(** The array [color] has [BOARDSIZE] cells, each with a valid colour. *)
Definition colors_ok (c : list ascii) : bool :=
  (Z.of_nat (length c) =? BOARDSIZE)
  && forallb (fun pt => valid_color pt (rd c pt)) (seqZ 0 BOARDSIZE).

(** The three arrays have [BOARDSIZE] cells, the colours are valid and the
    caches agree with [compute_env4] ([env4_OK] of the source). *)
Definition board_ok (p : Position) : bool :=
  colors_ok (color p)
  && (Z.of_nat (length (env4 p)) =? BOARDSIZE)
  && (Z.of_nat (length (env4d p)) =? BOARDSIZE)
  && (env4_OK p =? 1).

(** No cell of a mark is ahead of its generation counter, so that
    [mark_init] leaves nothing marked. *)
Definition marks_ok (m : Mark) : bool :=
  (Z.of_nat (length (marks m)) =? BOARDSIZE)
  && forallb (fun i => rd (marks m) i <=? value m) (seqZ 0 BOARDSIZE).

(** The bits of the code [c] in slot [k] of a cache byte. *)
Definition slot_bits (c k : Z) : Z :=
  Z.shiftl (Z.shiftl (Z.shiftr c 1) 4 + Z.land c 1) k.

(** The cache byte for the codes [c0] .. [c3] of the four neighbours. *)
Definition env_byte (c0 c1 c2 c3 : Z) : Z :=
  Z.lor (Z.lor (Z.lor (Z.lor 0 (slot_bits c0 0)) (slot_bits c1 1)) (slot_bits c2 2))
        (slot_bits c3 3).

(** The four colour codes of [compute_env4]. *)
Definition codes : list Z := [0; 1; 2; 3].

(** [P] holds of every four codes. *)
Definition all_codes (P : Z -> Z -> Z -> Z -> bool) : bool :=
  forallb (fun c0 => forallb (fun c1 => forallb (fun c2 =>
    forallb (fun c3 => P c0 c1 c2 c3) codes) codes) codes) codes.

(** [op] with the mask of slot [k] turns the code [c_old] in slot [k] of a
    cache byte into [c_new] and leaves the other three slots alone. *)
Definition slot_rule (op : Z -> Z -> Z) (m0 m1 m2 m3 c_old c_new : Z) : bool :=
  all_codes (fun c0 c1 c2 c3 =>
    (op m0 (env_byte c_old c1 c2 c3) =? env_byte c_new c1 c2 c3)
    && (op m1 (env_byte c0 c_old c2 c3) =? env_byte c0 c_new c2 c3)
    && (op m2 (env_byte c0 c1 c_old c3) =? env_byte c0 c1 c_new c3)
    && (op m3 (env_byte c0 c1 c2 c_old) =? env_byte c0 c1 c2 c_new)).

(** The caches agree with [compute_env4] at every point of the board. *)
Definition env_ok (p : Position) : Prop :=
  forall pt, on_board pt = true ->
    rd (env4 p) pt = compute_env4 p pt 0 /\ rd (env4d p) pt = compute_env4 p pt 4.

(** The same agreement for an arbitrary assignment of codes to points. *)
Definition env_ok_with (code : Z -> Z) (e4 e4d : list Z) : Prop :=
  forall z, on_board z = true ->
    rd e4 z = env_byte (code (z - 14)) (code (z + 1)) (code (z + 14)) (code (z - 1))
    /\ rd e4d z = env_byte (code (z - 13)) (code (z + 15)) (code (z + 13)) (code (z - 15)).

(** The code of the colour [c] when the move number is even, or odd. *)
Definition code_of (even : bool) (c : ascii) : Z :=
  if (c =? ".")%char then 2
  else if (c =? " ")%char then 3
  else if even then (if (c =? "X")%char then 1 else 0)
       else (if (c =? "X")%char then 0 else 1).

(** The body of the FORALL_POINTS loop of [empty_position]. *)
Definition fill_env (pos : Position) (pt : Z) : Position :=
  if (rd (color pos) pt =? " ")%char then pos
  else
    let pos := set_env4 pos (wr (env4 pos) pt (compute_env4 pos pt 0)) in
    set_env4d pos (wr (env4d pos) pt (compute_env4 pos pt 4)).

(** [b] is one of the four orthogonal neighbours of [a]. *)
Definition adj (a b : Z) : Prop := b ∈ neighbors a.

(** [b] is joined to [a] by a chain of adjacent points of the colour of [a]:
    for a stone [a], [b] is a stone of the block of [a]. *)
Inductive connected (c : list ascii) (a : Z) : Z -> Prop :=
| connected_refl : connected c a a
| connected_step (b b' : Z) :
    connected c a b -> adj b b' -> rd c b' = rd c a -> connected c a b'.

(** The block of [a] has a liberty: an empty point next to one of its stones. *)
Definition has_liberty (c : list ascii) (a : Z) : Prop :=
  exists s l, connected c a s /\ adj s l /\ rd c l = "."%char.

(** The state of the search of [compute_block] for the block of [pt0] with
    the generation [v] of marks, when the first [tail] stones of the queue
    have been expanded. *)
Record block_inv (c : list ascii) (pt0 : Z) (v : Z)
    (m : Mark) (stones libs : list Z) (tail : nat) : Prop := {
  bi_value : value m = v;
  bi_length : Z.of_nat (length (marks m)) = BOARDSIZE;
  bi_le : forall i, 0 <= i < BOARDSIZE -> rd (marks m) i <= v;
  bi_nodup : NoDup stones;
  bi_stone : forall s, s ∈ stones ->
    on_board s = true /\ rd c s = rd c pt0 /\ is_marked m s = true;
  bi_connected : forall s, s ∈ stones -> connected c pt0 s;
  bi_lib : forall l, l ∈ libs ->
    rd c l = "."%char /\ is_marked m l = true /\ exists s, s ∈ stones /\ adj s l;
  bi_marked_stone : forall q, 0 <= q < BOARDSIZE ->
    is_marked m q = true -> rd c q = rd c pt0 -> q ∈ stones;
  bi_marked_lib : forall q, 0 <= q < BOARDSIZE ->
    is_marked m q = true -> rd c q = "."%char -> q ∈ libs;
  bi_tail : (tail <= length stones)%nat;
  bi_done : forall i s, (i < tail)%nat -> stones !! i = Some s ->
    forall q, adj s q -> is_marked m q = true
}.

(** The fields of a position other than the three arrays and [ko_old]. *)
Definition counters (p : Position) : Z * Z * Z * Z * Z * float * Z * Z :=
  (n p, ko p, last p, last2 p, last3 p, komi p, cap p, capX p).

(** The colours after the stones of [R] have been taken off the board. *)
Definition clear_stones (c : list ascii) (R : list Z) : list ascii :=
  fold_left (fun c s => wr c s "."%char) R c.

(** The state of the capture loop of [play_move] at [pt]: [P] is the
    position after [put_stone], [seen] the neighbours visited so far and
    [R] the stones removed so far. *)
Record capture_inv (P : Position) (seen : list Z)
    (g : Globals) (pos : Position) (captured : Z) (R : list Z) : Prop := {
  ci_marks : marks_ok (mark1 g) = true;
  ci_board : board_ok pos = true;
  ci_counters : counters pos = counters P /\ ko_old pos = ko_old P;
  ci_nodup : NoDup R;
  ci_captured : captured = Z.of_nat (length R);
  ci_removed : forall r, r ∈ R -> on_board r = true /\ rd (color P) r = "x"%char;
  ci_color : color pos = clear_stones (color P) R;
  ci_none : R = [] -> pos = P /\ pos_capture g = 0;
  ci_some : R <> [] -> pos_capture g ∈ R /\ pos_capture g ∈ seen;
  ci_alive : R = [] -> forall q, q ∈ seen -> rd (color P) q = "x"%char ->
               has_liberty (color P) q;
  ci_dead : R <> [] -> exists q, q ∈ seen /\ rd (color P) q = "x"%char
               /\ ~ has_liberty (color P) q
}.

(** What the board routines need of the globals and of the position. *)
Definition state_ok (s : State) : Prop :=
  marks_ok (mark1 (fst s)) = true /\ board_ok (snd s) = true.

(** Playing at the empty point [pt] would be suicide: with the new stone
    on the board every adjacent block of the opponent still has a liberty
    (nothing is captured) and the block of the new stone has none. *)
Definition suicide (p : Position) (pt : Z) : Prop :=
  let c := wr (color p) pt "X"%char in
  (forall q, adj pt q -> rd c q = "x"%char -> has_liberty c q)
  /\ ~ has_liberty c pt.

(** [p'] is [p] but for [ko_old] and for the cells of the caches that
    belong to border points, which [env4_OK] skips. *)
Definition same_position (p p' : Position) : Prop :=
  color p' = color p
  /\ counters p' = counters p
  /\ length (env4 p') = length (env4 p)
  /\ length (env4d p') = length (env4d p)
  /\ forall z, on_board z = true ->
       rd (env4 p') z = rd (env4 p) z /\ rd (env4d p') z = rd (env4d p) z.

(** The message starts with "Error". *)
Definition is_error (msg : string) : bool := String.prefix "Error" msg.

(** Some position with arrays of the right size, as the caller of
    [empty_position] has it before the first game. *)
Definition used_position : Position :=
  mkPosition [] (repeat 0 211%nat) (repeat 0 211%nat) 5 7 8 9 10 11 0%float 3 4.

(** The state at the start of a game. *)
Definition first_position : State :=
  (initial_globals, fst (empty_position used_position)).

(** Black and White build a ko around the points 75 and 76; the last move,
    Black at 76, takes the white stone at 75. *)
Definition ko_fight : list Z := [74; 77; 61; 62; 89; 90; 0; 75; 76].

(** The number of cells of [c] that hold [col]. *)
Fixpoint count_color (col : ascii) (c : list ascii) : Z :=
  match c with
  | [] => 0
  | a :: c' => (if (a =? col)%char then 1 else 0) + count_color col c'
  end.

(** The stones that the move from [p] to [p'] took off the board: the
    stones of the opponent before the move ('x' in [p]) less those after it
    ('X' in [p'], the colours being swapped by the move). *)
Definition captured_stones (p p' : Position) : Z :=
  count_color "x" (color p) - count_color "X" (color p').

(** The two capture counters hold [char] values. *)
Definition chars_ok (p : Position) : bool :=
  (-128 <=? cap p) && (cap p <=? 127) && (-128 <=? capX p) && (capX p <=? 127).

(** The ko fight one move before its end: White has just played at 75 and
    Black can take that stone by playing at 76. *)
Definition ko_position : State :=
  default first_position (play_game first_position [74; 77; 61; 62; 89; 90; 0; 75]).

(** [pt] is inside an eyeish shape of the opponent: every neighbour of [pt]
    that is not OUT holds a stone of the opponent. *)
Definition enemy_eyeish (c : list ascii) (pt : Z) : Prop :=
  forall q, adj pt q -> rd c q <> " "%char -> rd c q = "x"%char.

(** The loop of [is_eyeish] on the colours of the neighbours. *)
Fixpoint eye_of (cs : list ascii) (eyecolor othercolor : ascii) : ascii :=
  match cs with
  | [] => eyecolor
  | c :: cs' =>
      if (c =? " ")%char then eye_of cs' eyecolor othercolor
      else if (c =? ".")%char then Ascii.zero
      else if (eyecolor =? Ascii.zero)%char then eye_of cs' c (SWAP_CASE c)
      else if (c =? othercolor)%char then Ascii.zero
      else eye_of cs' eyecolor othercolor
  end.

(** The four colours of a cell. *)
Definition point_colors : list ascii := ["."; "X"; "x"; " "]%char.

(** With a stone of the opponent among the four neighbours, [is_eyeish]
    gives a colour exactly when every neighbour is OUT or of the opponent. *)
Definition eye_rule (c0 c1 c2 c3 : ascii) : bool :=
  implb (existsb (fun c => (c =? "x")%char) [c0; c1; c2; c3])
        (Bool.eqb (negb (eye_of [c0; c1; c2; c3] Ascii.zero Ascii.zero =? Ascii.zero)%char)
                  (forallb (fun c => (c =? " ")%char || (c =? "x")%char) [c0; c1; c2; c3])).

(** [P] holds of every four colours. *)
Definition all_colors (P : ascii -> ascii -> ascii -> ascii -> bool) : bool :=
  forallb (fun c0 => forallb (fun c1 => forallb (fun c2 => forallb (fun c3 =>
    P c0 c1 c2 c3) point_colors) point_colors) point_colors) point_colors.

(** The stones taken off the board by both players in the course of a game. *)
Fixpoint captured_in_game (s : State) (moves : list Z) : option Z :=
  match moves with
  | [] => Some 0
  | pt :: moves' =>
      match legal_move s pt with
      | Some s' =>
          match captured_in_game s' moves' with
          | Some k => Some (captured_stones (snd s) (snd s') + k)
          | None => None
          end
      | None => None
      end
  end.

(** Black plays on every point of the board but the last one, 195, and
    White passes each time. *)
Definition fill : list Z :=
  flat_map (fun pt => [pt; PASS_MOVE])
           (List.filter (fun pt => on_board pt && (pt <? 195)) all_points).

(** Then Black passes and White takes the 168 black stones. *)
Definition big_capture : list Z := fill ++ [PASS_MOVE; 195].

End BoardVocabulary.

Section PlayoutVocabulary.
Import Slist Board Rand Playout.

(** [b] is reached from [a] in [k] steps, each to an adjacent point, over
    empty points: the points between [a] and [b] are all empty. *)
Inductive within (c : list ascii) : nat -> Z -> Z -> Prop :=
| within_one (a b : Z) : adj a b -> within c 1 a b
| within_step (k : nat) (a m b : Z) :
    adj a m -> rd c m = "."%char -> within c k m b -> within c (S k) a b.

(** The point [q] holds a stone. *)
Definition stone_at (c : list ascii) (q : Z) : Prop :=
  rd c q = "x"%char \/ rd c q = "X"%char.

(** [pt] is inside a diamond of the colour [col]: [col] is the colour of
    a stone, some neighbour of [pt] is on the board and every neighbour on
    the board holds [col]. *)
Definition eyeish (c : list ascii) (pt : Z) (col : ascii) : Prop :=
  (col = "X"%char \/ col = "x"%char)
  /\ (exists q, adj pt q /\ rd c q <> " "%char)
  /\ forall q, adj pt q -> rd c q <> " "%char -> rd c q = col.

(** What [is_eye] counts against an eye of the colour [col]: the diagonal
    neighbours of the other colour, and one more at the edge of the board. *)
Definition false_count (c : list ascii) (pt : Z) (col : ascii) : Z :=
  Z.of_nat (length (List.filter (fun d => (rd c d =? SWAP_CASE col)%char)
                                (diagonal_neighbors pt)))
  + (if existsb (fun d => (rd c d =? " ")%char) (diagonal_neighbors pt) then 1 else 0).

(** [is_eyeish] on the colours [c0] .. [c3] of the neighbours: the result
    is 0, 'X' or 'x'; when it is a colour, some neighbour is not OUT and all
    such neighbours have it; when it is 0, all neighbours are OUT, or one is
    empty, or both colours occur. *)
Definition eyeish_rule (c0 c1 c2 c3 : ascii) : bool :=
  let cs := [c0; c1; c2; c3] in
  let r := eye_of cs Ascii.zero Ascii.zero in
  let on := List.filter (fun c => negb (c =? " ")%char) cs in
  if (r =? Ascii.zero)%char
  then match on with [] => true | _ => false end
       || existsb (fun c => (c =? ".")%char) on
       || (existsb (fun c => (c =? "X")%char) on && existsb (fun c => (c =? "x")%char) on)
  else ((r =? "X")%char || (r =? "x")%char)
       && match on with [] => false | _ => true end
       && forallb (fun c => (c =? r)%char) on.

(** Black has played at 16 and at 29, White has passed twice: the corner
    point 15 is an eye of the side to move. *)
Definition eye_position : State :=
  default first_position (play_game first_position [16; 0; 29; 0]).

(** [q] is the point [a] of a move, or one of its eight neighbours that is
    not OUT; a pass has no such points. *)
Definition near (c : list ascii) (a q : Z) : Prop :=
  a <> PASS_MOVE /\ (q = a \/ exists d, d ∈ delta /\ q = a + d /\ rd c q <> " "%char).

End PlayoutVocabulary.

Section Pat3Vocabulary.
Import Board Pat3.

(** The colours of a 3x3 neighbourhood: black, white, empty and off the
    board. *)
Definition pat_colors : list ascii := ["X"; "O"; "."; "#"]%char.

(** Nine colours, the centre empty. *)
Definition neighbourhood_ok (s : list ascii) : Prop :=
  length s = 9%nat /\ rd s 4 = "."%char
  /\ forall i, 0 <= i < 9 -> rd s i ∈ pat_colors.

(** The colour of the cell [q] as the patterns name it. In [color] 'X' is
    the player to move, who is black when the move number is even. *)
Definition abs_color (p : Position) (q : Z) : ascii :=
  let c := rd (color p) q in
  if (c =? ".")%char then "."%char
  else if (c =? " ")%char then "#"%char
  else if Bool.eqb (Z.even (n p)) (c =? "X")%char then "X"%char
  else "O"%char.

(** The 3x3 neighbourhood of [pt], row by row from the north-west, with the
    centre written as empty. *)
Definition neighbourhood (p : Position) (pt : Z) : list ascii :=
  [abs_color p (pt - N - 2); abs_color p (pt - N - 1); abs_color p (pt - N);
   abs_color p (pt - 1);     "."%char;                 abs_color p (pt + 1);
   abs_color p (pt + N);     abs_color p (pt + N + 1); abs_color p (pt + N + 2)].

(** One half of the code: the four colours [a], [b], [c], [d] in the
    positions 0 to 3. *)
Definition code4 (a b c d : ascii) : Z :=
  Z.lor (Z.lor (Z.lor (code a 0) (code b 1)) (code c 2)) (code d 3).

(** [P] holds of every four colours. *)
Definition all_pat_colors (P : ascii -> ascii -> ascii -> ascii -> bool) : bool :=
  forallb (fun a => forallb (fun b => forallb (fun c =>
    forallb (fun d => P a b c d) pat_colors) pat_colors) pat_colors) pat_colors.

(** The pattern colour of each code of [compute_env4]. *)
Definition color_of_code (c : Z) : ascii :=
  if c =? 0 then "O"%char else if c =? 1 then "X"%char
  else if c =? 2 then "."%char else "#"%char.

(** The code [e] is in the bit set [set], as [pat3_match] tests it. *)
Definition in_set (set : list Z) (e : Z) : Prop :=
  Z.land (rd set (Z.shiftr e 3)) (rd bit (Z.land e 7)) <> 0.

(** The colour [c] fits the character [pc] of a pattern: '?' stands for
    any colour, 'x' for any colour but black, 'o' for any colour but white,
    and every other character for itself. *)
Definition matches_char (pc c : ascii) : bool :=
  if (pc =? "?")%char then bool_decide (c ∈ pat_colors)
  else if (pc =? "x")%char then bool_decide (c ∈ pat_colors) && negb (c =? "X")%char
  else if (pc =? "o")%char then bool_decide (c ∈ pat_colors) && negb (c =? "O")%char
  else (c =? pc)%char.

(** The nine colours [s] fit the pattern [src] from the position [i] on,
    and are those of [src] before. *)
Definition matches_from (i : Z) (src s : list ascii) : Prop :=
  length s = 9%nat
  /\ (forall j, 0 <= j < i -> rd s j = rd src j)
  /\ (forall j, i <= j < 9 -> matches_char (rd src j) (rd s j) = true).

(** The nine colours [s] fit the pattern [src]. *)
Definition matches (src s : list ascii) : Prop := matches_from 0 src s.

(** The variants of a pattern that [pat_enumerate] expands: the pattern and
    its quarter turn, each also flipped left to right, each of these also
    flipped top to bottom, and each of these also with the colours
    exchanged. *)
Definition variants3 (src : list ascii) : list (list ascii) :=
  [src; swapcolor src].

Definition variants2 (src : list ascii) : list (list ascii) :=
  variants3 src ++ variants3 (horizflip src).

Definition variants1 (src : list ascii) : list (list ascii) :=
  variants2 src ++ variants2 (vertflip src).

Definition variants (src : list ascii) : list (list ascii) :=
  variants1 src ++ variants1 (rot90 src).

(** The entries of a table of patterns before the end mark. *)
Fixpoint listed (srcs : list (list ascii)) : list (list ascii) :=
  match srcs with
  | [] => []
  | src :: srcs' =>
      if bool_decide (src = list_ascii_of_string "#########") then []
      else src :: listed srcs'
  end.

(** A pattern of nine characters whose centre is empty and whose other
    characters are colours or wildcards. *)
Definition pattern_ok (src : list ascii) : bool :=
  (length src =? 9)%nat
  && bool_decide (rd src 4 = "."%char)
  && forallb (fun c => bool_decide (c ∈ ["X"; "O"; "."; "#"; "?"; "x"; "o"]%char)) src.

(** [f] keeps the size of the set and adds to it the codes of the colourings
    that fit one of the patterns [vs]. *)
Definition adds (f : list Z -> list Z) (vs : list (list ascii)) : Prop :=
  forall set e, Z.of_nat (length set) = 8192 -> 0 <= e ->
    Z.of_nat (length (f set)) = 8192
    /\ (in_set (f set) e <->
        in_set set e \/ exists v, v ∈ vs /\ exists s, matches v s /\ compute_code s = e).

End Pat3Vocabulary.

Section DictVocabulary.
Import Patterns.

(** A pattern that hashes to the slot 5. *)
Definition pat_five : LargePat := mkLargePat (Z.shiftl 5 20) 7 0.5%float.

(** A pattern that hashes to the slot 5 as well, with the step 5. *)
Definition pat_five' : LargePat := mkLargePat (Z.shiftl 5 20 + 1) 8 0.25%float.

End DictVocabulary.

Section LargeBoardVocabulary.
Import Board LargeBoard.

(** The initialisations of [init_large_patterns] that concern the large
    board: [init_gridcular] on the table of displacements, then
    [init_large_board]. *)
Definition init_large (g : Large) : Large :=
  init_large_board
    (mkLarge (large_board g) (large_coord g)
             (init_gridcular pat_gridcular_seq (pat_gridcular_seq1d g))).

(** The cell of the large board for the row [r] and the column [c] of the
    board, both counted from 1. *)
Definition large_cell (r c : Z) : Z := (r + 6) * (N + 7) + (c + 6).

(** The large board is set up: the arrays have their sizes, [large_coord]
    and [pat_gridcular_seq1d] hold what their initialisations compute, and
    every cell that stands for no point of the board holds '#'. *)
Definition large_ok (g : Large) : Prop :=
  Z.of_nat (length (large_board g)) = LARGE_BOARDSIZE
  /\ (forall r c, 1 <= r <= N -> 1 <= c <= N ->
        rd (large_coord g) (r * (N + 1) + c) = large_cell r c)
  /\ (forall i, 0 <= i < 141 ->
        rd (pat_gridcular_seq1d g) i
        = fst (rd pat_gridcular_seq i) - snd (rd pat_gridcular_seq i) * (N + 7))
  /\ (forall j, 0 <= j < LARGE_BOARDSIZE ->
        (forall r c, 1 <= r <= N -> 1 <= c <= N -> j <> large_cell r c) ->
        rd (large_board g) j = "#"%char).

(** The large board after the initialisations, the copy of each of the
    positions [ps] in turn, and then the copy of [pos]. *)
Definition large_after (g0 : Large) (ps : list Position) (pos : Position) : Large :=
  copy_to_large_board (fold_left copy_to_large_board ps (init_large g0)) pos.

(** The globals as the program starts: every cell is zero. *)
Definition zero_large : Large :=
  mkLarge (repeat Ascii.zero (Z.to_nat LARGE_BOARDSIZE))
          (repeat 0 (Z.to_nat BOARDSIZE)) (repeat 0 141%nat).

(** The point at [x] columns to the right of [pt] and [y] rows above is on
    the board. *)
Definition shifted_on_board (pt x y : Z) : bool :=
  (1 <=? pt / (N + 1) - y) && (pt / (N + 1) - y <=? N)
  && (1 <=? pt mod (N + 1) + x) && (pt mod (N + 1) + x <=? N).

(** The signature after the first [s] rounds of the loop of
    [large_pattern_probability] at the cell [lpt] of the large board. *)
Fixpoint signature (hashdata : Z -> Z -> Z) (g : Large) (lpt : Z) (s : nat) : Z :=
  match s with
  | O => 0
  | S s' =>
      update_zobrist_hash_at_point hashdata g lpt (Z.of_nat s)
        (signature hashdata g lpt s')
  end.

(** The colours around the cell [lpt] of the large board, in the order of
    the table of displacements, up to the size [s]. *)
Definition gridcular_string (g : Large) (lpt s : Z) : list ascii :=
  map (fun i => rd (large_board g) (lpt + rd (pat_gridcular_seq1d g) i))
      (seqZ 0 (rd pat_gridcular_size s)).

End LargeBoardVocabulary.

Section Coord2Vocabulary.
Import Board Coord.

(** [str_coord pt] is the coordinate of a point of the board and
    [parse_coord] reads it back as [pt]. *)
Definition point_roundtrip (pt : Z) : bool :=
  match parse_coord (str_coord pt) with
  | Some q => (q =? pt) && bool_decide (str_coord pt ∈ board_coords)
  | None => false
  end.

(** The 256 characters. *)
Definition all_ascii : list ascii := map ascii_of_nat (seq 0 256).

(** The change [f] of the case of a character, as far as [parse_coord]
    can see it: it is invisible to [tolower] and [toupper], and it keeps
    spaces, digits and signs. *)
Definition case_change (f : ascii -> ascii) : bool :=
  forallb
    (fun c =>
       bool_decide (tolower (f c) = tolower c)
       && bool_decide (toupper (f c) = toupper c)
       && Bool.eqb (is_space (f c)) (is_space c)
       && Bool.eqb (is_digit (f c)) (is_digit c)
       && (if is_digit c then bool_decide (f c = c) else true)
       && Bool.eqb (f c =? "-")%char (c =? "-")%char
       && Bool.eqb (f c =? "+")%char (c =? "+")%char)
    all_ascii.

End Coord2Vocabulary.

Section MovesVocabulary.
Import Slist Board.

(** On the board [c], the stone [r] is dead beside [pt]: it belongs to a
    block of 'x' stones that touches [pt] and has no liberty. *)
Definition dead_beside (c : list ascii) (pt r : Z) : Prop :=
  exists q, adj pt q /\ rd c q = "x"%char /\ ~ has_liberty c q /\ connected c q r.

(** The stones [R] are those of the blocks of 'x' stones without liberty
    that start at one of the points [seen]. *)
Definition dead_from (c : list ascii) (seen R : list Z) : Prop :=
  forall r, r ∈ R <->
    exists q, q ∈ seen /\ rd c q = "x"%char /\ ~ has_liberty c q /\ connected c q r.

(** Each of the 'x' stones among the points [seen] is in a block with a
    liberty or is one of the stones [R]. *)
Definition alive_or_in (c : list ascii) (seen R : list Z) : Prop :=
  forall q, q ∈ seen -> rd c q = "x"%char -> has_liberty c q \/ q ∈ R.

(** Every stone on the board is in a block that has a liberty. *)
Definition all_alive (c : list ascii) : Prop :=
  forall s, on_board s = true -> rd c s = "X"%char \/ rd c s = "x"%char ->
    has_liberty c s.

End MovesVocabulary.

(** * Properties *)

(** The constants of the board, as numbers. *)
Ltac board_consts :=
  cbv [Board.BOARDSIZE Board.BOARD_IMIN Board.BOARD_IMAX Board.W Board.N] in *;
  change (13 + 1) with 14 in *; change (13 + 2) with 15 in *;
  change (14 * 15 + 1) with 211 in *.

(** Gives the state reached by a game from [first_position] to [k]. *)
Ltac with_game moves k :=
  let r := eval vm_compute in (Board.play_game first_position moves) in
  lazymatch r with
  | Some (?g, ?p) => k g p
  end.

(** Gives the result of [play_move g p pt] to [k]. *)
Ltac with_play g p pt k :=
  let r := eval vm_compute in (Board.play_move g p pt) in
  lazymatch r with
  | Some (?g', ?p', ?msg) => k g' p' msg
  end.

(** ** Arrays *)

Section ArrayFacts.

(** ** Facts on arrays *)

Lemma length_wr {A} (a : list A) i v : length (wr a i v) = length a.
Proof. unfold wr. apply length_insert. Qed.

Lemma rd_wr_eq {A} `{Inhabited A} (a : list A) i v :
  0 <= i < Z.of_nat (length a) -> rd (wr a i v) i = v.
Proof.
  intros Hi. unfold rd, wr. apply list_lookup_total_insert_eq. lia.
Qed.

Lemma rd_wr_ne {A} `{Inhabited A} (a : list A) i j v :
  0 <= i -> 0 <= j -> i <> j -> rd (wr a i v) j = rd a j.
Proof.
  intros Hi Hj Hne. unfold rd, wr. apply list_lookup_total_insert_ne. lia.
Qed.

Lemma rd_lookup {A} `{Inhabited A} (a : list A) i :
  0 <= i < Z.of_nat (length a) -> a !! Z.to_nat i = Some (rd a i).
Proof.
  intros Hi. unfold rd. apply list_lookup_lookup_total_lt. lia.
Qed.

Lemma lookup_rd {A} `{Inhabited A} (a : list A) (i : nat) :
  (i < length a)%nat -> a !! i = Some (rd a (Z.of_nat i)).
Proof.
  intros Hi. unfold rd. rewrite Nat2Z.id. now apply list_lookup_lookup_total_lt.
Qed.

End ArrayFacts.

(** ** Slist *)

Section SlistFacts.
Import Slist.

Lemma scan_spec (l : Slist) (item : Z) (fuel : nat) : forall k,
  (exists j, 0 <= j < Z.of_nat fuel /\ rd l (k + j) = item) ->
  k <= scan l item k fuel < k + Z.of_nat fuel
  /\ rd l (scan l item k fuel) = item
  /\ forall i, k <= i < scan l item k fuel -> rd l i <> item.
Proof.
  induction fuel as [|fuel IH]; intros k (j & Hj & Hit); [lia|].
  simpl. destruct (rd l k =? item) eqn:Hk.
  - apply Z.eqb_eq in Hk. repeat split; [lia|lia|exact Hk|lia].
  - apply Z.eqb_neq in Hk.
    assert (Hj0 : j <> 0) by (intros ->; now rewrite Z.add_0_r in Hit).
    destruct (IH (k + 1)) as (Hr & Hitem & Hfirst).
    { exists (j - 1). split; [lia|]. now replace (k + 1 + (j - 1)) with (k + j) by lia. }
    repeat split; [lia|lia|exact Hitem|].
    intros i Hi. destruct (Z.eq_dec i k) as [->|Hne]; [exact Hk|].
    apply Hfirst. lia.
Qed.

Lemma elems_lookup (l : Slist) (i : nat) :
  (i < Z.to_nat (rd l 0))%nat -> elems l !! i = l !! S i.
Proof.
  intros Hi. unfold elems. rewrite lookup_take_lt by lia.
  now rewrite lookup_drop.
Qed.

Lemma length_elems (l : Slist) :
  0 <= rd l 0 < Z.of_nat (length l) -> length (elems l) = Z.to_nat (rd l 0).
Proof.
  intros Hl. unfold elems. rewrite length_take_le; [easy|].
  rewrite length_drop. lia.
Qed.

Lemma elem_of_elems (l : Slist) (x : Z) :
  0 <= rd l 0 < Z.of_nat (length l) ->
  x ∈ elems l <-> exists k, 1 <= k <= rd l 0 /\ rd l k = x.
Proof.
  intros Hl. rewrite list_elem_of_lookup. split.
  - intros [i Hi]. pose proof (lookup_lt_Some _ _ _ Hi) as Hlt.
    rewrite length_elems in Hlt by easy.
    rewrite elems_lookup in Hi by easy.
    exists (Z.of_nat (S i)). split; [lia|].
    rewrite lookup_rd in Hi by lia. now injection Hi.
  - intros (k & Hk & <-). exists (Z.to_nat (k - 1)).
    rewrite elems_lookup by lia.
    rewrite lookup_rd by lia. f_equal. f_equal. lia.
Qed.

Lemma elems_frame (l l' : Slist) :
  0 <= rd l 0 < Z.of_nat (length l) -> length l' = length l ->
  rd l' 0 = rd l 0 -> (forall k, 1 <= k <= rd l 0 -> rd l' k = rd l k) ->
  elems l' = elems l.
Proof.
  intros Hl Hlen H0 Hsame. apply list_eq. intros i.
  destruct (decide (i < Z.to_nat (rd l 0))%nat) as [Hi|Hi].
  - rewrite !elems_lookup by lia.
    rewrite !lookup_rd by lia. f_equal. apply Hsame. lia.
  - rewrite !lookup_ge_None_2; [easy| |]; rewrite length_elems; lia.
Qed.

(** C9. [slist_insert] on a list with room for one more cell: an item that
    is not among the elements is appended, the size grows by one and 1 is
    returned; an item that is among them leaves the size and the elements as
    they are and 0 is returned. *)
Theorem slist_insert_spec (l : Slist) (item : Z) :
  0 <= rd l 0 -> rd l 0 + 1 < Z.of_nat (length l) ->
  (item ∉ elems l ->
     exists l', slist_insert l item = (l', 1)
       /\ slist_size l' = slist_size l + 1
       /\ elems l' = elems l ++ [item])
  /\ (item ∈ elems l ->
     exists l', slist_insert l item = (l', 0)
       /\ slist_size l' = slist_size l
       /\ elems l' = elems l).
Proof.
  intros Hsz Hcap. unfold slist_insert, slist_size.
  set (sz := rd l 0) in *. set (l1 := wr l (sz + 1) item).
  assert (Hl1n : rd l1 (sz + 1) = item) by (apply rd_wr_eq; lia).
  assert (Hl1 : forall k, 0 <= k <= sz -> rd l1 k = rd l k).
  { intros k Hk. apply rd_wr_ne; lia. }
  assert (Hlen1 : length l1 = length l) by apply length_wr.
  destruct (scan_spec l1 item (Z.to_nat (sz + 1)) 1) as (Hr & Hitem & Hfirst).
  { exists sz. split; [lia|]. now rewrite Z.add_comm. }
  set (r := scan l1 item 1 (Z.to_nat (sz + 1))) in *.
  split.
  - intros Hnotin.
    assert (Hrn : r = sz + 1).
    { destruct (Z.eq_dec r (sz + 1)) as [|Hne]; [easy|]. exfalso.
      apply Hnotin. apply elem_of_elems; [fold sz; lia|].
      exists r. fold sz. split; [lia|]. rewrite <- Hl1 by lia. exact Hitem. }
    rewrite Hrn, Z.eqb_refl.
    eexists. split; [reflexivity|].
    assert (H0 : rd (wr l1 0 (sz + 1)) 0 = sz + 1) by (apply rd_wr_eq; lia).
    split; [exact H0|].
    apply list_eq. intros i.
    assert (Hlen2 : length (wr l1 0 (sz + 1)) = length l).
    { now rewrite length_wr. }
    destruct (decide (i < Z.to_nat (sz + 1))%nat) as [Hi|Hi].
    + rewrite elems_lookup by (rewrite H0; lia).
      rewrite lookup_rd by lia.
      rewrite rd_wr_ne by lia.
      destruct (decide (i < Z.to_nat sz)%nat) as [Hi'|Hi'].
      * rewrite lookup_app_l by (rewrite length_elems; fold sz; lia).
        rewrite elems_lookup by (fold sz; lia).
        rewrite lookup_rd by lia.
        f_equal. apply Hl1. lia.
      * assert (i = Z.to_nat sz) as -> by lia.
        rewrite lookup_app_r by (rewrite length_elems; fold sz; lia).
        rewrite length_elems by (fold sz; lia). fold sz.
        rewrite Nat.sub_diag. simpl. f_equal.
        replace (Z.of_nat (S (Z.to_nat sz))) with (sz + 1) by lia. exact Hl1n.
    + rewrite !lookup_ge_None_2; [easy| |].
      * rewrite length_app, length_elems by (fold sz; lia). fold sz. simpl. lia.
      * rewrite length_elems; rewrite H0; lia.
  - intros Hin. apply elem_of_elems in Hin; [|fold sz; lia].
    fold sz in Hin. destruct Hin as (k & Hk & Hk_item).
    assert (Hrn : r <> sz + 1).
    { intros Heq. apply (Hfirst k); [lia|]. rewrite Hl1 by lia. exact Hk_item. }
    apply Z.eqb_neq in Hrn. rewrite Hrn.
    exists l1. split; [reflexivity|]. split; [apply Hl1; lia|].
    apply elems_frame; [fold sz; lia|easy|apply Hl1; lia|].
    fold sz. intros k' Hk'. apply Hl1. lia.
Qed.

(** C9 on the list 5, 9 with room for more: 7 is appended. *)
Lemma slist_insert_spec_witness :
  (7 ∉ elems [2; 5; 9; 0; 0] ->
     exists l', slist_insert [2; 5; 9; 0; 0] 7 = (l', 1)
       /\ slist_size l' = slist_size [2; 5; 9; 0; 0] + 1
       /\ elems l' = elems [2; 5; 9; 0; 0] ++ [7])
  /\ (7 ∈ elems [2; 5; 9; 0; 0] ->
     exists l', slist_insert [2; 5; 9; 0; 0] 7 = (l', 0)
       /\ slist_size l' = slist_size [2; 5; 9; 0; 0]
       /\ elems l' = elems [2; 5; 9; 0; 0]).
Proof.
  apply (slist_insert_spec [2; 5; 9; 0; 0] 7); vm_compute; [discriminate|reflexivity].
Defined.

End SlistFacts.

(** ** The pattern dictionary *)

Section PatternFacts.
Import Patterns.

Lemma table_a_inserted :
  insert_pat 1 ∅ (mkLargePat key_a 1 0%float) = Some (table_a, LENGTH - 5).
Proof. vm_compute. reflexivity. Qed.

(** C3 (fails in the code). With [key_a] stored, the lookup of [key_b]
    reads [patterns] at [LENGTH - 5] and then at [LENGTH], one past the last
    cell: the wrap-around test [h > LENGTH] lets [h = LENGTH] through. *)
Theorem find_pat_reads_past_end :
  0 < key_b < 2 ^ 64
  /\ snd (find_pat 2 table_a key_b) = [LENGTH - 5; LENGTH]
  /\ ~ Forall (fun h => 0 <= h < LENGTH) (snd (find_pat 2 table_a key_b)).
Proof.
  split; [vm_compute; split; reflexivity|].
  split; [vm_compute; reflexivity|].
  intros HF. assert (Hin : LENGTH ∈ snd (find_pat 2 table_a key_b)).
  { vm_compute. apply list_elem_of_In. right. now left. }
  rewrite Forall_forall in HF. apply HF in Hin. lia.
Qed.

Lemma find_pat_loop_reads (fuel : nat) (t : Table) (k h2 : Z) :
  0 < h2 < LENGTH -> forall h reads,
  0 <= h <= LENGTH -> Forall (fun i => 0 <= i <= LENGTH) reads ->
  Forall (fun i => 0 <= i <= LENGTH) (snd (find_pat_loop fuel t k h h2 reads)).
Proof.
  intros Hh2. induction fuel as [|fuel IH]; intros h reads Hh Hreads; simpl; [easy|].
  assert (Hreads' : Forall (fun i => 0 <= i <= LENGTH) (reads ++ [h])).
  { apply Forall_app. split; [easy|]. now constructor. }
  destruct (key (slot t h) =? k); [easy|].
  destruct (key (slot t h) =? 0); [easy|].
  apply IH; [|easy].
  destruct (h + h2 >? LENGTH) eqn:Hgt; lia.
Qed.

Lemma primes_bound (i : Z) : 0 <= i < 32 -> 0 < rd primes i < LENGTH.
Proof.
  intros Hi. assert (Hall : Forall (fun p => 0 < p < LENGTH) primes).
  { unfold primes. repeat constructor. }
  rewrite Forall_forall in Hall. apply Hall.
  unfold rd. apply list_elem_of_lookup_total_2.
  unfold primes. simpl. lia.
Qed.

(** X3. What does hold of the probe of [find_pat]: every index at which
    [patterns] is read lies between 0 and [LENGTH], both ends included. *)
Theorem find_pat_reads (fuel : nat) (t : Table) (k : Z) :
  0 <= k -> Forall (fun i => 0 <= i <= LENGTH) (snd (find_pat fuel t k)).
Proof.
  intros Hk. unfold find_pat. apply find_pat_loop_reads.
  - apply primes_bound.
    change 15 with (Z.ones 4). rewrite Z.land_ones by lia.
    pose proof (Z.mod_pos_bound (Z.shiftr k (20 + KSIZE)) (2 ^ 4)). lia.
  - unfold KMASK. change (LENGTH - 1) with (Z.ones 25).
    rewrite Z.land_ones by lia.
    pose proof (Z.mod_pos_bound (Z.shiftr k 20) (2 ^ 25)).
    change LENGTH with (2 ^ 25). lia.
  - constructor.
Qed.

(** X3 on the lookup of [key_b]. *)
Lemma find_pat_reads_witness :
  0 <= key_b
  /\ Forall (fun i => 0 <= i <= LENGTH) (snd (find_pat 2 table_a key_b)).
Proof.
  assert (H : 0 <= key_b) by (apply Z.leb_le; reflexivity).
  split; [exact H|]. exact (find_pat_reads 2 table_a key_b H).
Defined.

End PatternFacts.

(** ** The choice of the move *)

Section TreeFacts.
Import Board Tree.

(** C4, counterexample: with a winrate below 0.2 and two trailing passes
    the result is PASS, not RESIGN. *)
Lemma tree_search_select_pass_before_resign :
  exists best, best_move lost_after_passes [] = Some best
    /\ PrimFloat.ltb (PrimFloat.div (double_of_int (w best)) (double_of_int (v best)))
         RESIGN_THRES = true
    /\ last (pos best) = PASS_MOVE /\ last2 (pos best) = PASS_MOVE
    /\ tree_search_select lost_after_passes = Some PASS_MOVE
    /\ tree_search_select lost_after_passes <> Some RESIGN_MOVE.
Proof.
  eexists. split; [reflexivity|]. repeat split; discriminate.
Qed.

Lemma best_move_loop_spec (cs : list TreeNode) : forall i vmax best,
  match best_move_loop cs i [] vmax best with
  | Some b =>
      (best = Some b /\ forall c, c ∈ cs -> v c <= vmax)
      \/ (vmax < v b /\ exists k, cs !! k = Some b
            /\ (forall c, c ∈ cs -> v c <= v b)
            /\ (forall j c, (j < k)%nat -> cs !! j = Some c -> v c < v b))
  | None => best = None /\ forall c, c ∈ cs -> v c <= vmax
  end.
Proof.
  induction cs as [|c cs IH]; intros i vmax best; simpl.
  - destruct best; [left|]; (split; [easy|]); intros c Hc; inversion Hc.
  - destruct (v c >? vmax) eqn:Hgt; simpl.
    + specialize (IH (S i) (v c) (Some c)).
      destruct (best_move_loop cs (S i) [] (v c) (Some c)) as [b|].
      * right. destruct IH as [[Hb Hle]|(Hlt & k & Hk & Hle & Hfirst)].
        -- injection Hb as <-. split; [lia|]. exists 0%nat. split; [easy|]. split.
           ++ intros c' Hc'. apply elem_of_cons in Hc' as [->|Hc']; [lia|now apply Hle].
           ++ intros j c' Hj. lia.
        -- split; [lia|]. exists (S k). split; [easy|]. split.
           ++ intros c' Hc'. apply elem_of_cons in Hc' as [->|Hc']; [lia|now apply Hle].
           ++ intros [|j] c' Hj Hc'; simpl in Hc'.
              ** injection Hc' as <-. lia.
              ** apply (Hfirst j); [lia|easy].
      * destruct IH as [IH _]. discriminate.
    + specialize (IH (S i) vmax best).
      destruct (best_move_loop cs (S i) [] vmax best) as [b|].
      * destruct IH as [[Hb Hle]|(Hlt & k & Hk & Hle & Hfirst)].
        -- left. split; [easy|]. intros c' Hc'.
           apply elem_of_cons in Hc' as [->|Hc']; [lia|now apply Hle].
        -- right. split; [lia|]. exists (S k). split; [easy|]. split.
           ++ intros c' Hc'. apply elem_of_cons in Hc' as [->|Hc']; [lia|now apply Hle].
           ++ intros [|j] c' Hj Hc'; simpl in Hc'.
              ** injection Hc' as <-. lia.
              ** apply (Hfirst j); [lia|easy].
      * destruct IH as [-> Hle]. split; [easy|]. intros c' Hc'.
        apply elem_of_cons in Hc' as [->|Hc']; [lia|now apply Hle].
Qed.

Lemma best_move_most_visited (tree : TreeNode) (cs : list TreeNode) (c : TreeNode) :
  children tree = Some cs -> c ∈ cs -> 0 <= v c ->
  exists best, best_move tree [] = Some best /\ most_visited cs best.
Proof.
  intros Hcs Hc Hv. unfold best_move. rewrite Hcs.
  pose proof (best_move_loop_spec cs 0 (-1) None) as H.
  destruct (best_move_loop cs 0 [] (-1) None) as [b|].
  - exists b. split; [easy|]. destruct H as [[H _]|(_ & k & Hk & Hle & Hfirst)]; [easy|].
    now exists k.
  - destruct H as [_ H]. specialize (H c Hc). lia.
Qed.

(** C4, as the code has it: [best] is the most visited child; if the last
    two moves of its position are passes the result is PASS; otherwise, if
    its winrate is below 0.2, RESIGN; otherwise its last move. With both
    conditions the result is PASS. *)
Theorem tree_search_select_spec (tree : TreeNode) (cs : list TreeNode) (c : TreeNode) :
  children tree = Some cs -> c ∈ cs -> 0 <= v c ->
  exists best, best_move tree [] = Some best /\ most_visited cs best
    /\ tree_search_select tree =
       Some (if (last (pos best) =? PASS_MOVE) && (last2 (pos best) =? PASS_MOVE)
             then PASS_MOVE
             else if PrimFloat.ltb
                       (PrimFloat.div (double_of_int (w best)) (double_of_int (v best)))
                       RESIGN_THRES
                  then RESIGN_MOVE
                  else last (pos best)).
Proof.
  intros Hcs Hc Hv.
  destruct (best_move_most_visited tree cs c Hcs Hc Hv) as (best & Hbest & Hmost).
  exists best. split; [easy|]. split; [easy|].
  unfold tree_search_select. rewrite Hbest.
  destruct ((last (pos best) =? PASS_MOVE) && (last2 (pos best) =? PASS_MOVE)); [easy|].
  now destruct (PrimFloat.ltb _ _).
Qed.

(** C4 on a root with two children, the most visited one lost after two passes. *)
Lemma tree_search_select_spec_witness :
  exists best, best_move lost_after_passes [] = Some best
    /\ most_visited
         [mkTreeNode 2 1 0 0 0 0 0 (some_position 50 0) None;
          mkTreeNode 10 0 0 0 0 0 0 (some_position PASS_MOVE PASS_MOVE) None] best
    /\ tree_search_select lost_after_passes =
       Some (if (last (pos best) =? PASS_MOVE) && (last2 (pos best) =? PASS_MOVE)
             then PASS_MOVE
             else if PrimFloat.ltb
                       (PrimFloat.div (double_of_int (w best)) (double_of_int (v best)))
                       RESIGN_THRES
                  then RESIGN_MOVE
                  else last (pos best)).
Proof.
  apply (tree_search_select_spec lost_after_passes _
           (mkTreeNode 2 1 0 0 0 0 0 (some_position 50 0) None)).
  - reflexivity.
  - apply list_elem_of_In. now left.
  - simpl. lia.
Defined.

Lemma except_test (i : nat) (except : list nat) :
  existsb (Nat.eqb i) except = true <-> i ∈ except.
Proof.
  rewrite existsb_exists. split.
  - intros (x & Hx & E). apply Nat.eqb_eq in E. subst x. now apply list_elem_of_In.
  - intros H. exists i. split; [now apply list_elem_of_In|apply Nat.eqb_refl].
Qed.

Lemma best_move_loop_except (except : list nat) (cs : list TreeNode) :
  forall i0 vmax best,
  match best_move_loop cs i0 except vmax best with
  | Some b =>
      (best = Some b
       /\ forall j c, cs !! j = Some c -> (i0 + j)%nat ∉ except -> v c <= vmax)
      \/ (vmax < v b
          /\ exists k, cs !! k = Some b /\ ((i0 + k)%nat ∉ except)
               /\ (forall j c, cs !! j = Some c -> (i0 + j)%nat ∉ except -> v c <= v b)
               /\ (forall j c, (j < k)%nat -> cs !! j = Some c ->
                     (i0 + j)%nat ∉ except -> v c < v b))
  | None =>
      best = None
      /\ forall j c, cs !! j = Some c -> (i0 + j)%nat ∉ except -> v c <= vmax
  end.
Proof.
  induction cs as [|c cs IH]; intros i0 vmax best; cbn [best_move_loop].
  - destruct best; [left|]; (split; [reflexivity|]); intros j c' Hj; discriminate Hj.
  - destruct (Z.gtb_spec (v c) vmax) as [Hgt|Hle].
    + destruct (existsb (Nat.eqb i0) except) eqn:Ex; cbn [negb].
      * apply except_test in Ex.
        specialize (IH (S i0) vmax best).
        destruct (best_move_loop cs (S i0) except vmax best) as [b|].
        -- destruct IH as [[Hb Hall]|(Hlt & k & Hk & Hex & Hall & Hfirst)].
           ++ left. split; [exact Hb|]. intros [|j] c' Hj Hn; cbn in Hj.
              ** exfalso. apply Hn. now rewrite Nat.add_0_r.
              ** apply (Hall j c' Hj). now rewrite Nat.add_succ_comm.
           ++ right. split; [exact Hlt|]. exists (S k). split; [exact Hk|].
              split; [now rewrite <- Nat.add_succ_comm|]. split.
              ** intros [|j] c' Hj Hn; cbn in Hj.
                 --- exfalso. apply Hn. now rewrite Nat.add_0_r.
                 --- apply (Hall j c' Hj). now rewrite Nat.add_succ_comm.
              ** intros [|j] c' Hlt' Hj Hn; cbn in Hj.
                 --- exfalso. apply Hn. now rewrite Nat.add_0_r.
                 --- apply (Hfirst j c'); [lia|exact Hj|now rewrite Nat.add_succ_comm].
        -- destruct IH as [Hb Hall]. split; [exact Hb|]. intros [|j] c' Hj Hn; cbn in Hj.
           ++ exfalso. apply Hn. now rewrite Nat.add_0_r.
           ++ apply (Hall j c' Hj). now rewrite Nat.add_succ_comm.
      * assert (Hnex : i0 ∉ except).
        { intros H. apply except_test in H. congruence. }
        specialize (IH (S i0) (v c) (Some c)).
        destruct (best_move_loop cs (S i0) except (v c) (Some c)) as [b|].
        -- right. destruct IH as [[Hb Hall]|(Hlt & k & Hk & Hex & Hall & Hfirst)].
           ++ injection Hb as <-. split; [lia|]. exists 0%nat. split; [reflexivity|].
              split; [now rewrite Nat.add_0_r|]. split.
              ** intros [|j] c' Hj Hn; cbn in Hj.
                 --- injection Hj as <-. lia.
                 --- apply (Hall j c' Hj). now rewrite Nat.add_succ_comm.
              ** intros j c' Hlt'. lia.
           ++ split; [lia|]. exists (S k). split; [exact Hk|].
              split; [now rewrite <- Nat.add_succ_comm|]. split.
              ** intros [|j] c' Hj Hn; cbn in Hj.
                 --- injection Hj as <-. lia.
                 --- apply (Hall j c' Hj). now rewrite Nat.add_succ_comm.
              ** intros [|j] c' Hlt' Hj Hn; cbn in Hj.
                 --- injection Hj as <-. lia.
                 --- apply (Hfirst j c'); [lia|exact Hj|now rewrite Nat.add_succ_comm].
        -- destruct IH as [Hb _]. discriminate Hb.
    + specialize (IH (S i0) vmax best).
      destruct (best_move_loop cs (S i0) except vmax best) as [b|].
      * destruct IH as [[Hb Hall]|(Hlt & k & Hk & Hex & Hall & Hfirst)].
        -- left. split; [exact Hb|]. intros [|j] c' Hj Hn; cbn in Hj.
           ++ injection Hj as <-. lia.
           ++ apply (Hall j c' Hj). now rewrite Nat.add_succ_comm.
        -- right. split; [exact Hlt|]. exists (S k). split; [exact Hk|].
           split; [now rewrite <- Nat.add_succ_comm|]. split.
           ++ intros [|j] c' Hj Hn; cbn in Hj.
              ** injection Hj as <-. lia.
              ** apply (Hall j c' Hj). now rewrite Nat.add_succ_comm.
           ++ intros [|j] c' Hlt' Hj Hn; cbn in Hj.
              ** injection Hj as <-. lia.
              ** apply (Hfirst j c'); [lia|exact Hj|now rewrite Nat.add_succ_comm].
      * destruct IH as [Hb Hall]. split; [exact Hb|]. intros [|j] c' Hj Hn; cbn in Hj.
        -- injection Hj as <-. lia.
        -- apply (Hall j c' Hj). now rewrite Nat.add_succ_comm.
Qed.

(** X11. [best_move] with a list of exceptions returns the first of the
    most visited children that are not excepted, and NULL exactly when every
    child is excepted (the visit counts not being negative). *)
Theorem best_move_except_spec (tree : TreeNode) (cs : list TreeNode)
    (except : list nat) :
  children tree = Some cs -> (forall c, c ∈ cs -> 0 <= v c) ->
  match best_move tree except with
  | Some b =>
      exists i, cs !! i = Some b /\ (i ∉ except)
        /\ (forall j c, cs !! j = Some c -> j ∉ except -> v c <= v b)
        /\ (forall j c, (j < i)%nat -> cs !! j = Some c -> j ∉ except -> v c < v b)
  | None => forall j, (j < length cs)%nat -> j ∈ except
  end.
Proof.
  intros Hcs Hv. unfold best_move. rewrite Hcs.
  pose proof (best_move_loop_except except cs 0 (-1) None) as H. cbn [Nat.add] in H.
  destruct (best_move_loop cs 0 except (-1) None) as [b|].
  - destruct H as [[H _]|(_ & k & Hk & Hex & Hall & Hfirst)]; [discriminate H|].
    exists k. split_and!; assumption.
  - destruct H as [_ Hall]. intros j Hj.
    destruct (lookup_lt_is_Some_2 cs j Hj) as [c Hc].
    destruct (decide (j ∈ except)) as [Hin|Hnin]; [exact Hin|]. exfalso.
    specialize (Hall j c Hc Hnin).
    specialize (Hv c (list_elem_of_lookup_2 _ _ _ Hc)). lia.
Qed.

(** X11 on the root with two children, the second one being excepted. *)
Lemma best_move_except_spec_witness :
  match best_move lost_after_passes [1%nat] with
  | Some b =>
      exists i,
        [mkTreeNode 2 1 0 0 0 0 0 (some_position 50 0) None;
         mkTreeNode 10 0 0 0 0 0 0 (some_position PASS_MOVE PASS_MOVE) None] !! i = Some b
        /\ (i ∉ [1%nat])
        /\ (forall j c,
              [mkTreeNode 2 1 0 0 0 0 0 (some_position 50 0) None;
               mkTreeNode 10 0 0 0 0 0 0 (some_position PASS_MOVE PASS_MOVE) None] !! j
              = Some c -> j ∉ [1%nat] -> v c <= v b)
        /\ (forall j c, (j < i)%nat ->
              [mkTreeNode 2 1 0 0 0 0 0 (some_position 50 0) None;
               mkTreeNode 10 0 0 0 0 0 0 (some_position PASS_MOVE PASS_MOVE) None] !! j
              = Some c -> j ∉ [1%nat] -> v c < v b)
  | None =>
      forall j,
        (j < length
               [mkTreeNode 2 1 0 0 0 0 0 (some_position 50 0) None;
                mkTreeNode 10 0 0 0 0 0 0 (some_position PASS_MOVE PASS_MOVE) None])%nat ->
        j ∈ [1%nat]
  end.
Proof.
  apply (best_move_except_spec lost_after_passes
           [mkTreeNode 2 1 0 0 0 0 0 (some_position 50 0) None;
            mkTreeNode 10 0 0 0 0 0 0 (some_position PASS_MOVE PASS_MOVE) None] [1%nat]).
  - reflexivity.
  - intros c Hc. apply elem_of_cons in Hc as [->|Hc]; [cbn; lia|].
    apply list_elem_of_singleton in Hc. subst c. cbn. lia.
Defined.

End TreeFacts.

(** ** Coordinates *)

Section CoordFacts.
Import Board Coord.

(** C8. For the coordinate of every point of the board (one of the first
    [N] column letters of A-H, J-T and a row from 1 to [N]) and for "pass",
    [str_coord (parse_coord s) = s]. *)
Theorem coord_roundtrip (s : string) :
  s ∈ board_coords \/ s = "pass"%string ->
  option_map str_coord (parse_coord s) = Some s.
Proof.
  intros [Hs| ->]; [|reflexivity].
  assert (Hall : forallb roundtrip board_coords = true) by (vm_compute; reflexivity).
  rewrite forallb_forall in Hall. apply list_elem_of_In in Hs.
  specialize (Hall s Hs). unfold roundtrip in Hall.
  destruct (parse_coord s) as [pt|]; [|discriminate].
  simpl. f_equal. now apply String.eqb_eq.
Qed.

(** C8 at the coordinate J10. *)
Lemma coord_roundtrip_witness :
  option_map str_coord (parse_coord "J10") = Some "J10"%string.
Proof.
  apply (coord_roundtrip "J10"). left. apply list_elem_of_In. vm_compute. tauto.
Defined.

End CoordFacts.

(** ** The board *)

Section BoardFacts.
Import Board.

Lemma forallb_seqZ (f : Z -> bool) (m len : Z) :
  forallb f (seqZ m len) = true <-> forall i, m <= i < m + len -> f i = true.
Proof.
  rewrite forallb_forall. split.
  - intros H i Hi. apply H. apply list_elem_of_In, elem_of_seqZ. lia.
  - intros H i Hi. apply H. apply list_elem_of_In, elem_of_seqZ in Hi. lia.
Qed.

Lemma on_board_spec (pt : Z) :
  on_board pt = true <->
  1 <= pt / (N + 1) <= N /\ 1 <= pt mod (N + 1) <= N.
Proof.
  unfold on_board. rewrite !andb_true_iff, !Z.leb_le. tauto.
Qed.

Lemma on_board_range (pt : Z) : on_board pt = true -> N + 2 <= pt < BOARDSIZE - N - 2.
Proof.
  rewrite on_board_spec. board_consts. intros [H1 H2].
  pose proof (Z_div_mod_eq_full pt 14). lia.
Qed.

Lemma all_points_range (pt : Z) : pt ∈ all_points <-> BOARD_IMIN <= pt < BOARD_IMAX.
Proof.
  unfold all_points. rewrite list_elem_of_fmap. split.
  - intros (k & -> & Hk). apply elem_of_seq in Hk. board_consts. lia.
  - intros H. exists (Z.to_nat (pt - BOARD_IMIN)). split; [lia|].
    apply elem_of_seq. board_consts. lia.
Qed.

Lemma on_board_all_points (pt : Z) : on_board pt = true -> pt ∈ all_points.
Proof.
  intros H. apply on_board_range in H. apply all_points_range. board_consts. lia.
Qed.

Lemma all_codes_spec (P : Z -> Z -> Z -> Z -> bool) :
  all_codes P = true ->
  forall c0 c1 c2 c3, c0 ∈ codes -> c1 ∈ codes -> c2 ∈ codes -> c3 ∈ codes ->
  P c0 c1 c2 c3 = true.
Proof.
  unfold all_codes. intros H c0 c1 c2 c3 H0 H1 H2 H3.
  rewrite forallb_forall in H. apply list_elem_of_In in H0. specialize (H _ H0).
  rewrite forallb_forall in H. apply list_elem_of_In in H1. specialize (H _ H1).
  rewrite forallb_forall in H. apply list_elem_of_In in H2. specialize (H _ H2).
  rewrite forallb_forall in H. apply list_elem_of_In in H3. exact (H _ H3).
Qed.

Lemma slot_rule_spec op m0 m1 m2 m3 c_old c_new :
  slot_rule op m0 m1 m2 m3 c_old c_new = true ->
  forall c0 c1 c2 c3, c0 ∈ codes -> c1 ∈ codes -> c2 ∈ codes -> c3 ∈ codes ->
  op m0 (env_byte c_old c1 c2 c3) = env_byte c_new c1 c2 c3
  /\ op m1 (env_byte c0 c_old c2 c3) = env_byte c0 c_new c2 c3
  /\ op m2 (env_byte c0 c1 c_old c3) = env_byte c0 c1 c_new c3
  /\ op m3 (env_byte c0 c1 c2 c_old) = env_byte c0 c1 c2 c_new.
Proof.
  intros H c0 c1 c2 c3 H0 H1 H2 H3.
  pose proof (all_codes_spec _ H c0 c1 c2 c3 H0 H1 H2 H3) as HP. simpl in HP.
  rewrite !andb_true_iff, !Z.eqb_eq in HP. tauto.
Qed.

Lemma env_code_codes (p : Position) (q : Z) : env_code p q ∈ codes.
Proof.
  unfold env_code, codes.
  repeat match goal with |- context [if ?b then _ else _] => destruct b end;
    apply list_elem_of_In; simpl; tauto.
Qed.

Lemma compute_env4_0 (p : Position) (pt : Z) :
  compute_env4 p pt 0 =
  env_byte (env_code p (pt - 14)) (env_code p (pt + 1))
           (env_code p (pt + 14)) (env_code p (pt - 1)).
Proof.
  unfold compute_env4, env_byte, slot_bits. cbn [fold_left].
  replace (pt + rd delta 0) with (pt - 14) by reflexivity.
  replace (pt + rd delta (0 + 1)) with (pt + 1) by reflexivity.
  replace (pt + rd delta (0 + 2)) with (pt + 14) by reflexivity.
  replace (pt + rd delta (0 + 3)) with (pt - 1) by reflexivity.
  reflexivity.
Qed.

Lemma compute_env4_4 (p : Position) (pt : Z) :
  compute_env4 p pt 4 =
  env_byte (env_code p (pt - 13)) (env_code p (pt + 15))
           (env_code p (pt + 13)) (env_code p (pt - 15)).
Proof.
  unfold compute_env4, env_byte, slot_bits. cbn [fold_left].
  replace (pt + rd delta 4) with (pt - 13) by reflexivity.
  replace (pt + rd delta (4 + 1)) with (pt + 15) by reflexivity.
  replace (pt + rd delta (4 + 2)) with (pt + 13) by reflexivity.
  replace (pt + rd delta (4 + 3)) with (pt - 15) by reflexivity.
  reflexivity.
Qed.

Lemma length_upd (a : list Z) i f : length (upd a i f) = length a.
Proof. apply length_wr. Qed.

Lemma rd_upd (a : list Z) i j f :
  0 <= i < Z.of_nat (length a) -> 0 <= j ->
  rd (upd a i f) j = if Z.eq_dec i j then f (rd a j) else rd a j.
Proof.
  intros Hi Hj. unfold upd. destruct (Z.eq_dec i j) as [->|Hne].
  - now apply rd_wr_eq.
  - apply rd_wr_ne; lia.
Qed.

Lemma env_ok_with_iff (p : Position) :
  env_ok p <-> env_ok_with (env_code p) (env4 p) (env4d p).
Proof.
  unfold env_ok, env_ok_with.
  split; intros H z Hz; specialize (H z Hz);
    rewrite compute_env4_0, compute_env4_4 in *; exact H.
Qed.

Lemma env_ok_with_ext (code code' : Z -> Z) (e4 e4d : list Z) :
  (forall q, 0 <= q < BOARDSIZE -> code q = code' q) ->
  env_ok_with code e4 e4d -> env_ok_with code' e4 e4d.
Proof.
  intros Hext H z Hz. pose proof (on_board_range _ Hz) as Rz. board_consts.
  rewrite <- !Hext by lia. now apply H.
Qed.

Ltac use_slot_rule R Hc Hcold :=
  match goal with
  | |- _ _ (env_byte ?a ?b ?c ?d) = _ =>
      let R0 := fresh in let R1 := fresh in let R2 := fresh in let R3 := fresh in
      destruct (R a b c d) as (R0 & R1 & R2 & R3);
      [first [apply Hc | exact Hcold] ..
      | first [exact R0 | exact R1 | exact R2 | exact R3]]
  end.

(** The eight updates of [env_update] at [pt] keep the caches in step with
    a change of the code of [pt] from [c_old] to [c_new]. *)
Lemma env_update_with (p : Position) (code : Z -> Z) (pt : Z)
    op m0 m1 m2 m3 c_old c_new :
  Z.of_nat (length (env4 p)) = BOARDSIZE ->
  Z.of_nat (length (env4d p)) = BOARDSIZE ->
  env_ok_with code (env4 p) (env4d p) -> on_board pt = true ->
  (forall q, code q ∈ codes) -> code pt = c_old ->
  slot_rule op m0 m1 m2 m3 c_old c_new = true ->
  env_ok_with (fun q => if Z.eq_dec q pt then c_new else code q)
    (env4 (env_update p pt op m0 m1 m2 m3))
    (env4d (env_update p pt op m0 m1 m2 m3)).
Proof.
  intros Hl4 Hl4d Henv Hpt Hc Hold Hrule z Hz.
  pose proof (on_board_range _ Hpt) as Rpt.
  pose proof (on_board_range _ Hz) as Rz.
  destruct (Henv z Hz) as [Hz4 Hz4d].
  unfold env_update.
  cbn [env4 env4d set_color set_env4 set_env4d].
  assert (Hcold : c_old ∈ codes) by (rewrite <- Hold; apply Hc).
  assert (R : forall c0 c1 c2 c3, c0 ∈ codes -> c1 ∈ codes -> c2 ∈ codes -> c3 ∈ codes ->
    (op m0 (env_byte c_old c1 c2 c3) = env_byte c_new c1 c2 c3)
    /\ (op m1 (env_byte c0 c_old c2 c3) = env_byte c0 c_new c2 c3)
    /\ (op m2 (env_byte c0 c1 c_old c3) = env_byte c0 c1 c_new c3)
    /\ (op m3 (env_byte c0 c1 c2 c_old) = env_byte c0 c1 c2 c_new))
    by (apply slot_rule_spec; exact Hrule).
  board_consts. split.
  - rewrite !rd_upd by (rewrite ?length_upd; lia). rewrite Hz4.
    repeat match goal with |- context [Z.eq_dec ?a ?b] => destruct (Z.eq_dec a b) end;
      try lia; try reflexivity.
    + replace (z - 1) with pt by lia. rewrite Hold. use_slot_rule R Hc Hcold.
    + replace (z + 14) with pt by lia. rewrite Hold. use_slot_rule R Hc Hcold.
    + replace (z + 1) with pt by lia. rewrite Hold. use_slot_rule R Hc Hcold.
    + replace (z - 14) with pt by lia. rewrite Hold. use_slot_rule R Hc Hcold.
  - rewrite !rd_upd by (rewrite ?length_upd; lia). rewrite Hz4d.
    repeat match goal with |- context [Z.eq_dec ?a ?b] => destruct (Z.eq_dec a b) end;
      try lia; try reflexivity.
    + replace (z - 15) with pt by lia. rewrite Hold. use_slot_rule R Hc Hcold.
    + replace (z + 13) with pt by lia. rewrite Hold. use_slot_rule R Hc Hcold.
    + replace (z + 15) with pt by lia. rewrite Hold. use_slot_rule R Hc Hcold.
    + replace (z - 13) with pt by lia. rewrite Hold. use_slot_rule R Hc Hcold.
Qed.

(** *** Colours *)

Lemma colors_ok_length (c : list ascii) :
  colors_ok c = true -> Z.of_nat (length c) = BOARDSIZE.
Proof. unfold colors_ok. rewrite andb_true_iff, Z.eqb_eq. tauto. Qed.

Lemma colors_ok_valid (c : list ascii) (q : Z) :
  colors_ok c = true -> 0 <= q < BOARDSIZE -> valid_color q (rd c q) = true.
Proof.
  unfold colors_ok. rewrite andb_true_iff, forallb_seqZ. intros [_ H] Hq.
  apply H. lia.
Qed.

Lemma colors_ok_intro (c : list ascii) :
  Z.of_nat (length c) = BOARDSIZE ->
  (forall q, 0 <= q < BOARDSIZE -> valid_color q (rd c q) = true) ->
  colors_ok c = true.
Proof.
  intros Hl H. unfold colors_ok. rewrite andb_true_iff, forallb_seqZ, Z.eqb_eq.
  split; [easy|]. intros i Hi. apply H. lia.
Qed.

Lemma valid_color_cases (q : Z) (c : ascii) :
  valid_color q c = true ->
  (on_board q = true /\ (c = "."%char \/ c = "X"%char \/ c = "x"%char))
  \/ (on_board q = false /\ c = " "%char).
Proof.
  unfold valid_color. destruct (on_board q).
  - rewrite !orb_true_iff, !Ascii.eqb_eq. tauto.
  - rewrite Ascii.eqb_eq. tauto.
Qed.

Lemma colors_ok_stone (c : list ascii) (q : Z) :
  colors_ok c = true -> 0 <= q < BOARDSIZE ->
  rd c q = "X"%char \/ rd c q = "x"%char \/ rd c q = "."%char -> on_board q = true.
Proof.
  intros Hc Hq Hcol. pose proof (colors_ok_valid c q Hc Hq) as Hv.
  apply valid_color_cases in Hv as [[H _]|[_ H]]; [easy|].
  rewrite H in Hcol. destruct Hcol as [?|[?|?]]; discriminate.
Qed.

Lemma colors_ok_wr (c : list ascii) (pt : Z) (newc : ascii) :
  colors_ok c = true -> 0 <= pt < BOARDSIZE -> valid_color pt newc = true ->
  colors_ok (wr c pt newc) = true.
Proof.
  intros Hc Hpt Hv. pose proof (colors_ok_length c Hc) as Hl.
  apply colors_ok_intro; [now rewrite length_wr|].
  intros q Hq. destruct (Z.eq_dec pt q) as [->|Hne].
  - rewrite rd_wr_eq by lia. exact Hv.
  - rewrite rd_wr_ne by lia. now apply colors_ok_valid.
Qed.

(** *** Parity *)

Lemma rem2_succ (x : Z) : (Z.rem (x + 1) 2 =? 0) = negb (Z.rem x 2 =? 0).
Proof.
  pose proof (Z.rem_mod_eq_0 x 2 ltac:(lia)) as H1.
  pose proof (Z.rem_mod_eq_0 (x + 1) 2 ltac:(lia)) as H2.
  pose proof (Z_div_mod_eq_full x 2). pose proof (Z_div_mod_eq_full (x + 1) 2).
  pose proof (Z.mod_pos_bound x 2 ltac:(lia)).
  pose proof (Z.mod_pos_bound (x + 1) 2 ltac:(lia)).
  destruct (Z.rem (x + 1) 2 =? 0) eqn:E1; destruct (Z.rem x 2 =? 0) eqn:E2;
    try reflexivity; rewrite ?Z.eqb_eq, ?Z.eqb_neq in *; lia.
Qed.

Lemma rem2_pred (x : Z) : (Z.rem (x - 1) 2 =? 0) = negb (Z.rem x 2 =? 0).
Proof.
  rewrite <- (negb_involutive (Z.rem (x - 1) 2 =? 0)). f_equal.
  rewrite <- rem2_succ. f_equal. f_equal. lia.
Qed.

(** *** [put_stone] and [remove_stone] *)

Lemma put_stone_fields (p : Position) (pt : Z) :
  color (put_stone p pt) = wr (color p) pt "X"%char
  /\ n (put_stone p pt) = n p /\ ko (put_stone p pt) = ko p
  /\ ko_old (put_stone p pt) = ko_old p /\ last (put_stone p pt) = last p
  /\ last2 (put_stone p pt) = last2 p /\ last3 (put_stone p pt) = last3 p
  /\ komi (put_stone p pt) = komi p /\ cap (put_stone p pt) = cap p
  /\ capX (put_stone p pt) = capX p
  /\ length (env4 (put_stone p pt)) = length (env4 p)
  /\ length (env4d (put_stone p pt)) = length (env4d p).
Proof.
  unfold put_stone, env_update.
  destruct (Z.rem (n p) 2 =? 0); cbn; rewrite !length_upd; repeat split.
Qed.

Lemma remove_stone_fields (p : Position) (pt : Z) :
  color (remove_stone p pt) = wr (color p) pt "."%char
  /\ n (remove_stone p pt) = n p /\ ko (remove_stone p pt) = ko p
  /\ ko_old (remove_stone p pt) = ko_old p /\ last (remove_stone p pt) = last p
  /\ last2 (remove_stone p pt) = last2 p /\ last3 (remove_stone p pt) = last3 p
  /\ komi (remove_stone p pt) = komi p /\ cap (remove_stone p pt) = cap p
  /\ capX (remove_stone p pt) = capX p
  /\ length (env4 (remove_stone p pt)) = length (env4 p)
  /\ length (env4d (remove_stone p pt)) = length (env4d p).
Proof.
  unfold remove_stone, env_update.
  destruct (Z.rem (n p) 2 =? 0); cbn; rewrite !length_upd; repeat split.
Qed.

Lemma slot_rule_put_black : slot_rule xor_with 0x11 0x22 0x44 0x88 2 1 = true.
Proof. vm_compute. reflexivity. Qed.

Lemma slot_rule_put_white : slot_rule and_with 0xEE 0xDD 0xBB 0x77 2 0 = true.
Proof. vm_compute. reflexivity. Qed.

Lemma slot_rule_remove_white : slot_rule or_with 0x10 0x20 0x40 0x80 0 2 = true.
Proof. vm_compute. reflexivity. Qed.

Lemma slot_rule_remove_black : slot_rule xor_with 0x11 0x22 0x44 0x88 1 2 = true.
Proof. vm_compute. reflexivity. Qed.

Lemma put_stone_env_with (p : Position) (code : Z -> Z) (pt : Z) :
  Z.of_nat (length (env4 p)) = BOARDSIZE ->
  Z.of_nat (length (env4d p)) = BOARDSIZE ->
  env_ok_with code (env4 p) (env4d p) -> on_board pt = true ->
  (forall q, code q ∈ codes) -> code pt = 2 ->
  env_ok_with
    (fun q => if Z.eq_dec q pt then (if Z.rem (n p) 2 =? 0 then 1 else 0) else code q)
    (env4 (put_stone p pt)) (env4d (put_stone p pt)).
Proof.
  intros Hl4 Hl4d Henv Hpt Hc Hold. unfold put_stone.
  destruct (Z.rem (n p) 2 =? 0); cbn [env4 env4d set_color].
  - now apply env_update_with with (c_old := 2); try apply slot_rule_put_black.
  - now apply env_update_with with (c_old := 2); try apply slot_rule_put_white.
Qed.

Lemma remove_stone_env_with (p : Position) (code : Z -> Z) (pt : Z) :
  Z.of_nat (length (env4 p)) = BOARDSIZE ->
  Z.of_nat (length (env4d p)) = BOARDSIZE ->
  env_ok_with code (env4 p) (env4d p) -> on_board pt = true ->
  (forall q, code q ∈ codes) ->
  code pt = (if Z.rem (n p) 2 =? 0 then 0 else 1) ->
  env_ok_with (fun q => if Z.eq_dec q pt then 2 else code q)
    (env4 (remove_stone p pt)) (env4d (remove_stone p pt)).
Proof.
  intros Hl4 Hl4d Henv Hpt Hc Hold. unfold remove_stone.
  destruct (Z.rem (n p) 2 =? 0); cbn [env4 env4d set_color].
  - now apply env_update_with with (c_old := 0); try apply slot_rule_remove_white.
  - now apply env_update_with with (c_old := 1); try apply slot_rule_remove_black.
Qed.

(** *** The invariant *)

Lemma env4_OK_env_ok (p : Position) :
  colors_ok (color p) = true -> (env4_OK p = 1 <-> env_ok p).
Proof.
  intros Hc. unfold env4_OK, env_ok.
  destruct (forallb _ all_points) eqn:Hall.
  - split; [intros _|easy]. rewrite forallb_forall in Hall. intros pt Hpt.
    specialize (Hall pt (proj1 (list_elem_of_In _ _) (on_board_all_points pt Hpt))).
    pose proof (on_board_range _ Hpt) as Rpt.
    pose proof (colors_ok_valid _ pt Hc ltac:(board_consts; lia)) as Hv.
    apply valid_color_cases in Hv as [[_ Hv]|[Hv _]]; [|congruence].
    destruct (Ascii.eqb_spec (rd (color p) pt) " ") as [Heq|_].
    + rewrite Heq in Hv. destruct Hv as [?|[?|?]]; discriminate.
    + now rewrite andb_true_iff, !Z.eqb_eq in Hall.
  - split; [discriminate|]. intros H. exfalso.
    apply not_true_iff_false in Hall. apply Hall. apply forallb_forall.
    intros pt Hpt. apply list_elem_of_In, all_points_range in Hpt.
    destruct (Ascii.eqb_spec (rd (color p) pt) " ") as [|Hne]; [easy|].
    pose proof (colors_ok_valid _ pt Hc ltac:(board_consts; lia)) as Hv.
    apply valid_color_cases in Hv as [[Hv _]|[_ Hv]]; [|congruence].
    destruct (H pt Hv) as [-> ->]. now rewrite !Z.eqb_refl.
Qed.

Lemma board_ok_spec (p : Position) :
  board_ok p = true <->
  colors_ok (color p) = true
  /\ Z.of_nat (length (env4 p)) = BOARDSIZE
  /\ Z.of_nat (length (env4d p)) = BOARDSIZE
  /\ env_ok p.
Proof.
  unfold board_ok. rewrite !andb_true_iff, !Z.eqb_eq. split.
  - intros [[[Hc H4] H4d] He]. split_and!; try easy. now apply env4_OK_env_ok.
  - intros (Hc & H4 & H4d & He). split_and!; try easy. now apply env4_OK_env_ok.
Qed.

Lemma env_code_code_of (p : Position) (q : Z) :
  env_code p q = code_of (Z.rem (n p) 2 =? 0) (rd (color p) q).
Proof. reflexivity. Qed.

Lemma env_code_ext (p p' : Position) (q : Z) :
  color p = color p' -> n p = n p' -> env_code p q = env_code p' q.
Proof. intros Hc Hn. unfold env_code. now rewrite Hc, Hn. Qed.

Lemma env_ok_ext (p p' : Position) :
  color p = color p' -> env4 p = env4 p' -> env4d p = env4d p' -> n p = n p' ->
  env_ok p -> env_ok p'.
Proof.
  intros Hc H4 H4d Hn. rewrite !env_ok_with_iff. rewrite <- H4, <- H4d.
  apply env_ok_with_ext. intros q _. now apply env_code_ext.
Qed.

Lemma board_ok_ext (p p' : Position) :
  color p = color p' -> env4 p = env4 p' -> env4d p = env4d p' -> n p = n p' ->
  board_ok p = true -> board_ok p' = true.
Proof.
  intros Hc H4 H4d Hn. rewrite !board_ok_spec. rewrite <- Hc, <- H4, <- H4d.
  intros (? & ? & ? & He). split_and!; try easy.
  now apply (env_ok_ext p p').
Qed.

Lemma valid_color_stone (pt : Z) (c : ascii) :
  on_board pt = true -> c = "."%char \/ c = "X"%char \/ c = "x"%char ->
  valid_color pt c = true.
Proof.
  intros Hpt Hc. unfold valid_color. rewrite Hpt.
  destruct Hc as [->|[->| ->]]; reflexivity.
Qed.

Lemma put_stone_ok (p : Position) (pt : Z) :
  board_ok p = true -> on_board pt = true -> rd (color p) pt = "."%char ->
  board_ok (put_stone p pt) = true.
Proof.
  rewrite !board_ok_spec. intros (Hc & H4 & H4d & He) Hpt Hcol.
  pose proof (on_board_range _ Hpt) as Rpt.
  pose proof (colors_ok_length _ Hc) as Hl.
  destruct (put_stone_fields p pt) as (Hcolor & Hn & _ & _ & _ & _ & _ & _ & _ & _ & L4 & L4d).
  rewrite Hcolor, L4, L4d. split_and!; try easy.
  - apply colors_ok_wr; [easy|board_consts; lia|].
    apply valid_color_stone; tauto.
  - apply env_ok_with_iff. apply env_ok_with_iff in He.
    apply (env_ok_with_ext (fun q => if Z.eq_dec q pt
             then (if Z.rem (n p) 2 =? 0 then 1 else 0) else env_code p q));
      [|apply put_stone_env_with; try assumption].
    + intros q Hq. cbv beta. rewrite !env_code_code_of, Hcolor, Hn.
      destruct (Z.eq_dec q pt) as [->|Hne].
      * rewrite rd_wr_eq by (board_consts; lia).
        now destruct (Z.rem (n p) 2 =? 0).
      * rewrite rd_wr_ne by (board_consts; lia). reflexivity.
    + apply env_code_codes.
    + unfold env_code. now rewrite Hcol.
Qed.

(** [remove_stone] on a position whose move number may have been bumped:
    the caches are those of the position with the parity [even]. *)
Lemma remove_stone_env_gen (p : Position) (pt : Z) (c : ascii) (shift : Z) :
  colors_ok (color p) = true ->
  Z.of_nat (length (env4 p)) = BOARDSIZE ->
  Z.of_nat (length (env4d p)) = BOARDSIZE ->
  env_ok (set_n p (n p + shift)) -> on_board pt = true ->
  env_code (set_n p (n p + shift)) pt = (if Z.rem (n p) 2 =? 0 then 0 else 1) ->
  env_ok (set_n (remove_stone p pt) (n p + shift)).
Proof.
  intros Hc H4 H4d He Hpt Hcode.
  pose proof (on_board_range _ Hpt) as Rpt.
  pose proof (colors_ok_length _ Hc) as Hl.
  destruct (remove_stone_fields p pt) as (Hcolor & Hn & _).
  apply env_ok_with_iff. apply env_ok_with_iff in He.
  cbn [env4 env4d set_n] in *.
  apply (env_ok_with_ext (fun q => if Z.eq_dec q pt then 2
           else env_code (set_n p (n p + shift)) q));
    [|apply remove_stone_env_with; try assumption].
  - intros q Hq. cbv beta. rewrite !env_code_code_of. cbn [color n set_n].
    rewrite Hcolor.
    destruct (Z.eq_dec q pt) as [->|Hne].
    + rewrite rd_wr_eq by (board_consts; lia). reflexivity.
    + rewrite rd_wr_ne by (board_consts; lia). reflexivity.
  - intros q. apply env_code_codes.
Qed.

Lemma set_n_same (p : Position) : set_n p (n p) = p.
Proof. now destruct p. Qed.

Lemma set_n_set_n (p : Position) (a b : Z) : set_n (set_n p a) b = set_n p b.
Proof. reflexivity. Qed.

Lemma remove_stone_ok (p : Position) (pt : Z) :
  board_ok p = true -> on_board pt = true -> rd (color p) pt = "x"%char ->
  board_ok (remove_stone p pt) = true.
Proof.
  rewrite !board_ok_spec. intros (Hc & H4 & H4d & He) Hpt Hcol.
  pose proof (on_board_range _ Hpt) as Rpt.
  destruct (remove_stone_fields p pt) as (Hcolor & Hn & _ & _ & _ & _ & _ & _ & _ & _ & L4 & L4d).
  rewrite Hcolor, L4, L4d. split_and!; try easy.
  - apply colors_ok_wr; [easy|board_consts; lia|].
    apply valid_color_stone; tauto.
  - pose proof (remove_stone_env_gen p pt "x" 0 Hc H4 H4d) as H.
    rewrite Z.add_0_r, set_n_same in H.
    rewrite <- (set_n_same (remove_stone p pt)). rewrite Hn. apply H; try easy.
    unfold env_code. rewrite Hcol. simpl. now destruct (Z.rem (n p) 2 =? 0).
Qed.

Lemma remove_X_stone_ok (p : Position) (pt : Z) :
  board_ok p = true -> on_board pt = true -> rd (color p) pt = "X"%char ->
  board_ok (remove_X_stone p pt) = true.
Proof.
  rewrite !board_ok_spec. intros (Hc & H4 & H4d & He) Hpt Hcol.
  pose proof (on_board_range _ Hpt) as Rpt.
  unfold remove_X_stone.
  destruct (remove_stone_fields (set_n p (n p + 1)) pt)
    as (Hcolor & Hn & _ & _ & _ & _ & _ & _ & _ & _ & L4 & L4d).
  cbn [color env4 env4d n set_n] in *.
  rewrite Hcolor, L4, L4d. split_and!; try easy.
  - apply colors_ok_wr; [easy|board_consts; lia|].
    apply valid_color_stone; tauto.
  - pose proof (remove_stone_env_gen (set_n p (n p + 1)) pt "X" (-1)) as H.
    cbn [color env4 env4d n set_n] in H.
    rewrite Hn.
    rewrite set_n_set_n in H.
    replace (n p + 1 + -1) with (n p) in H by lia. rewrite set_n_same in H.
    replace (set_n (remove_stone (set_n p (n p + 1)) pt) (n p + 1 - 1))
      with (set_n (remove_stone (set_n p (n p + 1)) pt) (n p))
      by (f_equal; lia).
    apply H; try easy.
    unfold env_code. rewrite Hcol, rem2_succ. simpl.
    now destruct (Z.rem (n p) 2 =? 0).
Qed.

(** *** [swap_color] *)

Lemma fold_wr_length {A} `{Inhabited A} (f : A -> A) (pts : list Z) : forall c : list A,
  length (fold_left (fun c pt => wr c pt (f (rd c pt))) pts c) = length c.
Proof.
  induction pts as [|x pts IH]; intros c; simpl; [easy|].
  now rewrite IH, length_wr.
Qed.

Lemma fold_wr_rd {A} `{Inhabited A} (f : A -> A) (pts : list Z) : forall (c : list A) q,
  NoDup pts -> (forall x, x ∈ pts -> 0 <= x < Z.of_nat (length c)) -> 0 <= q ->
  rd (fold_left (fun c pt => wr c pt (f (rd c pt))) pts c) q
  = if decide (q ∈ pts) then f (rd c q) else rd c q.
Proof.
  induction pts as [|x pts IH]; intros c q Hnd Hr Hq; simpl.
  - destruct (decide (q ∈ [])) as [Hin|_]; [inversion Hin|easy].
  - apply NoDup_cons in Hnd as [Hx Hnd].
    assert (Hxr : 0 <= x < Z.of_nat (length c)) by (apply Hr; left).
    rewrite IH; [|easy| |easy].
    2:{ intros y Hy. rewrite length_wr. apply Hr. now right. }
    destruct (decide (q ∈ pts)) as [Hin|Hnin].
    + assert (x <> q) by (intros ->; contradiction).
      rewrite rd_wr_ne by lia.
      destruct (decide (q ∈ x :: pts)) as [_|Hn]; [easy|].
      exfalso. apply Hn. now right.
    + destruct (Z.eq_dec x q) as [->|Hne].
      * rewrite rd_wr_eq by lia.
        destruct (decide (q ∈ q :: pts)) as [_|Hn]; [easy|].
        exfalso. apply Hn. left.
      * rewrite rd_wr_ne by lia.
        destruct (decide (q ∈ x :: pts)) as [Hin|_]; [|easy].
        apply elem_of_cons in Hin as [->|Hin]; [lia|contradiction].
Qed.

Lemma NoDup_all_points : NoDup all_points.
Proof.
  unfold all_points. apply NoDup_fmap_2; [|apply NoDup_seq].
  intros a b Hab. lia.
Qed.

Lemma SWAP_CASE_involutive (c : ascii) : SWAP_CASE (SWAP_CASE c) = c.
Proof.
  unfold SWAP_CASE.
  destruct (Ascii.eqb_spec c "X") as [->|H1]; [reflexivity|].
  destruct (Ascii.eqb_spec c "x") as [->|H2]; [reflexivity|].
  apply Ascii.eqb_neq in H1, H2. now rewrite H1, H2.
Qed.

Lemma swap_color_fields (p : Position) :
  env4 (swap_color p) = env4 p /\ env4d (swap_color p) = env4d p
  /\ n (swap_color p) = n p /\ ko (swap_color p) = ko p
  /\ ko_old (swap_color p) = ko_old p /\ last (swap_color p) = last p
  /\ last2 (swap_color p) = last2 p /\ last3 (swap_color p) = last3 p
  /\ komi (swap_color p) = komi p /\ cap (swap_color p) = cap p
  /\ capX (swap_color p) = capX p.
Proof. repeat split. Qed.

Lemma swap_colors_length (c : list ascii) : length (swap_colors c) = length c.
Proof. unfold swap_colors. apply fold_wr_length. Qed.

Lemma swap_colors_rd (c : list ascii) (q : Z) :
  colors_ok c = true -> 0 <= q < BOARDSIZE ->
  rd (swap_colors c) q = SWAP_CASE (rd c q).
Proof.
  intros Hc Hq. pose proof (colors_ok_length _ Hc) as Hl.
  unfold swap_colors.
  rewrite fold_wr_rd; [|apply NoDup_all_points| |lia].
  2:{ intros x Hx. apply all_points_range in Hx. board_consts. lia. }
  destruct (decide (q ∈ all_points)) as [_|Hn]; [easy|].
  pose proof (colors_ok_valid _ q Hc Hq) as Hv.
  apply valid_color_cases in Hv as [[Hv _]|[_ ->]]; [|reflexivity].
  exfalso. apply Hn. now apply on_board_all_points.
Qed.

Lemma swap_color_length (p : Position) :
  length (color (swap_color p)) = length (color p).
Proof. unfold swap_color. cbn [color set_color]. apply swap_colors_length. Qed.

Lemma swap_color_rd (p : Position) (q : Z) :
  colors_ok (color p) = true -> 0 <= q < BOARDSIZE ->
  rd (color (swap_color p)) q = SWAP_CASE (rd (color p) q).
Proof. unfold swap_color. cbn [color set_color]. apply swap_colors_rd. Qed.

Lemma valid_color_swap (q : Z) (c : ascii) :
  valid_color q c = true -> valid_color q (SWAP_CASE c) = true.
Proof.
  intros Hv. apply valid_color_cases in Hv as [[Hq [->|[->| ->]]]|[Hq ->]];
    unfold valid_color; rewrite Hq; reflexivity.
Qed.

Lemma swap_color_colors_ok (p : Position) :
  colors_ok (color p) = true -> colors_ok (color (swap_color p)) = true.
Proof.
  intros Hc. apply colors_ok_intro.
  - rewrite swap_color_length. now apply colors_ok_length.
  - intros q Hq. rewrite swap_color_rd by easy.
    apply valid_color_swap. now apply colors_ok_valid.
Qed.

Lemma code_of_swap (even : bool) (q : Z) (c : ascii) :
  valid_color q c = true -> code_of (negb even) (SWAP_CASE c) = code_of even c.
Proof.
  intros Hv. apply valid_color_cases in Hv as [[Hq [->|[->| ->]]]|[Hq ->]];
    now destruct even.
Qed.

(** Swapping the colours and changing the parity of the move number leaves
    the code of every point as it is. *)
Lemma swap_env_ok (p : Position) (m : Z) :
  colors_ok (color p) = true ->
  (Z.rem m 2 =? 0) = negb (Z.rem (n p) 2 =? 0) ->
  env_ok p -> env_ok (set_n (swap_color p) m).
Proof.
  intros Hc Hm. rewrite !env_ok_with_iff. cbn [env4 env4d set_n].
  apply env_ok_with_ext. intros q Hq.
  rewrite !env_code_code_of. cbn [n color set_n].
  rewrite Hm, swap_color_rd by easy. symmetry. apply (code_of_swap _ q).
  now apply colors_ok_valid.
Qed.

Lemma swap_board_ok (p : Position) (m : Z) :
  (Z.rem m 2 =? 0) = negb (Z.rem (n p) 2 =? 0) ->
  board_ok p = true -> board_ok (set_n (swap_color p) m) = true.
Proof.
  intros Hm. rewrite !board_ok_spec. intros (Hc & H4 & H4d & He).
  cbn [env4 env4d color set_n]. split_and!; try easy.
  - now apply swap_color_colors_ok.
  - now apply swap_env_ok.
Qed.

(** *** [empty_position] *)

Lemma empty_color_ok : colors_ok empty_color = true.
Proof. vm_compute. reflexivity. Qed.

Lemma empty_color_rd (q : Z) :
  0 <= q < BOARDSIZE ->
  rd empty_color q = if on_board q then "."%char else " "%char.
Proof.
  intros Hq.
  assert (H : forallb (fun q => (rd empty_color q =? if on_board q then "." else " ")%char)
                (seqZ 0 BOARDSIZE) = true) by (vm_compute; reflexivity).
  rewrite forallb_seqZ in H. apply Ascii.eqb_eq. apply H. lia.
Qed.

Lemma compute_env4_ext (p p' : Position) (pt off : Z) :
  color p = color p' -> n p = n p' -> compute_env4 p pt off = compute_env4 p' pt off.
Proof.
  intros Hc Hn. unfold compute_env4. cbn [fold_left].
  now rewrite !(env_code_ext p p') by easy.
Qed.

Lemma fill_env_fields (p : Position) (x : Z) :
  color (fill_env p x) = color p /\ n (fill_env p x) = n p
  /\ ko (fill_env p x) = ko p /\ ko_old (fill_env p x) = ko_old p
  /\ last (fill_env p x) = last p /\ last2 (fill_env p x) = last2 p
  /\ last3 (fill_env p x) = last3 p /\ komi (fill_env p x) = komi p
  /\ cap (fill_env p x) = cap p /\ capX (fill_env p x) = capX p
  /\ length (env4 (fill_env p x)) = length (env4 p)
  /\ length (env4d (fill_env p x)) = length (env4d p).
Proof.
  unfold fill_env. destruct (rd (color p) x =? " ")%char; cbn;
    rewrite ?length_wr; repeat split.
Qed.

Lemma fill_env_fold (p : Position) (pts : list Z) :
  Z.of_nat (length (env4 p)) = BOARDSIZE ->
  Z.of_nat (length (env4d p)) = BOARDSIZE ->
  (forall x, x ∈ pts -> 0 <= x < BOARDSIZE) ->
  let p' := fold_left fill_env pts p in
  color p' = color p /\ n p' = n p /\ ko p' = ko p /\ ko_old p' = ko_old p
  /\ last p' = last p /\ last2 p' = last2 p /\ last3 p' = last3 p
  /\ komi p' = komi p /\ cap p' = cap p /\ capX p' = capX p
  /\ length (env4 p') = length (env4 p) /\ length (env4d p') = length (env4d p)
  /\ forall q, q ∈ pts -> rd (color p) q <> " "%char ->
       rd (env4 p') q = compute_env4 p q 0 /\ rd (env4d p') q = compute_env4 p q 4.
Proof.
  intros H4 H4d. induction pts as [|x pts IH] using rev_ind; intros Hr.
  - cbn. split_and!; try reflexivity. intros q Hq. inversion Hq.
  - rewrite fold_left_app. cbn [fold_left].
    assert (Hx : 0 <= x < BOARDSIZE).
    { apply Hr. apply elem_of_app. right. left. }
    destruct IH as (Ic & In' & Iko & Iko' & Il & Il2 & Il3 & Ikomi & Icap & IcapX & I4 & I4d & Ienv).
    { intros y Hy. apply Hr. apply elem_of_app. now left. }
    set (p1 := fold_left fill_env pts p) in *.
    destruct (fill_env_fields p1 x)
      as (Sc & Sn & Sko & Sko' & Sl & Sl2 & Sl3 & Skomi & Scap & ScapX & S4 & S4d).
    cbv zeta. split_and!; try congruence.
    intros q Hq Hcol. unfold fill_env.
    destruct (Ascii.eqb_spec (rd (color p1) x) " ") as [Hsp|Hnsp].
    + apply elem_of_app in Hq as [Hq|Hq]; [now apply Ienv|].
      apply list_elem_of_singleton in Hq as ->. congruence.
    + cbn [env4 env4d set_env4 set_env4d].
      destruct (Z.eq_dec x q) as [->|Hne].
      * rewrite !rd_wr_eq by lia. split; now apply compute_env4_ext.
      * assert (0 <= q).
        { assert (0 <= q < BOARDSIZE) by now apply Hr. lia. }
        rewrite !rd_wr_ne by lia.
        apply elem_of_app in Hq as [Hq|Hq]; [now apply Ienv|].
        apply list_elem_of_singleton in Hq. congruence.
Qed.

Lemma empty_position_unfold (pos : Position) :
  fst (empty_position pos) =
  let p2 := fold_left fill_env all_points (set_color pos empty_color) in
  set_komi (set_n (set_capX (set_cap (set_ko (set_last (set_last2 p2 0) 0) 0) 0) 0) 0)
           7.5%float.
Proof. reflexivity. Qed.

Lemma env_code_empty (p p' : Position) (q : Z) :
  color p = empty_color -> color p' = empty_color -> 0 <= q < BOARDSIZE ->
  env_code p q = env_code p' q.
Proof.
  intros Hc Hc' Hq. rewrite !env_code_code_of, Hc, Hc', empty_color_rd by easy.
  now destruct (on_board q), (Z.rem (n p) 2 =? 0), (Z.rem (n p') 2 =? 0).
Qed.

Lemma compute_env4_empty (p p' : Position) (pt : Z) :
  color p = empty_color -> color p' = empty_color -> on_board pt = true ->
  compute_env4 p pt 0 = compute_env4 p' pt 0
  /\ compute_env4 p pt 4 = compute_env4 p' pt 4.
Proof.
  intros Hc Hc' Hpt. pose proof (on_board_range _ Hpt) as R.
  rewrite !compute_env4_0, !compute_env4_4.
  split; f_equal; apply env_code_empty; try easy; board_consts; lia.
Qed.

(** The position that [empty_position] leaves: the colours of the empty
    board, caches that agree with them, and the scalar fields. *)
Lemma empty_position_state (pos : Position) :
  Z.of_nat (length (env4 pos)) = BOARDSIZE ->
  Z.of_nat (length (env4d pos)) = BOARDSIZE ->
  let pos' := fst (empty_position pos) in
  color pos' = empty_color
  /\ Z.of_nat (length (env4 pos')) = BOARDSIZE
  /\ Z.of_nat (length (env4d pos')) = BOARDSIZE
  /\ env_ok pos'
  /\ ko pos' = 0 /\ last pos' = 0 /\ last2 pos' = 0
  /\ cap pos' = 0 /\ capX pos' = 0 /\ n pos' = 0 /\ komi pos' = 7.5%float
  /\ last3 pos' = last3 pos /\ ko_old pos' = ko_old pos.
Proof.
  intros H4 H4d pos'.
  subst pos'. rewrite empty_position_unfold.
  set (p1 := set_color pos empty_color).
  assert (H41 : Z.of_nat (length (env4 p1)) = BOARDSIZE) by exact H4.
  assert (H4d1 : Z.of_nat (length (env4d p1)) = BOARDSIZE) by exact H4d.
  assert (Hcol1 : color p1 = empty_color) by reflexivity.
  assert (Hl3 : last3 p1 = last3 pos) by reflexivity.
  assert (Hko' : ko_old p1 = ko_old pos) by reflexivity.
  clearbody p1.
  destruct (fill_env_fold p1 all_points H41 H4d1)
    as (Ic & In' & Iko & Iko' & Il & Il2 & Il3 & Ikomi & Icap & IcapX & I4 & I4d & Ienv).
  { intros x Hx. apply all_points_range in Hx. board_consts. lia. }
  set (p2 := fold_left fill_env all_points p1) in *. clearbody p2. cbv zeta.
  set (E := set_komi _ _).
  assert (Ecol : color E = color p2) by reflexivity.
  assert (E4 : env4 E = env4 p2) by reflexivity.
  assert (E4d : env4d E = env4d p2) by reflexivity.
  assert (Eko : ko E = 0) by reflexivity.
  assert (Elast : last E = 0) by reflexivity.
  assert (Elast2 : last2 E = 0) by reflexivity.
  assert (Ecap : cap E = 0) by reflexivity.
  assert (EcapX : capX E = 0) by reflexivity.
  assert (En : n E = 0) by reflexivity.
  assert (Ekomi : komi E = 7.5%float) by reflexivity.
  assert (El3 : last3 E = last3 p2) by reflexivity.
  assert (Eko' : ko_old E = ko_old p2) by reflexivity.
  clearbody E.
  assert (Hcol : color E = empty_color) by congruence.
  assert (Henv : env_ok E).
  { intros z Hz. rewrite E4, E4d.
    pose proof (on_board_range _ Hz) as Rz.
    destruct (Ienv z) as [-> ->].
    - now apply on_board_all_points.
    - rewrite Hcol1, empty_color_rd by (board_consts; lia).
      now rewrite Hz.
    - apply compute_env4_empty; [exact Hcol1|exact Hcol|exact Hz]. }
  split; [exact Hcol|].
  split; [rewrite E4, I4; exact H41|].
  split; [rewrite E4d, I4d; exact H4d1|].
  split; [exact Henv|].
  split_and!; congruence.
Qed.

(** C10. [empty_position] gives the empty board: the border is OUT and the
    inside EMPTY, the caches are rebuilt, [ko], [last], [last2], [cap], [capX]
    and [n] are zero and [komi] is 7.5; [last3] and [ko_old] keep the values
    they had before the call. *)
Theorem empty_position_spec (pos : Position) :
  Z.of_nat (length (env4 pos)) = BOARDSIZE ->
  Z.of_nat (length (env4d pos)) = BOARDSIZE ->
  let pos' := fst (empty_position pos) in
  snd (empty_position pos) = ""%string
  /\ Z.of_nat (length (color pos')) = BOARDSIZE
  /\ Z.of_nat (length (env4 pos')) = BOARDSIZE
  /\ Z.of_nat (length (env4d pos')) = BOARDSIZE
  /\ (forall pt, 0 <= pt < BOARDSIZE ->
        rd (color pos') pt = if on_board pt then "."%char else " "%char)
  /\ env4_OK pos' = 1
  /\ (forall pt, on_board pt = true ->
        rd (env4 pos') pt = compute_env4 pos' pt 0
        /\ rd (env4d pos') pt = compute_env4 pos' pt 4)
  /\ ko pos' = 0 /\ last pos' = 0 /\ last2 pos' = 0
  /\ cap pos' = 0 /\ capX pos' = 0 /\ n pos' = 0 /\ komi pos' = 7.5%float
  /\ last3 pos' = last3 pos /\ ko_old pos' = ko_old pos.
Proof.
  intros H4 H4d pos'. split; [reflexivity|].
  pose proof (empty_position_state pos H4 H4d) as H. cbv zeta in H.
  subst pos'. revert H. generalize (fst (empty_position pos)).
  intros E (Hcol & L4 & L4d & Henv & Hrest).
  split; [rewrite Hcol; exact (colors_ok_length _ empty_color_ok)|].
  split; [exact L4|]. split; [exact L4d|].
  split; [intros pt Hpt; rewrite Hcol; now apply empty_color_rd|].
  split.
  { apply env4_OK_env_ok; [|exact Henv]. rewrite Hcol. exact empty_color_ok. }
  split; [exact Henv|]. exact Hrest.
Qed.

Lemma empty_position_board_ok (pos : Position) :
  Z.of_nat (length (env4 pos)) = BOARDSIZE ->
  Z.of_nat (length (env4d pos)) = BOARDSIZE ->
  board_ok (fst (empty_position pos)) = true.
Proof.
  intros H4 H4d.
  pose proof (empty_position_state pos H4 H4d) as H. cbv zeta in H.
  revert H. generalize (fst (empty_position pos)).
  intros E (Hcol & L4 & L4d & Henv & _).
  apply board_ok_spec. split; [rewrite Hcol; exact empty_color_ok|].
  split; [exact L4|]. split; [exact L4d|exact Henv].
Qed.

(** *** Blocks: [compute_block] *)

Lemma neighbors_eq (pt : Z) : neighbors pt = [pt - 14; pt + 1; pt + 14; pt - 1].
Proof. unfold neighbors. cbn. repeat f_equal; lia. Qed.

Lemma adj_spec (a b : Z) :
  adj a b <-> b = a - 14 \/ b = a + 1 \/ b = a + 14 \/ b = a - 1.
Proof.
  unfold adj. rewrite neighbors_eq. rewrite !elem_of_cons, elem_of_nil. tauto.
Qed.

Lemma adj_range (a b : Z) : on_board a = true -> adj a b -> 0 <= b < BOARDSIZE.
Proof.
  intros Ha Hab. apply on_board_range in Ha. apply adj_spec in Hab.
  board_consts. lia.
Qed.

Lemma adj_sym (a b : Z) : adj a b -> adj b a.
Proof. rewrite !adj_spec. lia. Qed.

Lemma is_marked_mark (m : Mark) (q q' : Z) :
  0 <= q < Z.of_nat (length (marks m)) -> 0 <= q' ->
  is_marked (mark m q) q' = if Z.eq_dec q q' then true else is_marked m q'.
Proof.
  intros Hq Hq'. unfold is_marked, mark. cbn [marks value].
  destruct (Z.eq_dec q q') as [->|Hne].
  - rewrite rd_wr_eq by lia. apply Z.eqb_refl.
  - now rewrite rd_wr_ne by lia.
Qed.

Lemma NoDup_range_length (l : list Z) (b : Z) :
  0 <= b -> NoDup l -> (forall x, x ∈ l -> 0 <= x < b) -> Z.of_nat (length l) <= b.
Proof.
  intros Hb Hnd Hr.
  assert (Hsub : l ⊆+ seqZ 0 b).
  { apply NoDup_submseteq; [easy|]. intros x Hx. apply elem_of_seqZ.
    specialize (Hr x Hx). lia. }
  apply submseteq_length in Hsub. rewrite length_seqZ in Hsub. lia.
Qed.

Lemma is_marked_mono (m : Mark) (q q' : Z) :
  0 <= q < Z.of_nat (length (marks m)) -> 0 <= q' ->
  is_marked m q' = true -> is_marked (mark m q) q' = true.
Proof.
  intros Hq Hq' H. rewrite is_marked_mark by easy. now destruct (Z.eq_dec q q').
Qed.

(** Marking a point [q] that is not yet marked keeps the part of the
    invariant that does not depend on where [q] is filed. *)
Lemma block_inv_mark (c : list ascii) (pt0 v : Z) (m : Mark)
    (stones libs stones' libs' : list Z) (tail : nat) (q pt : Z) :
  colors_ok c = true -> rd c pt0 <> "."%char ->
  block_inv c pt0 v m stones libs tail ->
  0 <= q < BOARDSIZE -> is_marked m q = false ->
  pt ∈ stones -> adj pt q ->
  (rd c q = rd c pt0 /\ stones' = stones ++ [q] /\ libs' = libs
   \/ rd c q <> rd c pt0 /\ rd c q = "."%char /\ stones' = stones /\ libs' = libs ++ [q]
   \/ rd c q <> rd c pt0 /\ rd c q <> "."%char /\ stones' = stones /\ libs' = libs) ->
  block_inv c pt0 v (mark m q) stones' libs' tail.
Proof.
  intros Hc Hseed Hinv Hq Hmq Hpt Hadj Hcase.
  destruct Hinv as [Hval Hlen Hle Hnd Hst Hconn Hlib Hms Hml Htail Hdone].
  assert (Hmono : forall x, 0 <= x -> is_marked m x = true ->
            is_marked (mark m q) x = true).
  { intros x Hx. apply is_marked_mono; lia. }
  assert (Hnew : is_marked (mark m q) q = true).
  { rewrite is_marked_mark by lia. now destruct (Z.eq_dec q q). }
  assert (Hqstones : q ∉ stones).
  { intros Hin. apply Hst in Hin. destruct Hin as (_ & _ & Hm). congruence. }
  assert (Hqlibs : q ∉ libs).
  { intros Hin. apply Hlib in Hin. destruct Hin as (_ & Hm & _). congruence. }
  assert (Hinvm : forall x, 0 <= x < BOARDSIZE ->
            is_marked (mark m q) x = true -> x = q \/ is_marked m x = true).
  { intros x Hx. rewrite is_marked_mark by lia.
    destruct (Z.eq_dec q x); [now left|now right]. }
  assert (Hstone_range : forall s, s ∈ stones -> 0 <= s < BOARDSIZE).
  { intros s Hs. destruct (Hst s Hs) as (Hb & _). apply on_board_range in Hb.
    board_consts. lia. }
  assert (Hsub : forall s, s ∈ stones -> s ∈ stones').
  { intros s Hs. destruct Hcase as [(_ & -> & _)|[(_ & _ & -> & _)|(_ & _ & -> & _)]];
      [apply elem_of_app; now left|easy|easy]. }
  constructor.
  - exact Hval.
  - unfold mark. cbn [marks]. now rewrite length_wr.
  - intros i Hi. unfold mark. cbn [marks].
    destruct (Z.eq_dec q i) as [->|Hne].
    + rewrite rd_wr_eq by lia. lia.
    + rewrite rd_wr_ne by lia. now apply Hle.
  - destruct Hcase as [(_ & -> & _)|[(_ & _ & -> & _)|(_ & _ & -> & _)]]; try exact Hnd.
    apply NoDup_app. split; [exact Hnd|]. split; [|apply NoDup_singleton].
    intros x Hx Hx'. apply list_elem_of_singleton in Hx' as ->. contradiction.
  - intros s Hs.
    assert (Hs' : s ∈ stones \/ (s = q /\ rd c q = rd c pt0)).
    { destruct Hcase as [(Hsame & -> & _)|[(_ & _ & -> & _)|(_ & _ & -> & _)]];
        [|now left|now left].
      apply elem_of_app in Hs as [Hs|Hs]; [now left|right].
      apply list_elem_of_singleton in Hs. now split. }
    destruct Hs' as [Hs'|[-> Hsame]].
    + destruct (Hst s Hs') as (Hb & Hcs & Hm). split; [exact Hb|]. split; [exact Hcs|].
      apply Hmono; [|exact Hm]. specialize (Hstone_range s Hs'). lia.
    + split; [|split; [exact Hsame|exact Hnew]].
      apply (colors_ok_stone c q Hc Hq).
      destruct (Hst pt Hpt) as (Hb & Hcs & _).
      pose proof (colors_ok_valid c pt Hc (Hstone_range pt Hpt)) as Hv.
      apply valid_color_cases in Hv as [[_ Hv]|[Hv _]]; [|congruence].
      rewrite Hsame, <- Hcs. tauto.
  - intros s Hs.
    destruct Hcase as [(Hsame & -> & _)|[(_ & _ & -> & _)|(_ & _ & -> & _)]];
      [|now apply Hconn|now apply Hconn].
    apply elem_of_app in Hs as [Hs|Hs]; [now apply Hconn|].
    apply list_elem_of_singleton in Hs as ->.
    apply (connected_step c pt0 pt q); [now apply Hconn|exact Hadj|exact Hsame].
  - intros l Hl.
    assert (Hl' : l ∈ libs \/ (l = q /\ rd c q = "."%char)).
    { destruct Hcase as [(_ & _ & ->)|[(_ & Hem & _ & ->)|(_ & _ & _ & ->)]];
        [now left| |now left].
      apply elem_of_app in Hl as [Hl|Hl]; [now left|right].
      apply list_elem_of_singleton in Hl. now split. }
    destruct Hl' as [Hl'|[-> Hem]].
    + destruct (Hlib l Hl') as (Hcl & Hm & s & Hs & Hsl).
      split; [exact Hcl|]. split.
      * apply Hmono; [|exact Hm].
        pose proof (adj_range s l (proj1 (Hst s Hs)) Hsl). lia.
      * exists s. split; [now apply Hsub|exact Hsl].
    + split; [exact Hem|]. split; [exact Hnew|].
      exists pt. split; [now apply Hsub|exact Hadj].
  - intros x Hx Hmx Hcx.
    destruct (Hinvm x Hx Hmx) as [->|Hmx'].
    + destruct Hcase as [(_ & -> & _)|[(Hd & _)|(Hd & _)]]; try contradiction.
      apply elem_of_app. right. left.
    + apply Hsub. now apply Hms.
  - intros x Hx Hmx Hcx.
    destruct (Hinvm x Hx Hmx) as [->|Hmx'].
    + destruct Hcase as [(Hsame & _ & _)|[(_ & _ & _ & ->)|(_ & Hd & _)]].
      * exfalso. apply Hseed. congruence.
      * apply elem_of_app. right. left.
      * contradiction.
    + assert (x ∈ libs) by now apply Hml.
      destruct Hcase as [(_ & _ & ->)|[(_ & _ & _ & ->)|(_ & _ & _ & ->)]];
        [easy|apply elem_of_app; now left|easy].
  - destruct Hcase as [(_ & -> & _)|[(_ & _ & -> & _)|(_ & _ & -> & _)]]; try exact Htail.
    rewrite length_app. simpl. lia.
  - intros i s Hi Hs x Hsx.
    assert (Hs' : stones !! i = Some s).
    { destruct Hcase as [(_ & -> & _)|[(_ & _ & -> & _)|(_ & _ & -> & _)]]; try exact Hs.
      rewrite lookup_app_l in Hs by lia. exact Hs. }
    apply Hmono; [|now apply (Hdone i s)].
    assert (Hsin : s ∈ stones) by (eapply list_elem_of_lookup_2; exact Hs').
    pose proof (adj_range s x (proj1 (Hst s Hsin)) Hsx). lia.
Qed.

(** One pass over the neighbours of the stone [pt] of the queue: [ns] are
    the neighbours still to visit and [seen] those visited. *)
Lemma block_neighbors_inv (c : list ascii) (p : Position) (pt0 v nlibs : Z)
    (tail : nat) (pt : Z) :
  color p = c -> colors_ok c = true -> rd c pt0 <> "."%char -> 1 <= nlibs ->
  forall ns seen m stones libs,
  (forall q, q ∈ seen ++ ns -> adj pt q) ->
  pt ∈ stones ->
  block_inv c pt0 v m stones libs tail ->
  (forall q, q ∈ seen -> is_marked m q = true) ->
  match block_neighbors p (rd c pt0) nlibs ns m stones libs with
  | (m', stones', libs', finished) =>
      block_inv c pt0 v m' stones' libs' tail
      /\ (exists more, stones' = stones ++ more)
      /\ (if finished then libs' <> [] else libs' = [] -> libs = [])
      /\ (finished = false -> forall q, q ∈ seen ++ ns -> is_marked m' q = true)
  end.
Proof.
  intros Hcol Hc Hseed Hnlibs.
  induction ns as [|q ns IH]; intros seen m stones libs Hadj Hpt Hinv Hseen.
  - cbn [block_neighbors]. split; [exact Hinv|].
    split; [exists []; now rewrite app_nil_r|].
    split; [easy|]. intros _ q Hq. rewrite app_nil_r in Hq. now apply Hseen.
  - cbn [block_neighbors].
    assert (Hptb : on_board pt = true) by (apply (bi_stone _ _ _ _ _ _ _ Hinv); exact Hpt).
    assert (Hrange : forall x, x ∈ seen ++ q :: ns -> 0 <= x < BOARDSIZE).
    { intros x Hx. apply (adj_range pt); [exact Hptb|]. now apply Hadj. }
    assert (Hq : 0 <= q < BOARDSIZE).
    { apply Hrange. apply elem_of_app. right. left. }
    assert (Hptq : adj pt q).
    { apply Hadj. apply elem_of_app. right. left. }
    assert (Hlen : Z.of_nat (length (marks m)) = BOARDSIZE) by apply Hinv.
    assert (Hadj' : forall q0, q0 ∈ (seen ++ [q]) ++ ns -> adj pt q0).
    { intros q0 Hq0. apply Hadj. rewrite <- app_assoc in Hq0. exact Hq0. }
    assert (Hseen' : forall m', is_marked m' q = true ->
              (forall x, 0 <= x -> is_marked m x = true -> is_marked m' x = true) ->
              forall x, x ∈ seen ++ [q] -> is_marked m' x = true).
    { intros m' Hm'q Hmono x Hx. apply elem_of_app in Hx as [Hx|Hx].
      - apply Hmono; [|now apply Hseen].
        assert (0 <= x < BOARDSIZE) by (apply Hrange; apply elem_of_app; now left). lia.
      - apply list_elem_of_singleton in Hx as ->. exact Hm'q. }
    destruct (is_marked m q) eqn:Hmq.
    + specialize (IH (seen ++ [q]) m stones libs Hadj' Hpt Hinv).
      destruct (block_neighbors p (rd c pt0) nlibs ns m stones libs)
        as [[[m' stones'] libs'] fin].
      destruct IH as (I1 & I2 & I3 & I4); [now apply Hseen'|].
      split; [exact I1|]. split; [exact I2|]. split; [exact I3|].
      intros Hfin x Hx. apply I4; [exact Hfin|]. now rewrite <- app_assoc.
    + assert (Hmono : forall x, 0 <= x -> is_marked m x = true ->
                is_marked (mark m q) x = true).
      { intros x Hx. apply is_marked_mono; lia. }
      assert (Hnew : is_marked (mark m q) q = true).
      { rewrite is_marked_mark by lia. now destruct (Z.eq_dec q q). }
      rewrite Hcol.
      destruct (Ascii.eqb_spec (rd c q) (rd c pt0)) as [Hsame|Hdiff].
      * assert (Hinv' : block_inv c pt0 v (mark m q) (stones ++ [q]) libs tail).
        { apply (block_inv_mark c pt0 v m stones libs _ _ tail q pt); try easy.
          left. easy. }
        specialize (IH (seen ++ [q]) (mark m q) (stones ++ [q]) libs Hadj').
        destruct (block_neighbors p (rd c pt0) nlibs ns (mark m q) (stones ++ [q]) libs)
          as [[[m' stones'] libs'] fin].
        destruct IH as (I1 & I2 & I3 & I4);
          [apply elem_of_app; now left|exact Hinv'|now apply Hseen'|].
        split; [exact I1|]. split.
        { destruct I2 as [more ->]. exists (q :: more). now rewrite <- app_assoc. }
        split; [exact I3|].
        intros Hfin x Hx. apply I4; [exact Hfin|]. now rewrite <- app_assoc.
      * destruct (Ascii.eqb_spec (rd c q) ".") as [Hempty|Hnonempty].
        -- assert (Hinv' : block_inv c pt0 v (mark m q) stones (libs ++ [q]) tail).
           { apply (block_inv_mark c pt0 v m stones libs _ _ tail q pt); try easy.
             right. left. easy. }
           destruct (Z.of_nat (length (libs ++ [q])) >=? nlibs) eqn:Hfull.
           ++ split; [exact Hinv'|]. split; [exists []; now rewrite app_nil_r|].
              split; [|discriminate]. intros Hnil. destruct libs; discriminate.
           ++ specialize (IH (seen ++ [q]) (mark m q) stones (libs ++ [q]) Hadj').
              destruct (block_neighbors p (rd c pt0) nlibs ns (mark m q) stones (libs ++ [q]))
                as [[[m' stones'] libs'] fin].
              destruct IH as (I1 & I2 & I3 & I4);
                [exact Hpt|exact Hinv'|now apply Hseen'|].
              split; [exact I1|]. split; [exact I2|]. split.
              { destruct fin; [exact I3|]. intros Hnil. specialize (I3 Hnil).
                destruct libs; discriminate. }
              intros Hfin x Hx. apply I4; [exact Hfin|]. now rewrite <- app_assoc.
        -- assert (Hinv' : block_inv c pt0 v (mark m q) stones libs tail).
           { apply (block_inv_mark c pt0 v m stones libs _ _ tail q pt); try easy.
             right. right. easy. }
           specialize (IH (seen ++ [q]) (mark m q) stones libs Hadj').
           destruct (block_neighbors p (rd c pt0) nlibs ns (mark m q) stones libs)
             as [[[m' stones'] libs'] fin].
           destruct IH as (I1 & I2 & I3 & I4);
             [exact Hpt|exact Hinv'|now apply Hseen'|].
           split; [exact I1|]. split; [exact I2|]. split; [exact I3|].
           intros Hfin x Hx. apply I4; [exact Hfin|]. now rewrite <- app_assoc.
Qed.

Lemma block_inv_stones_length (c : list ascii) (pt0 v : Z) (m : Mark)
    (stones libs : list Z) (tail : nat) :
  block_inv c pt0 v m stones libs tail -> Z.of_nat (length stones) <= BOARDSIZE.
Proof.
  intros Hinv. apply NoDup_range_length; [board_consts; lia|apply Hinv|].
  intros x Hx. destruct (bi_stone _ _ _ _ _ _ _ Hinv x Hx) as (Hb & _).
  apply on_board_range in Hb. board_consts. lia.
Qed.

(** The [while] loop ends within the fuel and keeps the invariant; when it
    ends without a liberty every stone of the queue has been expanded. *)
Lemma block_loop_inv (c : list ascii) (p : Position) (pt0 v nlibs : Z) :
  color p = c -> colors_ok c = true -> rd c pt0 <> "."%char -> 1 <= nlibs ->
  forall fuel tail m stones libs,
  block_inv c pt0 v m stones libs tail ->
  (Z.to_nat BOARDSIZE < fuel + tail)%nat ->
  exists m' stones' libs' tail',
    block_loop fuel p (rd c pt0) nlibs m stones libs tail = Some (m', stones', libs')
    /\ block_inv c pt0 v m' stones' libs' tail'
    /\ (exists more, stones' = stones ++ more)
    /\ (libs' = [] -> tail' = length stones').
Proof.
  intros Hcol Hc Hseed Hnlibs.
  induction fuel as [|fuel IH]; intros tail m stones libs Hinv Hfuel.
  - exfalso. pose proof (block_inv_stones_length _ _ _ _ _ _ _ Hinv).
    pose proof (bi_tail _ _ _ _ _ _ _ Hinv). lia.
  - cbn [block_loop]. destruct (stones !! tail) as [pt|] eqn:Hpt.
    + assert (Hptin : pt ∈ stones) by (eapply list_elem_of_lookup_2; exact Hpt).
      pose proof (block_neighbors_inv c p pt0 v nlibs tail pt Hcol Hc Hseed Hnlibs
                    (neighbors pt) [] m stones libs) as Hn.
      destruct (block_neighbors p (rd c pt0) nlibs (neighbors pt) m stones libs)
        as [[[m1 stones1] libs1] fin].
      destruct Hn as (I1 & [more ->] & I3 & I4);
        [intros q Hq; exact Hq|exact Hptin|exact Hinv|intros q Hq; inversion Hq|].
      destruct fin.
      * exists m1, (stones ++ more), libs1, tail. split; [reflexivity|].
        split; [exact I1|]. split; [now exists more|]. intros Hnil. contradiction.
      * assert (Hlt : (tail < length stones)%nat) by (eapply lookup_lt_Some; exact Hpt).
        assert (I1' : block_inv c pt0 v m1 (stones ++ more) libs1 (S tail)).
        { destruct I1 as [Hval Hlen Hle Hnd Hst Hconn Hlib Hms Hml Htail Hdone].
          constructor; try assumption.
          - rewrite length_app. lia.
          - intros i s Hi Hs q Hq.
            destruct (decide (i = tail)) as [->|Hne].
            + rewrite lookup_app_l in Hs by lia. rewrite Hpt in Hs. injection Hs as <-.
              now apply I4.
            + apply (Hdone i s); [lia|exact Hs|exact Hq]. }
        destruct (IH (S tail) m1 (stones ++ more) libs1 I1') as (m' & stones' & libs' & tail' & E & I' & [more' ->] & Hexit);
          [lia|].
        exists m', ((stones ++ more) ++ more'), libs', tail'.
        split; [exact E|]. split; [exact I'|]. split; [|exact Hexit].
        exists (more ++ more'). now rewrite app_assoc.
    + exists m, stones, libs, tail. split; [reflexivity|]. split; [exact Hinv|].
      split; [exists []; now rewrite app_nil_r|]. intros _.
      apply lookup_ge_None in Hpt. pose proof (bi_tail _ _ _ _ _ _ _ Hinv). lia.
Qed.

Lemma marks_ok_spec (m : Mark) :
  marks_ok m = true <->
  Z.of_nat (length (marks m)) = BOARDSIZE
  /\ forall i, 0 <= i < BOARDSIZE -> rd (marks m) i <= value m.
Proof.
  unfold marks_ok. rewrite andb_true_iff, Z.eqb_eq, forallb_seqZ.
  split; intros [H1 H2]; (split; [exact H1|]); intros i Hi;
    [apply Z.leb_le|apply Z.leb_le]; apply H2; lia.
Qed.

Lemma block_inv_init (c : list ascii) (m : Mark) (pt : Z) :
  colors_ok c = true -> marks_ok m = true -> 0 <= pt < BOARDSIZE ->
  rd c pt = "X"%char \/ rd c pt = "x"%char ->
  block_inv c pt (value m + 1) (mark (mark_init m) pt) [pt] [] 0.
Proof.
  intros Hc Hm Hpt Hstone. apply marks_ok_spec in Hm as [Hlen Hle].
  assert (Hmk : forall q, 0 <= q < BOARDSIZE ->
            is_marked (mark (mark_init m) pt) q = true -> q = pt).
  { intros q Hq. rewrite is_marked_mark by (cbn [marks mark_init]; lia).
    destruct (Z.eq_dec pt q) as [->|_]; [easy|].
    unfold is_marked, mark_init. cbn [marks value]. intros H. apply Z.eqb_eq in H.
    specialize (Hle q Hq). lia. }
  constructor.
  - reflexivity.
  - unfold mark, mark_init. cbn [marks]. now rewrite length_wr.
  - intros i Hi. unfold mark, mark_init. cbn [marks value].
    destruct (Z.eq_dec pt i) as [->|Hne].
    + rewrite rd_wr_eq by lia. lia.
    + rewrite rd_wr_ne by lia. specialize (Hle i Hi). lia.
  - apply NoDup_singleton.
  - intros s Hs. apply list_elem_of_singleton in Hs as ->.
    split; [apply (colors_ok_stone c pt Hc Hpt); tauto|]. split; [reflexivity|].
    rewrite is_marked_mark by (cbn [marks mark_init]; lia).
    now destruct (Z.eq_dec pt pt).
  - intros s Hs. apply list_elem_of_singleton in Hs as ->. constructor.
  - intros l Hl. inversion Hl.
  - intros q Hq Hmq _. apply list_elem_of_singleton. now apply Hmk.
  - intros q Hq Hmq Hcq. apply Hmk in Hmq as ->; [|exact Hq].
    destruct Hstone as [H|H]; rewrite H in Hcq; discriminate.
  - simpl. lia.
  - intros i s Hi. lia.
Qed.

(** [compute_block] on a stone: it returns, the marks stay usable, the
    stones found are distinct stones of the block of [pt], and with
    [nlibs >= 1] no liberty is reported exactly when the block has none, in
    which case the whole block has been listed. *)
Lemma compute_block_spec (m : Mark) (p : Position) (pt nlibs : Z) :
  colors_ok (color p) = true -> marks_ok m = true -> 0 <= pt < BOARDSIZE ->
  rd (color p) pt = "X"%char \/ rd (color p) pt = "x"%char -> 1 <= nlibs ->
  exists m' stones libs,
    compute_block m p pt nlibs = Some (m', stones, libs)
    /\ marks_ok m' = true
    /\ NoDup stones
    /\ (exists rest, stones = pt :: rest)
    /\ (forall s, s ∈ stones ->
          on_board s = true /\ rd (color p) s = rd (color p) pt
          /\ connected (color p) pt s)
    /\ (libs = [] -> ~ has_liberty (color p) pt)
    /\ (libs <> [] -> has_liberty (color p) pt)
    /\ (libs = [] -> forall s, connected (color p) pt s -> s ∈ stones).
Proof.
  intros Hc Hm Hpt Hstone Hnlibs. unfold compute_block.
  assert (Hseed : rd (color p) pt <> "."%char).
  { destruct Hstone as [H|H]; rewrite H; discriminate. }
  pose proof (block_inv_init (color p) m pt Hc Hm Hpt Hstone) as Hinit.
  destruct (block_loop_inv (color p) p pt (value m + 1) nlibs eq_refl Hc Hseed Hnlibs
              (S (Z.to_nat BOARDSIZE)) 0%nat _ _ _ Hinit ltac:(lia))
    as (m' & stones & libs & tail & E & Hinv & [more Hmore] & Hexit).
  rewrite E. exists (mark_release m'), stones, libs. split; [reflexivity|].
  destruct Hinv as [Hval Hlen Hle Hnd Hst Hconn Hlib Hms Hml Htail Hdone].
  assert (Hclosed : libs = [] -> forall s, connected (color p) pt s -> s ∈ stones).
  { intros Hnil s Hs. specialize (Hexit Hnil). induction Hs as [|b b' Hb IHb Hadj Hcol].
    - rewrite Hmore. left.
    - apply list_elem_of_lookup in IHb as [i Hi].
      assert (Hb' : 0 <= b' < BOARDSIZE).
      { apply (adj_range b); [|exact Hadj]. apply Hst. eapply list_elem_of_lookup_2. exact Hi. }
      apply Hms; [exact Hb'| |exact Hcol].
      apply (Hdone i b); [|exact Hi|exact Hadj].
      apply lookup_lt_Some in Hi. lia. }
  split.
  { apply marks_ok_spec. unfold mark_release. cbn [marks value].
    split; [exact Hlen|]. intros i Hi. specialize (Hle i Hi). lia. }
  split; [exact Hnd|]. split; [now exists more|]. split.
  { intros s Hs. destruct (Hst s Hs) as (Hb & Hcs & _). split; [exact Hb|].
    split; [exact Hcs|]. now apply Hconn. }
  split; [|split; [|exact Hclosed]].
  - intros Hnil (s & l & Hs & Hadj & Hcl).
    pose proof (Hclosed Hnil s Hs) as Hin. specialize (Hexit Hnil).
    apply list_elem_of_lookup in Hin as [i Hi].
    assert (Hl : 0 <= l < BOARDSIZE).
    { apply (adj_range s); [|exact Hadj]. apply Hst. eapply list_elem_of_lookup_2. exact Hi. }
    assert (Hlin : l ∈ libs).
    { apply Hml; [exact Hl| |exact Hcl]. apply (Hdone i s); [|exact Hi|exact Hadj].
      apply lookup_lt_Some in Hi. lia. }
    rewrite Hnil in Hlin. inversion Hlin.
  - intros Hno. destruct libs as [|l libs]; [contradiction|].
    destruct (Hlib l ltac:(left)) as (Hcl & _ & s & Hs & Hadj).
    exists s, l. split; [now apply Hconn|]. now split.
Qed.

(** *** Captures: the loop of [play_move] *)

Lemma length_clear_stones (R : list Z) : forall c,
  length (clear_stones c R) = length c.
Proof.
  induction R as [|r R IH]; intros c; [reflexivity|].
  unfold clear_stones in *. cbn [fold_left]. now rewrite IH, length_wr.
Qed.

Lemma rd_clear_stones (R : list Z) : forall c q,
  (forall r, r ∈ R -> 0 <= r < Z.of_nat (length c)) -> 0 <= q ->
  rd (clear_stones c R) q = if decide (q ∈ R) then "."%char else rd c q.
Proof.
  induction R as [|r R IH]; intros c q Hr Hq.
  - cbn. destruct (decide (q ∈ [])) as [H|_]; [inversion H|reflexivity].
  - unfold clear_stones in *. cbn [fold_left].
    assert (Hr0 : 0 <= r < Z.of_nat (length c)) by (apply Hr; left).
    rewrite IH; [| |exact Hq].
    2:{ intros r' Hr'. rewrite length_wr. apply Hr. now right. }
    destruct (decide (q ∈ R)) as [Hin|Hnin].
    + destruct (decide (q ∈ r :: R)) as [_|Hn]; [reflexivity|].
      exfalso. apply Hn. now right.
    + destruct (Z.eq_dec r q) as [->|Hne].
      * rewrite rd_wr_eq by lia.
        destruct (decide (q ∈ q :: R)) as [_|Hn]; [reflexivity|].
        exfalso. apply Hn. left.
      * rewrite rd_wr_ne by lia.
        destruct (decide (q ∈ r :: R)) as [Hin|_]; [|reflexivity].
        apply elem_of_cons in Hin as [->|Hin]; [lia|contradiction].
Qed.

Lemma clear_stones_app (c : list ascii) (R R' : list Z) :
  clear_stones c (R ++ R') = clear_stones (clear_stones c R) R'.
Proof. unfold clear_stones. apply fold_left_app. Qed.

Lemma put_stone_counters (p : Position) (pt : Z) :
  counters (put_stone p pt) = counters p /\ ko_old (put_stone p pt) = ko_old p.
Proof.
  unfold counters.
  destruct (put_stone_fields p pt) as (_ & -> & -> & -> & -> & -> & -> & -> & -> & -> & _).
  split; reflexivity.
Qed.

Lemma remove_stone_counters (p : Position) (pt : Z) :
  counters (remove_stone p pt) = counters p /\ ko_old (remove_stone p pt) = ko_old p.
Proof.
  unfold counters.
  destruct (remove_stone_fields p pt) as (_ & -> & -> & -> & -> & -> & -> & -> & -> & -> & _).
  split; reflexivity.
Qed.

Lemma board_ok_colors (p : Position) : board_ok p = true -> colors_ok (color p) = true.
Proof. rewrite board_ok_spec. tauto. Qed.

Lemma capture_block_spec (stones : list Z) : forall p,
  board_ok p = true -> NoDup stones ->
  (forall s, s ∈ stones -> on_board s = true /\ rd (color p) s = "x"%char) ->
  board_ok (fst (capture_block p stones)) = true
  /\ color (fst (capture_block p stones)) = clear_stones (color p) stones
  /\ counters (fst (capture_block p stones)) = counters p
  /\ ko_old (fst (capture_block p stones)) = ko_old p
  /\ snd (capture_block p stones) = Z.of_nat (length stones).
Proof.
  unfold capture_block. cbn [fst snd].
  induction stones as [|s stones IH]; intros p Hok Hnd Hst.
  - cbn. tauto.
  - cbn [fold_left]. apply NoDup_cons in Hnd as [Hs Hnd].
    destruct (Hst s ltac:(left)) as [Hsb Hsc].
    pose proof (remove_stone_ok p s Hok Hsb Hsc) as Hok'.
    destruct (remove_stone_fields p s) as (Hcolor & _).
    destruct (remove_stone_counters p s) as [Hcnt Hko].
    pose proof (colors_ok_length _ (board_ok_colors p Hok)) as Hl.
    pose proof (on_board_range _ Hsb) as Rs.
    destruct (IH (remove_stone p s) Hok' Hnd) as (I1 & I2 & I3 & I4 & I5).
    { intros s' Hs'. destruct (Hst s' ltac:(now right)) as [Hb Hc].
      split; [exact Hb|]. rewrite Hcolor.
      assert (s <> s') by (intros ->; contradiction).
      pose proof (on_board_range _ Hb).
      rewrite rd_wr_ne by (board_consts; lia). exact Hc. }
    split; [exact I1|]. split.
    { rewrite I2, Hcolor. reflexivity. }
    split; [congruence|]. split; [congruence|]. reflexivity.
Qed.

Lemma capture_inv_range (P : Position) seen g pos captured R :
  board_ok P = true -> capture_inv P seen g pos captured R ->
  forall r, r ∈ R -> 0 <= r < Z.of_nat (length (color P)).
Proof.
  intros HP Hinv r Hr. destruct (ci_removed _ _ _ _ _ _ Hinv r Hr) as [Hb _].
  apply on_board_range in Hb.
  pose proof (colors_ok_length _ (board_ok_colors P HP)). board_consts. lia.
Qed.

Lemma capture_neighbor_inv (P : Position) (pt : Z) seen g pos captured R (q : Z) :
  board_ok P = true -> on_board pt = true -> adj pt q ->
  capture_inv P seen g pos captured R ->
  exists g' pos' captured' R',
    capture_neighbor (g, pos, captured) q = Some (g', pos', captured')
    /\ capture_inv P (seen ++ [q]) g' pos' captured' R'.
Proof.
  intros HP Hpt Hadj Hinv.
  pose proof (adj_range pt q Hpt Hadj) as Hq.
  pose proof (capture_inv_range P seen g pos captured R HP Hinv) as HR.
  destruct Hinv as [Hm Hb Hcnt Hnd Hcap Hrem Hcolor Hnone Hsome Halive Hdead].
  unfold capture_neighbor.
  destruct (Ascii.eqb_spec (rd (color pos) q) "x") as [Hx|Hnx]; cbn [negb].
  - destruct (compute_block_spec (mark1 g) pos q 1 (board_ok_colors pos Hb) Hm Hq
                ltac:(now right) ltac:(lia))
      as (m' & stones & libs & E & Hm' & Hsnd & [rest Hrest] & Hst & Hno & Hyes & _).
    rewrite E. destruct libs as [|l libs]; cbn [length Z.of_nat Z.eqb].
    + (* the block is captured *)
      assert (Hst' : forall s, s ∈ stones -> on_board s = true /\ rd (color pos) s = "x"%char).
      { intros s Hs. destruct (Hst s Hs) as (Hsb & Hsc & _). split; [exact Hsb|congruence]. }
      destruct (capture_block_spec stones pos Hb Hsnd Hst') as (C1 & C2 & C3 & C4 & C5).
      destruct (capture_block pos stones) as [pos' k] eqn:Ecb. cbn [fst snd] in *.
      exists (mkGlobals m' q), pos', (captured + k), (R ++ stones).
      split; [reflexivity|].
      assert (Hdisj : forall s, s ∈ stones -> s ∉ R).
      { intros s Hs HsR. destruct (Hst' s Hs) as [_ Hsc].
        rewrite Hcolor, rd_clear_stones in Hsc.
        - destruct (decide (s ∈ R)); [discriminate|contradiction].
        - exact HR.
        - specialize (HR s HsR). lia. }
      constructor; cbn [mark1 pos_capture].
      * exact Hm'.
      * exact C1.
      * split; [now rewrite C3|now rewrite C4].
      * apply NoDup_app. split; [exact Hnd|]. split; [|exact Hsnd].
        intros r Hr Hs. now apply (Hdisj r).
      * rewrite length_app. lia.
      * intros r Hr. apply elem_of_app in Hr as [Hr|Hr]; [now apply Hrem|].
        destruct (Hst' r Hr) as [Hrb Hrc]. split; [exact Hrb|].
        rewrite Hcolor, rd_clear_stones in Hrc.
        -- destruct (decide (r ∈ R)) as [Hin|_]; [discriminate|exact Hrc].
        -- exact HR.
        -- apply on_board_range in Hrb. board_consts. lia.
      * rewrite C2, Hcolor. symmetry. apply clear_stones_app.
      * intros Hnil. rewrite Hrest in Hnil. destruct R; discriminate.
      * intros _. split; apply elem_of_app; right; [rewrite Hrest|]; left.
      * intros Hnil. rewrite Hrest in Hnil. destruct R; discriminate.
      * intros _. destruct R as [|r0 R0].
        -- destruct (Hnone eq_refl) as [-> _]. exists q. split.
           ++ apply elem_of_app. right. left.
           ++ split; [exact Hx|]. now apply Hno.
        -- destruct (Hdead ltac:(discriminate)) as (q' & Hq' & Hcq' & Hlq').
           exists q'. split; [apply elem_of_app; now left|]. now split.
    + (* the block has a liberty *)
      exists (mkGlobals m' (pos_capture g)), pos, captured, R.
      split; [reflexivity|].
      constructor; cbn [mark1 pos_capture]; try assumption.
      * intros Hne. destruct (Hsome Hne) as [H1 H2]. split; [exact H1|].
        apply elem_of_app. now left.
      * intros Hnil q' Hq' Hcq'. apply elem_of_app in Hq' as [Hq'|Hq'].
        -- now apply Halive.
        -- apply list_elem_of_singleton in Hq' as ->.
           destruct (Hnone Hnil) as [<- _]. apply Hyes. discriminate.
      * intros Hne. destruct (Hdead Hne) as (q' & Hq' & Hcq' & Hlq').
        exists q'. split; [apply elem_of_app; now left|]. now split.
  - exists g, pos, captured, R. split; [reflexivity|].
    constructor; try assumption.
    + intros Hne. destruct (Hsome Hne) as [H1 H2]. split; [exact H1|].
      apply elem_of_app. now left.
    + intros Hnil q' Hq' Hcq'. apply elem_of_app in Hq' as [Hq'|Hq'].
      * now apply Halive.
      * apply list_elem_of_singleton in Hq' as ->.
        destruct (Hnone Hnil) as [-> _]. contradiction.
    + intros Hne. destruct (Hdead Hne) as (q' & Hq' & Hcq' & Hlq').
      exists q'. split; [apply elem_of_app; now left|]. now split.
Qed.

Lemma capture_neighbors_inv (P : Position) (pt : Z) :
  board_ok P = true -> on_board pt = true ->
  forall ns seen g pos captured R,
  (forall q, q ∈ ns -> adj pt q) ->
  capture_inv P seen g pos captured R ->
  exists g' pos' captured' R',
    capture_neighbors (g, pos, captured) ns = Some (g', pos', captured')
    /\ capture_inv P (seen ++ ns) g' pos' captured' R'.
Proof.
  intros HP Hpt. induction ns as [|q ns IH]; intros seen g pos captured R Hadj Hinv.
  - exists g, pos, captured, R. split; [reflexivity|]. now rewrite app_nil_r.
  - cbn [capture_neighbors].
    destruct (capture_neighbor_inv P pt seen g pos captured R q HP Hpt
                (Hadj q ltac:(left)) Hinv) as (g1 & pos1 & cap1 & R1 & E & Hinv1).
    rewrite E.
    destruct (IH (seen ++ [q]) g1 pos1 cap1 R1) as (g2 & pos2 & cap2 & R2 & E2 & Hinv2).
    { intros q' Hq'. apply Hadj. now right. }
    { exact Hinv1. }
    exists g2, pos2, cap2, R2. split; [exact E2|]. now rewrite <- app_assoc in Hinv2.
Qed.

Lemma capture_inv_init (g : Globals) (P : Position) :
  marks_ok (mark1 g) = true -> board_ok P = true ->
  capture_inv P [] (mkGlobals (mark1 g) 0) P 0 [].
Proof.
  intros Hm HP. constructor; cbn [mark1 pos_capture]; try easy.
  all: try (apply NoDup_nil; exact I).
  all: try (intros r Hr; inversion Hr).
  all: try (intros _ q Hq; inversion Hq).
Qed.

Lemma board_ok_set_ko_old (p : Position) (k : Z) :
  board_ok p = true -> board_ok (set_ko_old p k) = true.
Proof. now apply board_ok_ext. Qed.

Lemma board_ok_set_ko (p : Position) (k : Z) :
  board_ok p = true -> board_ok (set_ko p k) = true.
Proof. now apply board_ok_ext. Qed.

(** The three ways [play_move] can go at an empty point that is not the ko
    point: a capture, a suicide, or a plain move. [P] is the position with
    the new stone on it. *)
Lemma play_move_analysis (g : Globals) (p : Position) (pt : Z) :
  marks_ok (mark1 g) = true -> board_ok p = true -> on_board pt = true ->
  rd (color p) pt = "."%char -> pt <> ko p ->
  let P := put_stone (set_ko_old p (ko p)) pt in
  board_ok P = true /\
  exists g1 pos1 captured R,
    capture_inv P (neighbors pt) g1 pos1 captured R
    /\ ((R <> []
         /\ play_move g p pt =
            Some (g1,
                  finish_move
                    (set_ko pos1
                       (if (captured =? 1)
                           && negb (is_eyeish (set_ko_old p (ko p)) pt =? Ascii.zero)%char
                        then pos_capture g1 else 0))
                    pt captured,
                  ""%string))
        \/ (R = [] /\ exists m, marks_ok m = true
             /\ ~ has_liberty (color P) pt
             /\ play_move g p pt =
                Some (mkGlobals m 0,
                      remove_X_stone (set_ko (set_ko P 0) (ko_old (set_ko P 0))) pt,
                      "Error Illegal move: suicide"%string))
        \/ (R = [] /\ exists m, marks_ok m = true
             /\ has_liberty (color P) pt
             /\ play_move g p pt =
                Some (mkGlobals m 0, finish_move (set_ko P 0) pt 0, ""%string))).
Proof.
  intros Hm Hp Hpt Hempty Hko P.
  assert (HP : board_ok P = true).
  { subst P. apply put_stone_ok; [now apply board_ok_set_ko_old|exact Hpt|exact Hempty]. }
  split; [exact HP|].
  destruct (capture_neighbors_inv P pt HP Hpt (neighbors pt) []
              (mkGlobals (mark1 g) 0) P 0 [])
    as (g1 & pos1 & captured & R & E & Hinv).
  { intros q Hq. exact Hq. }
  { now apply capture_inv_init. }
  cbn [app] in Hinv. exists g1, pos1, captured, R. split; [exact Hinv|].
  unfold play_move. cbn [ko set_ko_old].
  apply Z.eqb_neq in Hko. rewrite Hko. fold P. rewrite E.
  pose proof (ci_captured _ _ _ _ _ _ Hinv) as Hcap.
  destruct R as [|r R].
  - right. cbn [length Z.of_nat] in Hcap. subst captured. cbn [Z.eqb negb].
    destruct (ci_none _ _ _ _ _ _ Hinv eq_refl) as [-> Hpc].
    pose proof (on_board_range _ Hpt) as Rpt.
    assert (HPpt : rd (color P) pt = "X"%char).
    { subst P. destruct (put_stone_fields (set_ko_old p (ko p)) pt) as (-> & _).
      cbn [color set_ko_old]. apply rd_wr_eq.
      pose proof (colors_ok_length _ (board_ok_colors p Hp)). board_consts. lia. }
    destruct (compute_block_spec (mark1 g1) (set_ko P 0) pt 1)
      as (m' & stones & libs & E' & Hm' & _ & _ & _ & Hno & Hyes & _).
    { exact (board_ok_colors _ (board_ok_set_ko P 0 HP)). }
    { exact (ci_marks _ _ _ _ _ _ Hinv). }
    { board_consts. lia. }
    { left. exact HPpt. }
    { lia. }
    rewrite E'. rewrite Hpc. destruct libs as [|l libs]; cbn [length Z.of_nat Z.eqb].
    + left. split; [reflexivity|]. exists m'. split; [exact Hm'|].
      split; [now apply Hno|reflexivity].
    + right. split; [reflexivity|]. exists m'. split; [exact Hm'|].
      split; [apply Hyes; discriminate|reflexivity].
  - left. split; [discriminate|].
    assert (Hne : (captured =? 0) = false).
    { apply Z.eqb_neq. cbn [length] in Hcap. lia. }
    rewrite Hne. cbn [negb].
    now destruct ((captured =? 1)
                  && negb (is_eyeish (set_ko_old p (ko p)) pt =? Ascii.zero)%char).
Qed.

(** *** Games *)

Lemma finish_move_fields (pos : Position) (pt captured : Z) :
  color (finish_move pos pt captured) = swap_colors (color pos)
  /\ env4 (finish_move pos pt captured) = env4 pos
  /\ env4d (finish_move pos pt captured) = env4d pos
  /\ n (finish_move pos pt captured) = n pos + 1
  /\ ko (finish_move pos pt captured) = ko pos
  /\ ko_old (finish_move pos pt captured) = ko_old pos
  /\ last (finish_move pos pt captured) = pt
  /\ last2 (finish_move pos pt captured) = last pos
  /\ last3 (finish_move pos pt captured) = last2 pos
  /\ komi (finish_move pos pt captured) = komi pos
  /\ cap (finish_move pos pt captured) = to_char (captured + capX pos)
  /\ capX (finish_move pos pt captured) = cap pos.
Proof. unfold finish_move, swap_color. cbn. repeat split. Qed.

Lemma finish_move_ok (pos : Position) (pt captured : Z) :
  board_ok pos = true -> board_ok (finish_move pos pt captured) = true.
Proof.
  intros H.
  destruct (finish_move_fields pos pt captured) as (Hc & H4 & H4d & Hn & _).
  apply (board_ok_ext (set_n (swap_color pos) (n pos + 1))).
  - rewrite Hc. reflexivity.
  - rewrite H4. reflexivity.
  - rewrite H4d. reflexivity.
  - rewrite Hn. reflexivity.
  - apply swap_board_ok; [apply rem2_succ|exact H].
Qed.

Lemma pass_move_fields (pos : Position) :
  color (fst (pass_move pos)) = swap_colors (color pos)
  /\ env4 (fst (pass_move pos)) = env4 pos
  /\ env4d (fst (pass_move pos)) = env4d pos
  /\ n (fst (pass_move pos)) = n pos + 1
  /\ ko (fst (pass_move pos)) = 0
  /\ ko_old (fst (pass_move pos)) = ko_old pos
  /\ last (fst (pass_move pos)) = 0
  /\ last2 (fst (pass_move pos)) = last pos
  /\ last3 (fst (pass_move pos)) = last3 pos
  /\ komi (fst (pass_move pos)) = komi pos
  /\ cap (fst (pass_move pos)) = capX pos
  /\ capX (fst (pass_move pos)) = cap pos.
Proof. unfold pass_move, swap_color. cbn. repeat split. Qed.

Lemma pass_move_ok (pos : Position) :
  board_ok pos = true -> board_ok (fst (pass_move pos)) = true.
Proof.
  intros H.
  destruct (pass_move_fields pos) as (Hc & H4 & H4d & Hn & _).
  apply (board_ok_ext (set_n (swap_color pos) (n pos + 1))).
  - rewrite Hc. reflexivity.
  - rewrite H4. reflexivity.
  - rewrite H4d. reflexivity.
  - rewrite Hn. reflexivity.
  - apply swap_board_ok; [apply rem2_succ|exact H].
Qed.

Lemma play_move_ok (g : Globals) (p : Position) (pt : Z) g' p' :
  state_ok (g, p) -> on_board pt = true -> rd (color p) pt = "."%char ->
  play_move g p pt = Some (g', p', ""%string) -> state_ok (g', p').
Proof.
  intros [Hm Hp] Hpt Hempty Hplay. cbn [fst snd] in *.
  destruct (Z.eq_dec pt (ko p)) as [Hko|Hko].
  - unfold play_move in Hplay. cbn [ko set_ko_old] in Hplay.
    apply Z.eqb_eq in Hko. rewrite Hko in Hplay. discriminate.
  - destruct (play_move_analysis g p pt Hm Hp Hpt Hempty Hko)
      as (HP & g1 & pos1 & captured & R & Hinv & Hcases).
    destruct Hcases as [(HR & E)|[(HR & m & Hm' & Hno & E)|(HR & m & Hm' & Hyes & E)]];
      rewrite E in Hplay; try discriminate; injection Hplay as <- <-.
    + split; cbn [fst snd].
      * exact (ci_marks _ _ _ _ _ _ Hinv).
      * apply finish_move_ok. apply board_ok_set_ko. exact (ci_board _ _ _ _ _ _ Hinv).
    + split; cbn [fst snd mark1]; [exact Hm'|].
      apply finish_move_ok. now apply board_ok_set_ko.
Qed.

Lemma legal_move_play (s : State) (pt : Z) (s' : State) :
  state_ok s -> legal_move s pt = Some s' ->
  (rd (color (snd s)) pt = "."%char /\ on_board pt = true
   /\ play_move (fst s) (snd s) pt = Some (fst s', snd s', ""%string))
  \/ (rd (color (snd s)) pt <> "."%char /\ pt = PASS_MOVE
      /\ s' = (fst s, fst (pass_move (snd s)))).
Proof.
  intros [Hm Hp] H. destruct s as [g p]. cbn [fst snd] in *.
  unfold legal_move in H.
  destruct ((0 <=? pt) && (pt <? BOARDSIZE)) eqn:Hr; [|discriminate].
  apply andb_true_iff in Hr as [H0 H1]. apply Z.leb_le in H0. apply Z.ltb_lt in H1.
  unfold gtp_play in H.
  destruct (Ascii.eqb_spec (rd (color p) pt) ".") as [Hc|Hc].
  - left. split; [exact Hc|].
    split; [apply (colors_ok_stone (color p) pt (board_ok_colors p Hp)); [lia|tauto]|].
    destruct (play_move g p pt) as [[[g' p'] ret]|]; [|discriminate].
    destruct (ret =? "")%string eqn:Heq; [|discriminate].
    apply String.eqb_eq in Heq. subst ret. now injection H as <-.
  - right. split; [exact Hc|].
    destruct (Z.eqb_spec pt PASS_MOVE) as [->|Hne].
    + split; [reflexivity|]. cbn in H. now injection H as <-.
    + cbn in H. discriminate.
Qed.

Lemma legal_move_ok (s : State) (pt : Z) (s' : State) :
  state_ok s -> legal_move s pt = Some s' -> state_ok s'.
Proof.
  intros Hs H. destruct (legal_move_play s pt s' Hs H) as [(Hc & Hb & E)|(Hc & -> & ->)].
  - destruct s as [g p], s' as [g' p']. now apply (play_move_ok g p pt).
  - destruct Hs as [Hm Hp]. split; cbn [fst snd]; [exact Hm|now apply pass_move_ok].
Qed.

Lemma play_game_ok (moves : list Z) : forall s s',
  state_ok s -> play_game s moves = Some s' -> state_ok s'.
Proof.
  induction moves as [|pt moves IH]; intros s s' Hs H; cbn [play_game] in H.
  - now injection H as <-.
  - destruct (legal_move s pt) as [s1|] eqn:E; [|discriminate].
    apply (IH s1 s'); [|exact H]. now apply (legal_move_ok s pt).
Qed.

(** C5. After every sequence of legal moves from the empty position the
    caches [env4] and [env4d] hold, at every point that is not OUT, the value
    that [compute_env4] computes from the colours; [env4_OK] returns 1. *)
Theorem env4_after_every_move (p0 : Position) (g0 : Globals) (moves : list Z)
    (s : State) :
  Z.of_nat (length (env4 p0)) = BOARDSIZE ->
  Z.of_nat (length (env4d p0)) = BOARDSIZE ->
  marks_ok (mark1 g0) = true ->
  play_game (g0, fst (empty_position p0)) moves = Some s ->
  env4_OK (snd s) = 1
  /\ forall pt, 0 <= pt < BOARDSIZE -> rd (color (snd s)) pt <> " "%char ->
       rd (env4 (snd s)) pt = compute_env4 (snd s) pt 0
       /\ rd (env4d (snd s)) pt = compute_env4 (snd s) pt 4.
Proof.
  intros H4 H4d Hm Hgame.
  assert (Hs : state_ok s).
  { apply (play_game_ok moves (g0, fst (empty_position p0))); [|exact Hgame].
    split; cbn [fst snd]; [exact Hm|now apply empty_position_board_ok]. }
  destruct Hs as [_ Hb]. apply board_ok_spec in Hb as (Hc & _ & _ & He).
  split; [now apply env4_OK_env_ok|].
  intros pt Hpt Hcol. apply He.
  pose proof (colors_ok_valid _ pt Hc Hpt) as Hv.
  apply valid_color_cases in Hv as [[Hv _]|[_ Hv]]; [exact Hv|contradiction].
Qed.

(** *** Refused moves *)

Lemma wr_wr_eq {A} (c : list A) (i : Z) (a b : A) : wr (wr c i a) i b = wr c i b.
Proof. unfold wr. apply list_insert_insert_eq. Qed.

Lemma wr_rd_id {A} `{Inhabited A} (c : list A) (i : Z) :
  0 <= i < Z.of_nat (length c) -> wr c i (rd c i) = c.
Proof.
  intros Hi. unfold wr. apply list_insert_id. now apply rd_lookup.
Qed.

Lemma same_position_of_board_ok (p p' : Position) :
  board_ok p = true -> board_ok p' = true ->
  color p' = color p -> counters p' = counters p -> same_position p p'.
Proof.
  intros Hp Hp' Hc Hcnt.
  apply board_ok_spec in Hp as (_ & H4 & H4d & He).
  apply board_ok_spec in Hp' as (_ & H4' & H4d' & He').
  split; [exact Hc|]. split; [exact Hcnt|]. split; [lia|]. split; [lia|].
  intros z Hz. destruct (He z Hz) as [-> ->]. destruct (He' z Hz) as [-> ->].
  assert (Hn : n p' = n p) by (unfold counters in Hcnt; congruence).
  split; apply compute_env4_ext; assumption.
Qed.

Lemma remove_X_stone_fields (p : Position) (pt : Z) :
  color (remove_X_stone p pt) = wr (color p) pt "."%char
  /\ n (remove_X_stone p pt) = n p /\ ko (remove_X_stone p pt) = ko p
  /\ ko_old (remove_X_stone p pt) = ko_old p /\ last (remove_X_stone p pt) = last p
  /\ last2 (remove_X_stone p pt) = last2 p /\ last3 (remove_X_stone p pt) = last3 p
  /\ komi (remove_X_stone p pt) = komi p /\ cap (remove_X_stone p pt) = cap p
  /\ capX (remove_X_stone p pt) = capX p.
Proof.
  unfold remove_X_stone.
  destruct (remove_stone_fields (set_n p (n p + 1)) pt)
    as (Hc & Hn & Hko & Hko' & Hl & Hl2 & Hl3 & Hkomi & Hcap & HcapX & _).
  cbn [color n ko ko_old last last2 last3 komi cap capX set_n] in *.
  rewrite Hn. split_and!; try assumption. lia.
Qed.

(** An attempt at suicide leaves the position as it was, up to [ko_old]
    and the cache cells of the border. *)
Lemma suicide_restores (p : Position) (pt : Z) :
  board_ok p = true -> on_board pt = true -> rd (color p) pt = "."%char ->
  let P := put_stone (set_ko_old p (ko p)) pt in
  let p' := remove_X_stone (set_ko (set_ko P 0) (ko_old (set_ko P 0))) pt in
  same_position p p' /\ ko_old p' = ko p.
Proof.
  intros Hp Hpt Hempty P p'.
  pose proof (on_board_range _ Hpt) as Rpt.
  pose proof (colors_ok_length _ (board_ok_colors p Hp)) as Hl.
  assert (HP : board_ok P = true).
  { subst P. apply put_stone_ok; [now apply board_ok_set_ko_old|exact Hpt|exact Hempty]. }
  destruct (put_stone_fields (set_ko_old p (ko p)) pt)
    as (Pc & Pn & Pko & Pko' & Pl & Pl2 & Pl3 & Pkomi & Pcap & PcapX & _).
  fold P in Pc, Pn, Pko, Pko', Pl, Pl2, Pl3, Pkomi, Pcap, PcapX.
  cbn [color n ko ko_old last last2 last3 komi cap capX set_ko_old] in *.
  set (Q := set_ko (set_ko P 0) (ko_old (set_ko P 0))) in *.
  assert (HQ : board_ok Q = true) by (subst Q; now apply board_ok_set_ko, board_ok_set_ko).
  assert (Qc : color Q = color P) by reflexivity.
  assert (Qpt : rd (color Q) pt = "X"%char).
  { rewrite Qc, Pc. apply rd_wr_eq. board_consts. lia. }
  assert (Hp' : board_ok p' = true).
  { subst p'. now apply remove_X_stone_ok. }
  destruct (remove_X_stone_fields Q pt)
    as (Rc & Rn & Rko & Rko' & Rl & Rl2 & Rl3 & Rkomi & Rcap & RcapX).
  fold p' in Rc, Rn, Rko, Rko', Rl, Rl2, Rl3, Rkomi, Rcap, RcapX.
  assert (Qf : n Q = n P /\ ko Q = ko_old P /\ ko_old Q = ko_old P /\ last Q = last P
               /\ last2 Q = last2 P /\ last3 Q = last3 P /\ komi Q = komi P
               /\ cap Q = cap P /\ capX Q = capX P) by (repeat split).
  destruct Qf as (Qn & Qko & Qko' & Ql & Ql2 & Ql3 & Qkomi & Qcap & QcapX).
  split.
  - apply same_position_of_board_ok; [exact Hp|exact Hp'| |].
    + rewrite Rc, Qc, Pc, wr_wr_eq. rewrite <- Hempty. apply wr_rd_id.
      board_consts. lia.
    + unfold counters. congruence.
  - congruence.
Qed.

(** C1, amended. [play_move] at an empty point of the board: at the ko
    point or for a suicide it returns a message that starts with "Error"
    and the position is as before, except that [ko_old] now holds [ko] (and
    cache cells of border points may differ); otherwise it returns the empty
    string. *)
Theorem play_move_illegal (g : Globals) (p : Position) (pt : Z) :
  marks_ok (mark1 g) = true -> board_ok p = true ->
  on_board pt = true -> rd (color p) pt = "."%char ->
  exists g' p' msg,
    play_move g p pt = Some (g', p', msg)
    /\ (pt = ko p \/ suicide p pt ->
          is_error msg = true /\ same_position p p' /\ ko_old p' = ko p)
    /\ (~ (pt = ko p \/ suicide p pt) -> msg = ""%string).
Proof.
  intros Hm Hp Hpt Hempty.
  destruct (Z.eq_dec pt (ko p)) as [Hko|Hko].
  - exists g, (set_ko_old p (ko p)), "Error Illegal move: retakes ko"%string.
    split.
    { unfold play_move. cbn [ko set_ko_old]. apply Z.eqb_eq in Hko. now rewrite Hko. }
    split.
    + intros _. split; [reflexivity|]. split; [|reflexivity].
      apply same_position_of_board_ok;
        [exact Hp|now apply board_ok_set_ko_old|reflexivity|reflexivity].
    + intros Hn. exfalso. apply Hn. now left.
  - destruct (play_move_analysis g p pt Hm Hp Hpt Hempty Hko)
      as (HP & g1 & pos1 & captured & R & Hinv & Hcases).
    assert (Pc : color (put_stone (set_ko_old p (ko p)) pt) = wr (color p) pt "X"%char).
    { now destruct (put_stone_fields (set_ko_old p (ko p)) pt) as (-> & _). }
    rewrite Pc in Hcases.
    destruct Hcases as [(HR & E)|[(HR & m & Hm' & Hno & E)|(HR & m & Hm' & Hyes & E)]].
    + eexists _, _, _. split; [exact E|]. split; [|reflexivity].
      intros [Habs|[Halive _]]; [contradiction|]. exfalso.
      destruct (ci_dead _ _ _ _ _ _ Hinv HR) as (q & Hq & Hcq & Hdead).
      rewrite Pc in Hcq, Hdead. apply Hdead. apply Halive; [exact Hq|exact Hcq].
    + eexists _, _, _. split; [exact E|]. split.
      * intros _. split; [reflexivity|]. now apply suicide_restores.
      * intros Hn. exfalso. apply Hn. right. split; [|exact Hno].
        intros q Hq Hcq. pose proof (ci_alive _ _ _ _ _ _ Hinv HR q Hq) as H.
        rewrite Pc in H. now apply H.
    + eexists _, _, _. split; [exact E|]. split; [|reflexivity].
      intros [Habs|[_ Hdead]]; [contradiction|]. exfalso. now apply Hdead.
Qed.

(** C1, counterexample. (a) On an occupied point [play_move] does not
    fail: it answers with the empty string and plays on. (b) A refused ko
    recapture changes [ko_old]. (c) A refused suicide of White in the corner
    changes a cache cell of the border. *)
Lemma play_move_claim_fails :
  (exists g p g' p',
     play_game first_position [100; 0] = Some (g, p)
     /\ rd (color p) 100 = "X"%char
     /\ play_move g p 100 = Some (g', p', ""%string)
     /\ is_error "" = false)
  /\ (exists g p g' p' msg,
        play_game first_position ko_fight = Some (g, p)
        /\ ko p = 75 /\ ko_old p = 0
        /\ play_move g p 75 = Some (g', p', msg)
        /\ is_error msg = true /\ ko_old p' = 75 /\ p' <> p)
  /\ (exists g p g' p' msg,
        play_game first_position [169; 0; 184] = Some (g, p)
        /\ rd (color p) 183 = "."%char
        /\ play_move g p 183 = Some (g', p', msg)
        /\ is_error msg = true
        /\ rd (env4 p) 197 = 0 /\ rd (env4 p') 197 = 16).
Proof.
  split; [|split].
  - with_game [100; 0] ltac:(fun g p =>
      with_play g p 100 ltac:(fun g' p' msg => exists g, p, g', p')).
    repeat split; vm_compute; reflexivity.
  - with_game ko_fight ltac:(fun g p =>
      with_play g p 75 ltac:(fun g' p' msg => exists g, p, g', p', msg)).
    split; [vm_compute; reflexivity|].
    split; [reflexivity|]. split; [reflexivity|].
    split; [vm_compute; reflexivity|].
    split; [reflexivity|]. split; [reflexivity|].
    intros Heq. apply (f_equal ko_old) in Heq. discriminate Heq.
  - with_game [169; 0; 184] ltac:(fun g p =>
      with_play g p 183 ltac:(fun g' p' msg => exists g, p, g', p', msg)).
    repeat split; vm_compute; reflexivity.
Qed.

(** C1 at the retake of the ko: after the ko fight the ko point is 75, and
    [play_move] at 75 is refused with the position as before but for
    [ko_old]. *)
Lemma play_move_illegal_witness :
  exists g p g' p' msg,
    play_game first_position ko_fight = Some (g, p)
    /\ 75 = ko p
    /\ play_move g p 75 = Some (g', p', msg)
    /\ is_error msg = true /\ same_position p p' /\ ko_old p' = ko p.
Proof.
  with_game ko_fight ltac:(fun g p =>
    destruct (play_move_illegal g p 75) as (g' & p' & msg & E & Hill & _);
    [vm_compute; reflexivity..|exists g, p, g', p', msg]).
  split; [vm_compute; reflexivity|]. split; [reflexivity|].
  split; [exact E|]. apply Hill. left. reflexivity.
Defined.

(** *** Counting stones *)

Lemma count_color_insert (col : ascii) (c : list ascii) : forall (i : nat) (a : ascii),
  (i < length c)%nat ->
  count_color col (<[i := a]> c)
  = count_color col c
    - (if (c !!! i =? col)%char then 1 else 0) + (if (a =? col)%char then 1 else 0).
Proof.
  induction c as [|b c IH]; intros i a Hi; [simpl in Hi; lia|].
  destruct i as [|i].
  - cbn. lia.
  - change (<[S i := a]> (b :: c)) with (b :: <[i := a]> c).
    cbn [count_color]. rewrite IH by (simpl in Hi; lia).
    change ((b :: c) !!! S i) with (c !!! i). lia.
Qed.

Lemma count_color_wr (col : ascii) (c : list ascii) (i : Z) (a : ascii) :
  0 <= i < Z.of_nat (length c) ->
  count_color col (wr c i a)
  = count_color col c
    - (if (rd c i =? col)%char then 1 else 0) + (if (a =? col)%char then 1 else 0).
Proof. intros Hi. unfold wr, rd. apply count_color_insert. lia. Qed.

Lemma count_color_swap (c : list ascii) :
  count_color "X" (SWAP_CASE <$> c) = count_color "x" c.
Proof.
  induction c as [|a c IH]; [reflexivity|]. cbn [fmap list_fmap count_color].
  rewrite IH. f_equal. unfold SWAP_CASE.
  destruct (Ascii.eqb_spec a "X") as [->|H1]; [reflexivity|].
  destruct (Ascii.eqb_spec a "x") as [->|H2]; [reflexivity|].
  apply Ascii.eqb_neq in H1. now rewrite H1.
Qed.

Lemma swap_colors_fmap (c : list ascii) :
  colors_ok c = true -> swap_colors c = SWAP_CASE <$> c.
Proof.
  intros Hc. pose proof (colors_ok_length c Hc) as Hl.
  pose proof (swap_colors_length c) as Hlen.
  apply list_eq. intros i. rewrite list_lookup_fmap.
  destruct (decide (i < length c)%nat) as [Hi|Hi].
  - rewrite (lookup_rd (swap_colors c)) by lia. rewrite (lookup_rd c) by lia.
    cbn [fmap option_fmap option_map]. f_equal. apply swap_colors_rd; [exact Hc|lia].
  - rewrite !lookup_ge_None_2 by lia. reflexivity.
Qed.

Lemma count_color_clear (R : list Z) : forall c,
  NoDup R -> (forall r, r ∈ R -> 0 <= r < Z.of_nat (length c) /\ rd c r = "x"%char) ->
  count_color "x" (clear_stones c R) = count_color "x" c - Z.of_nat (length R).
Proof.
  induction R as [|r R IH]; intros c Hnd HR.
  - cbn. lia.
  - apply NoDup_cons in Hnd as [Hr Hnd].
    destruct (HR r ltac:(left)) as [Hr0 Hrx].
    unfold clear_stones in *. cbn [fold_left]. rewrite IH; [|exact Hnd|].
    + rewrite count_color_wr by exact Hr0. rewrite Hrx. cbn [length]. cbn. lia.
    + intros r' Hr'. destruct (HR r' ltac:(now right)) as [H0 Hx].
      rewrite length_wr. split; [exact H0|].
      assert (r <> r') by (intros ->; contradiction).
      rewrite rd_wr_ne by lia. exact Hx.
Qed.

Lemma rd_ext {A} `{Inhabited A} (a b : list A) :
  length a = length b ->
  (forall i, 0 <= i < Z.of_nat (length a) -> rd a i = rd b i) -> a = b.
Proof.
  intros Hl Hrd. apply list_eq. intros i.
  destruct (decide (i < length a)%nat) as [Hi|Hi].
  - rewrite (lookup_rd a), (lookup_rd b) by lia. f_equal. apply Hrd. lia.
  - rewrite !lookup_ge_None_2 by lia. reflexivity.
Qed.

Lemma is_eyeish_loop_ext (p p' : Position) (ns : list Z) :
  color p = color p' -> forall e o, is_eyeish_loop p ns e o = is_eyeish_loop p' ns e o.
Proof.
  intros Hc. induction ns as [|q ns IH]; intros e o; [reflexivity|].
  cbn [is_eyeish_loop]. rewrite <- Hc, !IH. reflexivity.
Qed.

Lemma is_eyeish_ext (p p' : Position) (pt : Z) :
  color p = color p' -> is_eyeish p pt = is_eyeish p' pt.
Proof. intros Hc. unfold is_eyeish. now apply is_eyeish_loop_ext. Qed.

(** What a successful [play_move] at an empty point does: [R] are the
    stones it takes off the board. *)
Lemma play_move_success (g : Globals) (p : Position) (pt : Z) g' p' :
  marks_ok (mark1 g) = true -> board_ok p = true -> on_board pt = true ->
  rd (color p) pt = "."%char ->
  play_move g p pt = Some (g', p', ""%string) ->
  exists R,
    NoDup R
    /\ (forall r, r ∈ R -> on_board r = true /\ rd (color p) r = "x"%char /\ r <> pt)
    /\ color p' = swap_colors (clear_stones (wr (color p) pt "X"%char) R)
    /\ counters p'
       = (n p + 1,
          (if (Z.of_nat (length R) =? 1) && negb (is_eyeish p pt =? Ascii.zero)%char
           then pos_capture g' else 0),
          pt, last p, last2 p, komi p,
          to_char (Z.of_nat (length R) + capX p), cap p)
    /\ ko_old p' = ko p
    /\ (R = [] -> pos_capture g' = 0)
    /\ (R <> [] -> pos_capture g' ∈ R)
    /\ (R <> [] -> exists q, adj pt q /\ rd (color p) q = "x"%char)
    /\ pt <> ko p.
Proof.
  intros Hm Hp Hpt Hempty E.
  pose proof (on_board_range _ Hpt) as Rpt.
  pose proof (colors_ok_length _ (board_ok_colors p Hp)) as Hl.
  assert (Hko : pt <> ko p).
  { intros Hko. unfold play_move in E. cbn [ko set_ko_old] in E.
    apply Z.eqb_eq in Hko. rewrite Hko in E. discriminate E. }
  destruct (play_move_analysis g p pt Hm Hp Hpt Hempty Hko)
    as (HP & g1 & pos1 & captured & R & Hinv & Hcases).
  destruct (put_stone_fields (set_ko_old p (ko p)) pt) as (Pc & _).
  destruct (put_stone_counters (set_ko_old p (ko p)) pt) as (Pk & Pko).
  set (P := put_stone (set_ko_old p (ko p)) pt) in *. clearbody P.
  cbn [color ko_old set_ko_old] in Pc, Pko.
  assert (Pk' : counters P = counters p) by (rewrite Pk; reflexivity). clear Pk.
  destruct (ci_counters _ _ _ _ _ _ Hinv) as [Ck Cko].
  pose proof (ci_captured _ _ _ _ _ _ Hinv) as Hcap.
  assert (Hey : is_eyeish (set_ko_old p (ko p)) pt = is_eyeish p pt)
    by (now apply is_eyeish_ext).
  rewrite Hey in Hcases. clear Hey.
  assert (HR : forall r, r ∈ R ->
            on_board r = true /\ rd (color p) r = "x"%char /\ r <> pt).
  { intros r Hr. destruct (ci_removed _ _ _ _ _ _ Hinv r Hr) as [Hb Hx].
    rewrite Pc in Hx. destruct (Z.eq_dec r pt) as [->|Hne].
    - rewrite rd_wr_eq in Hx by (board_consts; lia). discriminate Hx.
    - pose proof (on_board_range _ Hb).
      rewrite rd_wr_ne in Hx by (board_consts; lia). split_and!; assumption. }
  exists R.
  destruct Hcases as [(HRne & E')|[(HRe & m & _ & _ & E')|(HRe & m & _ & _ & E')]];
    rewrite E' in E; [| discriminate E |].
  - injection E as <- <-.
    destruct (finish_move_fields
                (set_ko pos1
                   (if (captured =? 1) && negb (is_eyeish p pt =? Ascii.zero)%char
                    then pos_capture g1 else 0)) pt captured)
      as (Fc & _ & _ & Fn & Fko & Fko' & Fl & Fl2 & Fl3 & Fkomi & Fcap & FcapX).
    cbn [color n ko ko_old last last2 last3 komi cap capX set_ko] in *.
    unfold counters in *. injection Ck as Cn _ Cl Cl2 Cl3 Ckomi Ccap CcapX.
    injection Pk' as Pn _ Pl Pl2 Pl3 Pkomi Pcap PcapX.
    split_and!.
    + exact (ci_nodup _ _ _ _ _ _ Hinv).
    + exact HR.
    + rewrite Fc, (ci_color _ _ _ _ _ _ Hinv), Pc. reflexivity.
    + rewrite Fn, Fko, Fl, Fl2, Fl3, Fkomi, Fcap, FcapX. subst captured. congruence.
    + congruence.
    + intros Habs. contradiction.
    + intros _. exact (proj1 (ci_some _ _ _ _ _ _ Hinv HRne)).
    + intros _. destruct (ci_dead _ _ _ _ _ _ Hinv HRne) as (q & Hq & Hx & _).
      exists q. split; [exact Hq|]. rewrite Pc in Hx.
      destruct (Z.eq_dec q pt) as [->|Hne].
      * rewrite rd_wr_eq in Hx by (board_consts; lia). discriminate Hx.
      * pose proof (adj_range _ _ Hpt Hq).
        rewrite rd_wr_ne in Hx by (board_consts; lia). exact Hx.
    + exact Hko.
  - injection E as <- <-. subst R.
    destruct (finish_move_fields (set_ko P 0) pt 0)
      as (Fc & _ & _ & Fn & Fko & Fko' & Fl & Fl2 & Fl3 & Fkomi & Fcap & FcapX).
    cbn [color n ko ko_old last last2 last3 komi cap capX set_ko] in *.
    unfold counters in *.
    injection Pk' as Pn _ Pl Pl2 Pl3 Pkomi Pcap PcapX.
    split_and!.
    + constructor.
    + exact HR.
    + rewrite Fc, Pc. reflexivity.
    + rewrite Fn, Fko, Fl, Fl2, Fl3, Fkomi, Fcap, FcapX.
      cbn [length pos_capture]. change (Z.of_nat 0) with 0. cbn [Z.eqb andb].
      congruence.
    + congruence.
    + reflexivity.
    + intros Habs. contradiction.
    + intros Habs. contradiction.
    + exact Hko.
Qed.

(** *** [undo_move] *)

(** What [undo_move] does to a position whose last move put the stone at
    [last pos], when [pos_capture] is 0 or an empty point. *)
Lemma undo_move_spec (g : Globals) (pos : Position) :
  board_ok pos = true -> on_board (last pos) = true ->
  rd (color pos) (last pos) = "x"%char ->
  (pos_capture g = 0
   \/ (on_board (pos_capture g) = true /\ rd (color pos) (pos_capture g) = "."%char)) ->
  let c1 := wr (color pos) (last pos) "."%char in
  let c2 := if pos_capture g =? 0 then c1 else wr c1 (pos_capture g) "X"%char in
  board_ok (undo_move g pos) = true
  /\ color (undo_move g pos) = swap_colors c2
  /\ counters (undo_move g pos)
     = (n pos - 1, ko_old pos, last2 pos, last3 pos, last3 pos, komi pos, capX pos,
        if pos_capture g =? 0 then cap pos else to_char (cap pos - 1))
  /\ ko_old (undo_move g pos) = ko_old pos.
Proof.
  intros Hp Hlast Hx Hcapt c1 c2.
  pose proof (on_board_range _ Hlast) as Rl.
  pose proof (colors_ok_length _ (board_ok_colors pos Hp)) as Hl.
  pose proof (remove_stone_ok pos (last pos) Hp Hlast Hx) as H1.
  destruct (remove_stone_fields pos (last pos))
    as (Qc & Qn & Qko & Qko' & Ql & Ql2 & Ql3 & Qkomi & Qcap & QcapX & _).
  fold c1 in Qc. unfold undo_move.
  set (Q1 := remove_stone pos (last pos)) in *. clearbody Q1.
  cbn zeta.
  set (Q2 := set_ko (set_last2 (set_last Q1 _) _) _).
  assert (H2 : board_ok Q2 = true).
  { revert H1. apply board_ok_ext; subst Q2; cbn [color env4 env4d n ko ko_old last last2 last3 komi cap capX set_color set_env4 set_env4d set_n set_ko set_ko_old set_last set_last2 set_last3 set_komi set_cap set_capX]; reflexivity. }
  assert (F2 : color Q2 = c1 /\ n Q2 = n pos /\ ko Q2 = ko_old pos
               /\ ko_old Q2 = ko_old pos /\ last Q2 = last2 pos
               /\ last2 Q2 = last3 pos /\ last3 Q2 = last3 pos
               /\ komi Q2 = komi pos /\ cap Q2 = cap pos /\ capX Q2 = capX pos).
  { subst Q2. cbn [color env4 env4d n ko ko_old last last2 last3 komi cap capX set_color set_env4 set_env4d set_n set_ko set_ko_old set_last set_last2 set_last3 set_komi set_cap set_capX]. split_and!; assumption. }
  clearbody Q2. clear Q1 H1 Qc Qn Qko Qko' Ql Ql2 Ql3 Qkomi Qcap QcapX.
  destruct F2 as (Qc & Qn & Qko & Qko' & Ql & Ql2 & Ql3 & Qkomi & Qcap & QcapX).
  assert (Hfin : forall q, board_ok q = true ->
            board_ok (swap_color
                        (set_capX (set_cap (set_n q (n q - 1)) (capX (set_n q (n q - 1))))
                                  (cap (set_n q (n q - 1))))) = true).
  { intros q Hq. eapply board_ok_ext; [| | | |apply (swap_board_ok q (n q - 1))].
    - unfold swap_color. cbn [color env4 env4d n ko ko_old last last2 last3 komi cap capX set_color set_env4 set_env4d set_n set_ko set_ko_old set_last set_last2 set_last3 set_komi set_cap set_capX]. reflexivity.
    - unfold swap_color. cbn [color env4 env4d n ko ko_old last last2 last3 komi cap capX set_color set_env4 set_env4d set_n set_ko set_ko_old set_last set_last2 set_last3 set_komi set_cap set_capX]. reflexivity.
    - unfold swap_color. cbn [color env4 env4d n ko ko_old last last2 last3 komi cap capX set_color set_env4 set_env4d set_n set_ko set_ko_old set_last set_last2 set_last3 set_komi set_cap set_capX]. reflexivity.
    - unfold swap_color. cbn [color env4 env4d n ko ko_old last last2 last3 komi cap capX set_color set_env4 set_env4d set_n set_ko set_ko_old set_last set_last2 set_last3 set_komi set_cap set_capX]. reflexivity.
    - apply rem2_pred.
    - exact Hq. }
  destruct (pos_capture g =? 0) eqn:Ez.
  - split_and!.
    + apply (Hfin Q2 H2).
    + unfold swap_color. cbn [color set_color set_n set_cap set_capX].
      subst c2. now rewrite Qc.
    + unfold counters, swap_color. cbn [color env4 env4d n ko ko_old last last2 last3 komi cap capX set_color set_env4 set_env4d set_n set_ko set_ko_old set_last set_last2 set_last3 set_komi set_cap set_capX]. congruence.
    + unfold swap_color. cbn [color env4 env4d n ko ko_old last last2 last3 komi cap capX set_color set_env4 set_env4d set_n set_ko set_ko_old set_last set_last2 set_last3 set_komi set_cap set_capX]. exact Qko'.
  - apply Z.eqb_neq in Ez. destruct Hcapt as [Habs|[Hb Hc]]; [contradiction|].
    pose proof (on_board_range _ Hb) as Rc.
    assert (Hne : pos_capture g <> last pos).
    { intros Heq. rewrite Heq, Hx in Hc. discriminate Hc. }
    assert (H3 : board_ok (put_stone Q2 (pos_capture g)) = true).
    { apply put_stone_ok; [exact H2|exact Hb|].
      rewrite Qc. subst c1. rewrite rd_wr_ne by (board_consts; lia). exact Hc. }
    destruct (put_stone_fields Q2 (pos_capture g))
      as (Tc & Tn & Tko & Tko' & Tl & Tl2 & Tl3 & Tkomi & Tcap & TcapX & _).
    set (Q3 := put_stone Q2 (pos_capture g)) in *. clearbody Q3.
    set (Q4 := set_cap Q3 (to_char (cap Q3 - 1))).
    assert (H4 : board_ok Q4 = true).
    { revert H3. apply board_ok_ext; subst Q4; cbn [color env4 env4d n ko ko_old last last2 last3 komi cap capX set_color set_env4 set_env4d set_n set_ko set_ko_old set_last set_last2 set_last3 set_komi set_cap set_capX]; reflexivity. }
    split_and!.
    + apply (Hfin Q4 H4).
    + unfold swap_color. cbn [color set_color set_n set_cap set_capX Q4].
      subst c2. now rewrite Tc, Qc.
    + unfold counters, swap_color, Q4. cbn [color env4 env4d n ko ko_old last last2 last3 komi cap capX set_color set_env4 set_env4d set_n set_ko set_ko_old set_last set_last2 set_last3 set_komi set_cap set_capX]. congruence.
    + unfold swap_color, Q4. cbn [color env4 env4d n ko ko_old last last2 last3 komi cap capX set_color set_env4 set_env4d set_n set_ko set_ko_old set_last set_last2 set_last3 set_komi set_cap set_capX]. congruence.
Qed.

Lemma colors_ok_clear_stones (R : list Z) : forall c,
  colors_ok c = true -> (forall r, r ∈ R -> on_board r = true) ->
  colors_ok (clear_stones c R) = true.
Proof.
  induction R as [|r R IH]; intros c Hc HR; [exact Hc|].
  unfold clear_stones in *. cbn [fold_left]. apply IH.
  - assert (Hr : on_board r = true) by (apply HR; left).
    pose proof (on_board_range _ Hr). apply colors_ok_wr; [exact Hc|board_consts; lia|].
    apply valid_color_stone; [exact Hr|now left].
  - intros r' Hr'. apply HR. now right.
Qed.

(** The colours after a move at [pt] that takes the stones [R]. *)
Lemma play_move_colors (c : list ascii) (pt : Z) (R : list Z) :
  colors_ok c = true -> on_board pt = true -> rd c pt = "."%char ->
  (forall r, r ∈ R -> on_board r = true /\ rd c r = "x"%char /\ r <> pt) ->
  colors_ok (clear_stones (wr c pt "X"%char) R) = true
  /\ forall i, 0 <= i < BOARDSIZE ->
       rd (swap_colors (clear_stones (wr c pt "X"%char) R)) i
       = if decide (i ∈ R) then "."%char
         else if i =? pt then "x"%char else SWAP_CASE (rd c i).
Proof.
  intros Hc Hpt Hempty HR.
  pose proof (on_board_range _ Hpt) as Rpt.
  pose proof (colors_ok_length _ Hc) as Hl.
  assert (HX : colors_ok (wr c pt "X"%char) = true).
  { apply colors_ok_wr; [exact Hc|board_consts; lia|].
    apply valid_color_stone; [exact Hpt|right; now left]. }
  assert (HC : colors_ok (clear_stones (wr c pt "X"%char) R) = true).
  { apply colors_ok_clear_stones; [exact HX|]. intros r Hr. now apply HR. }
  split; [exact HC|]. intros i Hi.
  rewrite swap_colors_rd by easy.
  rewrite rd_clear_stones; [| |lia].
  2:{ intros r Hr. rewrite length_wr. destruct (HR r Hr) as (Hb & _).
      apply on_board_range in Hb. board_consts. lia. }
  destruct (decide (i ∈ R)) as [_|_]; [reflexivity|].
  destruct (Z.eqb_spec i pt) as [->|Hne].
  - rewrite rd_wr_eq by (board_consts; lia). reflexivity.
  - rewrite rd_wr_ne by (board_consts; lia). reflexivity.
Qed.

(** The stones counted off the board by a move are those of [R]. *)
Lemma captured_stones_play (p p' : Position) (pt : Z) (R : list Z) :
  colors_ok (color p) = true -> on_board pt = true -> rd (color p) pt = "."%char ->
  NoDup R ->
  (forall r, r ∈ R -> on_board r = true /\ rd (color p) r = "x"%char /\ r <> pt) ->
  color p' = swap_colors (clear_stones (wr (color p) pt "X"%char) R) ->
  captured_stones p p' = Z.of_nat (length R).
Proof.
  intros Hc Hpt Hempty Hnd HR Hc'.
  pose proof (on_board_range _ Hpt) as Rpt.
  pose proof (colors_ok_length _ Hc) as Hl.
  destruct (play_move_colors (color p) pt R Hc Hpt Hempty HR) as [HC _].
  unfold captured_stones. rewrite Hc', swap_colors_fmap by exact HC.
  rewrite count_color_swap, count_color_clear; [|exact Hnd|].
  - rewrite count_color_wr by (board_consts; lia). rewrite Hempty.
    change (("." =? "x")%char) with false. change (("X" =? "x")%char) with false. lia.
  - intros r Hr. destruct (HR r Hr) as (Hb & Hx & Hne).
    apply on_board_range in Hb. rewrite length_wr.
    split; [board_consts; lia|]. rewrite rd_wr_ne by (board_consts; lia). exact Hx.
Qed.

Lemma to_char_small (z : Z) : -128 <= z <= 127 -> to_char z = z.
Proof. intros Hz. unfold to_char. rewrite Z.mod_small by lia. lia. Qed.

Lemma to_char_pred_succ (z : Z) : -128 <= z <= 127 -> to_char (to_char (1 + z) - 1) = z.
Proof.
  intros Hz. unfold to_char.
  replace ((1 + z + 128) mod 256 - 128 - 1 + 128) with ((1 + z + 128) mod 256 + (-1)) by lia.
  rewrite Zplus_mod_idemp_l. replace (1 + z + 128 + -1) with (z + 128) by lia.
  rewrite Z.mod_small by lia. lia.
Qed.

(** C2, amended. A successful move at an empty point that takes at most one
    stone, followed at once by [undo_move]: the colours, the caches of the
    points of the board and the fields [n], [ko], [last], [last2], [komi],
    [cap] and [capX] are as before the move. The two history fields are
    not: [last3] is left holding the old [last2], and [ko_old] the old
    [ko]. *)
Theorem play_undo_restores (g : Globals) (p : Position) (pt : Z) g' p' :
  marks_ok (mark1 g) = true -> board_ok p = true -> chars_ok p = true ->
  on_board pt = true -> rd (color p) pt = "."%char ->
  play_move g p pt = Some (g', p', ""%string) ->
  captured_stones p p' <= 1 ->
  color (undo_move g' p') = color p
  /\ n (undo_move g' p') = n p
  /\ ko (undo_move g' p') = ko p
  /\ last (undo_move g' p') = last p
  /\ last2 (undo_move g' p') = last2 p
  /\ komi (undo_move g' p') = komi p
  /\ cap (undo_move g' p') = cap p
  /\ capX (undo_move g' p') = capX p
  /\ length (env4 (undo_move g' p')) = length (env4 p)
  /\ length (env4d (undo_move g' p')) = length (env4d p)
  /\ (forall z, on_board z = true ->
        rd (env4 (undo_move g' p')) z = rd (env4 p) z
        /\ rd (env4d (undo_move g' p')) z = rd (env4d p) z)
  /\ last3 (undo_move g' p') = last2 p
  /\ ko_old (undo_move g' p') = ko p.
Proof.
  intros Hm Hp Hch Hpt Hempty E Hcapt.
  pose proof (on_board_range _ Hpt) as Rpt.
  pose proof (board_ok_colors p Hp) as Hc.
  pose proof (colors_ok_length _ Hc) as Hl.
  destruct (play_move_ok g p pt g' p' (conj Hm Hp) Hpt Hempty E) as [_ Hp'].
  cbn [snd] in Hp'.
  destruct (play_move_success g p pt g' p' Hm Hp Hpt Hempty E)
    as (R & Hnd & HR & Hc' & Hk & Hko' & Hnone & Hsome & _ & _).
  rewrite (captured_stones_play p p' pt R Hc Hpt Hempty Hnd HR Hc') in Hcapt.
  destruct (play_move_colors (color p) pt R Hc Hpt Hempty HR) as [HC Hrd].
  rewrite <- Hc' in Hrd.
  unfold counters in Hk. injection Hk as Kn Kko Kl Kl2 Kl3 Kkomi Kcap KcapX.
  unfold chars_ok in Hch. rewrite !andb_true_iff, !Z.leb_le in Hch.
  assert (Hpt' : rd (color p') pt = "x"%char).
  { rewrite Hrd by (board_consts; lia).
    destruct (decide (pt ∈ R)) as [Hin|_].
    - destruct (HR pt Hin) as (_ & _ & Habs). contradiction.
    - now rewrite Z.eqb_refl. }
  assert (Hpc : pos_capture g' = 0 /\ R = []
                \/ R = [pos_capture g'] /\ on_board (pos_capture g') = true
                   /\ rd (color p') (pos_capture g') = "."%char).
  { destruct R as [|r [|r' R]].
    - left. split; [now apply Hnone|reflexivity].
    - right. assert (Hin : pos_capture g' ∈ [r]) by (now apply Hsome).
      apply list_elem_of_singleton in Hin. rewrite Hin.
      destruct (HR r ltac:(left)) as (Hb & _ & _). split; [reflexivity|].
      split; [exact Hb|]. apply on_board_range in Hb.
      rewrite Hrd by (board_consts; lia).
      destruct (decide (r ∈ [r])) as [_|Hn]; [reflexivity|]. exfalso. apply Hn. left.
    - cbn [length] in Hcapt. lia. }
  assert (HU := undo_move_spec g' p' Hp').
  cbv zeta in HU. revert HU. generalize (undo_move g' p'). intros u HU.
  destruct HU as (Hu & Uc & Uk & Uko').
  { now rewrite Kl. }
  { now rewrite Kl. }
  { destruct Hpc as [[H0 _]|(_ & Hb & Hd)]; [now left|now right]. }
  unfold counters in Uk. injection Uk as Un Uko Ul Ul2 Ul3 Ukomi Ucap UcapX.
  assert (Ucol : color u = color p).
  { rewrite Uc. rewrite Kl.
    pose proof (colors_ok_length _ (board_ok_colors p' Hp')) as Hl'.
    assert (H1 : colors_ok (wr (color p') pt "."%char) = true).
    { apply colors_ok_wr; [now apply board_ok_colors|board_consts; lia|].
      apply valid_color_stone; [exact Hpt|now left]. }
    destruct Hpc as [[H0 ->]|(HR1 & Hb & Hd)].
    - rewrite H0. cbn [Z.eqb]. apply rd_ext.
      { now rewrite swap_colors_length, length_wr, <- Nat2Z.inj_iff, Hl', Hl. }
      intros i Hi. rewrite swap_colors_length, length_wr, Hl' in Hi.
      rewrite swap_colors_rd by easy.
      destruct (Z.eq_dec pt i) as [<-|Hne].
      + rewrite rd_wr_eq by (board_consts; lia). now rewrite Hempty.
      + rewrite rd_wr_ne by (board_consts; lia). rewrite Hrd by exact Hi.
        destruct (decide (i ∈ [])) as [Hin|_]; [inversion Hin|].
        destruct (Z.eqb_spec i pt) as [->|_]; [contradiction|].
        apply SWAP_CASE_involutive.
    - pose proof (on_board_range _ Hb) as Rb.
      assert (Ez : (pos_capture g' =? 0) = false) by (apply Z.eqb_neq; board_consts; lia).
      rewrite Ez. set (r := pos_capture g') in *. clearbody r. subst R.
      destruct (HR r ltac:(left)) as (_ & Hrx & Hrne).
      assert (H2 : colors_ok (wr (wr (color p') pt "."%char) r "X"%char) = true).
      { apply colors_ok_wr; [exact H1|board_consts; lia|].
        apply valid_color_stone; [exact Hb|right; now left]. }
      apply rd_ext.
      { now rewrite swap_colors_length, !length_wr, <- Nat2Z.inj_iff, Hl', Hl. }
      intros i Hi. rewrite swap_colors_length, !length_wr, Hl' in Hi.
      rewrite swap_colors_rd by easy.
      destruct (Z.eq_dec r i) as [<-|Hne].
      + rewrite rd_wr_eq by (rewrite length_wr; board_consts; lia). now rewrite Hrx.
      + rewrite rd_wr_ne by (board_consts; lia).
        destruct (Z.eq_dec pt i) as [<-|Hne'].
        * rewrite rd_wr_eq by (board_consts; lia). now rewrite Hempty.
        * rewrite rd_wr_ne by (board_consts; lia). rewrite Hrd by exact Hi.
          destruct (decide (i ∈ [r])) as [Hin|_].
          { apply list_elem_of_singleton in Hin. congruence. }
          destruct (Z.eqb_spec i pt) as [->|_]; [contradiction|].
          apply SWAP_CASE_involutive. }
  assert (Hn : n u = n p) by (board_consts; lia).
  assert (HcapX : capX u = capX p).
  { rewrite UcapX, Kcap. destruct Hpc as [[H0 ->]|(HR1 & Hb & _)].
    - rewrite H0. cbn [Z.eqb length]. change (Z.of_nat 0) with 0.
      apply to_char_small. lia.
    - apply on_board_range in Hb.
      assert (Ez : (pos_capture g' =? 0) = false) by (apply Z.eqb_neq; board_consts; lia).
      rewrite Ez, HR1. cbn [length]. change (Z.of_nat 1) with 1.
      apply to_char_pred_succ. lia. }
  destruct (same_position_of_board_ok p (set_last3 u (last3 p)))
    as (_ & _ & L4 & L4d & Hcache).
  { exact Hp. }
  { revert Hu. now apply board_ok_ext. }
  { exact Ucol. }
  { unfold counters. cbn [n ko last last2 last3 komi cap capX set_last3]. congruence. }
  cbn [env4 env4d set_last3] in L4, L4d, Hcache.
  split_and!.
  - exact Ucol.
  - exact Hn.
  - now rewrite Uko.
  - now rewrite Ul.
  - now rewrite Ul2.
  - now rewrite Ukomi.
  - now rewrite Ucap.
  - exact HcapX.
  - exact L4.
  - exact L4d.
  - exact Hcache.
  - now rewrite Ul3.
  - now rewrite Uko'.
Qed.

(** C2, counterexample. Three moves that take no stone and are undone at
    once. (a) After three moves, a fourth one and its undoing leave [last3]
    with the old [last2]. (b) After the ko fight a move elsewhere and its
    undoing leave [ko_old] with the old [ko]. (c) A move of White on the
    edge and its undoing change a cache cell of the border. *)
Lemma play_undo_claim_fails :
  (exists g p g' p',
     play_game first_position [100; 101; 102] = Some (g, p)
     /\ play_move g p 103 = Some (g', p', ""%string)
     /\ captured_stones p p' = 0
     /\ last3 p = 100 /\ last3 (undo_move g' p') = 101
     /\ undo_move g' p' <> p)
  /\ (exists g p g' p',
        play_game first_position ko_fight = Some (g, p)
        /\ play_move g p 30 = Some (g', p', ""%string)
        /\ captured_stones p p' = 0
        /\ ko_old p = 0 /\ ko_old (undo_move g' p') = 75
        /\ undo_move g' p' <> p)
  /\ (exists g p g' p',
        play_game first_position [100] = Some (g, p)
        /\ play_move g p 183 = Some (g', p', ""%string)
        /\ captured_stones p p' = 0
        /\ rd (env4 p) 197 = 0 /\ rd (env4 (undo_move g' p')) 197 = 16
        /\ undo_move g' p' <> p).
Proof.
  split; [|split].
  - with_game [100; 101; 102] ltac:(fun g p =>
      with_play g p 103 ltac:(fun g' p' msg => exists g, p, g', p')).
    split_and!; try (vm_compute; reflexivity).
    intros Heq. apply (f_equal last3) in Heq. vm_compute in Heq. discriminate Heq.
  - with_game ko_fight ltac:(fun g p =>
      with_play g p 30 ltac:(fun g' p' msg => exists g, p, g', p')).
    split_and!; try (vm_compute; reflexivity).
    intros Heq. apply (f_equal ko_old) in Heq. vm_compute in Heq. discriminate Heq.
  - with_game [100] ltac:(fun g p =>
      with_play g p 183 ltac:(fun g' p' msg => exists g, p, g', p')).
    split_and!; try (vm_compute; reflexivity).
    intros Heq. apply (f_equal (fun q => rd (env4 q) 197)) in Heq.
    vm_compute in Heq. discriminate Heq.
Qed.

(** C2 at the move that takes the ko: one stone is taken and put back. *)
Lemma play_undo_restores_witness :
  exists g' p',
    play_move (fst ko_position) (snd ko_position) 76 = Some (g', p', ""%string)
    /\ captured_stones (snd ko_position) p' = 1
    /\ color (undo_move g' p') = color (snd ko_position)
    /\ n (undo_move g' p') = n (snd ko_position)
    /\ ko (undo_move g' p') = ko (snd ko_position)
    /\ last (undo_move g' p') = last (snd ko_position)
    /\ last2 (undo_move g' p') = last2 (snd ko_position)
    /\ komi (undo_move g' p') = komi (snd ko_position)
    /\ cap (undo_move g' p') = cap (snd ko_position)
    /\ capX (undo_move g' p') = capX (snd ko_position)
    /\ length (env4 (undo_move g' p')) = length (env4 (snd ko_position))
    /\ length (env4d (undo_move g' p')) = length (env4d (snd ko_position))
    /\ (forall z, on_board z = true ->
          rd (env4 (undo_move g' p')) z = rd (env4 (snd ko_position)) z
          /\ rd (env4d (undo_move g' p')) z = rd (env4d (snd ko_position)) z)
    /\ last3 (undo_move g' p') = last2 (snd ko_position)
    /\ ko_old (undo_move g' p') = ko (snd ko_position).
Proof.
  with_play (fst ko_position) (snd ko_position) 76 ltac:(fun g' p' msg => exists g', p').
  split; [vm_compute; reflexivity|]. split; [vm_compute; reflexivity|].
  apply (play_undo_restores (fst ko_position) (snd ko_position) 76);
    try (vm_compute; reflexivity).
  apply Z.leb_le. vm_compute. reflexivity.
Defined.

(** *** Ko *)

Lemma is_eyeish_loop_eye_of (p : Position) (ns : list Z) : forall e o,
  is_eyeish_loop p ns e o = eye_of (map (rd (color p)) ns) e o.
Proof.
  induction ns as [|q ns IH]; intros e o; [reflexivity|].
  cbn [is_eyeish_loop map eye_of]. now rewrite !IH.
Qed.

Lemma all_colors_spec (P : ascii -> ascii -> ascii -> ascii -> bool) :
  all_colors P = true ->
  forall c0 c1 c2 c3, c0 ∈ point_colors -> c1 ∈ point_colors ->
    c2 ∈ point_colors -> c3 ∈ point_colors -> P c0 c1 c2 c3 = true.
Proof.
  unfold all_colors. intros H c0 c1 c2 c3 H0 H1 H2 H3.
  rewrite forallb_forall in H. apply list_elem_of_In in H0. specialize (H _ H0).
  rewrite forallb_forall in H. apply list_elem_of_In in H1. specialize (H _ H1).
  rewrite forallb_forall in H. apply list_elem_of_In in H2. specialize (H _ H2).
  rewrite forallb_forall in H. apply list_elem_of_In in H3. exact (H _ H3).
Qed.

Lemma eye_rule_holds : all_colors eye_rule = true.
Proof. vm_compute. reflexivity. Qed.

Lemma point_colors_valid (c : list ascii) (q : Z) :
  colors_ok c = true -> 0 <= q < BOARDSIZE -> rd c q ∈ point_colors.
Proof.
  intros Hc Hq. pose proof (colors_ok_valid c q Hc Hq) as Hv.
  unfold point_colors.
  destruct (valid_color_cases _ _ Hv) as [[_ [E|[E|E]]]|[_ E]]; rewrite E; rewrite !elem_of_cons; tauto.
Qed.

Lemma is_eyeish_enemy (p : Position) (pt : Z) :
  colors_ok (color p) = true -> on_board pt = true ->
  (exists q, adj pt q /\ rd (color p) q = "x"%char) ->
  (is_eyeish p pt <> Ascii.zero <-> enemy_eyeish (color p) pt).
Proof.
  intros Hc Hpt Hx. pose proof (on_board_range _ Hpt) as Rpt.
  unfold is_eyeish. rewrite is_eyeish_loop_eye_of, neighbors_eq. cbn [map].
  assert (He : enemy_eyeish (color p) pt <->
               forallb (fun c => (c =? " ")%char || (c =? "x")%char)
                 [rd (color p) (pt - 14); rd (color p) (pt + 1);
                  rd (color p) (pt + 14); rd (color p) (pt - 1)] = true).
  { unfold enemy_eyeish. cbn [forallb].
    rewrite !andb_true_iff, !orb_true_iff, !Ascii.eqb_eq. split.
    - intros H.
      assert (G : forall q, adj pt q -> rd (color p) q = " "%char \/ rd (color p) q = "x"%char).
      { intros q Hq. destruct (Ascii.eqb_spec (rd (color p) q) " ") as [E|E];
          [now left|right; now apply H]. }
      split_and!; try apply G; try (apply adj_spec; lia). reflexivity.
    - intros (H0 & H1 & H2 & H3 & _) q Hq Hn. apply adj_spec in Hq.
      destruct Hq as [->|[->|[->| ->]]]; tauto. }
  assert (Hx' : existsb (fun c => (c =? "x")%char)
                  [rd (color p) (pt - 14); rd (color p) (pt + 1);
                   rd (color p) (pt + 14); rd (color p) (pt - 1)] = true).
  { destruct Hx as (q & Hq & Hcol). apply adj_spec in Hq. cbn [existsb].
    rewrite !orb_true_iff, !Ascii.eqb_eq.
    destruct Hq as [->|[->|[->| ->]]]; tauto. }
  pose proof (all_colors_spec eye_rule eye_rule_holds
                (rd (color p) (pt - 14)) (rd (color p) (pt + 1))
                (rd (color p) (pt + 14)) (rd (color p) (pt - 1))) as R.
  unfold eye_rule in R. rewrite Hx' in R. cbn [implb] in R.
  rewrite He. clear He Hx'.
  assert (R' := R ltac:(apply point_colors_valid; [exact Hc|board_consts; lia])
                  ltac:(apply point_colors_valid; [exact Hc|board_consts; lia])
                  ltac:(apply point_colors_valid; [exact Hc|board_consts; lia])
                  ltac:(apply point_colors_valid; [exact Hc|board_consts; lia])).
  clear R. apply Bool.eqb_prop in R'. rewrite <- R'.
  rewrite negb_true_iff. symmetry. apply Ascii.eqb_neq.
Qed.

Lemma play_game_snoc (moves : list Z) (pt : Z) : forall s s',
  play_game s (moves ++ [pt]) = Some s' <->
  exists s0, play_game s moves = Some s0 /\ legal_move s0 pt = Some s'.
Proof.
  induction moves as [|m moves IH]; intros s s'.
  - cbn [app play_game]. split.
    + intros H. exists s. split; [reflexivity|].
      destruct (legal_move s pt); [exact H|discriminate H].
    + intros (s0 & [= <-] & H). now rewrite H.
  - cbn [app play_game]. destruct (legal_move s m) as [s1|].
    + apply IH.
    + split; [discriminate|]. intros (s0 & H & _). discriminate H.
Qed.

(** The ko point after a move at an empty point, from the stones [R] that
    the move took. *)
Lemma ko_after_play (g : Globals) (p : Position) (pt : Z) g' p' :
  marks_ok (mark1 g) = true -> board_ok p = true -> on_board pt = true ->
  rd (color p) pt = "."%char ->
  play_move g p pt = Some (g', p', ""%string) ->
  (ko p' <> 0 <-> captured_stones p p' = 1 /\ enemy_eyeish (color p) pt)
  /\ (ko p' <> 0 -> on_board (ko p') = true /\ rd (color p') (ko p') = "."%char).
Proof.
  intros Hm Hp Hpt Hempty E.
  pose proof (board_ok_colors p Hp) as Hc.
  destruct (play_move_success g p pt g' p' Hm Hp Hpt Hempty E)
    as (R & Hnd & HR & Hc' & Hk & _ & Hnone & Hsome & Hadj & _).
  rewrite (captured_stones_play p p' pt R Hc Hpt Hempty Hnd HR Hc').
  destruct (play_move_colors (color p) pt R Hc Hpt Hempty HR) as [_ Hrd].
  rewrite <- Hc' in Hrd. clear Hc'.
  unfold counters in Hk. injection Hk as _ Kko _ _ _ _ _ _.
  assert (Hin : R <> [] -> on_board (pos_capture g') = true /\ pos_capture g' <> 0
                           /\ rd (color p') (pos_capture g') = "."%char).
  { intros Hne. specialize (Hsome Hne). destruct (HR _ Hsome) as (Hb & _ & _).
    pose proof (on_board_range _ Hb) as Rb.
    split; [exact Hb|]. split; [board_consts; lia|].
    rewrite Hrd by (board_consts; lia).
    destruct (decide (pos_capture g' ∈ R)) as [_|Hn]; [reflexivity|contradiction]. }
  destruct (Z.eqb_spec (Z.of_nat (length R)) 1) as [H1|H1]; cbn [andb] in Kko.
  - assert (Hne : R <> []) by (intros ->; discriminate H1).
    destruct (Hin Hne) as (Hb & Hnz & Hdot).
    pose proof (is_eyeish_enemy p pt Hc Hpt (Hadj Hne)) as Heye.
    destruct (Ascii.eqb_spec (is_eyeish p pt) Ascii.zero) as [Hz|Hz]; cbn [negb] in Kko.
    + split.
      * split; [intros Hko; contradiction|]. intros [_ He]. apply Heye in He.
        contradiction.
      * intros Hko. contradiction.
    + rewrite Kko. split.
      * split; [|intros _; exact Hnz]. intros _. split; [exact H1|]. now apply Heye.
      * intros _. split; [exact Hb|exact Hdot].
  - split.
    + split; [intros Hko; contradiction|]. intros [Habs _]. contradiction.
    + intros Hko. contradiction.
Qed.

(** C6. In a game from the empty position, [ko] is not zero exactly when
    the last move was a move on the board ([play_move] answered with the
    empty string) that took exactly one stone and was played at a point all
    of whose neighbours on the board held stones of the opponent; the ko
    point is then an empty point of the board and [play_move] at it returns
    an error message. *)
Theorem ko_after_game (p0 : Position) (g0 : Globals) (moves : list Z) (s : State) :
  Z.of_nat (length (env4 p0)) = BOARDSIZE ->
  Z.of_nat (length (env4d p0)) = BOARDSIZE ->
  marks_ok (mark1 g0) = true ->
  play_game (g0, fst (empty_position p0)) moves = Some s ->
  (ko (snd s) <> 0 <->
   exists ms pt s0,
     moves = ms ++ [pt]
     /\ play_game (g0, fst (empty_position p0)) ms = Some s0
     /\ rd (color (snd s0)) pt = "."%char
     /\ play_move (fst s0) (snd s0) pt = Some (fst s, snd s, ""%string)
     /\ captured_stones (snd s0) (snd s) = 1
     /\ enemy_eyeish (color (snd s0)) pt)
  /\ (ko (snd s) <> 0 ->
      on_board (ko (snd s)) = true
      /\ rd (color (snd s)) (ko (snd s)) = "."%char
      /\ exists g' p' msg,
           play_move (fst s) (snd s) (ko (snd s)) = Some (g', p', msg)
           /\ is_error msg = true).
Proof.
  intros H4 H4d Hm Hgame.
  assert (Hinit : state_ok (g0, fst (empty_position p0))).
  { split; cbn [fst snd]; [exact Hm|now apply empty_position_board_ok]. }
  assert (Hko0 : ko (fst (empty_position p0)) = 0).
  { pose proof (empty_position_state p0 H4 H4d) as H. cbv zeta in H.
    revert H. generalize (fst (empty_position p0)). intros q H. tauto. }
  revert Hinit Hko0 Hgame. generalize (fst (empty_position p0)). intros q0 Hinit Hko0 Hgame.
  assert (Herr : forall g p, exists g' p' msg,
             play_move g p (ko p) = Some (g', p', msg) /\ is_error msg = true).
  { intros g p. exists g, (set_ko_old p (ko p)), "Error Illegal move: retakes ko"%string.
    split; [|reflexivity]. unfold play_move. cbn [ko set_ko_old]. now rewrite Z.eqb_refl. }
  destruct moves as [|pt ms _] using rev_ind.
  - cbn [play_game] in Hgame. injection Hgame as <-. cbn [snd]. split.
    + split; [intros H; contradiction|].
      intros (ms & pt & _ & Habs & _). now apply app_cons_not_nil in Habs.
    + intros H. contradiction.
  - apply play_game_snoc in Hgame as (s0 & Hs0 & Hlegal).
    pose proof (play_game_ok ms _ _ Hinit Hs0) as Hok.
    assert (Hdec : forall ms' pt' s0', ms ++ [pt] = ms' ++ [pt'] ->
              play_game (g0, q0) ms' = Some s0' -> pt' = pt /\ s0' = s0).
    { intros ms' pt' s0' Heq Hg. apply app_inj_tail in Heq as [<- <-].
      rewrite Hs0 in Hg. now injection Hg as <-. }
    destruct (legal_move_play s0 pt s Hok Hlegal) as [(Hdot & Hb & Hplay)|(Hno & _ & Hs)].
    + destruct Hok as [Hm0 Hp0].
      destruct (ko_after_play _ _ _ _ _ Hm0 Hp0 Hb Hdot Hplay) as [Hiff Hpoint].
      split.
      * split.
        { intros Hko. apply Hiff in Hko as [Hc He]. exists ms, pt, s0. now split_and!. }
        { intros (ms' & pt' & s0' & Heq & Hg & _ & _ & Hc & He).
          destruct (Hdec _ _ _ Heq Hg) as [-> ->]. apply Hiff. now split. }
      * intros Hko. destruct (Hpoint Hko) as [Hb' Hd']. split_and!; [exact Hb'|exact Hd'|].
        apply Herr.
    + assert (Hz : ko (snd s) = 0).
      { rewrite Hs. cbn [snd]. destruct (pass_move_fields (snd s0)) as (_ & _ & _ & _ & H & _).
        exact H. }
      split.
      * split; [intros H; contradiction|].
        intros (ms' & pt' & s0' & Heq & Hg & Hd & _).
        destruct (Hdec _ _ _ Heq Hg) as [-> ->]. contradiction.
      * intros H. contradiction.
Qed.

(** *** The capture counters *)

(** C7, at the failing input. The game [big_capture] is legal and 168
    stones are taken in it, all by the last move; the two counters then add
    up to -88, the [char] counter [cap] having wrapped around. *)
Theorem capture_counters_wrap :
  exists s,
    play_game first_position big_capture = Some s
    /\ captured_in_game first_position big_capture = Some 168
    /\ cap (snd s) = -88 /\ capX (snd s) = 0
    /\ cap (snd s) + capX (snd s) <> 168.
Proof.
  with_game big_capture ltac:(fun g p => exists (g, p)).
  split; [vm_compute; reflexivity|]. split; [vm_compute; reflexivity|].
  cbn [snd cap capX]. split; [reflexivity|]. split; [reflexivity|]. discriminate.
Qed.

(** *** Instances *)

(** C10 on a position that has been used before. *)
Lemma empty_position_spec_witness :
  Z.of_nat (length (env4 used_position)) = BOARDSIZE
  /\ Z.of_nat (length (env4d used_position)) = BOARDSIZE
  /\ snd (empty_position used_position) = ""%string
  /\ Z.of_nat (length (color (fst (empty_position used_position)))) = BOARDSIZE
  /\ Z.of_nat (length (env4 (fst (empty_position used_position)))) = BOARDSIZE
  /\ Z.of_nat (length (env4d (fst (empty_position used_position)))) = BOARDSIZE
  /\ (forall pt, 0 <= pt < BOARDSIZE ->
        rd (color (fst (empty_position used_position))) pt
        = if on_board pt then "."%char else " "%char)
  /\ env4_OK (fst (empty_position used_position)) = 1
  /\ (forall pt, on_board pt = true ->
        rd (env4 (fst (empty_position used_position))) pt
        = compute_env4 (fst (empty_position used_position)) pt 0
        /\ rd (env4d (fst (empty_position used_position))) pt
           = compute_env4 (fst (empty_position used_position)) pt 4)
  /\ ko (fst (empty_position used_position)) = 0
  /\ last (fst (empty_position used_position)) = 0
  /\ last2 (fst (empty_position used_position)) = 0
  /\ cap (fst (empty_position used_position)) = 0
  /\ capX (fst (empty_position used_position)) = 0
  /\ n (fst (empty_position used_position)) = 0
  /\ komi (fst (empty_position used_position)) = 7.5%float
  /\ last3 (fst (empty_position used_position)) = last3 used_position
  /\ ko_old (fst (empty_position used_position)) = ko_old used_position.
Proof.
  assert (H4 : Z.of_nat (length (env4 used_position)) = BOARDSIZE) by reflexivity.
  assert (H4d : Z.of_nat (length (env4d used_position)) = BOARDSIZE) by reflexivity.
  split; [exact H4|]. split; [exact H4d|].
  pose proof (empty_position_spec used_position H4 H4d) as W. cbv zeta in W.
  exact W.
Defined.

(** C5 after the ko fight. *)
Lemma env4_after_every_move_witness :
  exists s,
    play_game (initial_globals, fst (empty_position used_position)) ko_fight = Some s
    /\ env4_OK (snd s) = 1
    /\ forall pt, 0 <= pt < BOARDSIZE -> rd (color (snd s)) pt <> " "%char ->
         rd (env4 (snd s)) pt = compute_env4 (snd s) pt 0
         /\ rd (env4d (snd s)) pt = compute_env4 (snd s) pt 4.
Proof.
  with_game ko_fight ltac:(fun g p =>
    exists (g, p); split; [vm_compute; reflexivity|];
    apply (env4_after_every_move used_position initial_globals ko_fight (g, p));
    vm_compute; reflexivity).
Defined.

(** C6 after the ko fight: the ko point is 75. *)
Lemma ko_after_game_witness :
  exists s,
    play_game (initial_globals, fst (empty_position used_position)) ko_fight = Some s
    /\ ko (snd s) = 75
    /\ (ko (snd s) <> 0 <->
        exists ms pt s0,
          ko_fight = ms ++ [pt]
          /\ play_game (initial_globals, fst (empty_position used_position)) ms = Some s0
          /\ rd (color (snd s0)) pt = "."%char
          /\ play_move (fst s0) (snd s0) pt = Some (fst s, snd s, ""%string)
          /\ captured_stones (snd s0) (snd s) = 1
          /\ enemy_eyeish (color (snd s0)) pt)
    /\ (ko (snd s) <> 0 ->
        on_board (ko (snd s)) = true
        /\ rd (color (snd s)) (ko (snd s)) = "."%char
        /\ exists g' p' msg,
             play_move (fst s) (snd s) (ko (snd s)) = Some (g', p', msg)
             /\ is_error msg = true).
Proof.
  with_game ko_fight ltac:(fun g p =>
    exists (g, p); split; [vm_compute; reflexivity|]; split; [reflexivity|];
    apply (ko_after_game used_position initial_globals ko_fight (g, p));
    vm_compute; reflexivity).
Defined.

(** *** The capture counters in short games, and blocks *)

(** What a legal move does to the capture counters: [capX] takes the old
    [cap], and [cap] the old [capX] plus the stones taken, stored in a
    [char]. *)
Lemma legal_move_counters (s : State) (pt : Z) (s' : State) :
  state_ok s -> legal_move s pt = Some s' ->
  0 <= captured_stones (snd s) (snd s')
  /\ capX (snd s') = cap (snd s)
  /\ (cap (snd s') = to_char (captured_stones (snd s) (snd s') + capX (snd s))
      \/ captured_stones (snd s) (snd s') = 0 /\ cap (snd s') = capX (snd s)).
Proof.
  intros Hs H. pose proof Hs as [Hm Hp]. pose proof (board_ok_colors _ Hp) as Hc.
  destruct (legal_move_play s pt s' Hs H) as [(Hdot & Hb & E)|(_ & _ & ->)].
  - destruct (play_move_success _ _ _ _ _ Hm Hp Hb Hdot E)
      as (R & Hnd & HR & Hc' & Hk & _).
    rewrite (captured_stones_play _ _ pt R Hc Hb Hdot Hnd HR Hc').
    unfold counters in Hk. injection Hk as _ _ _ _ _ _ Kcap KcapX.
    split; [lia|]. split; [exact KcapX|]. left. exact Kcap.
  - cbn [snd].
    destruct (pass_move_fields (snd s)) as (Fc & _ & _ & _ & _ & _ & _ & _ & _ & _ & Fcap & FcapX).
    assert (Hz : captured_stones (snd s) (fst (pass_move (snd s))) = 0).
    { unfold captured_stones. rewrite Fc, swap_colors_fmap by exact Hc.
      rewrite count_color_swap. lia. }
    rewrite Hz. split; [lia|]. split; [exact FcapX|]. right. split; [reflexivity|exact Fcap].
Qed.

Lemma captured_in_game_nonneg (moves : list Z) : forall s k,
  state_ok s -> captured_in_game s moves = Some k -> 0 <= k.
Proof.
  induction moves as [|pt moves IH]; intros s k Hs H; cbn [captured_in_game] in H.
  - injection H as <-. lia.
  - destruct (legal_move s pt) as [s1|] eqn:E; [|discriminate].
    destruct (captured_in_game s1 moves) as [k1|] eqn:E1; [|discriminate].
    injection H as <-.
    pose proof (IH s1 k1 (legal_move_ok s pt s1 Hs E) E1).
    destruct (legal_move_counters s pt s1 Hs E) as (Hj & _). lia.
Qed.

(** The two counters add up to the stones taken as long as that sum stays
    within a [char]. *)
Lemma capture_counters_from (moves : list Z) : forall s s' k,
  state_ok s -> 0 <= cap (snd s) -> 0 <= capX (snd s) ->
  play_game s moves = Some s' -> captured_in_game s moves = Some k ->
  cap (snd s) + capX (snd s) + k <= 127 ->
  0 <= cap (snd s') /\ 0 <= capX (snd s')
  /\ cap (snd s') + capX (snd s') = cap (snd s) + capX (snd s) + k.
Proof.
  induction moves as [|pt moves IH]; intros s s' k Hs Hcap HcapX Hg Hk Hle;
    cbn [play_game captured_in_game] in Hg, Hk.
  - injection Hg as <-. injection Hk as <-. lia.
  - destruct (legal_move s pt) as [s1|] eqn:E; [|discriminate].
    destruct (captured_in_game s1 moves) as [k1|] eqn:E1; [|discriminate].
    injection Hk as <-.
    pose proof (legal_move_ok s pt s1 Hs E) as Hs1.
    pose proof (captured_in_game_nonneg moves s1 k1 Hs1 E1) as Hk1.
    destruct (legal_move_counters s pt s1 Hs E) as (Hj & HX & Hc).
    assert (Hc1 : cap (snd s1) = captured_stones (snd s) (snd s1) + capX (snd s)).
    { destruct Hc as [Hc|[Hz Hc]]; [|lia]. rewrite Hc. apply to_char_small. lia. }
    destruct (IH s1 s' k1 Hs1 ltac:(lia) ltac:(lia) Hg E1 ltac:(lia)) as (H1 & H2 & H3).
    lia.
Qed.

(** X1. In a game from the empty position in which at most 127 stones are
    taken in all, [cap + capX] is the number of stones taken by both
    players. *)
Theorem capture_counters_small (p0 : Position) (g0 : Globals) (moves : list Z)
    (s : State) (k : Z) :
  Z.of_nat (length (env4 p0)) = BOARDSIZE ->
  Z.of_nat (length (env4d p0)) = BOARDSIZE ->
  marks_ok (mark1 g0) = true ->
  play_game (g0, fst (empty_position p0)) moves = Some s ->
  captured_in_game (g0, fst (empty_position p0)) moves = Some k ->
  k <= 127 ->
  cap (snd s) + capX (snd s) = k.
Proof.
  intros H4 H4d Hm Hg Hk Hle.
  assert (Hinit : state_ok (g0, fst (empty_position p0))).
  { split; cbn [fst snd]; [exact Hm|now apply empty_position_board_ok]. }
  assert (Hz : cap (fst (empty_position p0)) = 0 /\ capX (fst (empty_position p0)) = 0).
  { pose proof (empty_position_state p0 H4 H4d) as H. cbv zeta in H.
    revert H. generalize (fst (empty_position p0)). intros q H. tauto. }
  revert Hinit Hz Hg Hk. generalize (fst (empty_position p0)).
  intros q0 Hinit [Hz1 Hz2] Hg Hk.
  destruct (capture_counters_from moves (g0, q0) s k Hinit) as (_ & _ & H);
    cbn [snd]; try lia; try assumption.
  cbn [snd] in H. lia.
Qed.

(** X1 after the ko fight: one stone has been taken. *)
Lemma capture_counters_small_witness :
  exists s,
    play_game (initial_globals, fst (empty_position used_position)) ko_fight = Some s
    /\ captured_in_game (initial_globals, fst (empty_position used_position)) ko_fight
       = Some 1
    /\ cap (snd s) + capX (snd s) = 1.
Proof.
  with_game ko_fight ltac:(fun g p =>
    exists (g, p); split; [vm_compute; reflexivity|]; split; [vm_compute; reflexivity|];
    apply (capture_counters_small used_position initial_globals ko_fight (g, p) 1);
    try (vm_compute; reflexivity)).
  apply Z.leb_le. reflexivity.
Defined.

(** X2. [compute_block] as [play_move] calls it, on a stone and with
    [nlibs = 1]: it returns; it reports no liberty exactly when the block
    of the stone has none, and then the stones it lists are the block. *)
Theorem compute_block_finds_block (m : Mark) (p : Position) (pt : Z) :
  colors_ok (color p) = true -> marks_ok m = true -> 0 <= pt < BOARDSIZE ->
  rd (color p) pt = "X"%char \/ rd (color p) pt = "x"%char ->
  exists m' stones libs,
    compute_block m p pt 1 = Some (m', stones, libs)
    /\ NoDup stones
    /\ (libs = [] <-> ~ has_liberty (color p) pt)
    /\ (libs = [] -> forall s, s ∈ stones <-> connected (color p) pt s).
Proof.
  intros Hc Hm Hpt Hstone.
  destruct (compute_block_spec m p pt 1 Hc Hm Hpt Hstone ltac:(lia))
    as (m' & stones & libs & E & _ & Hnd & _ & Hin & Hno & Hyes & Hall).
  exists m', stones, libs. split; [exact E|]. split; [exact Hnd|]. split.
  - split; [exact Hno|]. intros Hn. destruct libs as [|l libs]; [reflexivity|].
    exfalso. apply Hn. apply Hyes. discriminate.
  - intros Hnil s. split; [intros Hs; now apply Hin|now apply Hall].
Qed.

(** X2 on the white stone of the ko, before it is taken. *)
Lemma compute_block_finds_block_witness :
  exists m' stones libs,
    compute_block (mark1 (fst ko_position)) (snd ko_position) 75 1
    = Some (m', stones, libs)
    /\ NoDup stones
    /\ (libs = [] <-> ~ has_liberty (color (snd ko_position)) 75)
    /\ (libs = [] -> forall s, s ∈ stones <-> connected (color (snd ko_position)) 75 s).
Proof.
  apply (compute_block_finds_block (mark1 (fst ko_position)) (snd ko_position) 75).
  - vm_compute. reflexivity.
  - vm_compute. reflexivity.
  - split; [apply Z.leb_le|apply Z.ltb_lt]; reflexivity.
  - right. vm_compute. reflexivity.
Defined.

End BoardFacts.

(** ** Random numbers and the shuffle *)

Section RandFacts.
Import Slist Rand.

Lemma qdrandom_range (idum : Z) : 0 <= qdrandom idum < 2 ^ 32.
Proof. unfold qdrandom. apply Z.mod_pos_bound. lia. Qed.

(** X4. [random_int(n)] for a positive [int] [n] gives a value from 0 to
    [n - 1], and the seed stays an [unsigned int]. *)
Theorem random_int_range (idum n : Z) :
  0 < n < 2 ^ 31 ->
  0 <= fst (random_int idum n) < 2 ^ 32
  /\ 0 <= snd (random_int idum n) < n.
Proof.
  intros Hn. unfold random_int. cbn [fst snd].
  pose proof (qdrandom_range idum) as Hr. split; [exact Hr|].
  set (r := qdrandom idum) in *. clearbody r.
  rewrite (Z.mod_small n) by lia.
  assert (Hrn : 0 <= r * n < 2 ^ 32 * n) by nia.
  rewrite (Z.mod_small (r * n)) by lia.
  rewrite Z.shiftr_div_pow2 by lia.
  assert (Hq : 0 <= r * n / 2 ^ 32 < n).
  { split; [apply Z.div_pos; lia|]. apply Z.div_lt_upper_bound; lia. }
  rewrite Z.mod_small by lia. exact Hq.
Qed.

(** X4 for the seed 1 and six faces. *)
Lemma random_int_range_witness :
  0 <= fst (random_int 1 6) < 2 ^ 32 /\ 0 <= snd (random_int 1 6) < 6.
Proof. apply (random_int_range 1 6). lia. Defined.

Lemma elems_wr (l : Slist) (a v : Z) :
  0 <= a -> (1 <= length l)%nat ->
  elems (wr l (1 + a) v) = <[Z.to_nat a := v]> (elems l)
  /\ rd (wr l (1 + a) v) 0 = rd l 0.
Proof.
  intros Ha Hl. split.
  - unfold elems. rewrite (rd_wr_ne l (1 + a) 0 v) by lia. unfold wr.
    destruct l as [|x l]; [simpl in Hl; lia|].
    replace (Z.to_nat (1 + a)) with (S (Z.to_nat a)) by lia. cbn [drop].
    change (<[S (Z.to_nat a) := v]> (x :: l)) with (x :: <[Z.to_nat a := v]> l).
    cbn [drop]. rewrite !drop_0.
    destruct (decide (Z.to_nat a < Z.to_nat (rd (x :: l) 0))%nat) as [Hlt|Hge].
    + now rewrite take_insert_lt by exact Hlt.
    + rewrite take_insert_ge by lia. symmetry. apply list_insert_ge.
      rewrite length_take. lia.
  - apply rd_wr_ne; lia.
Qed.

Lemma elems_swap (l : Slist) (a b : Z) :
  0 <= rd l 0 < Z.of_nat (length l) -> 0 <= a < rd l 0 -> 0 <= b < rd l 0 ->
  elems (swap l (1 + a) (1 + b)) ≡ₚ elems l
  /\ rd (swap l (1 + a) (1 + b)) 0 = rd l 0
  /\ length (swap l (1 + a) (1 + b)) = length l.
Proof.
  intros Hl Ha Hb. unfold swap.
  destruct (elems_wr l a (rd l (1 + b))) as [E1 S1]; [lia|lia|].
  destruct (elems_wr (wr l (1 + a) (rd l (1 + b))) b (rd l (1 + a))) as [E2 S2];
    [lia|rewrite length_wr; lia|].
  cbv zeta. rewrite E2, E1, S2, S1, !length_wr. split; [|easy].
  apply Permutation_insert_swap.
  - rewrite elems_lookup by lia. replace (S (Z.to_nat a)) with (Z.to_nat (1 + a)) by lia.
    apply rd_lookup. lia.
  - rewrite elems_lookup by lia. replace (S (Z.to_nat b)) with (Z.to_nat (1 + b)) by lia.
    apply rd_lookup. lia.
Qed.

Lemma shuffle_loop_permutation (k : nat) : forall idum l,
  0 <= rd l 0 < Z.of_nat (length l) -> rd l 0 < 2 ^ 31 -> Z.of_nat k < rd l 0 ->
  elems (snd (shuffle_loop k idum l)) ≡ₚ elems l
  /\ rd (snd (shuffle_loop k idum l)) 0 = rd l 0
  /\ length (snd (shuffle_loop k idum l)) = length l.
Proof.
  induction k as [|k IH]; intros idum l Hl Hint Hk; [easy|].
  cbn [shuffle_loop].
  pose proof (random_int_range idum (Z.of_nat (S k)) ltac:(lia)) as [_ Htmp].
  destruct (random_int idum (Z.of_nat (S k))) as [idum' tmp]. cbn [snd] in Htmp.
  destruct (elems_swap l (Z.of_nat (S k)) tmp Hl ltac:(lia) ltac:(lia)) as (P & Sz & L).
  destruct (IH idum' (swap l (1 + Z.of_nat (S k)) (1 + tmp))) as (P' & Sz' & L').
  { rewrite Sz, L. exact Hl. }
  { rewrite Sz. exact Hint. }
  { rewrite Sz. lia. }
  rewrite P', Sz', L'. easy.
Qed.

(** X5. [slist_shuffle] permutes the elements of the list: it keeps the
    size and the elements, with their multiplicities. *)
Theorem slist_shuffle_permutation (idum : Z) (l : Slist) :
  0 <= rd l 0 < Z.of_nat (length l) -> rd l 0 < 2 ^ 31 ->
  elems (snd (slist_shuffle idum l)) ≡ₚ elems l
  /\ slist_size (snd (slist_shuffle idum l)) = slist_size l
  /\ length (snd (slist_shuffle idum l)) = length l.
Proof.
  intros Hl Hint. unfold slist_shuffle, slist_size.
  destruct (Z.eq_dec (rd l 0) 0) as [Hz|Hz].
  - rewrite Hz. cbn [Z.to_nat shuffle_loop snd]. easy.
  - apply shuffle_loop_permutation; [exact Hl|exact Hint|lia].
Qed.

(** X5 on a list of five elements. *)
Lemma slist_shuffle_permutation_witness :
  elems (snd (slist_shuffle 1 [5; 10; 20; 30; 40; 50; 0])) ≡ₚ elems [5; 10; 20; 30; 40; 50; 0]
  /\ slist_size (snd (slist_shuffle 1 [5; 10; 20; 30; 40; 50; 0]))
     = slist_size [5; 10; 20; 30; 40; 50; 0]
  /\ length (snd (slist_shuffle 1 [5; 10; 20; 30; 40; 50; 0]))
     = length [5; 10; 20; 30; 40; 50; 0].
Proof.
  apply (slist_shuffle_permutation 1 [5; 10; 20; 30; 40; 50; 0]); vm_compute; split; congruence.
Defined.

End RandFacts.

(** ** Eyes, candidate points and empty areas *)

Section PlayoutFacts.
Import Slist Board Rand Playout.

(** *** The shape of the board: [line_height] and [empty_area] *)

(** X6. [line_height] of a point of the board is the distance to the
    nearest edge, counted from 0: the least of the row, the column and their
    mirror images, less one; it lies between 0 and [N/2]. *)
Theorem line_height_spec (pt : Z) :
  on_board pt = true ->
  line_height pt
  = Z.min (Z.min (pt / (N + 1)) (N + 1 - pt / (N + 1)))
          (Z.min (pt mod (N + 1)) (N + 1 - pt mod (N + 1))) - 1
  /\ 0 <= line_height pt <= N / 2.
Proof.
  intros Hpt. pose proof (on_board_range _ Hpt) as R.
  apply on_board_spec in Hpt. unfold line_height.
  rewrite Z.quot_div_nonneg, Z.rem_mod_nonneg by (board_consts; lia).
  revert Hpt. board_consts. change (13 / 2) with 6. change (13 + 1) with 14.
  set (r := pt / 14). set (c := pt mod 14). clearbody r c. intros [Hr Hc].
  destruct (r >? 6) eqn:Er, (c >? 6) eqn:Ec;
    repeat match goal with |- context [?a <? ?b] => destruct (Z.ltb_spec a b) end; lia.
Qed.

(** X6 at the point 100, on the seventh row and second column. *)
Lemma line_height_spec_witness :
  line_height 100
  = Z.min (Z.min (100 / (N + 1)) (N + 1 - 100 / (N + 1)))
          (Z.min (100 mod (N + 1)) (N + 1 - 100 mod (N + 1))) - 1
  /\ 0 <= line_height 100 <= N / 2.
Proof. apply (line_height_spec 100). reflexivity. Defined.

Lemma empty_area_loop_spec (rec : Z -> Z) (p : Position) (deeper : bool) (ns : list Z) :
  empty_area_loop rec p deeper ns = 1
  <-> forall q, q ∈ ns ->
        ~ stone_at (color p) q
        /\ (rd (color p) q = "."%char -> deeper = true -> rec q <> 0).
Proof.
  unfold stone_at. induction ns as [|q ns IH]; cbn [empty_area_loop].
  - split; [|reflexivity]. intros _ q Hq. inversion Hq.
  - destruct (Ascii.eqb_spec (rd (color p) q) "x") as [Hx|Hx]; cbn [orb].
    { split; [discriminate|]. intros H. destruct (H q ltac:(left)) as [Hn _].
      exfalso. apply Hn. now left. }
    destruct (Ascii.eqb_spec (rd (color p) q) "X") as [HX|HX].
    { split; [discriminate|]. intros H. destruct (H q ltac:(left)) as [Hn _].
      exfalso. apply Hn. now right. }
    destruct (Ascii.eqb_spec (rd (color p) q) ".") as [Hd|Hd]; cbn [andb].
    + destruct deeper; cbn [andb].
      * destruct (Z.eqb_spec (rec q) 0) as [Hz|Hz].
        { split; [discriminate|]. intros H. destruct (H q ltac:(left)) as [_ Hr].
          exfalso. now apply Hr. }
        rewrite IH. split.
        -- intros H q' Hq'. apply elem_of_cons in Hq' as [->|Hq']; [|now apply H].
           split; [tauto|]. intros _ _. exact Hz.
        -- intros H q' Hq'. apply H. now right.
      * rewrite IH. split.
        -- intros H q' Hq'. apply elem_of_cons in Hq' as [->|Hq']; [|now apply H].
           split; [tauto|]. intros _ Habs. discriminate Habs.
        -- intros H q' Hq'. apply H. now right.
    + rewrite IH. split.
      * intros H q' Hq'. apply elem_of_cons in Hq' as [->|Hq']; [|now apply H].
        split; [tauto|]. intros Habs. contradiction.
      * intros H q' Hq'. apply H. now right.
Qed.

Lemma empty_area_depth_01 (depth : nat) (p : Position) (pt : Z) :
  empty_area_depth depth p pt = 0 \/ empty_area_depth depth p pt = 1.
Proof.
  assert (H : forall rec deeper ns,
            empty_area_loop rec p deeper ns = 0 \/ empty_area_loop rec p deeper ns = 1).
  { intros rec deeper ns. induction ns as [|q ns IH]; cbn [empty_area_loop]; [now right|].
    destruct (_ || _); [now left|]. destruct (_ && _); [now left|exact IH]. }
  destruct depth; cbn [empty_area_depth]; apply H.
Qed.

Lemma empty_area_depth_spec (depth : nat) : forall (p : Position) (pt : Z),
  empty_area_depth depth p pt = 1
  <-> forall k q, (1 <= k <= S depth)%nat -> within (color p) k pt q ->
        ~ stone_at (color p) q.
Proof.
  induction depth as [|depth IH]; intros p pt; cbn [empty_area_depth];
    rewrite empty_area_loop_spec.
  - split.
    + intros H k q Hk Hw. assert (k = 1%nat) as -> by lia.
      inversion Hw as [a b Hadj|k' a m b Hadj Hm Hw']; subst.
      * now apply H.
      * inversion Hw'.
    + intros H q Hq. split; [|discriminate]. apply (H 1%nat q); [lia|]. now constructor.
  - split.
    + intros H k q Hk Hw.
      inversion Hw as [a b Hadj|k' a m b Hadj Hm Hw']; subst.
      * now apply H.
      * destruct (H m Hadj) as [_ Hrec]. specialize (Hrec Hm eq_refl).
        assert (Hone : empty_area_depth depth p m = 1).
        { destruct (empty_area_depth_01 depth p m); [contradiction|easy]. }
        apply (proj1 (IH p m) Hone k' q); [|exact Hw'].
        split; [|lia]. inversion Hw'; lia.
    + intros H q Hq. split.
      * apply (H 1%nat q); [lia|]. now constructor.
      * intros Hd _ Hz.
        assert (Hone : empty_area_depth depth p q = 1).
        { apply IH. intros k q' Hk Hw. apply (H (S k) q'); [lia|].
          now apply (within_step _ k pt q q'). }
        lia.
Qed.

(** X7. [empty_area(pos, pt, dist)] returns 1 exactly when no stone is
    reached from [pt] in at most [dist] steps (at least one step) over empty
    points; it returns 0 otherwise. *)
Theorem empty_area_spec (p : Position) (pt dist : Z) :
  colors_ok (color p) = true -> on_board pt = true ->
  (empty_area p pt dist = 1
   <-> forall k q, (1 <= k)%nat -> Z.of_nat k <= Z.max dist 1 ->
         within (color p) k pt q -> ~ stone_at (color p) q)
  /\ (empty_area p pt dist = 0 \/ empty_area p pt dist = 1).
Proof.
  intros _ _. unfold empty_area. split; [|apply empty_area_depth_01].
  rewrite empty_area_depth_spec. split.
  - intros H k q Hk Hd. apply H. lia.
  - intros H k q Hk. apply H; lia.
Qed.

(** X7 on the empty board, three steps around the point 100. *)
Lemma empty_area_spec_witness :
  (empty_area (snd first_position) 100 3 = 1
   <-> forall k q, (1 <= k)%nat -> Z.of_nat k <= Z.max 3 1 ->
         within (color (snd first_position)) k 100 q ->
         ~ stone_at (color (snd first_position)) q)
  /\ (empty_area (snd first_position) 100 3 = 0
      \/ empty_area (snd first_position) 100 3 = 1).
Proof.
  apply (empty_area_spec (snd first_position) 100 3); vm_compute; reflexivity.
Defined.

(** *** Eyes *)

Lemma eyeish_rule_holds : all_colors eyeish_rule = true.
Proof. vm_compute. reflexivity. Qed.

Lemma eyeish_neighbors (c : list ascii) (pt : Z) (col : ascii) :
  eyeish c pt col
  <-> (col = "X"%char \/ col = "x"%char)
      /\ List.filter (fun a => negb (a =? " ")%char)
           [rd c (pt - 14); rd c (pt + 1); rd c (pt + 14); rd c (pt - 1)] <> []
      /\ forallb (fun a => (a =? col)%char)
           (List.filter (fun a => negb (a =? " ")%char)
              [rd c (pt - 14); rd c (pt + 1); rd c (pt + 14); rd c (pt - 1)]) = true.
Proof.
  unfold eyeish.
  assert (Hall : (forall q, adj pt q -> rd c q <> " "%char -> rd c q = col)
                 <-> forallb (fun a => (a =? col)%char)
                       (List.filter (fun a => negb (a =? " ")%char)
                          [rd c (pt - 14); rd c (pt + 1); rd c (pt + 14); rd c (pt - 1)])
                     = true).
  { rewrite forallb_forall. split.
    - intros H a Ha. apply filter_In in Ha as [Ha Hns].
      apply negb_true_iff, Ascii.eqb_neq in Hns. apply Ascii.eqb_eq.
      cbn [In] in Ha.
      destruct Ha as [<-|[<-|[<-|[<-|[]]]]]; (apply H; [apply adj_spec; lia|exact Hns]).
    - intros H q Hq Hns. apply Ascii.eqb_eq. apply H. apply filter_In. split.
      + apply adj_spec in Hq. cbn [In]. destruct Hq as [->|[->|[->| ->]]]; tauto.
      + now apply negb_true_iff, Ascii.eqb_neq. }
  assert (Hex : (exists q, adj pt q /\ rd c q <> " "%char)
                <-> List.filter (fun a => negb (a =? " ")%char)
                      [rd c (pt - 14); rd c (pt + 1); rd c (pt + 14); rd c (pt - 1)] <> []).
  { split.
    - intros (q & Hq & Hns) Hnil.
      assert (Hin : In (rd c q) (List.filter (fun a => negb (a =? " ")%char)
                [rd c (pt - 14); rd c (pt + 1); rd c (pt + 14); rd c (pt - 1)])).
      { apply filter_In. split.
        - apply adj_spec in Hq. cbn [In]. destruct Hq as [->|[->|[->| ->]]]; tauto.
        - now apply negb_true_iff, Ascii.eqb_neq. }
      rewrite Hnil in Hin. inversion Hin.
    - intros Hne.
      destruct (List.filter _ _) as [|a l] eqn:E; [contradiction|].
      assert (Hin : In a (List.filter (fun a => negb (a =? " ")%char)
                [rd c (pt - 14); rd c (pt + 1); rd c (pt + 14); rd c (pt - 1)])).
      { rewrite E. now left. }
      apply filter_In in Hin as [Ha Hns].
      apply negb_true_iff, Ascii.eqb_neq in Hns. cbn [In] in Ha.
      destruct Ha as [<-|[<-|[<-|[<-|[]]]]]; eexists; (split; [|exact Hns]);
        apply adj_spec; lia. }
  rewrite Hall, Hex. tauto.
Qed.

(** [is_eyeish] returns a colour exactly when the point is inside a diamond
    of that colour. *)
Lemma is_eyeish_spec (p : Position) (pt : Z) (col : ascii) :
  colors_ok (color p) = true -> on_board pt = true -> col <> Ascii.zero ->
  (is_eyeish p pt = col <-> eyeish (color p) pt col).
Proof.
  intros Hc Hpt Hcol. pose proof (on_board_range _ Hpt) as Rpt.
  rewrite eyeish_neighbors.
  unfold is_eyeish. rewrite is_eyeish_loop_eye_of, neighbors_eq. cbn [map].
  pose proof (all_colors_spec eyeish_rule eyeish_rule_holds
                (rd (color p) (pt - 14)) (rd (color p) (pt + 1))
                (rd (color p) (pt + 14)) (rd (color p) (pt - 1))
                ltac:(apply point_colors_valid; [exact Hc|board_consts; lia])
                ltac:(apply point_colors_valid; [exact Hc|board_consts; lia])
                ltac:(apply point_colors_valid; [exact Hc|board_consts; lia])
                ltac:(apply point_colors_valid; [exact Hc|board_consts; lia])) as R.
  unfold eyeish_rule in R. cbv zeta in R.
  set (cs := [rd (color p) (pt - 14); rd (color p) (pt + 1);
              rd (color p) (pt + 14); rd (color p) (pt - 1)]) in *.
  set (on := List.filter (fun a => negb (a =? " ")%char) cs) in *.
  set (r := eye_of cs Ascii.zero Ascii.zero) in *. clearbody r on.
  destruct (Ascii.eqb_spec r Ascii.zero) as [Hz|Hz].
  - split; [intros <-; contradiction|]. intros (Hxx & Hne & Hall). exfalso.
    rewrite forallb_forall in Hall.
    rewrite !orb_true_iff, andb_true_iff in R. destruct R as [[R|R]|[R1 R2]].
    + destruct on; [contradiction|discriminate].
    + apply existsb_exists in R as (a & Ha & E). apply Ascii.eqb_eq in E. subst a.
      apply Hall, Ascii.eqb_eq in Ha. destruct Hxx; congruence.
    + apply existsb_exists in R1 as (a & Ha & E). apply Ascii.eqb_eq in E. subst a.
      apply existsb_exists in R2 as (b & Hb & E). apply Ascii.eqb_eq in E. subst b.
      apply Hall, Ascii.eqb_eq in Ha, Hb. congruence.
  - rewrite !andb_true_iff, orb_true_iff, !Ascii.eqb_eq in R.
    destruct R as [[Hxx Hne] Hall]. split.
    + intros <-. split; [exact Hxx|]. split; [|exact Hall].
      destruct on; [discriminate|discriminate].
    + intros (_ & Hne' & Hall'). rewrite forallb_forall in Hall, Hall'.
      destruct on as [|a on]; [contradiction|].
      specialize (Hall a ltac:(now left)). specialize (Hall' a ltac:(now left)).
      apply Ascii.eqb_eq in Hall, Hall'. congruence.
Qed.

Lemma eye_diagonals_fold (c : list ascii) (falsecolor : ascii) (ds : list Z) :
  falsecolor <> " "%char -> forall e f,
  fold_left
    (fun '(at_edge, false_count) d =>
       if (rd c d =? " ")%char then (1, false_count)
       else if (rd c d =? falsecolor)%char then (at_edge, false_count + 1)
       else (at_edge, false_count)) ds (e, f)
  = (if existsb (fun d => (rd c d =? " ")%char) ds then 1 else e,
     f + Z.of_nat (length (List.filter (fun d => (rd c d =? falsecolor)%char) ds))).
Proof.
  intros Hf. induction ds as [|d ds IH]; intros e f.
  - cbn. f_equal. lia.
  - cbn [fold_left existsb List.filter].
    destruct (Ascii.eqb_spec (rd c d) " ") as [Hs|Hs].
    + rewrite IH. cbn [orb].
      destruct (Ascii.eqb_spec (rd c d) falsecolor) as [Habs|_]; [congruence|].
      now destruct (existsb _ ds).
    + cbn [orb]. destruct (Ascii.eqb_spec (rd c d) falsecolor) as [Hfc|Hfc].
      * rewrite IH. cbn [length]. f_equal. lia.
      * now rewrite IH.
Qed.

(** X8. [is_eye] returns a colour exactly when the point is inside a
    diamond of that colour ([is_eyeish]) and fewer than two things count
    against the eye: the diagonal neighbours of the other colour, and the
    edge of the board. *)
Theorem is_eye_spec (p : Position) (pt : Z) (col : ascii) :
  colors_ok (color p) = true -> on_board pt = true -> col <> Ascii.zero ->
  (is_eye p pt = col
   <-> eyeish (color p) pt col /\ false_count (color p) pt col < 2).
Proof.
  intros Hc Hpt Hcol. pose proof (is_eyeish_spec p pt col Hc Hpt Hcol) as He.
  unfold is_eye. cbv zeta.
  destruct (Ascii.eqb_spec (is_eyeish p pt) Ascii.zero) as [Hz|Hz].
  - split; [intros <-; contradiction|]. intros [H _]. apply He in H. congruence.
  - assert (Hxx : is_eyeish p pt = "X"%char \/ is_eyeish p pt = "x"%char).
    { destruct (is_eyeish_spec p pt (is_eyeish p pt) Hc Hpt Hz) as [H _].
      destruct (H eq_refl) as [Hxx _]. exact Hxx. }
    unfold eye_diagonals. rewrite eye_diagonals_fold.
    2:{ destruct Hxx as [-> | ->]; discriminate. }
    cbv beta iota. rewrite Z.add_0_l.
    assert (Hfc : forall e, e = is_eyeish p pt ->
              false_count (color p) pt e
              = (if negb ((if existsb (fun d => (rd (color p) d =? " ")%char)
                                (diagonal_neighbors pt) then 1 else 0) =? 0)
                 then Z.of_nat (length (List.filter
                        (fun d => (rd (color p) d =? SWAP_CASE (is_eyeish p pt))%char)
                        (diagonal_neighbors pt))) + 1
                 else Z.of_nat (length (List.filter
                        (fun d => (rd (color p) d =? SWAP_CASE (is_eyeish p pt))%char)
                        (diagonal_neighbors pt))))).
    { intros e ->. unfold false_count. destruct (existsb _ _); cbn [Z.eqb negb]; lia. }
    rewrite <- (Hfc _ eq_refl).
    destruct (Z.geb_spec (false_count (color p) pt (is_eyeish p pt)) 2) as [Hge|Hlt].
    + split; [intros <-; contradiction|]. intros [H Hlt]. apply He in H. subst col. lia.
    + split.
      * intros <-. split; [now apply He|lia].
      * intros [H _]. now apply He.
Qed.

(** X8 at the corner eye. *)
Lemma is_eye_spec_witness :
  is_eye (snd eye_position) 15 = "X"%char
  <-> eyeish (color (snd eye_position)) 15 "X"
      /\ false_count (color (snd eye_position)) 15 "X" < 2.
Proof.
  apply (is_eye_spec (snd eye_position) 15 "X").
  - vm_compute. reflexivity.
  - reflexivity.
  - discriminate.
Defined.

(** *** Lists of candidate points *)

Lemma slist_push_elems (l : Slist) (x : Z) :
  0 <= rd l 0 -> rd l 0 + 1 < Z.of_nat (length l) ->
  elems (slist_push l x) = elems l ++ [x]
  /\ rd (slist_push l x) 0 = rd l 0 + 1
  /\ length (slist_push l x) = length l.
Proof.
  intros H0 H1. unfold slist_push. cbv zeta.
  assert (Hs : rd (wr l (rd l 0 + 1) x) 0 = rd l 0) by (apply rd_wr_ne; lia).
  rewrite Hs.
  assert (Hsz : rd (wr (wr l (rd l 0 + 1) x) 0 (rd l 0 + 1)) 0 = rd l 0 + 1).
  { apply rd_wr_eq. rewrite length_wr. lia. }
  split; [|split; [exact Hsz|now rewrite !length_wr]].
  apply list_eq. intros i.
  destruct (decide (i < Z.to_nat (rd l 0 + 1))%nat) as [Hi|Hi].
  - rewrite elems_lookup by (rewrite Hsz; lia).
    rewrite lookup_rd by (rewrite !length_wr; lia).
    rewrite rd_wr_ne by lia.
    destruct (decide (i < Z.to_nat (rd l 0))%nat) as [Hi'|Hi'].
    + rewrite lookup_app_l by (rewrite length_elems; lia).
      rewrite elems_lookup by lia. rewrite lookup_rd by lia.
      f_equal. apply rd_wr_ne; lia.
    + assert (i = Z.to_nat (rd l 0)) as -> by lia.
      rewrite lookup_app_r by (rewrite length_elems; lia).
      rewrite length_elems by lia. rewrite Nat.sub_diag. cbn. f_equal.
      replace (Z.of_nat (S (Z.to_nat (rd l 0)))) with (rd l 0 + 1) by lia.
      apply rd_wr_eq. lia.
  - rewrite !lookup_ge_None_2; [easy| |].
    + rewrite length_app, length_elems by lia. cbn. lia.
    + rewrite length_elems; rewrite Hsz; rewrite ?length_wr; lia.
Qed.

(** A loop that pushes the points of [L] that pass a test. *)
Lemma fold_push_elems (test : Z -> bool) (L : list Z) : forall (l : Slist),
  0 <= rd l 0 ->
  rd l 0 + Z.of_nat (length (List.filter test L)) < Z.of_nat (length l) ->
  let l' := fold_left (fun l i => if test i then slist_push l i else l) L l in
  elems l' = elems l ++ List.filter test L
  /\ rd l' 0 = rd l 0 + Z.of_nat (length (List.filter test L))
  /\ length l' = length l.
Proof.
  induction L as [|i L IH]; intros l H0 Hcap l'.
  - subst l'. cbn. rewrite app_nil_r. split; [easy|]. split; [lia|easy].
  - subst l'. cbn [fold_left List.filter] in *. destruct (test i).
    + cbn [length] in Hcap.
      destruct (slist_push_elems l i H0 ltac:(lia)) as (E & S & Len).
      destruct (IH (slist_push l i)) as (E' & S' & Len'); [lia|rewrite S, Len; lia|].
      cbv zeta in E', S', Len'. rewrite E', S', Len', E, S. cbn [length].
      split; [now rewrite <- app_assoc|]. split; [lia|easy].
    + now apply IH.
Qed.

Lemma filter_length_le {A} (f : A -> bool) (l : list A) :
  (length (List.filter f l) <= length l)%nat.
Proof.
  induction l as [|a l IH]; [easy|]. cbn. destruct (f a); cbn; lia.
Qed.

Lemma rd_empty_on_board (c : list ascii) (x : Z) :
  colors_ok c = true -> rd c x = "."%char -> 0 <= x < BOARDSIZE /\ on_board x = true.
Proof.
  intros Hc Hd. pose proof (colors_ok_length _ Hc) as Hl.
  assert (Hr : 0 <= x < BOARDSIZE).
  { destruct (Z.lt_ge_cases x 0) as [Hneg|Hpos].
    - exfalso. pose proof (colors_ok_valid _ 0 Hc ltac:(board_consts; lia)) as Hv.
      assert (E : rd c x = rd c 0) by (unfold rd; f_equal; lia).
      rewrite <- E, Hd in Hv. discriminate Hv.
    - destruct (Z.lt_ge_cases x BOARDSIZE) as [Hlt|Hge]; [lia|]. exfalso.
      unfold rd in Hd. rewrite list_lookup_total_alt, lookup_ge_None_2 in Hd by lia.
      discriminate Hd. }
  split; [exact Hr|]. apply (colors_ok_stone _ x Hc Hr). tauto.
Qed.

(** X9. [gen_playout_moves_random] lists, each once, the empty points that
    [is_eye] does not give to the side to move, whatever the index [i0] at
    which the scan starts; the list fits in an array of [BOARDSIZE] cells. *)
Theorem gen_playout_moves_random_spec (p : Position) (moves : Slist) (i0 : Z) :
  colors_ok (color p) = true -> Z.of_nat (length moves) = BOARDSIZE ->
  BOARD_IMIN - 1 <= i0 < BOARDSIZE ->
  NoDup (elems (gen_playout_moves_random p moves i0))
  /\ (forall q, q ∈ elems (gen_playout_moves_random p moves i0)
        <-> rd (color p) q = "."%char /\ is_eye p q <> "X"%char)
  /\ slist_size (gen_playout_moves_random p moves i0)
     = Z.of_nat (length (elems (gen_playout_moves_random p moves i0)))
  /\ slist_size (gen_playout_moves_random p moves i0) <= N * N
  /\ length (gen_playout_moves_random p moves i0) = length moves.
Proof.
  intros Hc Hlen Hi0. pose proof (colors_ok_length _ Hc) as Hl.
  unfold gen_playout_moves_random, slist_size. cbv zeta.
  set (test := fun i => (rd (color p) i =? ".")%char && negb (is_eye p i =? "X")%char).
  assert (Hcand : forall l i, random_candidate p l i
                              = if test i then slist_push l i else l).
  { intros l i. unfold random_candidate, test.
    destruct (rd (color p) i =? ".")%char; [|reflexivity].
    now destruct (is_eye p i =? "X")%char. }
  assert (Hfold : forall L l, fold_left (random_candidate p) L l
                    = fold_left (fun l i => if test i then slist_push l i else l) L l).
  { intros L. induction L as [|i L IH]; intros l; [reflexivity|].
    cbn [fold_left]. now rewrite Hcand, IH. }
  rewrite !Hfold, <- fold_left_app.
  set (L := seqZ i0 (BOARD_IMAX - i0) ++ seqZ (BOARD_IMIN - 1) (i0 - (BOARD_IMIN - 1))).
  assert (HndL : NoDup L).
  { subst L. apply NoDup_app. split; [apply NoDup_seqZ|]. split; [|apply NoDup_seqZ].
    intros x Hx Hx'. apply elem_of_seqZ in Hx, Hx'. lia. }
  assert (HinL : forall x, x ∈ L <-> BOARD_IMIN - 1 <= x < Z.max BOARD_IMAX i0).
  { intros x. subst L. rewrite elem_of_app, !elem_of_seqZ. lia. }
  assert (Htest : forall x, test x = true <-> rd (color p) x = "."%char /\ is_eye p x <> "X"%char).
  { intros x. unfold test. rewrite andb_true_iff, negb_true_iff, Ascii.eqb_eq, Ascii.eqb_neq.
    tauto. }
  assert (HndF : NoDup (List.filter test L)).
  { apply NoDup_ListNoDup, List.NoDup_filter, NoDup_ListNoDup, HndL. }
  assert (HinF : forall x, x ∈ List.filter test L
                   <-> rd (color p) x = "."%char /\ is_eye p x <> "X"%char).
  { intros x. rewrite list_elem_of_In, filter_In, <- list_elem_of_In, HinL, Htest. split; [tauto|].
    intros [Hd He]. split; [|tauto].
    destruct (rd_empty_on_board _ x Hc Hd) as [_ Hb].
    apply on_board_range in Hb. revert Hb. board_consts. lia. }
  assert (HlenF : Z.of_nat (length (List.filter test L)) <= N * N).
  { assert (Hsub : List.filter test L ⊆+ List.filter on_board (seqZ 0 BOARDSIZE)).
    { apply NoDup_submseteq; [exact HndF|]. intros x Hx. apply HinF in Hx as [Hd _].
      destruct (rd_empty_on_board _ x Hc Hd) as [Hr Hb].
      apply list_elem_of_In, filter_In. split.
      - apply list_elem_of_In, elem_of_seqZ. lia.
      - exact Hb. }
    apply submseteq_length in Hsub.
    assert (Hcount : length (List.filter on_board (seqZ 0 BOARDSIZE)) = 169%nat)
      by (vm_compute; reflexivity).
    rewrite Hcount in Hsub. board_consts. lia. }
  assert (H0 : rd (slist_clear moves) 0 = 0).
  { unfold slist_clear. apply rd_wr_eq. board_consts. lia. }
  assert (Hlen0 : length (slist_clear moves) = length moves) by apply length_wr.
  destruct (fold_push_elems test L (slist_clear moves)) as (E & S & Len).
  { lia. }
  { rewrite H0, Hlen0, Hlen. revert HlenF. board_consts. lia. }
  cbv zeta in E, S, Len.
  assert (E0 : elems (slist_clear moves) = []).
  { unfold elems. rewrite H0. reflexivity. }
  rewrite E, S, Len, E0, H0, Hlen0. cbn [app]. split_and!.
  - exact HndF.
  - exact HinF.
  - lia.
  - lia.
  - reflexivity.
Qed.

(** X9 on the position with the corner eye, scanning from the middle. *)
Lemma gen_playout_moves_random_spec_witness :
  NoDup (elems (gen_playout_moves_random (snd eye_position) (repeat 0 211%nat) 100))
  /\ (forall q, q ∈ elems (gen_playout_moves_random (snd eye_position)
                            (repeat 0 211%nat) 100)
        <-> rd (color (snd eye_position)) q = "."%char
            /\ is_eye (snd eye_position) q <> "X"%char)
  /\ slist_size (gen_playout_moves_random (snd eye_position) (repeat 0 211%nat) 100)
     = Z.of_nat (length (elems (gen_playout_moves_random (snd eye_position)
                                  (repeat 0 211%nat) 100)))
  /\ slist_size (gen_playout_moves_random (snd eye_position) (repeat 0 211%nat) 100)
     <= N * N
  /\ length (gen_playout_moves_random (snd eye_position) (repeat 0 211%nat) 100)
     = length (repeat 0 211%nat).
Proof.
  apply (gen_playout_moves_random_spec (snd eye_position) (repeat 0 211%nat) 100).
  - vm_compute. reflexivity.
  - reflexivity.
  - split; [apply Z.leb_le|apply Z.ltb_lt]; reflexivity.
Defined.

(** *** The neighbourhood of the last two moves *)

(** [slist_insert] either pushes a new item or leaves the elements alone. *)
Lemma slist_insert_cases (l : Slist) (item : Z) :
  0 <= rd l 0 -> rd l 0 + 1 < Z.of_nat (length l) ->
  ((item ∉ elems l) /\ slist_insert l item = (slist_push l item, 1))
  \/ (item ∈ elems l
      /\ exists l', slist_insert l item = (l', 0) /\ elems l' = elems l
           /\ rd l' 0 = rd l 0 /\ length l' = length l).
Proof.
  intros Hsz Hcap. unfold slist_insert, slist_push. cbv zeta.
  set (sz := rd l 0) in *. set (l1 := wr l (sz + 1) item).
  assert (Hl1n : rd l1 (sz + 1) = item) by (apply rd_wr_eq; lia).
  assert (Hl1 : forall k, 0 <= k <= sz -> rd l1 k = rd l k).
  { intros k Hk. apply rd_wr_ne; lia. }
  assert (Hlen1 : length l1 = length l) by apply length_wr.
  rewrite (Hl1 0) by lia. fold sz.
  destruct (scan_spec l1 item (Z.to_nat (sz + 1)) 1) as (Hr & Hitem & Hfirst).
  { exists sz. split; [lia|]. now rewrite Z.add_comm. }
  set (r := scan l1 item 1 (Z.to_nat (sz + 1))) in *. clearbody r.
  destruct (Z.eqb_spec r (sz + 1)) as [->|Hne].
  - left. split; [|reflexivity]. intros Hin.
    apply elem_of_elems in Hin as (k & Hk & Hki); [|fold sz; lia]. fold sz in Hk.
    apply (Hfirst k); [lia|]. rewrite Hl1 by lia. exact Hki.
  - right. split.
    + apply elem_of_elems; [fold sz; lia|]. exists r. fold sz. split; [lia|].
      rewrite <- Hl1 by lia. exact Hitem.
    + exists l1. split; [reflexivity|]. split; [|split; [apply Hl1; lia|exact Hlen1]].
      apply elems_frame; [fold sz; lia|exact Hlen1|apply Hl1; lia|].
      fold sz. intros k Hk. apply Hl1. lia.
Qed.

(** Inserting the items of a list one after the other. *)
Lemma fold_insert_elems (items : list Z) : forall (l : Slist),
  0 <= rd l 0 -> rd l 0 + Z.of_nat (length items) < Z.of_nat (length l) ->
  NoDup (elems l) ->
  let l' := fold_left (fun l x => fst (slist_insert l x)) items l in
  NoDup (elems l')
  /\ (forall q, q ∈ elems l' <-> q ∈ elems l \/ q ∈ items)
  /\ rd l 0 <= rd l' 0 <= rd l 0 + Z.of_nat (length items)
  /\ length l' = length l.
Proof.
  induction items as [|x items IH]; intros l H0 Hcap Hnd l'; subst l'.
  - cbn. split; [exact Hnd|]. split; [|split; [lia|reflexivity]].
    intros q. rewrite elem_of_nil. tauto.
  - cbn [fold_left length] in *.
    destruct (slist_insert_cases l x H0 ltac:(lia))
      as [[Hnin E]|(Hin & l1 & E & E1 & S1 & L1)]; rewrite E; cbn [fst].
    + destruct (slist_push_elems l x H0 ltac:(lia)) as (Ep & Sp & Lp).
      destruct (IH (slist_push l x)) as (Hnd' & Hin' & Hs' & Hl').
      { lia. } { rewrite Sp, Lp. lia. }
      { rewrite Ep. apply NoDup_app. split; [exact Hnd|]. split; [|apply NoDup_singleton].
        intros y Hy Hy'. apply list_elem_of_singleton in Hy'. now subst y. }
      cbv zeta in Hnd', Hin', Hs', Hl'. split; [exact Hnd'|]. split; [|split; [lia|congruence]].
      intros q. rewrite Hin', Ep, elem_of_app, list_elem_of_singleton, elem_of_cons. tauto.
    + destruct (IH l1) as (Hnd' & Hin' & Hs' & Hl').
      { lia. } { rewrite S1, L1. lia. } { now rewrite E1. }
      cbv zeta in Hnd', Hin', Hs', Hl'. split; [exact Hnd'|]. split; [|split; [lia|congruence]].
      intros q. rewrite Hin', E1, elem_of_cons. split; [tauto|].
      intros [H|[->|H]]; tauto.
Qed.

Lemma fold_rd_elems (l2 : Slist) (f : Slist -> Z -> Slist) (l : Slist) :
  0 <= rd l2 0 < Z.of_nat (length l2) ->
  fold_left (fun l k => f l (rd l2 k)) (seqZ 1 (rd l2 0)) l
  = fold_left f (elems l2) l.
Proof.
  intros H. assert (E : elems l2 = map (rd l2) (seqZ 1 (rd l2 0))).
  { apply list_eq. intros i. rewrite list_lookup_fmap.
    destruct (decide (i < Z.to_nat (rd l2 0))%nat) as [Hi|Hi].
    - rewrite elems_lookup by lia. rewrite lookup_rd by lia.
      rewrite lookup_seqZ_lt by lia. cbn. do 2 f_equal. lia.
    - rewrite lookup_ge_None_2 by (rewrite length_elems; lia).
      rewrite lookup_seqZ_ge by lia. reflexivity. }
  rewrite E. generalize (seqZ 1 (rd l2 0)). intros ks. revert l.
  induction ks as [|k ks IH]; intros l; [reflexivity|]. cbn. apply IH.
Qed.

Lemma delta_distinct (pt : Z) : NoDup (pt :: map (fun d => pt + d) delta).
Proof.
  unfold delta. board_consts. cbn [map].
  repeat (apply NoDup_cons_2; [rewrite ?elem_of_cons, elem_of_nil; lia|]).
  apply NoDup_nil_2.
Qed.

(** [make_list_neighbors]: the point and its neighbours on the board, in
    some order. *)
Lemma make_list_neighbors_spec (idum : Z) (p : Position) (pt : Z) (points : Slist) :
  pt = PASS_MOVE \/ on_board pt = true -> (10 < length points)%nat ->
  let points' := snd (make_list_neighbors idum p pt points) in
  NoDup (elems points')
  /\ (forall q, q ∈ elems points' <-> near (color p) pt q)
  /\ 0 <= rd points' 0 <= 9
  /\ rd points' 0 = Z.of_nat (length (elems points'))
  /\ length points' = length points.
Proof.
  intros Hpt Hlen points'. subst points'. unfold make_list_neighbors. cbv zeta.
  assert (H0 : rd (slist_clear points) 0 = 0) by (apply rd_wr_eq; lia).
  assert (L0 : length (slist_clear points) = length points) by apply length_wr.
  assert (E0 : elems (slist_clear points) = []) by (unfold elems; now rewrite H0).
  destruct (Z.eqb_spec pt PASS_MOVE) as [Hp|Hp].
  - cbn [snd]. rewrite E0, H0, L0. split; [constructor|].
    split; [|split; [lia|split; reflexivity]].
    intros q. unfold near. rewrite elem_of_nil. tauto.
  - destruct Hpt as [Hpt|Hpt]; [contradiction|].
    destruct (slist_push_elems (slist_clear points) pt) as (E1 & S1 & L1); [lia|lia|].
    rewrite E0, H0, L0 in *. cbn [app] in E1.
    set (l1 := slist_push (slist_clear points) pt) in *. clearbody l1.
    set (test := fun q => negb (rd (color p) q =? " ")%char).
    assert (Hfold : forall ds l,
              fold_left (fun points d =>
                 if negb (rd (color p) (pt + d) =? " ")%char
                 then slist_push points (pt + d) else points) ds l
              = fold_left (fun l i => if test i then slist_push l i else l)
                          (map (fun d => pt + d) ds) l).
    { intros ds. induction ds as [|d ds IH]; intros l; [reflexivity|]. cbn. apply IH. }
    rewrite Hfold.
    pose proof (filter_length_le test (map (fun d => pt + d) delta)) as Hfl.
    rewrite length_map in Hfl. change (length delta) with 8%nat in Hfl.
    destruct (fold_push_elems test (map (fun d => pt + d) delta) l1) as (E2 & S2 & L2);
      [lia|lia|].
    cbv zeta in E2, S2, L2.
    set (l2 := fold_left _ (map _ delta) l1) in *. clearbody l2.
    destruct (slist_shuffle_permutation idum l2) as (P & S3 & L3); [lia|lia|].
    unfold slist_size in S3. rewrite S3, L3, S2, L2, S1, L1.
    assert (Hlen2 : length (elems l2) = S (length (List.filter test (map (fun d => pt + d) delta)))).
    { rewrite E2, E1. reflexivity. }
    split_and!.
    + rewrite P, E2, E1. cbn [app].
      pose proof (delta_distinct pt) as Hnd. apply NoDup_cons in Hnd as [Hn1 Hn2].
      apply NoDup_cons. split.
      * intros Hin. apply Hn1. apply list_elem_of_In, filter_In in Hin as [Hin _].
        now apply list_elem_of_In.
      * apply NoDup_ListNoDup, List.NoDup_filter, NoDup_ListNoDup, Hn2.
    + intros q. rewrite P, E2, E1. cbn [app]. rewrite elem_of_cons.
      rewrite list_elem_of_In, filter_In, <- list_elem_of_In, list_elem_of_fmap.
      unfold near, test. rewrite negb_true_iff, Ascii.eqb_neq. split.
      * intros [->|[(d & -> & Hd) Hns]]; (split; [exact Hp|]); [now left|].
        right. now exists d.
      * intros [_ [->|(d & Hd & -> & Hns)]]; [now left|]. right. split; [|exact Hns].
        now exists d.
    + lia.
    + lia.
    + rewrite (Permutation_length P), Hlen2. lia.
    + reflexivity.
Qed.

(** X10. [make_list_last_moves_neighbors] lists, each once and in some
    order, the points of the last two moves and their neighbours on the
    board; there are at most 18 of them, so that the list fits in the 20
    cells that [mcplayout] gives it. *)
Theorem make_list_last_moves_neighbors_spec (idum : Z) (p : Position)
    (points last2_neighbors : Slist) :
  last p = PASS_MOVE \/ on_board (last p) = true ->
  last2 p = PASS_MOVE \/ on_board (last2 p) = true ->
  length points = 20%nat -> length last2_neighbors = 12%nat ->
  let points' := snd (make_list_last_moves_neighbors idum p points last2_neighbors) in
  NoDup (elems points')
  /\ (forall q, q ∈ elems points'
        <-> near (color p) (last p) q \/ near (color p) (last2 p) q)
  /\ 0 <= slist_size points' <= 18
  /\ length points' = 20%nat.
Proof.
  intros Hl Hl2 Hlen Hlen2 points'. subst points'.
  unfold make_list_last_moves_neighbors, slist_size.
  pose proof (make_list_neighbors_spec idum p (last p) points Hl ltac:(lia)) as H1.
  destruct (make_list_neighbors idum p (last p) points) as [idum1 pts1].
  cbv zeta in H1. cbn [snd] in H1. destruct H1 as (Hnd1 & Hin1 & Hs1 & Hc1 & Hlen1).
  pose proof (make_list_neighbors_spec idum1 p (last2 p) last2_neighbors Hl2 ltac:(lia)) as H2.
  destruct (make_list_neighbors idum1 p (last2 p) last2_neighbors) as [idum2 pts2].
  cbv zeta in H2. cbn [snd] in H2. destruct H2 as (Hnd2 & Hin2 & Hs2 & Hc2 & Hlen2').
  cbn [snd].
  rewrite (fold_rd_elems pts2 (fun l x => fst (slist_insert l x))) by lia.
  destruct (fold_insert_elems (elems pts2) pts1) as (Hnd & Hin & Hs & Hlen').
  { lia. } { lia. } { exact Hnd1. }
  cbv zeta in Hnd, Hin, Hs, Hlen'. split; [exact Hnd|]. split; [|split; [lia|congruence]].
  intros q. rewrite Hin, Hin1, Hin2. reflexivity.
Qed.

(** X10 in the ko fight, after a pass and a move at 75. *)
Lemma make_list_last_moves_neighbors_spec_witness :
  NoDup (elems (snd (make_list_last_moves_neighbors 1 (snd ko_position)
                       (repeat 0 20%nat) (repeat 0 12%nat))))
  /\ (forall q, q ∈ elems (snd (make_list_last_moves_neighbors 1 (snd ko_position)
                                  (repeat 0 20%nat) (repeat 0 12%nat)))
        <-> near (color (snd ko_position)) (last (snd ko_position)) q
            \/ near (color (snd ko_position)) (last2 (snd ko_position)) q)
  /\ 0 <= slist_size (snd (make_list_last_moves_neighbors 1 (snd ko_position)
                             (repeat 0 20%nat) (repeat 0 12%nat))) <= 18
  /\ length (snd (make_list_last_moves_neighbors 1 (snd ko_position)
                    (repeat 0 20%nat) (repeat 0 12%nat))) = 20%nat.
Proof.
  apply (make_list_last_moves_neighbors_spec 1 (snd ko_position)
           (repeat 0 20%nat) (repeat 0 12%nat)).
  - right. vm_compute. reflexivity.
  - left. vm_compute. reflexivity.
  - reflexivity.
  - reflexivity.
Defined.

End PlayoutFacts.

(** ** The 3x3 patterns *)

Section Pat3Facts.
Import Board Pat3.

(** ** The code of a 3x3 neighbourhood *)

Lemma all_pat_colors_spec (P : ascii -> ascii -> ascii -> ascii -> bool) :
  all_pat_colors P = true ->
  forall a b c d, a ∈ pat_colors -> b ∈ pat_colors -> c ∈ pat_colors ->
    d ∈ pat_colors -> P a b c d = true.
Proof.
  unfold all_pat_colors. intros H a b c d Ha Hb Hc Hd.
  rewrite forallb_forall in H. apply list_elem_of_In in Ha. specialize (H a Ha).
  rewrite forallb_forall in H. apply list_elem_of_In in Hb. specialize (H b Hb).
  rewrite forallb_forall in H. apply list_elem_of_In in Hc. specialize (H c Hc).
  rewrite forallb_forall in H. apply list_elem_of_In in Hd. exact (H d Hd).
Qed.

Lemma code_cases (a : ascii) (k : Z) :
  0 <= k < 4 ->
  code a k = code "O" k \/ code a k = code "X" k \/ code a k = code "." k
  \/ code a k = code "#" k.
Proof.
  intros Hk. assert (k = 0 \/ k = 1 \/ k = 2 \/ k = 3) as [-> | [-> | [-> | ->] ] ] by lia.
  all: unfold code.
  all: destruct (a =? "O")%char; [left; reflexivity|].
  all: destruct (a =? "X")%char; [right; left; reflexivity|].
  all: destruct (a =? ".")%char; [right; right; left; reflexivity|].
  all: destruct (a =? "#")%char; [right; right; right; reflexivity|].
  all: left; reflexivity.
Qed.

Lemma code4_range (a b c d : ascii) : 0 <= code4 a b c d < 256.
Proof.
  unfold code4.
  destruct (code_cases a 0) as [-> | [-> | [-> | ->] ] ]; [lia|..];
  (destruct (code_cases b 1) as [-> | [-> | [-> | ->] ] ]; [lia|..]);
  (destruct (code_cases c 2) as [-> | [-> | [-> | ->] ] ]; [lia|..]);
  (destruct (code_cases d 3) as [-> | [-> | [-> | ->] ] ]; [lia|..]); vm_compute; split; congruence.
Qed.

Lemma lor_shiftl_add (lo hi : Z) :
  0 <= lo < 256 -> 0 <= hi -> Z.lor lo (Z.shiftl hi 8) = Z.shiftl hi 8 + lo.
Proof.
  intros Hlo Hhi.
  assert (Hland : Z.land lo (Z.shiftl hi 8) = 0).
  { apply Z.bits_inj'. intros k Hk. rewrite Z.land_spec, Z.bits_0.
    destruct (Z.ltb_spec k 8).
    - rewrite (Z.shiftl_spec_low hi 8 k) by lia. apply andb_false_r.
    - assert (Z.testbit lo k = false) as ->; [|reflexivity].
      destruct (Z.eq_dec lo 0) as [->|]; [apply Z.bits_0|].
      apply Z.bits_above_log2; [lia|].
      apply Z.lt_le_trans with 8; [|lia].
      apply Z.log2_lt_pow2; lia. }
  rewrite Z.add_comm, Z.add_nocarry_lxor by exact Hland.
  symmetry. now apply Z.lxor_lor.
Qed.

Lemma compute_code_halves (s : list ascii) :
  compute_code s =
  Z.shiftl (code4 (rd s 2) (rd s 8) (rd s 6) (rd s 0)) 8
  + code4 (rd s 1) (rd s 5) (rd s 7) (rd s 3).
Proof.
  rewrite <- lor_shiftl_add.
  - unfold compute_code, code4. cbv zeta. rewrite !Z.shiftl_lor, Z.lor_0_l.
    now rewrite !Z.lor_assoc.
  - apply code4_range.
  - apply code4_range.
Qed.

Lemma compute_code_range (s : list ascii) : 0 <= compute_code s < 65536.
Proof.
  rewrite compute_code_halves, Z.shiftl_mul_pow2 by lia.
  pose proof (code4_range (rd s 2) (rd s 8) (rd s 6) (rd s 0)).
  pose proof (code4_range (rd s 1) (rd s 5) (rd s 7) (rd s 3)).
  change (2 ^ 8) with 256. lia.
Qed.

Lemma halves_low (lo hi : Z) :
  0 <= lo < 256 -> 0 <= hi -> Z.land (Z.shiftl hi 8 + lo) 255 = lo.
Proof.
  intros Hlo Hhi. change 255 with (Z.ones 8). rewrite Z.land_ones by lia.
  rewrite Z.shiftl_mul_pow2 by lia. change (2 ^ 8) with 256.
  rewrite Z.add_comm, Z.mod_add by lia. apply Z.mod_small. lia.
Qed.

Lemma halves_high (lo hi : Z) :
  0 <= lo < 256 -> 0 <= hi -> Z.shiftr (Z.shiftl hi 8 + lo) 8 = hi.
Proof.
  intros Hlo Hhi. rewrite Z.shiftr_div_pow2, Z.shiftl_mul_pow2 by lia.
  change (2 ^ 8) with 256. rewrite Z.add_comm, Z.div_add by lia.
  rewrite Z.div_small by lia. lia.
Qed.

(** [decode_env4] reads back each of the four colours of a half. *)
Lemma decode_code4 :
  all_pat_colors (fun a b c d =>
    let h := code4 a b c d in
    bool_decide (color_of_code (decode_env4 h 0) = a)
    && bool_decide (color_of_code (decode_env4 h 1) = b)
    && bool_decide (color_of_code (decode_env4 h 2) = c)
    && bool_decide (color_of_code (decode_env4 h 3) = d)) = true.
Proof. vm_compute. reflexivity. Qed.

Lemma land_1_range (x : Z) : 0 <= Z.land x 1 <= 1.
Proof.
  assert (Z.land x 1 = x mod 2) as ->.
  { change 1 with (Z.ones 1). now rewrite Z.land_ones by lia. }
  pose proof (Z.mod_pos_bound x 2). lia.
Qed.

Lemma decode_env4_range (e k : Z) : 0 <= decode_env4 e k <= 3.
Proof.
  unfold decode_env4. cbv zeta.
  pose proof (land_1_range (Z.shiftr (Z.shiftr e k) 4)).
  pose proof (land_1_range (Z.shiftr e k)).
  rewrite Z.shiftl_mul_pow2 by lia. change (2 ^ 1) with 2. lia.
Qed.

Lemma color_of_code_decode (c : Z) :
  0 <= c <= 3 ->
  (if c =? 0 then "O"%char else if c =? 1 then "X"%char
   else if c =? 2 then "."%char else if c =? 3 then "#"%char else Ascii.zero)
  = color_of_code c.
Proof.
  intros Hc. unfold color_of_code.
  assert (c = 0 \/ c = 1 \/ c = 2 \/ c = 3) as [-> | [-> | [-> | ->] ] ] by lia;
    reflexivity.
Qed.

Lemma decode_env8_code (s : list ascii) (k : Z) :
  decode_env8 (compute_code s) k =
  if k >=? 4
  then color_of_code (decode_env4 (code4 (rd s 2) (rd s 8) (rd s 6) (rd s 0)) (k - 4))
  else color_of_code (decode_env4 (code4 (rd s 1) (rd s 5) (rd s 7) (rd s 3)) k).
Proof.
  unfold decode_env8. rewrite compute_code_halves.
  pose proof (code4_range (rd s 2) (rd s 8) (rd s 6) (rd s 0)).
  pose proof (code4_range (rd s 1) (rd s 5) (rd s 7) (rd s 3)).
  rewrite halves_low, halves_high by lia.
  destruct (k >=? 4); apply color_of_code_decode, decode_env4_range.
Qed.

Lemma decode_code4_spec (a b c d : ascii) :
  a ∈ pat_colors -> b ∈ pat_colors -> c ∈ pat_colors -> d ∈ pat_colors ->
  color_of_code (decode_env4 (code4 a b c d) 0) = a
  /\ color_of_code (decode_env4 (code4 a b c d) 1) = b
  /\ color_of_code (decode_env4 (code4 a b c d) 2) = c
  /\ color_of_code (decode_env4 (code4 a b c d) 3) = d.
Proof.
  intros Ha Hb Hc Hd.
  pose proof (all_pat_colors_spec _ decode_code4 a b c d Ha Hb Hc Hd) as H.
  cbv zeta in H. rewrite !andb_true_iff, !bool_decide_eq_true in H. tauto.
Qed.

Lemma print_env8_code (s : list ascii) :
  neighbourhood_ok s -> print_env8_src (compute_code s) = s.
Proof.
  intros (Hl & Hc & Hs).
  do 9 (destruct s as [|? s]; [discriminate Hl|]).
  destruct s; [|discriminate Hl].
  pose proof (Hs 0 ltac:(lia)) as H0. pose proof (Hs 1 ltac:(lia)) as H1.
  pose proof (Hs 2 ltac:(lia)) as H2. pose proof (Hs 3 ltac:(lia)) as H3.
  pose proof (Hs 5 ltac:(lia)) as H5. pose proof (Hs 6 ltac:(lia)) as H6.
  pose proof (Hs 7 ltac:(lia)) as H7. pose proof (Hs 8 ltac:(lia)) as H8.
  clear Hs Hl. unfold print_env8_src. rewrite !decode_env8_code.
  change (rd _ 4) with a3 in Hc.
  change (rd _ 0) with a in *. change (rd _ 1) with a0 in *.
  change (rd _ 2) with a1 in *. change (rd _ 3) with a2 in *.
  change (rd _ 5) with a4 in *. change (rd _ 6) with a5 in *.
  change (rd _ 7) with a6 in *. change (rd _ 8) with a7 in *.
  change (4 - 4) with 0. change (5 - 4) with 1. change (6 - 4) with 2.
  change (7 - 4) with 3. cbv beta iota delta [Z.geb Z.compare Pos.compare
    Pos.compare_cont].
  destruct (decode_code4_spec a0 a4 a6 a2) as (-> & -> & -> & ->); try assumption.
  destruct (decode_code4_spec a1 a7 a5 a) as (-> & -> & -> & ->); try assumption.
  now rewrite Hc.
Qed.

Lemma env_byte_code4 :
  all_codes (fun c0 c1 c2 c3 =>
    env_byte c0 c1 c2 c3
    =? code4 (color_of_code c0) (color_of_code c1) (color_of_code c2)
             (color_of_code c3)) = true.
Proof. vm_compute. reflexivity. Qed.

Lemma rem2_even (x : Z) : (Z.rem x 2 =? 0) = Z.even x.
Proof.
  destruct (Z.eqb_spec (Z.rem x 2) 0) as [E|E]; symmetry.
  - apply Z.even_spec. apply Z.rem_divide in E; [|lia].
    destruct E as [k ->]. exists k. lia.
  - apply not_true_is_false. intros Hev. apply E.
    apply Z.even_spec in Hev as [k ->]. rewrite Z.mul_comm. now apply Z.rem_mul.
Qed.

Lemma color_of_env_code (p : Position) (q : Z) :
  color_of_code (env_code p q) = abs_color p q.
Proof.
  unfold env_code, abs_color. cbv zeta. rewrite rem2_even.
  destruct (rd (color p) q =? ".")%char; [reflexivity|].
  destruct (rd (color p) q =? " ")%char; [reflexivity|].
  destruct (Z.even (n p)), (rd (color p) q =? "X")%char; reflexivity.
Qed.

Lemma env8_code (p : Position) (pt : Z) :
  Z.shiftl (compute_env4 p pt 4) 8 + compute_env4 p pt 0
  = compute_code (neighbourhood p pt).
Proof.
  rewrite compute_code_halves, compute_env4_0, compute_env4_4.
  unfold neighbourhood.
  change (rd _ 0) with (abs_color p (pt - N - 2)).
  change (rd _ 1) with (abs_color p (pt - N - 1)).
  change (rd _ 2) with (abs_color p (pt - N)).
  change (rd _ 3) with (abs_color p (pt - 1)).
  change (rd _ 5) with (abs_color p (pt + 1)).
  change (rd _ 6) with (abs_color p (pt + N)).
  change (rd _ 7) with (abs_color p (pt + N + 1)).
  change (rd _ 8) with (abs_color p (pt + N + 2)).
  rewrite <- !color_of_env_code.
  replace (pt - N - 2) with (pt - 15) by (board_consts; lia).
  replace (pt - N - 1) with (pt - 14) by (board_consts; lia).
  replace (pt - N) with (pt - 13) by (board_consts; lia).
  replace (pt + N + 2) with (pt + 15) by (board_consts; lia).
  replace (pt + N + 1) with (pt + 14) by (board_consts; lia).
  replace (pt + N) with (pt + 13) by (board_consts; lia).
  pose proof (all_codes_spec _ env_byte_code4) as H.
  f_equal; [f_equal|]; apply Z.eqb_eq, H; apply env_code_codes.
Qed.

Lemma neighbourhood_is_ok (p : Position) (pt : Z) : neighbourhood_ok (neighbourhood p pt).
Proof.
  assert (Hc : forall q, abs_color p q ∈ pat_colors).
  { intros q. unfold abs_color, pat_colors. cbv zeta.
    repeat match goal with |- context [if ?b then _ else _] => destruct b end;
      rewrite !elem_of_cons; tauto. }
  split; [reflexivity|]. split; [reflexivity|]. intros i Hi.
  assert (i = 0 \/ i = 1 \/ i = 2 \/ i = 3 \/ i = 4 \/ i = 5 \/ i = 6 \/ i = 7
          \/ i = 8) as Hcases by lia.
  destruct Hcases as [-> | [-> | [-> | [-> | [-> | [-> | [-> | [-> | ->] ] ] ] ] ] ] ];
    try apply Hc.
  unfold pat_colors. change (rd _ 4) with "."%char. rewrite !elem_of_cons. tauto.
Qed.

(** ** The set of 3x3 patterns *)

Lemma bit_pow2 (r : Z) : 0 <= r < 8 -> rd bit r = 2 ^ r.
Proof.
  intros Hr.
  assert (r = 0 \/ r = 1 \/ r = 2 \/ r = 3 \/ r = 4 \/ r = 5 \/ r = 6 \/ r = 7)
    as Hcases by lia.
  destruct Hcases as [-> | [-> | [-> | [-> | [-> | [-> | [-> | ->] ] ] ] ] ] ];
    reflexivity.
Qed.

Lemma land_7_range (e : Z) : 0 <= Z.land e 7 < 8.
Proof.
  change 7 with (Z.ones 3). rewrite Z.land_ones by lia. apply Z.mod_pos_bound. lia.
Qed.

Lemma land_pow2 (a b : Z) : 0 <= a -> 0 <= b -> (Z.land (2 ^ a) (2 ^ b) <> 0 <-> a = b).
Proof.
  intros Ha Hb. split.
  - intros H. destruct (Z.eq_dec a b) as [|Hne]; [easy|]. exfalso. apply H.
    apply Z.bits_inj'. intros k Hk. rewrite Z.land_spec, Z.bits_0.
    rewrite !Z.pow2_bits_eqb by lia.
    destruct (Z.eqb_spec a k), (Z.eqb_spec b k); try reflexivity. lia.
  - intros <-. rewrite Z.land_diag. lia.
Qed.

Lemma split_code (e c : Z) :
  Z.shiftr e 3 = Z.shiftr c 3 -> Z.land e 7 = Z.land c 7 -> e = c.
Proof.
  change 7 with (Z.ones 3). rewrite !Z.land_ones, !Z.shiftr_div_pow2 by lia.
  change (2 ^ 3) with 8. intros Hq Hr.
  rewrite (Z_div_mod_eq_full e 8), (Z_div_mod_eq_full c 8). lia.
Qed.

Lemma in_set_set_bit (set : list Z) (c e : Z) :
  0 <= c < 65536 -> 0 <= e -> Z.of_nat (length set) = 8192 ->
  in_set (set_bit set c) e <-> in_set set e \/ e = c.
Proof.
  intros Hc He Hl. unfold in_set, set_bit. cbv zeta.
  assert (Hq : 0 <= Z.shiftr c 3 < 8192).
  { rewrite Z.shiftr_div_pow2 by lia. change (2 ^ 3) with 8.
    split; [apply Z.div_pos; lia|apply Z.div_lt_upper_bound; lia]. }
  destruct (Z.eq_dec (Z.shiftr e 3) (Z.shiftr c 3)) as [E|E].
  - rewrite E, rd_wr_eq by lia. rewrite Z.land_lor_distr_l, Z.lor_eq_0_iff.
    pose proof (land_7_range c). pose proof (land_7_range e).
    rewrite (bit_pow2 (Z.land c 7)), (bit_pow2 (Z.land e 7)) by lia.
    pose proof (land_pow2 (Z.land c 7) (Z.land e 7) ltac:(lia) ltac:(lia)) as Hp.
    split.
    + intros Hn. destruct (Z.eq_dec (Z.land (rd set (Z.shiftr c 3)) (2 ^ Z.land e 7)) 0);
        [|now left].
      right. apply split_code; [easy|]. symmetry. apply Hp. tauto.
    + intros [Hn| ->]; [tauto|]. intros [_ Hn]. apply Hp in Hn; easy.
  - assert (0 <= Z.shiftr e 3) by now apply Z.shiftr_nonneg.
    rewrite rd_wr_ne by lia. split; [now left|]. intros [Hn| ->]; easy.
Qed.

Lemma length_set_bit (set : list Z) (c : Z) : length (set_bit set c) = length set.
Proof. apply length_wr. Qed.

Lemma length_wildexp_from (left : nat) :
  forall src i set, length (pat_wildexp_from left src i set) = length set.
Proof.
  induction left as [|left IH]; intros src i set; cbn [pat_wildexp_from].
  - apply length_set_bit.
  - repeat match goal with |- context [if ?b then _ else _] => destruct b end;
      cbv zeta; now rewrite !IH.
Qed.

Lemma matches_from_step (i : Z) (src s : list ascii) (c : ascii) :
  0 <= i < 9 -> Z.of_nat (length src) = 9 ->
  matches_from (i + 1) (wr src i c) s <->
  length s = 9%nat /\ rd s i = c
  /\ (forall j, 0 <= j < i -> rd s j = rd src j)
  /\ (forall j, i + 1 <= j < 9 -> matches_char (rd src j) (rd s j) = true).
Proof.
  intros Hi Hl. unfold matches_from. split.
  - intros (H9 & Hlow & Hup). split_and!; [easy|..].
    + rewrite (Hlow i) by lia. apply rd_wr_eq. lia.
    + intros j Hj. rewrite (Hlow j) by lia. apply rd_wr_ne; lia.
    + intros j Hj. rewrite <- (Hup j Hj). f_equal. symmetry. apply rd_wr_ne; lia.
  - intros (H9 & Hc & Hlow & Hup). split_and!; [easy|..].
    + intros j Hj. destruct (Z.eq_dec j i) as [->|Hne].
      * rewrite rd_wr_eq by lia. easy.
      * rewrite rd_wr_ne by lia. apply Hlow. lia.
    + intros j Hj. rewrite rd_wr_ne by lia. now apply Hup.
Qed.

Lemma matches_from_head (i : Z) (src s : list ascii) :
  0 <= i < 9 ->
  matches_from i src s <->
  length s = 9%nat /\ matches_char (rd src i) (rd s i) = true
  /\ (forall j, 0 <= j < i -> rd s j = rd src j)
  /\ (forall j, i + 1 <= j < 9 -> matches_char (rd src j) (rd s j) = true).
Proof.
  intros Hi. unfold matches_from. split.
  - intros (H9 & Hlow & Hup). split_and!; [easy|apply Hup; lia|easy|].
    intros j Hj. apply Hup. lia.
  - intros (H9 & Hc & Hlow & Hup). split_and!; [easy..|].
    intros j Hj. destruct (Z.eq_dec j i) as [->|Hne]; [easy|]. apply Hup. lia.
Qed.

(** The codes of the colourings that fit [src] from [i] on are those that
    fit it from [i + 1] on after one of the colours that fit [src[i]] has
    been written at [i]. *)
Lemma matches_choice (i : Z) (src : list ascii) (cs : list ascii) (e : Z) :
  0 <= i < 9 -> Z.of_nat (length src) = 9 ->
  (forall c, matches_char (rd src i) c = true <-> c ∈ cs) ->
  (exists s, matches_from i src s /\ compute_code s = e) <->
  (exists c, c ∈ cs /\ exists s, matches_from (i + 1) (wr src i c) s /\ compute_code s = e).
Proof.
  intros Hi Hl Hcs. split.
  - intros (s & Hm & He). exists (rd s i). apply matches_from_head in Hm; [|easy].
    destruct Hm as (H9 & Hc & Hlow & Hup). split; [now apply Hcs|].
    exists s. split; [|easy]. apply matches_from_step; easy.
  - intros (c & Hc & s & Hm & He). exists s. split; [|easy].
    apply matches_from_step in Hm; [|easy..].
    destruct Hm as (H9 & Hsc & Hlow & Hup). apply matches_from_head; [easy|].
    split_and!; try easy. rewrite Hsc. now apply Hcs.
Qed.

Lemma matches_fixed (i : Z) (src : list ascii) (e : Z) :
  0 <= i < 9 ->
  (forall c, matches_char (rd src i) c = true <-> c = rd src i) ->
  (exists s, matches_from i src s /\ compute_code s = e) <->
  (exists s, matches_from (i + 1) src s /\ compute_code s = e).
Proof.
  intros Hi Hc. split; intros (s & Hm & He); exists s; (split; [|easy]).
  - apply matches_from_head in Hm as (H9 & Hsc & Hlow & Hup); [|easy].
    apply Hc in Hsc. split_and!; [easy| |easy].
    intros j Hj. destruct (Z.eq_dec j i) as [->|Hne]; [easy|]. apply Hlow. lia.
  - destruct Hm as (H9 & Hlow & Hup). apply matches_from_head; [easy|].
    split_and!; [easy| |intros j Hj; apply Hlow; lia|easy].
    apply Hc. apply Hlow. lia.
Qed.

Lemma matches_char_cases (pc : ascii) :
  (pc = "?"%char /\ forall c, matches_char pc c = true <-> c ∈ ["X"; "O"; "."; "#"]%char)
  \/ (pc = "x"%char /\ forall c, matches_char pc c = true <-> c ∈ ["O"; "."; "#"]%char)
  \/ (pc = "o"%char /\ forall c, matches_char pc c = true <-> c ∈ ["X"; "."; "#"]%char)
  \/ ((pc =? "?")%char = false /\ (pc =? "x")%char = false /\ (pc =? "o")%char = false
      /\ forall c, matches_char pc c = true <-> c = pc).
Proof.
  unfold matches_char, pat_colors.
  destruct (Ascii.eqb_spec pc "?") as [->|H1].
  { left. split; [easy|]. intros c. now rewrite bool_decide_eq_true. }
  destruct (Ascii.eqb_spec pc "x") as [->|H2].
  { right; left. split; [easy|]. intros c.
    rewrite andb_true_iff, bool_decide_eq_true, negb_true_iff, !elem_of_cons,
      elem_of_nil. destruct (Ascii.eqb_spec c "X"); intuition congruence. }
  destruct (Ascii.eqb_spec pc "o") as [->|H3].
  { right; right; left. split; [easy|]. intros c.
    rewrite andb_true_iff, bool_decide_eq_true, negb_true_iff, !elem_of_cons,
      elem_of_nil. destruct (Ascii.eqb_spec c "O"); intuition congruence. }
  right; right; right. split_and!; try reflexivity. intros c. apply Ascii.eqb_eq.
Qed.

Lemma wildexp_from_spec (left : nat) :
  forall src i set e,
    i = 9 - Z.of_nat left -> 0 <= i -> Z.of_nat (length src) = 9 ->
    Z.of_nat (length set) = 8192 -> 0 <= e ->
    in_set (pat_wildexp_from left src i set) e <->
    in_set set e \/ exists s, matches_from i src s /\ compute_code s = e.
Proof.
  induction left as [|left IH]; intros src i set e Hi H0 Hl Hs He.
  - cbn [pat_wildexp_from]. rewrite in_set_set_bit;
      [|apply compute_code_range|easy|easy].
    apply or_iff_compat_l. split.
    + intros ->. exists src. split; [|easy]. split_and!; [lia|easy|].
      intros j Hj. lia.
    + intros (s & (H9 & Hlow & _) & <-). unfold compute_code.
      now rewrite !Hlow by lia.
  - assert (Hi9 : 0 <= i < 9) by lia.
    assert (IH' : forall c set, Z.of_nat (length set) = 8192 ->
              in_set (pat_wildexp_from left (wr src i c) (i + 1) set) e <->
              in_set set e
              \/ exists s, matches_from (i + 1) (wr src i c) s /\ compute_code s = e).
    { intros c set' Hs'. apply IH; try lia. now rewrite length_wr. }
    cbn [pat_wildexp_from].
    destruct (matches_char_cases (rd src i)) as
      [[E Hc] | [[E Hc] | [[E Hc] | (E1 & E2 & E3 & Hc)] ] ].
    + rewrite E. cbn [Ascii.eqb Bool.eqb]. cbv zeta.
      rewrite (matches_choice i src _ e Hi9 Hl Hc).
      rewrite !IH' by now rewrite ?length_wildexp_from.
      split.
      * intros [[[[H|H]|H]|H]|H]; [now left|right..];
          [exists "X"%char|exists "O"%char|exists "."%char|exists "#"%char];
          (split; [rewrite !elem_of_cons; tauto|exact H]).
      * intros [H|(c & Hin & H)]; [tauto|].
        rewrite !elem_of_cons, elem_of_nil in Hin.
        destruct Hin as [->|[->|[->|[->|[]]]]]; tauto.
    + rewrite E. cbn [Ascii.eqb Bool.eqb]. cbv zeta.
      rewrite (matches_choice i src _ e Hi9 Hl Hc).
      rewrite !IH' by now rewrite ?length_wildexp_from.
      split.
      * intros [[[H|H]|H]|H]; [now left|right..];
          [exists "O"%char|exists "."%char|exists "#"%char];
          (split; [rewrite !elem_of_cons; tauto|exact H]).
      * intros [H|(c & Hin & H)]; [tauto|].
        rewrite !elem_of_cons, elem_of_nil in Hin.
        destruct Hin as [->|[->|[->|[]]]]; tauto.
    + rewrite E. cbn [Ascii.eqb Bool.eqb]. cbv zeta.
      rewrite (matches_choice i src _ e Hi9 Hl Hc).
      rewrite !IH' by now rewrite ?length_wildexp_from.
      split.
      * intros [[[H|H]|H]|H]; [now left|right..];
          [exists "X"%char|exists "."%char|exists "#"%char];
          (split; [rewrite !elem_of_cons; tauto|exact H]).
      * intros [H|(c & Hin & H)]; [tauto|].
        rewrite !elem_of_cons, elem_of_nil in Hin.
        destruct Hin as [->|[->|[->|[]]]]; tauto.
    + rewrite E1, E2, E3. rewrite (matches_fixed i src e Hi9 Hc).
      apply IH; try lia.
Qed.

Lemma adds_comp (f g : list Z -> list Z) (vs ws : list (list ascii)) :
  adds f vs -> adds g ws -> adds (fun set => g (f set)) (vs ++ ws).
Proof.
  intros Hf Hg set e Hs He. destruct (Hf set e Hs He) as [Hlf Hif].
  destruct (Hg (f set) e Hlf He) as [Hlg Hig]. split; [easy|].
  rewrite Hig, Hif. split.
  - intros [[H|(v & Hv & H)]|(v & Hv & H)]; [now left|right; exists v..];
      (split; [rewrite elem_of_app; tauto|easy]).
  - intros [H|(v & Hv & H)]; [tauto|]. apply elem_of_app in Hv as [Hv|Hv];
      [left; right|right]; now exists v.
Qed.

Lemma adds_wildexp (src : list ascii) :
  Z.of_nat (length src) = 9 -> adds (pat_wildexp src 0) [src].
Proof.
  intros Hl set e Hs He. unfold pat_wildexp. split.
  - now rewrite length_wildexp_from.
  - rewrite wildexp_from_spec; [|reflexivity|lia|easy..].
    apply or_iff_compat_l. split.
    + intros H. exists src. split; [apply list_elem_of_singleton; reflexivity|exact H].
    + intros (v & Hv & H). apply list_elem_of_singleton in Hv. now subst v.
Qed.

Lemma length_swapcolor (src : list ascii) : length (swapcolor src) = length src.
Proof. unfold swapcolor. cbn [seqZ fold_left]. simpl. now rewrite !length_wr. Qed.

Lemma length_horizflip (src : list ascii) : length (horizflip src) = length src.
Proof. unfold horizflip, swap_chars. cbv zeta. now rewrite !length_wr. Qed.

Lemma length_vertflip (src : list ascii) : length (vertflip src) = length src.
Proof. unfold vertflip, swap_chars. cbv zeta. now rewrite !length_wr. Qed.

Lemma length_rot90 (src : list ascii) : length (rot90 src) = length src.
Proof. unfold rot90. cbv zeta. now rewrite !length_wr. Qed.

Lemma adds_enumerate3 (src : list ascii) :
  Z.of_nat (length src) = 9 -> adds (pat_enumerate3 src) (variants3 src).
Proof.
  intros Hl.
  apply (adds_comp (pat_wildexp src 0) (pat_wildexp (swapcolor src) 0) [src]
           [swapcolor src]); apply adds_wildexp;
    now rewrite ?length_swapcolor.
Qed.

Lemma adds_enumerate2 (src : list ascii) :
  Z.of_nat (length src) = 9 -> adds (pat_enumerate2 src) (variants2 src).
Proof.
  intros Hl. apply (adds_comp (pat_enumerate3 src) (pat_enumerate3 (horizflip src)));
    apply adds_enumerate3; now rewrite ?length_horizflip.
Qed.

Lemma adds_enumerate1 (src : list ascii) :
  Z.of_nat (length src) = 9 -> adds (pat_enumerate1 src) (variants1 src).
Proof.
  intros Hl. apply (adds_comp (pat_enumerate2 src) (pat_enumerate2 (vertflip src)));
    apply adds_enumerate2; now rewrite ?length_vertflip.
Qed.

Lemma adds_enumerate (src : list ascii) :
  Z.of_nat (length src) = 9 -> adds (pat_enumerate src) (variants src).
Proof.
  intros Hl. apply (adds_comp (pat_enumerate1 src) (pat_enumerate1 (rot90 src)));
    apply adds_enumerate1; now rewrite ?length_rot90.
Qed.

Lemma adds_loop (srcs : list (list ascii)) :
  (forall src, src ∈ listed srcs -> Z.of_nat (length src) = 9) ->
  adds (make_pat3set_loop srcs) (concat (map variants (listed srcs))).
Proof.
  induction srcs as [|src srcs IH]; intros Hl; cbn [make_pat3set_loop listed].
  - intros set e Hs He. split; [easy|]. split; [now left|].
    intros [H|(v & Hv & _)]; [easy|]. cbn in Hv. now apply elem_of_nil in Hv.
  - destruct (bool_decide (src = list_ascii_of_string "#########")) eqn:E.
    + intros set e Hs He. split; [easy|]. split; [now left|].
      intros [H|(v & Hv & _)]; [easy|]. cbn in Hv. now apply elem_of_nil in Hv.
    + cbn [listed map concat] in *. rewrite E in Hl.
      apply (adds_comp (pat_enumerate src) (make_pat3set_loop srcs)).
      * apply adds_enumerate, Hl. apply elem_of_cons. now left.
      * apply IH. intros s Hs. apply Hl. apply elem_of_cons. now right.
Qed.

Lemma rd_repeat_0 (k : nat) (i : Z) : 0 <= i < Z.of_nat k -> rd (repeat 0 k) i = 0.
Proof.
  intros Hi. unfold rd. assert (Hj : (Z.to_nat i < k)%nat) by lia.
  revert Hj. generalize (Z.to_nat i). clear Hi.
  induction k as [|k IH]; intros j Hj; [lia|].
  destruct j; [reflexivity|]. apply IH. lia.
Qed.

Lemma pattern_ok_char (v : list ascii) (j : Z) :
  pattern_ok v = true -> 0 <= j < 9 ->
  rd v j ∈ ["X"; "O"; "."; "#"; "?"; "x"; "o"]%char.
Proof.
  unfold pattern_ok. rewrite !andb_true_iff, forallb_forall, Nat.eqb_eq.
  intros [[Hl _] H] Hj.
  specialize (H (rd v j)). rewrite bool_decide_eq_true in H. apply H.
  apply list_elem_of_In. apply (list_elem_of_lookup_2 _ (Z.to_nat j)).
  apply rd_lookup. lia.
Qed.

Lemma matches_ok (v s : list ascii) :
  pattern_ok v = true -> matches v s -> neighbourhood_ok s.
Proof.
  intros Hv (H9 & _ & Hm). split; [easy|]. split.
  - specialize (Hm 4 ltac:(lia)). unfold pattern_ok in Hv.
    rewrite !andb_true_iff, bool_decide_eq_true in Hv. destruct Hv as [[_ Hc] _].
    rewrite Hc in Hm. now apply Ascii.eqb_eq in Hm.
  - intros j Hj. specialize (Hm j ltac:(lia)).
    pose proof (pattern_ok_char v j Hv Hj) as Hc.
    destruct (matches_char_cases (rd v j)) as
      [[E Hcs] | [[E Hcs] | [[E Hcs] | (E1 & E2 & E3 & Hcs)] ] ];
      apply Hcs in Hm; unfold pat_colors.
    + exact Hm.
    + rewrite !elem_of_cons in *. tauto.
    + rewrite !elem_of_cons in *. tauto.
    + rewrite Hm. rewrite !elem_of_cons, elem_of_nil in Hc.
      apply Ascii.eqb_neq in E1, E2, E3.
      rewrite !elem_of_cons. tauto.
Qed.

Lemma variants_ok :
  forallb (fun pat => forallb pattern_ok (variants pat)) (listed pat3src) = true.
Proof. vm_compute. reflexivity. Qed.

Lemma listed_pat3src (pat : list ascii) :
  pat ∈ listed pat3src <->
  pat ∈ pat3src /\ pat <> list_ascii_of_string "#########".
Proof.
  assert (E : pat3src = listed pat3src ++ [list_ascii_of_string "#########"])
    by (vm_compute; reflexivity).
  rewrite E at 2. rewrite elem_of_app, list_elem_of_singleton. split.
  - intros H. split; [now left|]. intros ->. revert H.
    apply (bool_decide_eq_false_1 (_ ∈ _)). vm_compute. reflexivity.
  - tauto.
Qed.

Lemma elem_of_variants (L : list (list ascii)) (v : list ascii) :
  v ∈ concat (map variants L) <-> exists pat, pat ∈ L /\ v ∈ variants pat.
Proof.
  rewrite list_elem_of_In, in_concat. split.
  - intros (vs & Hvs & Hv). apply in_map_iff in Hvs as (pat & <- & Hpat).
    exists pat. split; now apply list_elem_of_In.
  - intros (pat & Hpat & Hv). exists (variants pat). split; [|now apply list_elem_of_In].
    apply in_map_iff. exists pat. split; [easy|]. now apply list_elem_of_In.
Qed.

Lemma in_make_pat3set (e : Z) :
  0 <= e < 65536 ->
  in_set make_pat3set e <->
  exists pat v s, pat ∈ listed pat3src /\ v ∈ variants pat /\ matches v s
    /\ compute_code s = e.
Proof.
  intros He. unfold make_pat3set.
  assert (Hl : forall src, src ∈ listed pat3src -> Z.of_nat (length src) = 9).
  { intros src Hsrc. pose proof variants_ok as H. rewrite forallb_forall in H.
    apply list_elem_of_In in Hsrc. specialize (H src Hsrc).
    rewrite forallb_forall in H. specialize (H src).
    assert (Hin : In src (variants src)) by (now left).
    specialize (H Hin). unfold pattern_ok in H.
    rewrite !andb_true_iff, Nat.eqb_eq in H. lia. }
  destruct (adds_loop pat3src Hl (repeat 0 (Z.to_nat 8192)) e) as [_ H]; [|lia|].
  { rewrite repeat_length. vm_compute. reflexivity. }
  rewrite H. split.
  - intros [Hin|(v & Hv & s & Hm & Hc)].
    + exfalso. apply Hin. rewrite rd_repeat_0; [apply Z.land_0_l|].
      split; [apply Z.shiftr_nonneg; lia|].
      apply Z.lt_le_trans with 8192; [|vm_compute; discriminate].
      rewrite Z.shiftr_div_pow2 by lia. change (2 ^ 3) with 8.
      apply Z.div_lt_upper_bound; lia.
    + apply elem_of_variants in Hv as (pat & Hpat & Hv).
      exists pat, v, s. split_and!; assumption.
  - intros (pat & v & s & Hpat & Hv & Hm & Hc). right. exists v.
    split; [|exists s; split; assumption].
    apply elem_of_variants. exists pat. split; assumption.
Qed.

Lemma pat3_match_in_set (set : list Z) (p : Position) (pt : Z) :
  pat3_match set p pt = 1 <->
  in_set set (Z.shiftl (rd (env4d p) pt) 8 + rd (env4 p) pt).
Proof.
  unfold pat3_match, in_set. cbv zeta.
  destruct (Z.eqb_spec (Z.land (rd set (Z.shiftr (Z.shiftl (rd (env4d p) pt) 8
    + rd (env4 p) pt) 3)) (rd bit (Z.land (Z.shiftl (rd (env4d p) pt) 8
    + rd (env4 p) pt) 7))) 0) as [E|E]; cbn [negb]; split; try easy.
Qed.

(** X12. [print_env8] decodes what [compute_code] encodes: for nine
    colours among 'X', 'O', '.' and '#' with an empty centre, the code is a
    16-bit number and the array that [print_env8] fills from it holds the
    nine colours again. *)
Theorem print_env8_roundtrip (s : list ascii) :
  neighbourhood_ok s ->
  0 <= compute_code s < 65536 /\ print_env8_src (compute_code s) = s.
Proof.
  intros Hs. split; [apply compute_code_range|now apply print_env8_code].
Qed.

(** X12 on a neighbourhood at the edge. *)
Lemma print_env8_roundtrip_witness :
  0 <= compute_code (list_ascii_of_string "XO.O.X###") < 65536
  /\ print_env8_src (compute_code (list_ascii_of_string "XO.O.X###"))
     = list_ascii_of_string "XO.O.X###".
Proof.
  apply (print_env8_roundtrip (list_ascii_of_string "XO.O.X###")).
  split; [reflexivity|]. split; [reflexivity|]. intros i Hi.
  assert (i = 0 \/ i = 1 \/ i = 2 \/ i = 3 \/ i = 4 \/ i = 5 \/ i = 6 \/ i = 7
          \/ i = 8) as Hcases by lia.
  destruct Hcases as [-> | [-> | [-> | [-> | [-> | [-> | [-> | [-> | ->] ] ] ] ] ] ] ];
    (match goal with |- ?c ∈ _ =>
       let c' := eval vm_compute in c in change (c' ∈ pat_colors) end);
    unfold pat_colors; rewrite !elem_of_cons; tauto.
Defined.

(** X13. The two encoders agree: in a position whose caches are those of
    [compute_env4], the number that [pat3_match] makes of [env4d[pt]] and
    [env4[pt]] is the [compute_code] of the 3x3 neighbourhood of [pt], with
    black and white told apart by the parity of the move number. *)
Theorem env8_is_compute_code (p : Position) (pt : Z) :
  board_ok p = true -> on_board pt = true ->
  Z.shiftl (rd (env4d p) pt) 8 + rd (env4 p) pt
  = compute_code (neighbourhood p pt).
Proof.
  intros Hp Hpt. apply board_ok_spec in Hp as (_ & _ & _ & Henv).
  destruct (Henv pt Hpt) as [-> ->]. apply env8_code.
Qed.

(** X13 beside the ko of [ko_position]. *)
Lemma env8_is_compute_code_witness :
  Z.shiftl (rd (env4d (snd ko_position)) 76) 8 + rd (env4 (snd ko_position)) 76
  = compute_code (neighbourhood (snd ko_position) 76).
Proof.
  apply (env8_is_compute_code (snd ko_position) 76).
  - vm_compute. reflexivity.
  - reflexivity.
Defined.

(** X14. [pat_wildexp(src, 0)] adds to the bit set exactly the codes of the
    colourings that fit the pattern [src], a '?' standing for any colour,
    an 'x' for any colour but 'X' and an 'o' for any colour but 'O'; no bit
    is cleared. *)
Theorem pat_wildexp_spec (src : list ascii) (set : list Z) (e : Z) :
  Z.of_nat (length src) = 9 -> Z.of_nat (length set) = 8192 -> 0 <= e ->
  in_set (pat_wildexp src 0 set) e <->
  in_set set e \/ exists s, matches src s /\ compute_code s = e.
Proof.
  intros Hl Hs He. unfold pat_wildexp, matches.
  apply wildexp_from_spec; [reflexivity|lia|easy..].
Qed.

(** X14 for the first pattern of the table and the empty set. *)
Lemma pat_wildexp_spec_witness :
  in_set (pat_wildexp (list_ascii_of_string "XOX...???") 0 (repeat 0 (Z.to_nat 8192))) 5 <->
  in_set (repeat 0 (Z.to_nat 8192)) 5
  \/ exists s, matches (list_ascii_of_string "XOX...???") s /\ compute_code s = 5.
Proof.
  apply (pat_wildexp_spec (list_ascii_of_string "XOX...???") (repeat 0 (Z.to_nat 8192)) 5).
  - reflexivity.
  - rewrite repeat_length. vm_compute. reflexivity.
  - lia.
Defined.

(** X15. With the set that [make_pat3set] builds, [pat3_match] answers 1
    at a point exactly when the 3x3 neighbourhood of the point fits one of
    the sixteen variants (quarter turn, the two flips, exchange of the
    colours) of a pattern listed in [pat3src] before the end mark. *)
Theorem pat3_match_spec (p : Position) (pt : Z) :
  board_ok p = true -> on_board pt = true ->
  pat3_match make_pat3set p pt = 1 <->
  exists pat v, pat ∈ pat3src /\ pat <> list_ascii_of_string "#########"
    /\ v ∈ variants pat /\ matches v (neighbourhood p pt).
Proof.
  intros Hp Hpt. apply board_ok_spec in Hp as (_ & _ & _ & Henv).
  rewrite pat3_match_in_set. destruct (Henv pt Hpt) as [-> ->]. rewrite env8_code.
  rewrite in_make_pat3set by apply compute_code_range. split.
  - intros (pat & v & s & Hpat & Hv & Hm & Hc). exists pat, v.
    apply listed_pat3src in Hpat as Hpat'. destruct Hpat' as [? ?].
    split_and!; try easy.
    assert (Hok : pattern_ok v = true).
    { pose proof variants_ok as Hall. rewrite forallb_forall in Hall.
      apply list_elem_of_In in Hpat. specialize (Hall pat Hpat).
      rewrite forallb_forall in Hall. apply Hall. now apply list_elem_of_In. }
    assert (s = neighbourhood p pt) as <-; [|easy].
    rewrite <- (print_env8_code s) by (eapply matches_ok; eassumption).
    rewrite Hc. apply print_env8_code, neighbourhood_is_ok.
  - intros (pat & v & Hpat & Hne & Hv & Hm). exists pat, v, (neighbourhood p pt).
    split_and!; try easy. now apply listed_pat3src.
Qed.

(** X15 beside the ko of [ko_position]. *)
Lemma pat3_match_spec_witness :
  pat3_match make_pat3set (snd ko_position) 76 = 1 <->
  exists pat v, pat ∈ pat3src /\ pat <> list_ascii_of_string "#########"
    /\ v ∈ variants pat /\ matches v (neighbourhood (snd ko_position) 76).
Proof.
  apply (pat3_match_spec (snd ko_position) 76).
  - vm_compute. reflexivity.
  - reflexivity.
Defined.

End Pat3Facts.

(** ** Insertion in the pattern dictionary *)

Section DictFacts.
Import Patterns.

Lemma slot_insert (t : Table) (i h : Z) (p : LargePat) :
  slot (<[i := p]> t) h = if bool_decide (h = i) then p else slot t h.
Proof.
  unfold slot. destruct (bool_decide_reflect (h = i)) as [->|Hne].
  - now rewrite lookup_insert_eq.
  - now rewrite lookup_insert_ne by congruence.
Qed.

(** The probe for the key of [p] ends at the slot where [p] was stored. *)
Lemma find_pat_loop_inserted (fuel : nat) (t : Table) (p : LargePat) (i : Z) :
  forall h h2 reads r,
    key p <> 0 -> key (slot t i) = 0 ->
    find_pat_loop fuel t (key p) h h2 reads = (Some i, r) ->
    find_pat_loop fuel (<[i := p]> t) (key p) h h2 reads = (Some i, r).
Proof.
  induction fuel as [|fuel IH]; intros h h2 reads r Hk Hi; cbn [find_pat_loop];
    [discriminate|].
  rewrite slot_insert. destruct (bool_decide_reflect (h = i)) as [->|Hne].
  - rewrite Hi. destruct (Z.eqb_spec 0 (key p)) as [E|_]; [congruence|].
    rewrite !Z.eqb_refl. easy.
  - destruct (key (slot t h) =? key p); [congruence|].
    destruct (key (slot t h) =? 0); [congruence|]. now apply IH.
Qed.

(** A key found in the table is found at the same slot, by the same probe,
    after a pattern is stored in an empty slot. *)
Lemma find_pat_loop_kept (fuel : nat) (t : Table) (p : LargePat) (i k j : Z) :
  forall h h2 reads r,
    k <> 0 -> key (slot t i) = 0 -> key (slot t j) = k ->
    find_pat_loop fuel t k h h2 reads = (Some j, r) ->
    find_pat_loop fuel (<[i := p]> t) k h h2 reads = (Some j, r).
Proof.
  induction fuel as [|fuel IH]; intros h h2 reads r Hk Hi Hj; cbn [find_pat_loop];
    [discriminate|].
  rewrite slot_insert. destruct (bool_decide_reflect (h = i)) as [->|Hne].
  - rewrite Hi. destruct (Z.eqb_spec 0 k) as [E|_]; [congruence|].
    cbn [Z.eqb]. intros [= <- <-]. congruence.
  - destruct (key (slot t h) =? k); [easy|].
    destruct (key (slot t h) =? 0); [easy|]. now apply IH.
Qed.

Lemma find_pat_loop_last (fuel : nat) (t : Table) (k : Z) :
  forall h h2 reads i r,
    find_pat_loop fuel t k h h2 reads = (Some i, r) -> i ∈ r.
Proof.
  induction fuel as [|fuel IH]; intros h h2 reads i r; cbn [find_pat_loop];
    [discriminate|].
  destruct (key (slot t h) =? k).
  { intros [= <- <-]. apply elem_of_app. right. now apply list_elem_of_singleton. }
  destruct (key (slot t h) =? 0).
  { intros [= <- <-]. apply elem_of_app. right. now apply list_elem_of_singleton. }
  apply IH.
Qed.

(** X16. What [insert_pat] stores is found again: when the probe for the
    key of [p] stays inside the table and [insert_pat] stores [p], it stores
    it at the index [i] that it returns, an index of the table, and
    [find_pat] with the key of [p] then returns [i] after the same probe. *)
Theorem insert_pat_then_find (fuel : nat) (t t' : Table) (p : LargePat) (i : Z) :
  key p <> 0 ->
  Forall (fun h => 0 <= h < LENGTH) (snd (find_pat fuel t (key p))) ->
  insert_pat fuel t p = Some (t', i) -> i <> FOUND ->
  0 <= i < LENGTH
  /\ slot t' i = p
  /\ find_pat fuel t' (key p) = (Some i, snd (find_pat fuel t (key p))).
Proof.
  intros Hk Hr. unfold insert_pat.
  destruct (find_pat fuel t (key p)) as [[j|] r] eqn:E; cbn [fst snd] in *;
    [|discriminate].
  destruct (Z.eqb_spec (key (slot t j)) 0) as [Hj|Hj]; intros [= <- <-] Hf;
    [|congruence].
  unfold find_pat in *. split; [|split].
  - rewrite Forall_forall in Hr. apply Hr. eapply find_pat_loop_last, E.
  - rewrite slot_insert. now rewrite bool_decide_eq_true_2.
  - now apply find_pat_loop_inserted.
Qed.

(** X16 for a pattern stored in the empty table. *)
Lemma insert_pat_then_find_witness :
  0 <= 5 < LENGTH
  /\ slot (<[5 := pat_five]> ∅) 5 = pat_five
  /\ find_pat 1 (<[5 := pat_five]> ∅) (key pat_five)
     = (Some 5, snd (find_pat 1 ∅ (key pat_five))).
Proof.
  apply (insert_pat_then_find 1 ∅ (<[5 := pat_five]> ∅) pat_five 5).
  - discriminate.
  - assert (E : snd (find_pat 1 ∅ (key pat_five)) = [5]) by (vm_compute; reflexivity).
    rewrite E. constructor; [split; [lia|reflexivity]|constructor].
  - vm_compute. reflexivity.
  - discriminate.
Defined.

(** X17. [insert_pat] loses nothing: a key that [find_pat] finds in the
    table is found at the same index, after the same probe and with the
    same entry, once [insert_pat] has run for another pattern. *)
Theorem insert_pat_keeps (fuel fuel' : nat) (t t' : Table) (p : LargePat)
    (i k j : Z) (r : list Z) :
  k <> 0 ->
  Forall (fun h => 0 <= h < LENGTH) (snd (find_pat fuel t (key p))) ->
  Forall (fun h => 0 <= h < LENGTH) r ->
  insert_pat fuel t p = Some (t', i) ->
  find_pat fuel' t k = (Some j, r) -> key (slot t j) = k ->
  find_pat fuel' t' k = (Some j, r) /\ slot t' j = slot t j.
Proof.
  intros Hk _ _. unfold insert_pat.
  destruct (find_pat fuel t (key p)) as [[h|] rp]; cbn [fst]; [|discriminate].
  destruct (Z.eqb_spec (key (slot t h)) 0) as [Hh|Hh]; intros [= <- <-] Hf Hj;
    [|easy].
  split.
  - unfold find_pat in *. now apply find_pat_loop_kept.
  - rewrite slot_insert. rewrite bool_decide_eq_false_2; [easy|]. congruence.
Qed.

(** X17 for two patterns that hash to the same slot. *)
Lemma insert_pat_keeps_witness :
  find_pat 2 (<[10 := pat_five']> (<[5 := pat_five]> ∅)) (key pat_five) = (Some 5, [5])
  /\ slot (<[10 := pat_five']> (<[5 := pat_five]> ∅)) 5 = slot (<[5 := pat_five]> ∅) 5.
Proof.
  apply (insert_pat_keeps 2 2 (<[5 := pat_five]> ∅) _ pat_five' 10 (key pat_five) 5 [5]).
  - discriminate.
  - assert (E : snd (find_pat 2 (<[5 := pat_five]> ∅) (key pat_five')) = [5; 10])
      by (vm_compute; reflexivity).
    rewrite E. repeat (constructor; [split; [lia|reflexivity]|]). constructor.
  - constructor; [split; [lia|reflexivity]|constructor].
  - vm_compute. reflexivity.
  - vm_compute. reflexivity.
  - reflexivity.
Defined.

End DictFacts.

(** ** The large board *)

Section LargeBoardFacts.
Import Board LargeBoard.

Ltac large_consts :=
  cbv [LARGE_BOARDSIZE large_cell] in *; board_consts;
  change (13 + 14) with 27 in *; change (13 + 7) with 20 in *;
  change (27 * 20) with 540 in *.

Lemma fold_wr_fun {A} (f g : A -> Z) (l : list A) : forall lc : list Z,
  (forall x, x ∈ l -> 0 <= f x < Z.of_nat (length lc)) ->
  (forall x x', x ∈ l -> x' ∈ l -> f x = f x' -> g x = g x') ->
  let lc' := fold_left (fun lc x => wr lc (f x) (g x)) l lc in
  length lc' = length lc
  /\ (forall x, x ∈ l -> rd lc' (f x) = g x)
  /\ (forall j, 0 <= j -> (forall x, x ∈ l -> f x <> j) -> rd lc' j = rd lc j).
Proof.
  induction l as [|a l IH]; intros lc Hr Hc lc'; subst lc'; cbn [fold_left].
  - split; [easy|]. split; [|easy]. intros x Hx. inversion Hx.
  - destruct (IH (wr lc (f a) (g a))) as (Hl & Hin & Hout).
    { intros x Hx. rewrite length_wr. apply Hr. now right. }
    { intros x x' Hx Hx'. apply Hc; now right. }
    pose proof (Hr a ltac:(left)) as Ha.
    split; [now rewrite Hl, length_wr|]. split.
    + intros x Hx. apply elem_of_cons in Hx as [->|Hx]; [|now apply Hin].
      destruct (decide (Exists (fun x => f x = f a) l)) as [He|He].
      * apply Exists_exists in He as (x & Hx & E). pose proof (Hin x Hx) as Hv.
        rewrite E in Hv. rewrite Hv. apply Hc; [now right|left|easy].
      * rewrite Hout; [apply rd_wr_eq; lia|lia|].
        intros x Hx E. apply He, Exists_exists. now exists x.
    + intros j Hj Hn. rewrite Hout; [|easy|].
      * apply rd_wr_ne; [lia|easy|]. apply Hn. left.
      * intros x Hx. apply Hn. now right.
Qed.

Lemma fold_nested {S A B} (F : S -> A -> B -> S) (ys : list A) (xs : list B) :
  forall s,
    fold_left (fun s y => fold_left (fun s x => F s y x) xs s) ys s
    = fold_left (fun s yx => F s (fst yx) (snd yx)) (list_prod ys xs) s.
Proof.
  induction ys as [|y ys IH]; intros s; cbn [fold_left list_prod]; [easy|].
  rewrite fold_left_app, IH. f_equal.
  clear. revert s. induction xs as [|x xs IH]; intros s; cbn; [easy|]. apply IH.
Qed.

Lemma fold_left_eq {A B} (f g : A -> B -> A) (l : list B) :
  (forall a b, f a b = g a b) -> forall a, fold_left f l a = fold_left g l a.
Proof.
  intros H. induction l as [|b l IH]; intros a; cbn; [easy|]. now rewrite H, IH.
Qed.

Lemma compute_large_coord_spec (lc : list Z) :
  Z.of_nat (length lc) = BOARDSIZE ->
  length (compute_large_coord lc) = length lc
  /\ forall r c, 1 <= r <= N -> 1 <= c <= N ->
       rd (compute_large_coord lc) (r * (N + 1) + c) = large_cell r c.
Proof.
  intros Hl. unfold compute_large_coord. cbv zeta.
  rewrite (fold_nested (fun lc y x => wr lc ((y + 1) * (N + 1) + x + 1)
                                         ((y + 7) * (N + 7) + x + 7))).
  assert (Hin : forall yx, yx ∈ list_prod (seqZ 0 N) (seqZ 0 N) <->
                  0 <= fst yx < N /\ 0 <= snd yx < N).
  { intros [y x]. rewrite list_elem_of_In, in_prod_iff, <- !list_elem_of_In,
      !elem_of_seqZ. cbn [fst snd]. lia. }
  destruct (fold_wr_fun
              (fun yx : Z * Z => (fst yx + 1) * (N + 1) + snd yx + 1)
              (fun yx : Z * Z => (fst yx + 7) * (N + 7) + snd yx + 7)
              (list_prod (seqZ 0 N) (seqZ 0 N)) lc) as (Hlen & Hval & _).
  - intros yx Hyx. apply Hin in Hyx. large_consts. nia.
  - intros yx yx' Hyx Hyx'. apply Hin in Hyx, Hyx'. large_consts. nia.
  - split; [exact Hlen|]. intros r c Hr Hc.
    specialize (Hval (r - 1, c - 1)). cbn [fst snd] in Hval.
    replace ((r - 1 + 1) * (N + 1) + (c - 1) + 1) with (r * (N + 1) + c) in Hval by lia.
    rewrite Hval; [unfold large_cell; lia|]. apply Hin. cbn [fst snd]. lia.
Qed.

Lemma init_gridcular_spec (seq : list (Z * Z)) (seq1d : list Z) :
  Z.of_nat (length seq1d) = 141 ->
  length (init_gridcular seq seq1d) = length seq1d
  /\ forall i, 0 <= i < 141 ->
       rd (init_gridcular seq seq1d) i = fst (rd seq i) - snd (rd seq i) * (N + 7).
Proof.
  intros Hl. unfold init_gridcular.
  rewrite (fold_left_eq _ (fun s i => wr s i (fst (rd seq i) - snd (rd seq i) * (N + 7)))).
  2:{ intros a i. now destruct (rd seq i). }
  destruct (fold_wr_fun (fun i : Z => i)
              (fun i => fst (rd seq i) - snd (rd seq i) * (N + 7))
              (seqZ 0 141) seq1d) as (Hlen & Hval & _).
  - intros i Hi. apply elem_of_seqZ in Hi. lia.
  - now intros i i' _ _ ->.
  - split; [exact Hlen|]. intros i Hi. apply Hval, elem_of_seqZ. lia.
Qed.

(** One row of the copy, for any number of columns. *)
Lemma copy_row_spec (pos : Position) (l : list Z) : forall lb lpt pt,
  0 <= lpt ->
  exists lb',
    fold_left
      (fun '(lb, lpt, pt) (_ : Z) => (wr lb lpt (rd (color pos) pt), lpt + 1, pt + 1))
      l (lb, lpt, pt)
    = (lb', lpt + Z.of_nat (length l), pt + Z.of_nat (length l))
    /\ length lb' = length lb
    /\ (forall c, 0 <= c < Z.of_nat (length l) -> lpt + c < Z.of_nat (length lb) ->
          rd lb' (lpt + c) = rd (color pos) (pt + c))
    /\ (forall j, 0 <= j -> ~ lpt <= j < lpt + Z.of_nat (length l) -> rd lb' j = rd lb j).
Proof.
  induction l as [|x l IH]; intros lb lpt pt Hlpt; cbn [fold_left length].
  - exists lb. rewrite !Z.add_0_r. split_and!; try easy. intros c Hc. lia.
  - destruct (IH (wr lb lpt (rd (color pos) pt)) (lpt + 1) (pt + 1) ltac:(lia))
      as (lb' & E & Hlen & Hin & Hout).
    exists lb'. rewrite E. split; [f_equal; [f_equal|]; lia|].
    rewrite length_wr in *. split; [easy|]. split.
    + intros c Hc Hr. destruct (Z.eq_dec c 0) as [->|Hne].
      * rewrite !Z.add_0_r. rewrite Hout by lia. apply rd_wr_eq. lia.
      * replace (lpt + c) with (lpt + 1 + (c - 1)) by lia.
        replace (pt + c) with (pt + 1 + (c - 1)) by lia. apply Hin; lia.
    + intros j Hj Hn. rewrite Hout by lia. apply rd_wr_ne; lia.
Qed.

(** The rows of the copy, for any number of rows. *)
Lemma copy_rows_spec (pos : Position) (l : list Z) : forall lb lpt pt,
  0 <= lpt ->
  exists lb' lpt' pt',
    fold_left
      (fun st (_ : Z) => let '(lb, lpt, pt) := copy_row pos st in (lb, lpt + 7, pt + 1))
      l (lb, lpt, pt)
    = (lb', lpt', pt')
    /\ length lb' = length lb
    /\ (forall r c, 0 <= r < Z.of_nat (length l) -> 0 <= c < N ->
          lpt + (N + 7) * r + c < Z.of_nat (length lb) ->
          rd lb' (lpt + (N + 7) * r + c) = rd (color pos) (pt + (N + 1) * r + c))
    /\ (forall j, 0 <= j ->
          (forall r c, 0 <= r < Z.of_nat (length l) -> 0 <= c < N ->
             j <> lpt + (N + 7) * r + c) ->
          rd lb' j = rd lb j).
Proof.
  induction l as [|x l IH]; intros lb lpt pt Hlpt; cbn [fold_left length].
  - exists lb, lpt, pt. split_and!; try easy. intros r c Hr. lia.
  - unfold copy_row at 2.
    destruct (copy_row_spec pos (seqZ 0 N) lb lpt pt Hlpt) as (lb1 & E1 & Hl1 & Hin1 & Hout1).
    rewrite E1. rewrite length_seqZ in *.
    replace (Z.of_nat (Z.to_nat N)) with N in * by (board_consts; lia).
    destruct (IH lb1 (lpt + N + 7) (pt + N + 1) ltac:(board_consts; lia))
      as (lb' & lpt' & pt' & E & Hlen & Hin & Hout).
    exists lb', lpt', pt'. split; [exact E|]. rewrite Hl1 in *.
    split; [easy|]. split.
    + intros r c Hr Hc Hb. destruct (Z.eq_dec r 0) as [->|Hne].
      * rewrite !Z.mul_0_r, !Z.add_0_r in *. rewrite Hout.
        -- apply Hin1; lia.
        -- lia.
        -- intros r' c' Hr' Hc'. board_consts. lia.
      * replace (lpt + (N + 7) * r + c) with (lpt + N + 7 + (N + 7) * (r - 1) + c) in *
          by lia.
        replace (pt + (N + 1) * r + c) with (pt + N + 1 + (N + 1) * (r - 1) + c) by lia.
        apply Hin; lia.
    + intros j Hj Hn. rewrite Hout; [apply Hout1; [easy|]|easy|].
      * intros Hin'. apply (Hn 0 (j - lpt)); lia.
      * intros r c Hr Hc E'. apply (Hn (r + 1) c); lia.
Qed.

Lemma copy_spec (g : Large) (pos : Position) :
  large_coord (copy_to_large_board g pos) = large_coord g
  /\ pat_gridcular_seq1d (copy_to_large_board g pos) = pat_gridcular_seq1d g
  /\ length (large_board (copy_to_large_board g pos)) = length (large_board g)
  /\ (forall r c, 1 <= r <= N -> 1 <= c <= N ->
        large_cell r c < Z.of_nat (length (large_board g)) ->
        rd (large_board (copy_to_large_board g pos)) (large_cell r c)
        = rd (color pos) (r * (N + 1) + c))
  /\ (forall j, 0 <= j ->
        (forall r c, 1 <= r <= N -> 1 <= c <= N -> j <> large_cell r c) ->
        rd (large_board (copy_to_large_board g pos)) j = rd (large_board g) j).
Proof.
  unfold copy_to_large_board.
  destruct (copy_rows_spec pos (seqZ 0 N) (large_board g) ((N + 7) * 7 + 7)
              (N + 1 + 1) ltac:(board_consts; lia))
    as (lb' & lpt' & pt' & E & Hlen & Hin & Hout).
  rewrite E. cbn [large_board large_coord pat_gridcular_seq1d].
  rewrite length_seqZ in *.
  replace (Z.of_nat (Z.to_nat N)) with N in * by (board_consts; lia).
  split_and!; try easy.
  - intros r c Hr Hc Hb. specialize (Hin (r - 1) (c - 1)).
    replace ((N + 7) * 7 + 7 + (N + 7) * (r - 1) + (c - 1)) with (large_cell r c) in Hin
      by (unfold large_cell; lia).
    replace (N + 1 + 1 + (N + 1) * (r - 1) + (c - 1)) with (r * (N + 1) + c) in Hin by lia.
    apply Hin; lia.
  - intros j Hj Hn. apply Hout; [easy|]. intros r c Hr Hc ->.
    apply (Hn (r + 1) (c + 1)); [lia..|]. unfold large_cell. lia.
Qed.

Lemma rd_repeat {A} `{Inhabited A} (a : A) (k : nat) (i : Z) :
  0 <= i < Z.of_nat k -> rd (repeat a k) i = a.
Proof.
  intros Hi. unfold rd. assert (Hj : (Z.to_nat i < k)%nat) by lia.
  revert Hj. generalize (Z.to_nat i). clear Hi.
  induction k as [|k IH]; intros j Hj; [lia|].
  destruct j; [reflexivity|]. apply IH. lia.
Qed.

Lemma init_large_ok (g0 : Large) :
  Z.of_nat (length (large_coord g0)) = BOARDSIZE ->
  Z.of_nat (length (pat_gridcular_seq1d g0)) = 141 ->
  large_ok (init_large g0).
Proof.
  intros Hc Hs. unfold init_large, init_large_board, large_ok.
  cbn [large_board large_coord pat_gridcular_seq1d]. split_and!.
  - rewrite repeat_length. large_consts. lia.
  - apply compute_large_coord_spec, Hc.
  - apply init_gridcular_spec, Hs.
  - intros j Hj _. apply rd_repeat. large_consts. lia.
Qed.

Lemma copy_large_ok (g : Large) (pos : Position) :
  large_ok g -> large_ok (copy_to_large_board g pos).
Proof.
  intros (Hl & Hc & Hs & Hb).
  destruct (copy_spec g pos) as (Ec & Es & El & _ & Hout).
  unfold large_ok. rewrite Ec, Es, El. split; [exact Hl|]. split; [exact Hc|].
  split; [exact Hs|].
  intros j Hj Hn. rewrite Hout; [apply Hb; assumption|lia|exact Hn].
Qed.

Lemma copies_large_ok (positions : list Position) : forall g,
  large_ok g -> large_ok (fold_left copy_to_large_board positions g).
Proof.
  induction positions as [|p ps IH]; intros g Hg; cbn [fold_left]; [easy|].
  apply IH. now apply copy_large_ok.
Qed.

Lemma on_board_row_col (pt : Z) :
  on_board pt = true ->
  1 <= pt / (N + 1) <= N /\ 1 <= pt mod (N + 1) <= N
  /\ pt = pt / (N + 1) * (N + 1) + pt mod (N + 1).
Proof.
  unfold on_board. rewrite !andb_true_iff, !Z.leb_le. intros [[[? ?] ?] ?].
  split_and!; try easy. rewrite Z.mul_comm. apply Z_div_mod_eq_full.
Qed.

Lemma copy_matches (g : Large) (pos : Position) (pt : Z) :
  large_ok g -> on_board pt = true ->
  rd (large_board (copy_to_large_board g pos))
     (rd (large_coord (copy_to_large_board g pos)) pt)
  = rd (color pos) pt.
Proof.
  intros (Hl & Hc & Hs & Hb) Hpt.
  destruct (copy_spec g pos) as (Ec & _ & _ & Hin & _).
  destruct (on_board_row_col pt Hpt) as (Hr & Hcol & E).
  revert E Hr Hcol. generalize (pt / (N + 1)) (pt mod (N + 1)). intros r c -> Hr Hcol.
  rewrite Ec, Hc by assumption. apply Hin; try assumption.
  rewrite Hl. large_consts. lia.
Qed.

Lemma large_board_OK_copy (g : Large) (pos : Position) :
  large_ok g -> colors_ok (color pos) = true ->
  large_board_OK (copy_to_large_board g pos) pos = 1.
Proof.
  intros Hg Hpos. unfold large_board_OK.
  rewrite (proj2 (forallb_forall _ _)); [reflexivity|].
  intros pt Hpt. apply list_elem_of_In, all_points_range in Hpt.
  destruct (Ascii.eqb_spec (rd (color pos) pt) " ") as [|Hne]; [reflexivity|].
  apply Ascii.eqb_eq. symmetry. apply copy_matches; [easy|].
  pose proof (colors_ok_valid _ pt Hpos ltac:(board_consts; lia)) as Hv.
  apply valid_color_cases in Hv as [[Hon _]|[_ Hsp]]; [easy|contradiction].
Qed.

Lemma large_after_ok (g0 : Large) (ps : list Position) (pos : Position) :
  Z.of_nat (length (large_coord g0)) = BOARDSIZE ->
  Z.of_nat (length (pat_gridcular_seq1d g0)) = 141 ->
  large_ok (large_after g0 ps pos).
Proof.
  intros Hc Hs. apply copy_large_ok, copies_large_ok, init_large_ok; assumption.
Qed.

(** X18. The assertion that closes [copy_to_large_board] holds: after the
    initialisations and any number of earlier copies, the copy of a
    position leaves [large_board_OK] true, with the colour of every point of
    the board in its cell of the large board and '#' in every other cell. *)
Theorem copy_to_large_board_spec (g0 : Large) (ps : list Position) (pos : Position) :
  Z.of_nat (length (large_coord g0)) = BOARDSIZE ->
  Z.of_nat (length (pat_gridcular_seq1d g0)) = 141 ->
  colors_ok (color pos) = true ->
  large_board_OK (large_after g0 ps pos) pos = 1
  /\ (forall pt, on_board pt = true ->
        rd (large_coord (large_after g0 ps pos)) pt
        = large_cell (pt / (N + 1)) (pt mod (N + 1))
        /\ rd (large_board (large_after g0 ps pos))
              (rd (large_coord (large_after g0 ps pos)) pt)
           = rd (color pos) pt)
  /\ Z.of_nat (length (large_board (large_after g0 ps pos))) = LARGE_BOARDSIZE
  /\ (forall j, 0 <= j < LARGE_BOARDSIZE ->
        (forall r c, 1 <= r <= N -> 1 <= c <= N -> j <> large_cell r c) ->
        rd (large_board (large_after g0 ps pos)) j = "#"%char).
Proof.
  intros Hc Hs Hpos.
  assert (Hg : large_ok (fold_left copy_to_large_board ps (init_large g0)))
    by (apply copies_large_ok, init_large_ok; assumption).
  pose proof (large_after_ok g0 ps pos Hc Hs) as (Hl & Hlc & _ & Hb).
  split; [now apply large_board_OK_copy|]. split; [|split; assumption].
  intros pt Hpt. split; [|now apply copy_matches].
  destruct (on_board_row_col pt Hpt) as (Hr & Hcol & E).
  rewrite E at 1. now apply Hlc.
Qed.

(** X18 for the globals of the program and the first position. *)
Lemma copy_to_large_board_spec_witness :
  large_board_OK (large_after zero_large [] (snd first_position)) (snd first_position) = 1
  /\ (forall pt, on_board pt = true ->
        rd (large_coord (large_after zero_large [] (snd first_position))) pt
        = large_cell (pt / (N + 1)) (pt mod (N + 1))
        /\ rd (large_board (large_after zero_large [] (snd first_position)))
              (rd (large_coord (large_after zero_large [] (snd first_position))) pt)
           = rd (color (snd first_position)) pt)
  /\ Z.of_nat (length (large_board (large_after zero_large [] (snd first_position))))
     = LARGE_BOARDSIZE
  /\ (forall j, 0 <= j < LARGE_BOARDSIZE ->
        (forall r c, 1 <= r <= N -> 1 <= c <= N -> j <> large_cell r c) ->
        rd (large_board (large_after zero_large [] (snd first_position))) j = "#"%char).
Proof.
  apply (copy_to_large_board_spec zero_large [] (snd first_position)).
  - reflexivity.
  - reflexivity.
  - vm_compute. reflexivity.
Defined.

(** No displacement of the table leaves the square of side 15 around its
    centre, and those of 7 rows stay in the column of the centre. *)
Lemma shifts_small (i : Z) :
  0 <= i < 141 ->
  -7 <= fst (rd pat_gridcular_seq i) <= 7
  /\ -7 <= snd (rd pat_gridcular_seq i) <= 7
  /\ (snd (rd pat_gridcular_seq i) = 7 \/ snd (rd pat_gridcular_seq i) = -7 ->
      fst (rd pat_gridcular_seq i) = 0).
Proof.
  intros Hi.
  assert (Hall : forallb (fun s : Z * Z =>
            (-7 <=? fst s) && (fst s <=? 7) && (-7 <=? snd s) && (snd s <=? 7)
            && (if (snd s =? 7) || (snd s =? -7) then fst s =? 0 else true))
            pat_gridcular_seq = true) by (vm_compute; reflexivity).
  rewrite forallb_forall in Hall. specialize (Hall (rd pat_gridcular_seq i)).
  assert (Hin : In (rd pat_gridcular_seq i) pat_gridcular_seq).
  { apply list_elem_of_In. apply (list_elem_of_lookup_2 _ (Z.to_nat i)).
    apply rd_lookup. change (Z.of_nat (length pat_gridcular_seq)) with 141. lia. }
  specialize (Hall Hin). revert Hall.
  generalize (rd pat_gridcular_seq i). intros [x y]. cbn [fst snd].
  rewrite !andb_true_iff, !Z.leb_le. intros [[[[Hx1 Hx2] Hy1] Hy2] Hlast].
  split_and!; try assumption. intros Hy.
  destruct (Z.eqb_spec y 7), (Z.eqb_spec y (-7)); cbn [orb] in Hlast;
    try (apply Z.eqb_eq in Hlast; exact Hlast); lia.
Qed.

(** X19. The reads of [update_zobrist_hash_at_point] stay inside the large
    board and see the neighbourhood: for a point [pt] of the board and the
    displacement number [i], the cell [large_coord[pt] + seq1d[i]] is a
    cell of [large_board], and it holds the colour of the point [x] columns
    to the right of [pt] and [y] rows above, or '#' if that point is off the
    board. *)
Theorem large_board_read (g0 : Large) (ps : list Position) (pos : Position)
    (pt i : Z) :
  Z.of_nat (length (large_coord g0)) = BOARDSIZE ->
  Z.of_nat (length (pat_gridcular_seq1d g0)) = 141 ->
  on_board pt = true -> 0 <= i < 141 ->
  0 <= rd (large_coord (large_after g0 ps pos)) pt
       + rd (pat_gridcular_seq1d (large_after g0 ps pos)) i < LARGE_BOARDSIZE
  /\ rd (large_board (large_after g0 ps pos))
        (rd (large_coord (large_after g0 ps pos)) pt
         + rd (pat_gridcular_seq1d (large_after g0 ps pos)) i)
     = if shifted_on_board pt (fst (rd pat_gridcular_seq i)) (snd (rd pat_gridcular_seq i))
       then rd (color pos)
               (pt + fst (rd pat_gridcular_seq i)
                - snd (rd pat_gridcular_seq i) * (N + 1))
       else "#"%char.
Proof.
  intros Hc Hs Hpt Hi.
  pose proof (large_after_ok g0 ps pos Hc Hs) as (Hl & Hlc & Hseq & Hb).
  assert (Hg : large_ok (fold_left copy_to_large_board ps (init_large g0)))
    by (apply copies_large_ok, init_large_ok; assumption).
  destruct (copy_spec (fold_left copy_to_large_board ps (init_large g0)) pos)
    as (_ & _ & _ & Hin & _).
  destruct Hg as (Hl0 & _). fold (large_after g0 ps pos) in Hin.
  destruct (on_board_row_col pt Hpt) as (Hr & Hcol & E).
  destruct (shifts_small i Hi) as (Hx & Hy & Hxy).
  rewrite Hseq by assumption. unfold shifted_on_board.
  revert Hx Hy Hxy. generalize (fst (rd pat_gridcular_seq i)) (snd (rd pat_gridcular_seq i)).
  intros x y Hx Hy Hxy.
  revert E Hr Hcol. generalize (pt / (N + 1)) (pt mod (N + 1)). intros r c -> Hr Hcol.
  rewrite Hlc by assumption.
  assert (Hrange : 0 <= large_cell r c + (x - y * (N + 7)) < LARGE_BOARDSIZE)
    by (large_consts; lia).
  split; [exact Hrange|].
  destruct ((1 <=? r - y) && (r - y <=? N) && (1 <=? c + x) && (c + x <=? N)) eqn:Eon.
  - rewrite !andb_true_iff, !Z.leb_le in Eon.
    replace (large_cell r c + (x - y * (N + 7))) with (large_cell (r - y) (c + x))
      by (unfold large_cell; lia).
    replace (r * (N + 1) + c + x - y * (N + 1)) with ((r - y) * (N + 1) + (c + x)) by lia.
    apply Hin; [lia..|]. rewrite Hl0. large_consts. lia.
  - apply Hb; [exact Hrange|]. intros r' c' Hr' Hc' E.
    assert (r' = r - y /\ c' = c + x) as [-> ->] by (large_consts; lia).
    rewrite (proj2 (Z.leb_le _ _)), (proj2 (Z.leb_le _ _)), (proj2 (Z.leb_le _ _)),
      (proj2 (Z.leb_le _ _)) in Eon by lia. discriminate.
Qed.

(** X19 at the lower right corner, seven rows below. *)
Lemma large_board_read_witness :
  0 <= rd (large_coord (large_after zero_large [] (snd first_position))) 195
       + rd (pat_gridcular_seq1d (large_after zero_large [] (snd first_position))) 122
    < LARGE_BOARDSIZE
  /\ rd (large_board (large_after zero_large [] (snd first_position)))
        (rd (large_coord (large_after zero_large [] (snd first_position))) 195
         + rd (pat_gridcular_seq1d (large_after zero_large [] (snd first_position))) 122)
     = if shifted_on_board 195 (fst (rd pat_gridcular_seq 122))
            (snd (rd pat_gridcular_seq 122))
       then rd (color (snd first_position))
               (195 + fst (rd pat_gridcular_seq 122)
                - snd (rd pat_gridcular_seq 122) * (N + 1))
       else "#"%char.
Proof.
  apply (large_board_read zero_large [] (snd first_position) 195 122).
  - reflexivity.
  - reflexivity.
  - reflexivity.
  - lia.
Defined.

Lemma fold_left_eq_in {A B} (f g : A -> B -> A) (l : list B) :
  (forall a b, b ∈ l -> f a b = g a b) -> forall a, fold_left f l a = fold_left g l a.
Proof.
  induction l as [|b l IH]; intros H a; cbn; [easy|].
  rewrite H by left. apply IH. intros a' b' Hb'. apply H. now right.
Qed.

Lemma rd_map_seqZ {A} `{Inhabited A} (F : Z -> A) (n i : Z) :
  0 <= i < n -> rd (map F (seqZ 0 n)) i = F i.
Proof.
  intros Hi. unfold rd. change (map F (seqZ 0 n)) with (F <$> seqZ 0 n).
  apply list_lookup_total_correct. rewrite list_lookup_fmap.
  rewrite lookup_seqZ_lt by lia. cbn [fmap option_fmap option_map].
  rewrite Z.add_0_l, Z2Nat.id by lia. reflexivity.
Qed.

Lemma zobrist_hash_string (hashdata : Z -> Z -> Z) (g : Large) (lpt s : Z) :
  0 <= rd pat_gridcular_size s ->
  zobrist_hash hashdata (gridcular_string g lpt s)
  = fold_left
      (fun k i =>
         Z.lxor k (hashdata i
           (stone_color (rd (large_board g) (lpt + rd (pat_gridcular_seq1d g) i)))))
      (seqZ 0 (rd pat_gridcular_size s)) 0.
Proof.
  intros Hs. unfold zobrist_hash, gridcular_string.
  rewrite length_map, length_seqZ, Z2Nat.id by lia.
  apply fold_left_eq_in. intros k i Hi. apply elem_of_seqZ in Hi.
  now rewrite rd_map_seqZ by lia.
Qed.

Lemma gridcular_sizes (s : nat) :
  (s < 12)%nat ->
  0 <= rd pat_gridcular_size (Z.of_nat s)
       <= rd pat_gridcular_size (Z.of_nat (S s))
  /\ rd pat_gridcular_size (Z.of_nat (S s) - 1) = rd pat_gridcular_size (Z.of_nat s).
Proof.
  intros Hs. do 12 (destruct s as [|s]; [vm_compute; intuition congruence|]). lia.
Qed.

(** X20. The signature that [large_pattern_probability] builds size by
    size with [update_zobrist_hash_at_point] is, after the round for the
    size [s], the [zobrist_hash] of the string of the colours around the
    point, in the order of the table of displacements and up to that size:
    the key under which a pattern of that size is stored. *)
Theorem signature_is_zobrist_hash (hashdata : Z -> Z -> Z) (g : Large) (lpt : Z)
    (s : nat) :
  (s <= 12)%nat ->
  signature hashdata g lpt s
  = zobrist_hash hashdata (gridcular_string g lpt (Z.of_nat s)).
Proof.
  induction s as [|s IH]; intros Hs.
  - reflexivity.
  - destruct (gridcular_sizes s ltac:(lia)) as ([H0 Hle] & Hprev).
    rewrite zobrist_hash_string by exact (Z.le_trans _ _ _ H0 Hle).
    cbn [signature]. rewrite IH by lia. rewrite zobrist_hash_string by exact H0.
    unfold update_zobrist_hash_at_point. cbv zeta. rewrite Hprev.
    revert H0 Hle. generalize (rd pat_gridcular_size (Z.of_nat s))
      (rd pat_gridcular_size (Z.of_nat (S s))). intros a b H0 Hle.
    assert (Esplit : seqZ 0 b = seqZ 0 a ++ seqZ a (b - a)).
    { replace b with (a + (b - a)) at 1 by lia. rewrite seqZ_app by lia.
      now rewrite Z.add_0_l. }
    rewrite Esplit, fold_left_app. reflexivity.
Qed.

(** X20 for the first three sizes around the centre of the empty board. *)
Lemma signature_is_zobrist_hash_witness :
  signature (fun i c => 4 * i + c) (large_after zero_large [] (snd first_position)) 273 3
  = zobrist_hash (fun i c => 4 * i + c)
      (gridcular_string (large_after zero_large [] (snd first_position)) 273
         (Z.of_nat 3)).
Proof.
  apply (signature_is_zobrist_hash (fun i c => 4 * i + c)
           (large_after zero_large [] (snd first_position)) 273 3).
  lia.
Defined.

End LargeBoardFacts.

(** ** Coordinates of the points of the board *)

Section Coord2Facts.
Import Board Coord.

(** X21. [parse_coord] reads back what [str_coord] writes: for every point
    of the board [str_coord] gives the coordinate of a point of the board
    (a column letter among the first [N] and a row from 1 to [N]) from which
    [parse_coord] gives the point again, and "pass" gives PASS_MOVE again. *)
Theorem str_coord_roundtrip (pt : Z) :
  on_board pt = true \/ pt = PASS_MOVE ->
  parse_coord (str_coord pt) = Some pt
  /\ (on_board pt = true -> str_coord pt ∈ board_coords).
Proof.
  intros [Hpt| ->]; [|split; [reflexivity|discriminate]].
  assert (Hall : forallb (fun pt => if on_board pt then point_roundtrip pt else true)
                   all_points = true) by (vm_compute; reflexivity).
  rewrite forallb_forall in Hall. specialize (Hall pt).
  rewrite Hpt in Hall. unfold point_roundtrip in Hall.
  destruct (parse_coord (str_coord pt)) as [q|];
    [|discriminate Hall; apply list_elem_of_In, on_board_all_points, Hpt].
  apply andb_true_iff in Hall as [Hq Hin];
    [|apply list_elem_of_In, on_board_all_points, Hpt].
  apply Z.eqb_eq in Hq. apply bool_decide_eq_true in Hin. subst q. easy.
Qed.

(** X21 at the point 57, which is C10. *)
Lemma str_coord_roundtrip_witness :
  parse_coord (str_coord 57) = Some 57
  /\ (on_board 57 = true -> str_coord 57 ∈ board_coords).
Proof.
  apply (str_coord_roundtrip 57). left. reflexivity.
Defined.

Lemma all_ascii_spec (c : ascii) : c ∈ all_ascii.
Proof.
  unfold all_ascii. rewrite <- (ascii_nat_embedding c).
  apply list_elem_of_In, in_map, in_seq. pose proof (nat_ascii_bounded c). lia.
Qed.

Lemma case_change_spec (f : ascii -> ascii) (c : ascii) :
  case_change f = true ->
  tolower (f c) = tolower c /\ toupper (f c) = toupper c
  /\ is_space (f c) = is_space c /\ is_digit (f c) = is_digit c
  /\ (is_digit c = true -> f c = c)
  /\ (f c =? "-")%char = (c =? "-")%char /\ (f c =? "+")%char = (c =? "+")%char.
Proof.
  unfold case_change. rewrite forallb_forall. intros H.
  specialize (H c (proj1 (list_elem_of_In _ _) (all_ascii_spec c))).
  rewrite !andb_true_iff, !bool_decide_eq_true, !eqb_true_iff in H.
  destruct H as ((((((H1 & H2) & H3) & H4) & H5) & H6) & H7).
  split_and!; try assumption. intros Hd. rewrite Hd in H5.
  now apply bool_decide_eq_true in H5.
Qed.

Lemma tolower_change : case_change tolower = true.
Proof. vm_compute. reflexivity. Qed.

Lemma toupper_change : case_change toupper = true.
Proof. vm_compute. reflexivity. Qed.

Lemma scan_int_cases (s : string) :
  scan_int s =
  match skip_spaces s with
  | String c s' =>
      if (c =? "-")%char then option_map Z.opp (read_digits s' None)
      else if (c =? "+")%char then read_digits s' None
      else read_digits (String c s') None
  | EmptyString => read_digits EmptyString None
  end.
Proof.
  unfold scan_int. destruct (skip_spaces s) as [|c s']; [reflexivity|].
  destruct c as [[] [] [] [] [] [] [] []]; reflexivity.
Qed.

Lemma tolower_map (f : ascii -> ascii) (Hf : case_change f = true) (s : string) :
  map_string tolower (map_string f s) = map_string tolower s.
Proof.
  induction s as [|c s IH]; cbn [map_string]; [reflexivity|].
  destruct (case_change_spec f c Hf) as (-> & _). now rewrite IH.
Qed.

Lemma read_digits_map (f : ascii -> ascii) (Hf : case_change f = true) (s : string) :
  forall acc,
  read_digits (map_string f s) acc = read_digits s acc.
Proof.
  induction s as [|c s IH]; intros acc; cbn [map_string read_digits]; [reflexivity|].
  destruct (case_change_spec f c Hf) as (_ & _ & _ & Hd & Hsame & _).
  rewrite Hd. destruct (is_digit c); [|reflexivity].
  rewrite Hsame by reflexivity. apply IH.
Qed.

Lemma skip_spaces_map (f : ascii -> ascii) (Hf : case_change f = true) (s : string) :
  skip_spaces (map_string f s) = map_string f (skip_spaces s).
Proof.
  induction s as [|c s IH]; cbn [map_string skip_spaces]; [reflexivity|].
  destruct (case_change_spec f c Hf) as (_ & _ & -> & _).
  now destruct (is_space c).
Qed.

Lemma scan_int_map (f : ascii -> ascii) (Hf : case_change f = true) (s : string) :
  scan_int (map_string f s) = scan_int s.
Proof.
  rewrite !scan_int_cases, skip_spaces_map by assumption.
  destruct (skip_spaces s) as [|c s']; cbn [map_string]; [reflexivity|].
  destruct (case_change_spec f c Hf) as (_ & _ & _ & _ & _ & -> & ->).
  rewrite read_digits_map by assumption.
  destruct (c =? "-")%char; [reflexivity|]. destruct (c =? "+")%char; [reflexivity|].
  apply (read_digits_map f Hf (String c s')).
Qed.

Lemma parse_coord_map (f : ascii -> ascii) (Hf : case_change f = true) (s : string) :
  parse_coord (map_string f s) = parse_coord s.
Proof.
  unfold parse_coord, strcasecmp_eq. rewrite tolower_map by assumption.
  destruct (map_string tolower s =? map_string tolower "pass")%string; [reflexivity|].
  destruct s as [|c rest]; cbn [map_string]; [reflexivity|].
  rewrite scan_int_map by assumption. destruct (scan_int rest) as [y|]; [|reflexivity].
  cbv zeta. now destruct (case_change_spec f c Hf) as (_ & -> & _).
Qed.

(** X22. [parse_coord] does not look at the case of the letters: a string
    put in lower case or in upper case gives the same point, or fails the
    same way. *)
Theorem parse_coord_case (s : string) :
  parse_coord (map_string tolower s) = parse_coord s
  /\ parse_coord (map_string toupper s) = parse_coord s.
Proof.
  split; apply parse_coord_map; [apply tolower_change|apply toupper_change].
Qed.

End Coord2Facts.

(** ** Captures and liberties *)

Section MovesFacts.
Import Slist Board.

(** *** The rule of capture *)

Lemma connected_color (c : list ascii) (a b : Z) : connected c a b -> rd c b = rd c a.
Proof. intros H. destruct H; [reflexivity|assumption]. Qed.

Lemma connected_trans (c : list ascii) (a b b' : Z) :
  connected c a b -> connected c b b' -> connected c a b'.
Proof.
  intros Hab Hbb'. induction Hbb' as [|x y Hx IH Hadj Hcol]; [exact Hab|].
  apply (connected_step c a x y IH Hadj).
  rewrite Hcol. now apply connected_color.
Qed.

Lemma connected_on_board (c : list ascii) (a b : Z) :
  colors_ok c = true -> on_board a = true ->
  rd c a = "X"%char \/ rd c a = "x"%char ->
  connected c a b -> on_board b = true.
Proof.
  intros Hc Ha Hst H. induction H as [|x y Hx IH Hadj Hcol]; [exact Ha|].
  apply (colors_ok_stone c y Hc).
  - now apply (adj_range x).
  - rewrite Hcol. tauto.
Qed.

(** The stones removed so far, read off the colours. *)
Lemma removed_iff (P : Position) seen g pos captured R (r : Z) :
  board_ok P = true -> capture_inv P seen g pos captured R -> 0 <= r < BOARDSIZE ->
  r ∈ R <-> rd (color P) r = "x"%char /\ rd (color pos) r = "."%char.
Proof.
  intros HP Hinv Hr.
  pose proof (capture_inv_range P seen g pos captured R HP Hinv) as HR.
  rewrite (ci_color _ _ _ _ _ _ Hinv), rd_clear_stones by (try exact HR; lia).
  destruct (decide (r ∈ R)) as [Hin|Hnin].
  - split; [|easy]. intros _. split; [|reflexivity].
    now apply (ci_removed _ _ _ _ _ _ Hinv).
  - split; [easy|]. intros [Hx Hd]. rewrite Hx in Hd. discriminate.
Qed.

Lemma not_removed (P : Position) seen g pos captured R (r : Z) :
  board_ok P = true -> capture_inv P seen g pos captured R -> 0 <= r < BOARDSIZE ->
  r ∉ R -> rd (color pos) r = rd (color P) r.
Proof.
  intros HP Hinv Hr Hn.
  pose proof (capture_inv_range P seen g pos captured R HP Hinv) as HR.
  rewrite (ci_color _ _ _ _ _ _ Hinv), rd_clear_stones by (try exact HR; lia).
  now destruct (decide (r ∈ R)).
Qed.

Section Removed.

Variables (P : Position) (seen : list Z) (g : Globals) (pos : Position)
  (captured : Z) (R : list Z).

Hypothesis HP : board_ok P = true.

Hypothesis Hinv : capture_inv P seen g pos captured R.

Hypothesis Hdead : dead_from (color P) seen R.

(** A stone next to a removed stone, in the same block, is removed. *)
Lemma removed_step (r r' : Z) :
  r ∈ R -> adj r r' -> rd (color P) r' = "x"%char -> r' ∈ R.
Proof.
  intros Hr Hadj Hx. apply Hdead in Hr as (q & Hq & Hcq & Hlq & Hconn).
  apply Hdead. exists q. split_and!; try assumption.
  apply (connected_step _ q r r' Hconn Hadj). congruence.
Qed.

(** The block of a stone that is still on the board is the same before and
    after the removals. *)
Lemma block_kept (q r : Z) :
  on_board q = true -> rd (color pos) q = "x"%char ->
  (connected (color pos) q r <-> connected (color P) q r)
  /\ (connected (color P) q r -> r ∉ R).
Proof.
  intros Hq Hx.
  pose proof (board_ok_colors P HP) as HcP.
  pose proof (board_ok_colors pos (ci_board _ _ _ _ _ _ Hinv)) as Hcpos.
  assert (HqR : q ∉ R).
  { intros Hin. apply (removed_iff P seen g pos captured R q HP Hinv) in Hin.
    - destruct Hin as [_ Hd]. rewrite Hx in Hd. discriminate.
    - apply on_board_range in Hq. board_consts. lia. }
  assert (HxP : rd (color P) q = "x"%char).
  { rewrite <- (not_removed P seen g pos captured R q HP Hinv); [exact Hx| |exact HqR].
    apply on_board_range in Hq. board_consts. lia. }
  assert (Hfwd : forall r, connected (color P) q r ->
            (r ∉ R) /\ connected (color pos) q r).
  { intros r' H. induction H as [|x y Hxy IH Hadj Hcol].
    - split; [exact HqR|constructor].
    - destruct IH as [HxR Hcx].
      assert (HyP : rd (color P) y = "x"%char) by congruence.
      assert (Hyr : 0 <= y < BOARDSIZE).
      { apply (adj_range x); [|exact Hadj].
        apply (connected_on_board (color pos) q x); try assumption. now right. }
      assert (HyR : y ∉ R).
      { intros Hin. apply HxR. apply (removed_step y x Hin (adj_sym _ _ Hadj)).
        rewrite (connected_color _ _ _ Hxy). exact HxP. }
      split; [exact HyR|]. apply (connected_step _ q x y Hcx Hadj).
      rewrite (not_removed P seen g pos captured R y HP Hinv Hyr HyR). congruence. }
  split; [split|].
  - intros H. induction H as [|x y Hxy IH Hadj Hcol]; [constructor|].
    apply (connected_step _ q x y IH Hadj).
    assert (Hyr : 0 <= y < BOARDSIZE).
    { apply (adj_range x); [|exact Hadj].
      apply (connected_on_board (color pos) q x); try assumption. now right. }
    rewrite HxP. rewrite Hx in Hcol.
    destruct (decide (y ∈ R)) as [Hin|Hnin].
    + now apply (ci_removed _ _ _ _ _ _ Hinv).
    + rewrite <- (not_removed P seen g pos captured R y HP Hinv Hyr Hnin). exact Hcol.
  - intros H. now apply Hfwd.
  - intros H. now apply Hfwd.
Qed.

(** So are its liberties. *)
Lemma liberty_kept (q : Z) :
  on_board q = true -> rd (color pos) q = "x"%char ->
  has_liberty (color pos) q <-> has_liberty (color P) q.
Proof.
  intros Hq Hx.
  pose proof (board_ok_colors P HP) as HcP.
  pose proof (board_ok_colors pos (ci_board _ _ _ _ _ _ Hinv)) as Hcpos.
  split; intros (s & l & Hs & Hadj & Hl).
  - destruct (block_kept q s Hq Hx) as [Hiff _]. apply Hiff in Hs as HsP.
    destruct (block_kept q s Hq Hx) as [_ HsR]. specialize (HsR HsP).
    exists s, l. split_and!; try assumption.
    assert (Hlr : 0 <= l < BOARDSIZE).
    { apply (adj_range s); [|exact Hadj].
      apply (connected_on_board (color pos) q s); try assumption. now right. }
    destruct (decide (l ∈ R)) as [Hin|Hnin].
    + exfalso. apply HsR. apply (removed_step l s Hin (adj_sym _ _ Hadj)).
      rewrite (connected_color _ _ _ HsP).
      destruct (decide (q ∈ R)) as [HqR|HqR].
      * now apply (ci_removed _ _ _ _ _ _ Hinv).
      * rewrite <- (not_removed P seen g pos captured R q HP Hinv); [exact Hx| |exact HqR].
        apply on_board_range in Hq. board_consts. lia.
    + now rewrite <- (not_removed P seen g pos captured R l HP Hinv Hlr Hnin).
  - destruct (block_kept q s Hq Hx) as [Hiff _]. apply Hiff in Hs as Hspos.
    exists s, l. split_and!; try assumption.
    assert (Hlr : 0 <= l < BOARDSIZE).
    { apply (adj_range s); [|exact Hadj].
      apply (connected_on_board (color pos) q s); try assumption. now right. }
    rewrite (not_removed P seen g pos captured R l HP Hinv Hlr); [exact Hl|].
    intros Hin. apply (ci_removed _ _ _ _ _ _ Hinv) in Hin as [_ Hin].
    rewrite Hl in Hin. discriminate.
Qed.

End Removed.

Lemma removed_closed (P : Position) seen g pos captured R (r r' : Z) :
  board_ok P = true -> capture_inv P seen g pos captured R ->
  dead_from (color P) seen R ->
  r ∈ R -> connected (color P) r r' -> r' ∈ R.
Proof.
  intros HP Hinv Hdead Hr H. induction H as [|x y Hx IH Hadj Hcol]; [exact Hr|].
  apply (removed_step P seen R Hdead x y IH Hadj).
  rewrite Hcol. now apply (ci_removed _ _ _ _ _ _ Hinv).
Qed.

Lemma removed_range (P : Position) seen g pos captured R (r : Z) :
  capture_inv P seen g pos captured R -> r ∈ R -> 0 <= r < BOARDSIZE.
Proof.
  intros Hinv Hr. apply (ci_removed _ _ _ _ _ _ Hinv) in Hr as [Hb _].
  apply on_board_range in Hb. board_consts. lia.
Qed.

(** One round of the capture loop keeps [dead_from]. *)
Lemma capture_neighbor_dead (P : Position) (pt : Z) seen g pos captured R (q : Z)
    g' pos' captured' R' :
  board_ok P = true -> on_board pt = true -> adj pt q ->
  capture_inv P seen g pos captured R -> dead_from (color P) seen R ->
  capture_neighbor (g, pos, captured) q = Some (g', pos', captured') ->
  capture_inv P (seen ++ [q]) g' pos' captured' R' ->
  dead_from (color P) (seen ++ [q]) R'.
Proof.
  intros HP Hpt Hadj Hinv Hdead E Hinv'.
  pose proof (adj_range pt q Hpt Hadj) as Hq.
  pose proof (ci_board _ _ _ _ _ _ Hinv) as Hb.
  assert (Hsame : color pos' = color pos -> forall r, r ∈ R' <-> r ∈ R).
  { intros Hc r. split; intros Hr.
    - pose proof (removed_range _ _ _ _ _ _ r Hinv' Hr) as Hrr.
      apply (removed_iff P seen g pos captured R r HP Hinv Hrr).
      rewrite <- Hc. now apply (removed_iff P _ g' pos' captured' R' r HP Hinv' Hrr).
    - pose proof (removed_range _ _ _ _ _ _ r Hinv Hr) as Hrr.
      apply (removed_iff P _ g' pos' captured' R' r HP Hinv' Hrr).
      rewrite Hc. now apply (removed_iff P seen g pos captured R r HP Hinv Hrr). }
  assert (Hold : forall r, r ∈ R ->
            exists q0, q0 ∈ seen ++ [q] /\ rd (color P) q0 = "x"%char
              /\ ~ has_liberty (color P) q0 /\ connected (color P) q0 r).
  { intros r Hr. apply Hdead in Hr as (q0 & H0 & H1 & H2 & H3).
    exists q0. split_and!; try assumption. apply elem_of_app. now left. }
  unfold capture_neighbor in E.
  destruct (Ascii.eqb_spec (rd (color pos) q) "x") as [Hx|Hnx]; cbn [negb] in E.
  - assert (Hqb : on_board q = true).
    { apply (colors_ok_stone (color pos) q (board_ok_colors pos Hb) Hq). rewrite Hx. tauto. }
    assert (HxP : rd (color P) q = "x"%char).
    { destruct (decide (q ∈ R)) as [Hin|Hnin].
      - now apply (ci_removed _ _ _ _ _ _ Hinv).
      - now rewrite <- (not_removed P seen g pos captured R q HP Hinv Hq Hnin). }
    destruct (compute_block_spec (mark1 g) pos q 1 (board_ok_colors pos Hb)
                (ci_marks _ _ _ _ _ _ Hinv) Hq ltac:(now right) ltac:(lia))
      as (m' & stones & libs & E2 & Hm' & Hsnd & _ & Hst & Hno & Hyes & Hall).
    rewrite E2 in E. destruct libs as [|l libs]; cbn [length Z.of_nat Z.eqb] in E.
    + assert (Hst' : forall s, s ∈ stones ->
                on_board s = true /\ rd (color pos) s = "x"%char).
      { intros s Hs. destruct (Hst s Hs) as (Hsb & Hsc & _). split; [exact Hsb|congruence]. }
      destruct (capture_block_spec stones pos Hb Hsnd Hst') as (_ & C2 & _).
      destruct (capture_block pos stones) as [pos'' k] eqn:Ecb. cbn [fst] in C2.
      injection E as <- <- <-.
      assert (HR' : forall r, r ∈ R' <-> r ∈ R \/ r ∈ stones).
      { intros r. split.
        - intros Hr. pose proof (removed_range _ _ _ _ _ _ r Hinv' Hr) as Hrr.
          apply (removed_iff P _ _ _ _ R' r HP Hinv' Hrr) in Hr as [HrP Hrd].
          rewrite C2, rd_clear_stones in Hrd; [| |lia].
          + destruct (decide (r ∈ stones)) as [Hin|_]; [now right|]. left.
            now apply (removed_iff P seen g pos captured R r HP Hinv Hrr).
          + intros s Hs. destruct (Hst' s Hs) as [Hsb _].
            apply on_board_range in Hsb.
            pose proof (colors_ok_length _ (board_ok_colors pos Hb)). board_consts. lia.
        - intros Hr.
          assert (Hrr : 0 <= r < BOARDSIZE).
          { destruct Hr as [Hr|Hr]; [now apply (removed_range _ _ _ _ _ _ r Hinv)|].
            destruct (Hst' r Hr) as [Hrb _]. apply on_board_range in Hrb.
            board_consts. lia. }
          apply (removed_iff P _ _ _ _ R' r HP Hinv' Hrr).
          rewrite C2, rd_clear_stones; [| |lia].
          2:{ intros s Hs. destruct (Hst' s Hs) as [Hsb _].
              apply on_board_range in Hsb.
              pose proof (colors_ok_length _ (board_ok_colors pos Hb)). board_consts. lia. }
          destruct Hr as [Hr|Hr].
          + apply (removed_iff P seen g pos captured R r HP Hinv Hrr) in Hr as [HrP Hrd].
            split; [exact HrP|]. now destruct (decide (r ∈ stones)).
          + destruct (decide (r ∈ stones)) as [_|Hn]; [|contradiction].
            split; [|reflexivity]. destruct (Hst' r Hr) as [_ Hrx].
            destruct (decide (r ∈ R)) as [Hin|Hnin].
            * now apply (ci_removed _ _ _ _ _ _ Hinv).
            * now rewrite <- (not_removed P seen g pos captured R r HP Hinv Hrr Hnin). }
      intros r. rewrite HR'. split.
      * intros [Hr|Hr]; [now apply Hold|]. exists q.
        split; [apply elem_of_app; right; now apply list_elem_of_singleton|].
        split; [exact HxP|]. split.
        -- intros Hl. apply (Hno eq_refl).
           now apply (liberty_kept P seen g pos captured R HP Hinv Hdead q Hqb Hx).
        -- destruct (block_kept P seen g pos captured R HP Hinv Hdead q r Hqb Hx)
             as [Hiff _]. apply Hiff. now apply Hst.
      * intros (q0 & Hq0 & Hc0 & Hl0 & Hconn). apply elem_of_app in Hq0 as [Hq0|Hq0].
        -- left. apply Hdead. now exists q0.
        -- apply list_elem_of_singleton in Hq0 as ->. right. apply (Hall eq_refl).
           destruct (block_kept P seen g pos captured R HP Hinv Hdead q r Hqb Hx)
             as [Hiff _]. now apply Hiff.
    + injection E as <- <- <-. intros r. rewrite (Hsame eq_refl). split.
      * apply Hold.
      * intros (q0 & Hq0 & Hc0 & Hl0 & Hconn). apply elem_of_app in Hq0 as [Hq0|Hq0].
        -- apply Hdead. now exists q0.
        -- apply list_elem_of_singleton in Hq0 as ->. exfalso. apply Hl0.
           apply (liberty_kept P seen g pos captured R HP Hinv Hdead q Hqb Hx).
           apply Hyes. discriminate.
  - injection E as <- <- <-. intros r. rewrite (Hsame eq_refl). split.
    + apply Hold.
    + intros (q0 & Hq0 & Hc0 & Hl0 & Hconn). apply elem_of_app in Hq0 as [Hq0|Hq0].
      * apply Hdead. now exists q0.
      * apply list_elem_of_singleton in Hq0 as ->.
        apply (removed_closed P seen g pos captured R q r HP Hinv Hdead); [|exact Hconn].
        destruct (decide (q ∈ R)) as [Hin|Hnin]; [exact Hin|]. exfalso. apply Hnx.
        now rewrite (not_removed P seen g pos captured R q HP Hinv Hq Hnin).
Qed.

(** One round of the capture loop settles the block of the point it
    visits. *)
Lemma capture_neighbor_settled (P : Position) (pt : Z) seen g pos captured R (q : Z)
    g' pos' captured' R' :
  board_ok P = true -> on_board pt = true -> adj pt q ->
  capture_inv P seen g pos captured R -> dead_from (color P) seen R ->
  alive_or_in (color P) seen R ->
  capture_neighbor (g, pos, captured) q = Some (g', pos', captured') ->
  capture_inv P (seen ++ [q]) g' pos' captured' R' ->
  dead_from (color P) (seen ++ [q]) R' ->
  alive_or_in (color P) (seen ++ [q]) R'.
Proof.
  intros HP Hpt Hadj Hinv Hdead Hdec E Hinv' Hdead'.
  pose proof (adj_range pt q Hpt Hadj) as Hq.
  pose proof (ci_board _ _ _ _ _ _ Hinv) as Hb.
  intros q0 Hq0 Hx0. apply elem_of_app in Hq0 as [Hq0|Hq0].
  - destruct (Hdec q0 Hq0 Hx0) as [Hl|Hin]; [now left|]. right.
    apply Hdead'. apply Hdead in Hin as (q1 & H1 & H2 & H3 & H4).
    exists q1. split_and!; try assumption. apply elem_of_app. now left.
  - apply list_elem_of_singleton in Hq0 as ->.
    destruct (decide (q ∈ R)) as [Hin|Hnin].
    { right. apply Hdead'. apply Hdead in Hin as (q1 & H1 & H2 & H3 & H4).
      exists q1. split_and!; try assumption. apply elem_of_app. now left. }
    assert (Hx : rd (color pos) q = "x"%char)
      by now rewrite (not_removed P seen g pos captured R q HP Hinv Hq Hnin).
    assert (Hqb : on_board q = true).
    { apply (colors_ok_stone (color pos) q (board_ok_colors pos Hb) Hq). rewrite Hx. tauto. }
    unfold capture_neighbor in E. rewrite Hx in E. cbn [Ascii.eqb Bool.eqb negb] in E.
    destruct (compute_block_spec (mark1 g) pos q 1 (board_ok_colors pos Hb)
                (ci_marks _ _ _ _ _ _ Hinv) Hq ltac:(now right) ltac:(lia))
      as (m' & stones & libs & E2 & _ & _ & _ & _ & Hno & Hyes & _).
    destruct libs as [|l libs].
    + right. apply Hdead'. exists q.
      split; [apply elem_of_app; right; now apply list_elem_of_singleton|].
      split; [exact Hx0|]. split; [|constructor].
      intros Hl. apply (Hno eq_refl).
      now apply (liberty_kept P seen g pos captured R HP Hinv Hdead q Hqb Hx).
    + left. apply (liberty_kept P seen g pos captured R HP Hinv Hdead q Hqb Hx).
      apply Hyes. discriminate.
Qed.

(** The capture loop removes the dead blocks that start at the points it
    visits. *)
Lemma capture_neighbors_dead (P : Position) (pt : Z) :
  board_ok P = true -> on_board pt = true ->
  forall ns seen g pos captured R,
  (forall q, q ∈ ns -> adj pt q) ->
  capture_inv P seen g pos captured R -> dead_from (color P) seen R ->
  alive_or_in (color P) seen R ->
  exists g' pos' captured' R',
    capture_neighbors (g, pos, captured) ns = Some (g', pos', captured')
    /\ capture_inv P (seen ++ ns) g' pos' captured' R'
    /\ dead_from (color P) (seen ++ ns) R'
    /\ alive_or_in (color P) (seen ++ ns) R'.
Proof.
  intros HP Hpt. induction ns as [|q ns IH];
    intros seen g pos captured R Hadj Hinv Hdead Hdec.
  - exists g, pos, captured, R. split; [reflexivity|]. now rewrite app_nil_r.
  - cbn [capture_neighbors].
    destruct (capture_neighbor_inv P pt seen g pos captured R q HP Hpt
                (Hadj q ltac:(left)) Hinv) as (g1 & pos1 & cap1 & R1 & E & Hinv1).
    pose proof (capture_neighbor_dead P pt seen g pos captured R q g1 pos1 cap1 R1
                  HP Hpt (Hadj q ltac:(left)) Hinv Hdead E Hinv1) as Hdead1.
    pose proof (capture_neighbor_settled P pt seen g pos captured R q g1 pos1 cap1 R1
                  HP Hpt (Hadj q ltac:(left)) Hinv Hdead Hdec E Hinv1 Hdead1) as Hdec1.
    rewrite E.
    destruct (IH (seen ++ [q]) g1 pos1 cap1 R1)
      as (g2 & pos2 & cap2 & R2 & E2 & Hinv2 & Hd2 & Hdec2).
    { intros q' Hq'. apply Hadj. now right. }
    { exact Hinv1. }
    { exact Hdead1. }
    { exact Hdec1. }
    exists g2, pos2, cap2, R2. split; [exact E2|].
    now rewrite <- app_assoc in Hinv2, Hd2, Hdec2.
Qed.

(** What an accepted [play_move] does to the colours: the stone is put at
    [pt], the dead blocks beside it are removed and the colours are
    exchanged; either something is removed or the new stone has a liberty. *)
Lemma play_move_removed (g : Globals) (p : Position) (pt : Z) g' p' :
  marks_ok (mark1 g) = true -> board_ok p = true -> on_board pt = true ->
  rd (color p) pt = "."%char ->
  play_move g p pt = Some (g', p', ""%string) ->
  exists R,
    color p' = swap_colors (clear_stones (wr (color p) pt "X"%char) R)
    /\ colors_ok (clear_stones (wr (color p) pt "X"%char) R) = true
    /\ (forall r, r ∈ R -> on_board r = true)
    /\ dead_from (wr (color p) pt "X"%char) (neighbors pt) R
    /\ alive_or_in (wr (color p) pt "X"%char) (neighbors pt) R
    /\ (R <> [] \/ has_liberty (wr (color p) pt "X"%char) pt).
Proof.
  intros Hm Hp Hpt Hempty E.
  pose proof (on_board_range _ Hpt) as Rpt.
  pose proof (colors_ok_length _ (board_ok_colors p Hp)) as Hl.
  assert (Hko : (pt =? ko p) = false).
  { unfold play_move in E. cbn [ko set_ko_old] in E.
    destruct (pt =? ko p); [discriminate E|reflexivity]. }
  set (P := put_stone (set_ko_old p (ko p)) pt).
  assert (HP : board_ok P = true).
  { apply put_stone_ok; [now apply board_ok_set_ko_old|exact Hpt|exact Hempty]. }
  assert (HcP : color P = wr (color p) pt "X"%char).
  { subst P. now destruct (put_stone_fields (set_ko_old p (ko p)) pt) as (-> & _). }
  destruct (capture_neighbors_dead P pt HP Hpt (neighbors pt) []
              (mkGlobals (mark1 g) 0) P 0 [])
    as (g1 & pos1 & captured & R & E1 & Hinv & Hdead & Hdec).
  { intros q Hq. exact Hq. }
  { now apply capture_inv_init. }
  { intros r. split; [intros Hr; inversion Hr|].
    intros (q & Hq & _). inversion Hq. }
  { intros q Hq. inversion Hq. }
  cbn [app] in Hinv, Hdead, Hdec.
  exists R. rewrite <- HcP, <- (ci_color _ _ _ _ _ _ Hinv).
  split; [|split; [exact (board_ok_colors pos1 (ci_board _ _ _ _ _ _ Hinv))|]].
  2:{ split; [intros r Hr; now apply (ci_removed _ _ _ _ _ _ Hinv)|].
      split; [exact Hdead|]. split; [exact Hdec|].
      unfold play_move in E. cbn [ko set_ko_old] in E. rewrite Hko in E.
      fold P in E. rewrite E1 in E.
      pose proof (ci_captured _ _ _ _ _ _ Hinv) as Hcap.
      destruct R as [|r R]; [right|left; discriminate].
      cbn [length Z.of_nat] in Hcap. subst captured. cbn [Z.eqb negb] in E.
      destruct (ci_none _ _ _ _ _ _ Hinv eq_refl) as [-> _].
      destruct (compute_block_spec (mark1 g1) (set_ko P 0) pt 1)
        as (m' & stones & libs & E' & _ & _ & _ & _ & _ & Hyes & _).
      { exact (board_ok_colors _ (board_ok_set_ko P 0 HP)). }
      { exact (ci_marks _ _ _ _ _ _ Hinv). }
      { board_consts. lia. }
      { left. cbn [color set_ko]. rewrite HcP. apply rd_wr_eq. board_consts. lia. }
      { lia. }
      rewrite E' in E. destruct libs as [|l libs]; cbn [length Z.of_nat Z.eqb] in E;
        [discriminate E|].
      apply Hyes. discriminate. }
  unfold play_move in E. cbn [ko set_ko_old] in E. rewrite Hko in E.
  fold P in E. rewrite E1 in E.
  destruct (captured =? 0); cbn [negb] in E.
  - destruct (compute_block (mark1 g1) (set_ko pos1 0) pt 1) as [[[m stones] libs]|];
      [|discriminate E].
    destruct (Z.of_nat (length libs) =? 0); [discriminate E|].
    injection E as _ <-.
    now destruct (finish_move_fields (set_ko pos1 0) pt captured) as (-> & _).
  - destruct ((captured =? 1)
              && negb (is_eyeish (set_ko_old p (ko p)) pt =? Ascii.zero)%char);
      injection E as _ <-.
    + now destruct (finish_move_fields (set_ko pos1 (pos_capture g1)) pt captured)
        as (-> & _).
    + now destruct (finish_move_fields (set_ko pos1 0) pt captured) as (-> & _).
Qed.

(** X23. The rule of capture. After an accepted [play_move] at the empty
    point [pt], the blocks of the opponent that touch [pt] and have no
    liberty once the stone is on the board are off the board, every other
    point but [pt] keeps its content, and the colours are exchanged for the
    next player: the new stone reads 'x'. *)
Theorem play_move_captures (g : Globals) (p : Position) (pt : Z) g' p' (i : Z) :
  marks_ok (mark1 g) = true -> board_ok p = true -> on_board pt = true ->
  rd (color p) pt = "."%char ->
  play_move g p pt = Some (g', p', ""%string) ->
  0 <= i < BOARDSIZE ->
  (dead_beside (wr (color p) pt "X"%char) pt i -> rd (color p') i = "."%char)
  /\ (~ dead_beside (wr (color p) pt "X"%char) pt i ->
      rd (color p') i = if i =? pt then "x"%char else SWAP_CASE (rd (color p) i)).
Proof.
  intros Hm Hp Hpt Hempty E Hi.
  pose proof (on_board_range _ Hpt) as Rpt.
  pose proof (colors_ok_length _ (board_ok_colors p Hp)) as Hl.
  destruct (play_move_removed g p pt g' p' Hm Hp Hpt Hempty E)
    as (R & Hc' & Hc2 & HR & Hdead & _).
  assert (HiR : i ∈ R <-> dead_beside (wr (color p) pt "X"%char) pt i)
    by apply (Hdead i).
  rewrite Hc', swap_colors_rd by assumption.
  rewrite rd_clear_stones; [| |lia].
  2:{ intros r Hr. apply HR, on_board_range in Hr. rewrite length_wr.
      board_consts. lia. }
  split.
  - intros Hd. apply HiR in Hd. now destruct (decide (i ∈ R)).
  - intros Hd. destruct (decide (i ∈ R)) as [Hin|_]; [now apply HiR in Hin|].
    destruct (Z.eqb_spec i pt) as [->|Hne].
    + rewrite rd_wr_eq by (board_consts; lia). reflexivity.
    + rewrite rd_wr_ne by (board_consts; lia). reflexivity.
Qed.

(** X23 at the move that takes the ko, for the stone at 75. *)
Lemma play_move_captures_witness :
  exists g' p',
    play_move (fst ko_position) (snd ko_position) 76 = Some (g', p', ""%string)
    /\ (dead_beside (wr (color (snd ko_position)) 76 "X"%char) 76 75 ->
        rd (color p') 75 = "."%char)
    /\ (~ dead_beside (wr (color (snd ko_position)) 76 "X"%char) 76 75 ->
        rd (color p') 75
        = if 75 =? 76 then "x"%char else SWAP_CASE (rd (color (snd ko_position)) 75)).
Proof.
  with_play (fst ko_position) (snd ko_position) 76 ltac:(fun g' p' msg => exists g', p').
  split; [vm_compute; reflexivity|].
  eapply (play_move_captures (fst ko_position) (snd ko_position) 76);
    try (vm_compute; reflexivity).
  board_consts. lia.
Defined.

(** *** No block without liberty *)

Lemma connected_sym (c : list ascii) (a b : Z) : connected c a b -> connected c b a.
Proof.
  intros H. induction H as [|x y Hx IH Hadj Hcol]; [constructor|].
  apply (connected_trans c y x a); [|exact IH].
  apply (connected_step c y y x (connected_refl c y) (adj_sym _ _ Hadj)).
  rewrite Hcol. now apply connected_color.
Qed.

Lemma has_liberty_block (c : list ascii) (a b : Z) :
  connected c a b -> has_liberty c b -> has_liberty c a.
Proof.
  intros Hab (s & l & Hs & Hadj & Hl). exists s, l. split; [|easy].
  now apply (connected_trans c a b s).
Qed.

(** A chain on one board is a chain on another board that agrees with it
    along the chain. *)
Lemma connected_transfer (c c' : list ascii) (a b : Z) :
  (forall x y, connected c a x -> adj x y -> rd c y = rd c a -> rd c' y = rd c' a) ->
  connected c a b -> connected c' a b.
Proof.
  intros Hstep H. induction H as [|x y Hx IH Hadj Hcol]; [constructor|].
  apply (connected_step c' a x y IH Hadj). now apply (Hstep x y).
Qed.

Lemma all_alive_swap (c : list ascii) :
  colors_ok c = true -> all_alive c -> all_alive (swap_colors c).
Proof.
  intros Hc Ha s Hs Hst.
  assert (Hsr : 0 <= s < BOARDSIZE) by (apply on_board_range in Hs; board_consts; lia).
  rewrite swap_colors_rd in Hst by assumption.
  assert (Hst' : rd c s = "X"%char \/ rd c s = "x"%char).
  { unfold SWAP_CASE in Hst. destruct (rd c s =? "X")%char eqn:E1.
    - left. now apply Ascii.eqb_eq.
    - destruct (rd c s =? "x")%char eqn:E2; [right; now apply Ascii.eqb_eq|exact Hst]. }
  destruct (Ha s Hs Hst') as (s' & l & Hconn & Hadj & Hl).
  assert (Hs'b : on_board s' = true) by now apply (connected_on_board c s s').
  exists s', l. split_and!.
  - apply (connected_transfer c); [|exact Hconn]. intros x y Hx Hxy Hcol.
    assert (Hyr : 0 <= y < BOARDSIZE).
    { apply (adj_range x); [|exact Hxy]. now apply (connected_on_board c s x). }
    rewrite !swap_colors_rd by assumption. now rewrite Hcol.
  - exact Hadj.
  - rewrite swap_colors_rd; [now rewrite Hl|exact Hc|now apply (adj_range s')].
Qed.

Section AfterCapture.

Variables (c : list ascii) (pt : Z) (R : list Z).

Hypothesis Hc : colors_ok c = true.

Hypothesis Hpt : on_board pt = true.

Hypothesis Hempty : rd c pt = "."%char.

Hypothesis Halive : all_alive c.

Hypothesis Hdead : dead_from (wr c pt "X"%char) (neighbors pt) R.

Hypothesis Hsettled : alive_or_in (wr c pt "X"%char) (neighbors pt) R.

Hypothesis Hlegal : R <> [] \/ has_liberty (wr c pt "X"%char) pt.

Lemma placed_ok : colors_ok (wr c pt "X"%char) = true.
Proof.
  apply colors_ok_wr; [exact Hc| |].
  - pose proof (on_board_range _ Hpt). board_consts. lia.
  - apply valid_color_stone; [exact Hpt|right; now left].
Qed.

Lemma placed_rd (i : Z) :
  0 <= i < BOARDSIZE -> rd (wr c pt "X"%char) i = if i =? pt then "X"%char else rd c i.
Proof.
  intros Hi. pose proof (colors_ok_length _ Hc) as Hl.
  pose proof (on_board_range _ Hpt) as Rpt. 
  destruct (Z.eqb_spec i pt) as [->|Hne].
  - apply rd_wr_eq. board_consts. lia.
  - apply rd_wr_ne; board_consts; lia.
Qed.

Lemma removed_stone (r : Z) : r ∈ R -> on_board r = true /\ rd (wr c pt "X"%char) r = "x"%char.
Proof.
  intros Hr. apply Hdead in Hr as (q & Hq & Hx & _ & Hconn).
  assert (Hqb : on_board q = true).
  { apply (colors_ok_stone (wr c pt "X"%char) q placed_ok);
      [now apply (adj_range pt)|]. rewrite Hx. tauto. }
  split.
  - apply (connected_on_board (wr c pt "X"%char) q r placed_ok Hqb); [now right|exact Hconn].
  - now rewrite (connected_color _ _ _ Hconn).
Qed.

Lemma cleared_rd (i : Z) :
  0 <= i < BOARDSIZE ->
  rd (clear_stones (wr c pt "X"%char) R) i
  = if decide (i ∈ R) then "."%char else rd (wr c pt "X"%char) i.
Proof.
  intros Hi. apply rd_clear_stones; [|lia].
  intros r Hr. apply removed_stone in Hr as [Hr _]. apply on_board_range in Hr.
  pose proof (colors_ok_length _ placed_ok). board_consts. lia.
Qed.

Lemma removed_back (r r' : Z) : r' ∈ R -> connected (wr c pt "X"%char) r r' -> r ∈ R.
Proof.
  intros Hr' Hconn. apply Hdead in Hr' as (q & Hq & Hx & Hl & Hq'). apply Hdead.
  exists q. split_and!; try assumption.
  apply (connected_trans _ q r' r Hq'). now apply connected_sym.
Qed.

(** The block of a stone that stays on the board is the same after the
    removals. *)
Lemma block_stays (s b : Z) :
  on_board s = true -> s ∉ R ->
  rd (wr c pt "X"%char) s = "X"%char \/ rd (wr c pt "X"%char) s = "x"%char ->
  connected (wr c pt "X"%char) s b -> connected (clear_stones (wr c pt "X"%char) R) s b.
Proof.
  intros Hs HsR Hst. apply connected_transfer. intros x y Hx Hxy Hcol.
  assert (Hyr : 0 <= y < BOARDSIZE).
  { apply (adj_range x); [|exact Hxy].
    now apply (connected_on_board (wr c pt "X"%char) s x placed_ok). }
  assert (Hsr : 0 <= s < BOARDSIZE) by (apply on_board_range in Hs; board_consts; lia).
  rewrite !cleared_rd by assumption.
  destruct (decide (s ∈ R)) as [|_]; [contradiction|].
  destruct (decide (y ∈ R)) as [HyR|_]; [|exact Hcol].
  exfalso. apply HsR. apply (removed_back s y HyR).
  now apply (connected_step (wr c pt "X"%char) s x y).
Qed.

Lemma liberty_stays (s : Z) :
  on_board s = true -> s ∉ R ->
  rd (wr c pt "X"%char) s = "X"%char \/ rd (wr c pt "X"%char) s = "x"%char ->
  has_liberty (wr c pt "X"%char) s -> has_liberty (clear_stones (wr c pt "X"%char) R) s.
Proof.
  intros Hs HsR Hst (s' & l & Hconn & Hadj & Hl). exists s', l.
  split; [now apply block_stays|]. split; [exact Hadj|].
  rewrite cleared_rd.
  - destruct (decide (l ∈ R)) as [HlR|_]; [reflexivity|exact Hl].
  - apply (adj_range s'); [|exact Hadj].
    now apply (connected_on_board (wr c pt "X"%char) s s' placed_ok).
Qed.

Lemma new_stone_alive : has_liberty (clear_stones (wr c pt "X"%char) R) pt.
Proof.
  assert (Hptr : 0 <= pt < BOARDSIZE)
    by (pose proof (on_board_range _ Hpt); board_consts; lia).
  assert (HX : rd (wr c pt "X"%char) pt = "X"%char)
    by (rewrite placed_rd, Z.eqb_refl by assumption; reflexivity).
  assert (HptR : pt ∉ R).
  { intros Hin. apply removed_stone in Hin as [_ Hin]. rewrite HX in Hin. discriminate. }
  pose proof Hlegal as [Hne|Hl].
  - assert (exists r, r ∈ R) as [r Hr].
    { clear - Hne. destruct R as [|r R']; [contradiction|]. exists r. left. }
    apply Hdead in Hr as (q & Hq & Hx & Hl & _).
    assert (HqR : q ∈ R).
    { apply Hdead. exists q. split_and!; try assumption. constructor. }
    exists pt, q. split; [constructor|]. split; [exact Hq|].
    rewrite cleared_rd by now apply (adj_range pt).
    now destruct (decide (q ∈ R)).
  - apply liberty_stays; try assumption. now left.
Qed.

Lemma all_alive_after : all_alive (clear_stones (wr c pt "X"%char) R).
Proof.
  intros s Hs Hst.
  assert (Hsr : 0 <= s < BOARDSIZE) by (apply on_board_range in Hs; board_consts; lia).
  assert (Hptr : 0 <= pt < BOARDSIZE)
    by (pose proof (on_board_range _ Hpt); board_consts; lia).
  rewrite cleared_rd in Hst by assumption.
  destruct (decide (s ∈ R)) as [HsR|HsR]; [destruct Hst; discriminate|].
  destruct (Z.eq_dec s pt) as [->|Hne]; [apply new_stone_alive|].
  assert (Hcs : rd c s = rd (wr c pt "X"%char) s).
  { rewrite placed_rd by assumption. destruct (Z.eqb_spec s pt); [contradiction|reflexivity]. }
  destruct (Halive s Hs ltac:(now rewrite Hcs)) as (s' & l & Hconn & Hadj & Hl).
  assert (Hconn1 : connected (wr c pt "X"%char) s s').
  { apply (connected_transfer c); [|exact Hconn]. intros x y Hx Hxy Hcol.
    assert (Hyr : 0 <= y < BOARDSIZE).
    { apply (adj_range x); [|exact Hxy].
      apply (connected_on_board c s x Hc Hs); [now rewrite Hcs|exact Hx]. }
    rewrite !placed_rd by assumption.
    destruct (Z.eqb_spec s pt); [contradiction|].
    destruct (Z.eqb_spec y pt) as [->|_]; [|exact Hcol].
    rewrite Hempty in Hcol. rewrite <- Hcol in Hcs. rewrite <- Hcs in Hst.
    destruct Hst; discriminate. }
  assert (Hs'b : on_board s' = true).
  { apply (connected_on_board c s s' Hc Hs); [now rewrite Hcs|exact Hconn]. }
  assert (Hlr : 0 <= l < BOARDSIZE) by now apply (adj_range s').
  destruct (Z.eq_dec l pt) as [->|Hlne].
  - assert (HX : rd (wr c pt "X"%char) pt = "X"%char)
      by (rewrite placed_rd, Z.eqb_refl by assumption; reflexivity).
    destruct Hst as [HsX|Hsx].
    + apply (has_liberty_block (clear_stones (wr c pt "X"%char) R) s pt); [|apply new_stone_alive].
      apply block_stays; try assumption; [now left|].
      apply (connected_step (wr c pt "X"%char) s s' pt Hconn1 Hadj). congruence.
    + assert (Hs'x : rd (wr c pt "X"%char) s' = "x"%char)
        by (rewrite (connected_color _ _ _ Hconn1); exact Hsx).
      destruct (Hsettled s' (adj_sym _ _ Hadj) Hs'x) as [Hlib|Hin].
      * apply liberty_stays; try assumption; [now right|].
        now apply (has_liberty_block (wr c pt "X"%char) s s').
      * exfalso. apply HsR. now apply (removed_back s s').
  - apply liberty_stays; try assumption. exists s', l.
    split; [exact Hconn1|]. split; [exact Hadj|].
    rewrite placed_rd by assumption. destruct (Z.eqb_spec l pt); [contradiction|exact Hl].
Qed.

End AfterCapture.

Lemma legal_move_alive (s : State) (pt : Z) (s' : State) :
  state_ok s -> all_alive (color (snd s)) -> legal_move s pt = Some s' ->
  all_alive (color (snd s')).
Proof.
  intros Hs Ha H.
  destruct (legal_move_play s pt s' Hs H) as [(Hc & Hb & E)|(Hc & -> & ->)];
    destruct Hs as [Hm Hp].
  - destruct (play_move_removed (fst s) (snd s) pt (fst s') (snd s') Hm Hp Hb Hc E)
      as (R & -> & Hc2 & _ & Hdead & Hsettled & Hlegal).
    apply all_alive_swap; [exact Hc2|].
    apply all_alive_after; try assumption. exact (board_ok_colors _ Hp).
  - cbn [snd]. destruct (pass_move_fields (snd s)) as (-> & _).
    apply all_alive_swap; [exact (board_ok_colors _ Hp)|exact Ha].
Qed.

Lemma play_game_alive (moves : list Z) : forall s s',
  state_ok s -> all_alive (color (snd s)) -> play_game s moves = Some s' ->
  all_alive (color (snd s')).
Proof.
  induction moves as [|pt moves IH]; intros s s' Hs Ha H; cbn [play_game] in H.
  - now injection H as <-.
  - destruct (legal_move s pt) as [s1|] eqn:E; [|discriminate].
    apply (IH s1 s'); [now apply (legal_move_ok s pt)| |exact H].
    now apply (legal_move_alive s pt).
Qed.

(** X24. No block without liberty: after every sequence of legal moves
    from the empty position, every stone on the board belongs to a block
    that has a liberty. *)
Theorem no_dead_stone (p0 : Position) (g0 : Globals) (moves : list Z) (s : State)
    (pt : Z) :
  Z.of_nat (length (env4 p0)) = BOARDSIZE ->
  Z.of_nat (length (env4d p0)) = BOARDSIZE ->
  marks_ok (mark1 g0) = true ->
  play_game (g0, fst (empty_position p0)) moves = Some s ->
  on_board pt = true ->
  rd (color (snd s)) pt = "X"%char \/ rd (color (snd s)) pt = "x"%char ->
  has_liberty (color (snd s)) pt.
Proof.
  intros H4 H4d Hm Hgame. revert pt.
  apply (play_game_alive moves (g0, fst (empty_position p0)) s); [| |exact Hgame].
  - split; cbn [fst snd]; [exact Hm|now apply empty_position_board_ok].
  - cbn [snd]. destruct (empty_position_state p0 H4 H4d) as (-> & _).
    intros q Hq Hst. rewrite empty_color_rd, Hq in Hst.
    + destruct Hst; discriminate.
    + apply on_board_range in Hq. board_consts. lia.
Qed.

(** X24 after the ko fight, for the stone that took the ko. *)
Lemma no_dead_stone_witness :
  exists s,
    play_game (initial_globals, fst (empty_position used_position)) ko_fight = Some s
    /\ has_liberty (color (snd s)) 76.
Proof.
  with_game ko_fight ltac:(fun g p =>
    exists (g, p); split; [vm_compute; reflexivity|];
    apply (no_dead_stone used_position initial_globals ko_fight (g, p) 76);
    [vm_compute; reflexivity..|right; vm_compute; reflexivity]).
Defined.

End MovesFacts.
